(** * Sudoku engine and move history: a shallow embedding

    The grid engine (constraint check, backtracking generator, solution
    counter, clue removal, solver) is the same code in [script.js]
    (classes [SudokuGenerator] and [SudokuSolver]) and in the older
    stand-alone script; the two undo/redo ledgers differ and are embedded
    separately, in modules [Pwa] and [Classic]. *)

From Stdlib Require Import ZArith List Permutation Lia.
From stdpp Require Import base tactics option list gmap.

(** ** Grids

    A grid is an array of row arrays of numbers. Reading [grid[r][c]] out
    of range yields [undefined] in the source; here it is [None]. All the
    indices the engine computes on a 9x9 grid are in range. *)

Abbreviation Grid := (list (list Z)).

(** [grid[r][c]] *)
Definition cell (grid : Grid) (r c : nat) : option Z :=
  grid !! r ≫= (.!! c).

(** [grid[r][c] = v]; out of range the update does nothing (the engine
    never writes out of range on a 9x9 grid). *)
Definition setCell (grid : Grid) (r c : nat) (v : Z) : Grid :=
  alter (<[c := v]>) r grid.

(** [grid[r][c] === num] *)
Definition cellIs (grid : Grid) (r c : nat) (num : Z) : bool :=
  bool_decide (cell grid r c = Some num).

(** [Array(9).fill(null).map(() => Array(9).fill(0))] *)
Definition createEmptyGrid : Grid := replicate 9 (replicate 9 0%Z).

(** [grid.map(row => [...row])]: as a value the copy is the grid itself;
    what the copy means for sharing is the subject of module [Store]. *)
Definition copyGrid (grid : Grid) : Grid := map (λ row, row) grid.

(** ** Constraint checker: [isValid] / [isValidPlacement] *)

Definition isValid (grid : Grid) (row col : nat) (num : Z) : bool :=
  if existsb (λ c, cellIs grid row c num) (seq 0 9) then false
  else if existsb (λ r, cellIs grid r col num) (seq 0 9) then false
  else
    let boxRow := row / 3 * 3 in
    let boxCol := col / 3 * 3 in
    if existsb (λ r, existsb (λ c, cellIs grid r c num) (seq boxCol 3))
               (seq boxRow 3)
    then false
    else true.

(** ** Randomness

    [Math.random()] is an oracle. A run of the program consumes a stream
    [random : nat → nat] of raw draws, one per call, and the position in
    the stream is threaded through the code. The source only ever uses
    [Math.floor(Math.random() * n)], an integer in [0, n); it is the raw
    draw reduced modulo [n], so every value in [0, n) can come out and no
    other. *)

Definition randomBelow (random : nat → nat) (k : nat) (n : nat) : nat :=
  random k `mod` n.

(** [[arr[i], arr[j]] = [arr[j], arr[i]]] *)
Definition swap {A} (arr : list A) (i j : nat) : list A :=
  match arr !! i, arr !! j with
  | Some x, Some y => <[j := x]> (<[i := y]> arr)
  | _, _ => arr
  end.

(** The loop of the Fisher-Yates shuffle, [i] running down to 1. *)
Fixpoint shuffleFrom {A} (random : nat → nat) (i : nat) (k : nat)
    (arr : list A) : list A * nat :=
  match i with
  | 0 => (arr, k)
  | S i' =>
      let j := randomBelow random k (i + 1) in
      shuffleFrom random i' (S k) (swap arr i j)
  end.

(** [shuffle(array)] / [shuffleArray(array)]: the shuffled array and the
    new position in the random stream. *)
Definition shuffle {A} (random : nat → nat) (k : nat) (array : list A)
    : list A * nat :=
  shuffleFrom random (length array - 1) k array.

Definition digits : list Z := [1; 2; 3; 4; 5; 6; 7; 8; 9]%Z.

(** ** Backtracking

    The body of the [for (num of numbers)] loop is the same in
    [generateSolution] and in the solver's [backtrack]: place a valid
    digit, recurse, and take the digit back when the recursion fails. The
    recursive call is the parameter [rec]; [St] is the state threaded
    besides the grid (the position in the random stream for the generator,
    nothing for the solver). A result [None] means the fuel ran out. *)

Fixpoint tryNumbers {St} (rec : St → Grid → option (bool * Grid * St))
    (row col : nat) (numbers : list Z) (st : St) (grid : Grid)
    : option (bool * Grid * St) :=
  match numbers with
  | [] => Some (false, grid, st)
  | num :: rest =>
      if isValid grid row col num then
        match rec st (setCell grid row col num) with
        | None => None
        | Some (true, grid', st') => Some (true, grid', st')
        | Some (false, grid', st') =>
            tryNumbers rec row col rest st' (setCell grid' row col 0)
        end
      else tryNumbers rec row col rest st grid
  end.

(** [generateSolution(grid, row, col)]: returns the flag, the grid as the
    call leaves it, and the position in the random stream. *)
Fixpoint generateSolution (fuel : nat) (random : nat → nat) (k : nat)
    (grid : Grid) (row col : nat) : option (bool * Grid * nat) :=
  match fuel with
  | 0 => None
  | S fuel' =>
      let '(row, col) := if col =? 9 then (row + 1, 0) else (row, col) in
      if row =? 9 then Some (true, grid, k)
      else if negb (cellIs grid row col 0) then
        generateSolution fuel' random k grid row (col + 1)
      else
        let '(numbers, k) := shuffle random k digits in
        tryNumbers (λ k g, generateSolution fuel' random k g row (col + 1))
                   row col numbers k grid
  end.

(** The solver's local [backtrack(row, col)] on the captured [copy]. *)
Fixpoint backtrack (fuel : nat) (copy : Grid) (row col : nat)
    : option (bool * Grid) :=
  match fuel with
  | 0 => None
  | S fuel' =>
      let '(row, col) := if col =? 9 then (row + 1, 0) else (row, col) in
      if row =? 9 then Some (true, copy)
      else if negb (cellIs copy row col 0) then
        backtrack fuel' copy row (col + 1)
      else
        '(b, g, _) ← tryNumbers
            (λ (_ : unit) g,
               '(b, g') ← backtrack fuel' g row (col + 1); Some (b, g', ()))
            row col digits () copy;
        Some (b, g)
  end.

(** The recursion visits the 81 cells once and makes one more call to see
    [row === 9]. *)
Definition searchFuel : nat := 82.

(** [solve(grid)] / [solveSudoku(grid)]: [Some (Some s)] is the returned
    grid [s], [Some None] is [null]. *)
Definition solve (grid : Grid) : option (option Grid) :=
  '(found, copy) ← backtrack searchFuel (copyGrid grid) 0 0;
  Some (if found : bool then Some copy else None).

(** ** Counting solutions *)

Definition positions : list (nat * nat) :=
  r ← seq 0 9; c ← seq 0 9; [(r, c)].

(** The two nested loops that look for the first empty cell. *)
Definition findEmpty (grid : Grid) : option (nat * nat) :=
  find (λ p, cellIs grid p.1 p.2 0) positions.

(** The loop [for (num = 1; num <= 9; num++)] of [countSolutions]; [rec] is
    the recursive call, the state is the grid and [count.value]. *)
Fixpoint countLoop (rec : Grid → Z → option (Grid * Z)) (row col : nat)
    (numbers : list Z) (grid : Grid) (count : Z) : option (Grid * Z) :=
  match numbers with
  | [] => Some (grid, count)
  | num :: rest =>
      if isValid grid row col num then
        '(grid', count') ← rec (setCell grid row col num) count;
        if (1 <? count')%Z then Some (setCell grid' row col 0, count')
        else countLoop rec row col rest (setCell grid' row col 0) count'
      else countLoop rec row col rest grid count
  end.

(** [countSolutions(grid, count)]: every [return] of the source returns
    [count.value], so the result is the final grid and the final counter. *)
Fixpoint countSolutionsFrom (fuel : nat) (grid : Grid) (count : Z)
    : option (Grid * Z) :=
  match fuel with
  | 0 => None
  | S fuel' =>
      match findEmpty grid with
      | None => Some (grid, (count + 1)%Z)
      | Some (row, col) =>
          countLoop (countSolutionsFrom fuel') row col digits grid count
      end
  end.

(** [countSolutions(grid)] with the default [count = { value: 0 }]. *)
Definition countSolutions (grid : Grid) : option Z :=
  snd <$> countSolutionsFrom searchFuel grid 0.

(** ** Clue removal *)

Inductive Difficulty := easy | medium | hard.

(** [CONFIG.DIFFICULTY] / [DIFFICULTY_CLUES]: [(min, max)] *)
Definition DIFFICULTY (d : Difficulty) : Z * Z :=
  match d with
  | easy => (40, 45)
  | medium => (30, 39)
  | hard => (25, 29)
  end%Z.

(** The loop [for ({row, col} of positions)] of [createPuzzle]; the state
    is the puzzle and the counter [removed]. *)
Fixpoint removeClues (cellsToRemove : Z) (ps : list (nat * nat))
    (puzzle : Grid) (removed : Z) : option Grid :=
  match ps with
  | [] => Some puzzle
  | (row, col) :: rest =>
      if (cellsToRemove <=? removed)%Z then Some puzzle
      else
        let backup := cell puzzle row col in
        let puzzle0 := setCell puzzle row col 0 in
        let testGrid := copyGrid puzzle0 in
        n ← countSolutions testGrid;
        if negb (n =? 1)%Z then
          removeClues cellsToRemove rest
            (from_option (setCell puzzle0 row col) puzzle0 backup) removed
        else removeClues cellsToRemove rest puzzle0 (removed + 1)
  end.

(** [targetClues = min + Math.floor(Math.random() * (max - min + 1))] *)
Definition targetClues (random : nat → nat) (k : nat) (min max : Z) : Z :=
  (min + Z.of_nat (randomBelow random k (Z.to_nat (max - min + 1))))%Z.

(** The body of [createPuzzle] once the tier is looked up, on the position
    list [ps] the removal loop walks. *)
Definition createPuzzleOn (ps : list (nat * nat)) (random : nat → nat)
    (k : nat) (solution : Grid) (min max : Z) : option Grid :=
  let puzzle := copyGrid solution in
  let cellsToRemove := (81 - targetClues random k min max)%Z in
  removeClues cellsToRemove ps puzzle 0.

(** [createPuzzle] of the stand-alone script: [shuffleArray(positions)]
    shuffles the list in place. *)
Definition createPuzzleTier (random : nat → nat) (k : nat) (solution : Grid)
    (min max : Z) : option Grid :=
  createPuzzleOn (shuffle random (S k) positions).1 random k solution min max.

Definition createPuzzle (random : nat → nat) (k : nat) (solution : Grid)
    (difficulty : Difficulty) : option Grid :=
  let '(min, max) := DIFFICULTY difficulty in
  createPuzzleTier random k solution min max.

(** [SudokuGenerator.createPuzzle] of [script.js]: [this.shuffle(positions)]
    shuffles a copy and the result is dropped, so the loop walks the
    positions in row-major order. *)
Definition createPuzzleTierPwa (random : nat → nat) (k : nat)
    (solution : Grid) (min max : Z) : option Grid :=
  createPuzzleOn positions random k solution min max.

Definition createPuzzlePwa (random : nat → nat) (k : nat) (solution : Grid)
    (difficulty : Difficulty) : option Grid :=
  let '(min, max) := DIFFICULTY difficulty in
  createPuzzleTierPwa random k solution min max.

Definition canonical : Grid :=
  [ [5;3;4;6;7;8;9;1;2]; [6;7;2;1;9;5;3;4;8]; [1;9;8;3;4;2;5;6;7];
    [8;5;9;7;6;1;4;2;3]; [4;2;6;8;5;3;7;9;1]; [7;1;3;9;2;4;8;5;6];
    [9;6;1;5;3;7;2;8;4]; [2;8;7;4;1;9;6;3;5]; [3;4;5;2;8;6;1;7;9] ]%Z.


(** * Properties of grids *)

(** A well-formed grid has 9 rows of 9 cells. *)
Definition wf (g : Grid) : Prop :=
  length g = 9 ∧ Forall (λ row, length row = 9) g.

(** Every cell holds a number from 0 to 9. *)
Definition digits09 (g : Grid) : Prop :=
  Forall (Forall (λ v, (0 ≤ v ≤ 9)%Z)) g.

(** Two cells see each other when they share a row, a column or a box. *)
Definition sameUnit (r c r' c' : nat) : Prop :=
  r = r' ∨ c = c' ∨ (r / 3 = r' / 3 ∧ c / 3 = c' / 3).

(** No digit occurs twice in a row, a column or a box (empty cells put
    aside). *)
Definition consistent (g : Grid) : Prop :=
  ∀ r c r' c' v, cell g r c = Some v → cell g r' c' = Some v → v ≠ 0%Z →
    sameUnit r c r' c' → (r, c) = (r', c').

(** No cell is empty. *)
Definition complete (g : Grid) : Prop :=
  ∀ r c, cell g r c ≠ Some 0%Z.

(** [s] agrees with [g] wherever [g] holds a digit. *)
Definition extends (g s : Grid) : Prop :=
  ∀ r c v, cell g r c = Some v → v ≠ 0%Z → cell s r c = Some v.

(** [s] is a completion of [g] under the rules of Sudoku. *)
Definition completion (g s : Grid) : Prop :=
  wf s ∧ digits09 s ∧ complete s ∧ consistent s ∧ extends g s.

Section grid_basics.
Implicit Types (g : Grid) (r c : nat) (v : Z).

Lemma copyGrid_id g : copyGrid g = g.
Proof. unfold copyGrid. induction g; simpl; congruence. Qed.

Lemma wf_row g r : wf g → r < 9 → ∃ row, g !! r = Some row ∧ length row = 9.
Proof.
  intros [Hl Hr] Hlt. destruct (lookup_lt_is_Some_2 g r) as [row Hrow]; [lia|].
  exists row. split; [done|]. rewrite Forall_lookup in Hr. by apply (Hr r).
Qed.

Lemma wf_cell g r c : wf g → r < 9 → c < 9 → is_Some (cell g r c).
Proof.
  intros Hwf Hr Hc. destruct (wf_row g r Hwf Hr) as (row & Hrow & Hlen).
  unfold cell. rewrite Hrow. simpl. apply lookup_lt_is_Some_2. lia.
Qed.

Lemma cell_Some_lt g r c v : wf g → cell g r c = Some v → r < 9 ∧ c < 9.
Proof.
  intros [Hl Hr] H. unfold cell in H.
  destruct (g !! r) as [row|] eqn:Hrow; [|done]. simpl in H.
  pose proof (lookup_lt_Some _ _ _ Hrow).
  pose proof (lookup_lt_Some _ _ _ H).
  rewrite Forall_lookup in Hr. specialize (Hr r row Hrow). simpl in *. lia.
Qed.

Lemma cell_setCell_eq g r c v :
  wf g → r < 9 → c < 9 → cell (setCell g r c v) r c = Some v.
Proof.
  intros Hwf Hr Hc. destruct (wf_row g r Hwf Hr) as (row & Hrow & Hlen).
  unfold cell, setCell. rewrite list_lookup_alter_eq, Hrow. simpl.
  apply list_lookup_insert_eq. lia.
Qed.

Lemma cell_setCell_ne g r c v r' c' :
  (r, c) ≠ (r', c') → cell (setCell g r c v) r' c' = cell g r' c'.
Proof.
  intros Hne. unfold cell, setCell. destruct (decide (r = r')) as [->|Hr].
  - rewrite list_lookup_alter_eq. destruct (g !! r') as [row|]; [|done]. simpl.
    apply list_lookup_insert_ne. congruence.
  - by rewrite list_lookup_alter_ne.
Qed.

Lemma wf_setCell g r c v : wf g → wf (setCell g r c v).
Proof.
  intros [Hl Hr]. split.
  - unfold setCell. by rewrite length_alter.
  - unfold setCell. apply Forall_alter; [done|].
    intros row _ Hrow. by rewrite length_insert.
Qed.

Lemma setCell_setCell g r c v w :
  setCell (setCell g r c v) r c w = setCell g r c w.
Proof.
  unfold setCell. rewrite list_alter_alter_eq. apply list_alter_ext; [|done].
  intros row _. simpl. apply list_insert_insert_eq.
Qed.

Lemma setCell_id g r c v : cell g r c = Some v → setCell g r c v = g.
Proof.
  unfold cell, setCell. intros H.
  destruct (g !! r) as [row|] eqn:Hrow; [|done]. simpl in H.
  apply list_eq. intros i. destruct (decide (i = r)) as [->|Hne].
  - rewrite list_lookup_alter_eq, Hrow. simpl. f_equal. by apply list_insert_id.
  - by rewrite list_lookup_alter_ne.
Qed.

Lemma setCell_restore g r c v w :
  cell g r c = Some v → setCell (setCell g r c w) r c v = g.
Proof. intros H. rewrite setCell_setCell. by apply setCell_id. Qed.

Lemma digits09_cell g r c v : digits09 g → cell g r c = Some v → (0 ≤ v ≤ 9)%Z.
Proof.
  unfold digits09, cell. intros Hd H.
  destruct (g !! r) as [row|] eqn:Hrow; [|done]. simpl in H.
  rewrite Forall_lookup in Hd. specialize (Hd r row Hrow).
  rewrite Forall_lookup in Hd. by apply (Hd c).
Qed.

Lemma digits09_setCell g r c v :
  digits09 g → (0 ≤ v ≤ 9)%Z → digits09 (setCell g r c v).
Proof.
  unfold digits09, setCell. intros Hd Hv. apply Forall_alter; [done|].
  intros row _ Hrow. by apply Forall_insert.
Qed.

(** Two well-formed grids with the same cells are the same grid. *)
Lemma grid_ext g g' :
  wf g → wf g' → (∀ r c, r < 9 → c < 9 → cell g r c = cell g' r c) → g = g'.
Proof.
  intros Hwf Hwf' Heq. apply list_eq. intros r.
  destruct (decide (r < 9)) as [Hr|Hr].
  - destruct (wf_row g r Hwf Hr) as (row & Hrow & Hlen).
    destruct (wf_row g' r Hwf' Hr) as (row' & Hrow' & Hlen').
    rewrite Hrow, Hrow'. f_equal. apply list_eq. intros c.
    destruct (decide (c < 9)) as [Hc|Hc].
    + specialize (Heq r c Hr Hc). unfold cell in Heq.
      by rewrite Hrow, Hrow' in Heq.
    + rewrite !lookup_ge_None_2; [done|lia|lia].
  - destruct Hwf as [Hl _], Hwf' as [Hl' _].
    rewrite !lookup_ge_None_2; [done|lia|lia].
Qed.
End grid_basics.

(** * The constraint checker against the rules *)

Section checker.
Implicit Types (g s : Grid) (r c row col : nat) (num v : Z).

Lemma cellIs_true g r c num : cellIs g r c num = true ↔ cell g r c = Some num.
Proof. unfold cellIs. apply bool_decide_eq_true. Qed.

Lemma cellIs_false g r c num : cellIs g r c num = false ↔ cell g r c ≠ Some num.
Proof. unfold cellIs. apply bool_decide_eq_false. Qed.

Lemma existsb_seq_false (f : nat → bool) a n :
  existsb f (seq a n) = false ↔ ∀ i, a ≤ i < a + n → f i = false.
Proof.
  split.
  - intros H i Hi. destruct (f i) eqn:Hf; [|done].
    assert (existsb f (seq a n) = true) as Ht; [|congruence].
    apply existsb_exists. exists i. split; [|done]. apply in_seq. lia.
  - intros H. destruct (existsb f (seq a n)) eqn:He; [|done].
    apply existsb_exists in He as (i & Hi & Hf). apply in_seq in Hi.
    rewrite H in Hf; [done|lia].
Qed.

Lemma box_range a b : b / 3 * 3 ≤ a < b / 3 * 3 + 3 ↔ a / 3 = b / 3.
Proof.
  pose proof (Nat.div_mod_eq a 3). pose proof (Nat.mod_upper_bound a 3).
  pose proof (Nat.div_mod_eq b 3). pose proof (Nat.mod_upper_bound b 3).
  lia.
Qed.

Lemma box_lt a b : b < 9 → b / 3 * 3 ≤ a < b / 3 * 3 + 3 → a < 9.
Proof.
  pose proof (Nat.div_mod_eq b 3). pose proof (Nat.mod_upper_bound b 3).
  lia.
Qed.

Lemma sameUnit_sym r c r' c' : sameUnit r c r' c' → sameUnit r' c' r c.
Proof. unfold sameUnit. intros [?|[?|[? ?]]]; auto. Qed.

(** [isValid] answers true exactly when no cell of the row, the column
    and the box of [(row, col)] holds [num]. *)
Lemma isValid_true g row col num :
  row < 9 → col < 9 →
  isValid g row col num = true ↔
  ∀ r c, r < 9 → c < 9 → sameUnit row col r c → cell g r c ≠ Some num.
Proof.
  intros Hrow Hcol. unfold isValid.
  destruct (existsb _ (seq 0 9)) eqn:E1.
  { split; [done|]. intros H. exfalso.
    apply existsb_exists in E1 as (c & Hc & Hv). apply in_seq in Hc.
    apply cellIs_true in Hv. apply (H row c); [lia|lia| |done].
    by left. }
  destruct (existsb (λ r, cellIs g r col num) (seq 0 9)) eqn:E2.
  { split; [done|]. intros H. exfalso.
    apply existsb_exists in E2 as (r & Hr & Hv). apply in_seq in Hr.
    apply cellIs_true in Hv. apply (H r col); [lia|lia| |done].
    right. by left. }
  cbv zeta.
  destruct (existsb _ (seq (row / 3 * 3) 3)) eqn:E3.
  { split; [done|]. intros H. exfalso.
    apply existsb_exists in E3 as (r & Hr & Hv). apply in_seq in Hr.
    apply existsb_exists in Hv as (c & Hc & Hv). apply in_seq in Hc.
    apply cellIs_true in Hv.
    apply (H r c); [by apply (box_lt r row)|by apply (box_lt c col)| |done].
    right. right. split; symmetry; apply box_range; lia. }
  split; [|done]. intros _ r c Hr Hc Hu.
  rewrite existsb_seq_false in E1, E2, E3.
  destruct Hu as [<-|[<-|[Hbr Hbc]]].
  - apply cellIs_false, E1. lia.
  - apply cellIs_false, E2. lia.
  - assert (row / 3 * 3 ≤ r < row / 3 * 3 + 3) as Hr' by by apply box_range.
    specialize (E3 r Hr'). rewrite existsb_seq_false in E3.
    apply cellIs_false, E3. by apply box_range.
Qed.

(** Placing a digit the checker accepts keeps the grid free of
    conflicts. *)
Lemma consistent_setCell g row col num :
  wf g → row < 9 → col < 9 → consistent g →
  isValid g row col num = true → consistent (setCell g row col num).
Proof.
  intros Hwf Hrow Hcol Hcons Hval. rewrite isValid_true in Hval by done.
  intros r c r' c' v H1 H2 Hv Hu.
  destruct (decide ((row, col) = (r, c))) as [E|N];
    destruct (decide ((row, col) = (r', c'))) as [E'|N'].
  - congruence.
  - injection E as <- <-. rewrite cell_setCell_eq in H1 by done.
    injection H1 as <-. rewrite cell_setCell_ne in H2 by done.
    destruct (cell_Some_lt _ _ _ _ Hwf H2). by destruct (Hval r' c').
  - injection E' as <- <-. rewrite cell_setCell_eq in H2 by done.
    injection H2 as <-. rewrite cell_setCell_ne in H1 by done.
    destruct (cell_Some_lt _ _ _ _ Hwf H1).
    destruct (Hval r c); [done|done| |done]. by apply sameUnit_sym.
  - rewrite cell_setCell_ne in H1, H2 by done. by apply (Hcons r c r' c' v).
Qed.

(** A digit that some conflict-free extension of the grid puts in an
    empty cell is accepted by the checker. *)
Lemma isValid_of_extension g s row col num :
  row < 9 → col < 9 → consistent s → extends g s →
  cell g row col = Some 0%Z → cell s row col = Some num → num ≠ 0%Z →
  isValid g row col num = true.
Proof.
  intros Hrow Hcol Hcons Hext Hg Hs Hnum.
  apply (proj2 (isValid_true g row col num Hrow Hcol)).
  intros r c _ _ Hu Hc. pose proof (Hext r c num Hc Hnum) as Hc'.
  assert ((row, col) = (r, c)) as E by by apply (Hcons row col r c num).
  injection E as <- <-. congruence.
Qed.

Lemma extends_refl g : extends g g.
Proof. by intros r c v H _. Qed.

Lemma extends_trans g1 g2 g3 : extends g1 g2 → extends g2 g3 → extends g1 g3.
Proof. intros H12 H23 r c v H Hv. apply H23; [|done]. by apply H12. Qed.

Lemma extends_setCell g row col num :
  cell g row col = Some 0%Z → extends g (setCell g row col num).
Proof.
  intros H0 r c v H Hv. rewrite cell_setCell_ne; [done|]. congruence.
Qed.

Lemma extends_setCell_l g s row col num :
  wf g → extends g s → cell s row col = Some num →
  extends (setCell g row col num) s.
Proof.
  intros Hwf Hext Hs r c v H Hv.
  destruct (decide ((row, col) = (r, c))) as [E|N].
  - injection E as <- <-.
    destruct (cell_Some_lt _ _ _ _ (wf_setCell _ _ _ _ Hwf) H).
    rewrite cell_setCell_eq in H by done. congruence.
  - rewrite cell_setCell_ne in H by done. by apply Hext.
Qed.
End checker.

(** * The search engine

    [generateSolution] and the solver's [backtrack] are one search: cells
    in row-major order, candidates in an order [pick] supplies. The
    engine is stated once, over [pick], and each of the two functions is
    shown to be an instance of it. *)

(** Every cell from linear index [p] on is filled. *)
Definition filledFrom (p : nat) (g : Grid) : Prop :=
  ∀ r c, r < 9 → c < 9 → p ≤ r * 9 + c → cell g r c ≠ Some 0%Z.

Lemma filledFrom_mono p q g : p ≤ q → filledFrom p g → filledFrom q g.
Proof. intros Hpq H r c Hr Hc Hq. apply H; lia. Qed.

Lemma filledFrom_complete g : wf g → filledFrom 0 g → complete g.
Proof.
  intros Hwf H r c Hc. destruct (cell_Some_lt _ _ _ _ Hwf Hc).
  apply (H r c); [done|done|lia|done].
Qed.

Lemma tryNumbers_ext {St} (rec rec' : St → Grid → option (bool * Grid * St))
    row col numbers st g :
  (∀ st g, rec st g = rec' st g) →
  tryNumbers rec row col numbers st g = tryNumbers rec' row col numbers st g.
Proof.
  intros Hext. revert st g. induction numbers as [|n rest IH]; intros st g.
  - done.
  - simpl. destruct (isValid g row col n); [|apply IH].
    rewrite <- Hext. destruct (rec st _) as [[[[] g'] st']|]; [done| |done].
    apply IH.
Qed.

Section engine.
Context {St : Type} (pick : St → list Z * St).

Fixpoint search (fuel : nat) (st : St) (grid : Grid) (row col : nat)
    : option (bool * Grid * St) :=
  match fuel with
  | 0 => None
  | S fuel' =>
      let '(row, col) := if col =? 9 then (row + 1, 0) else (row, col) in
      if row =? 9 then Some (true, grid, st)
      else if negb (cellIs grid row col 0) then
        search fuel' st grid row (col + 1)
      else
        let '(numbers, st) := pick st in
        tryNumbers (λ st g, search fuel' st g row (col + 1))
                   row col numbers st grid
  end.

Hypothesis pick_digits : ∀ st n, n ∈ (pick st).1 ↔ (1 ≤ n ≤ 9)%Z.

(** What a call that starts at linear index [p] on grid [g] guarantees:
    on success the grid [g'] it leaves extends [g], is filled from [p] on
    and is as well-formed and conflict-free as [g] was; on failure the grid
    is back to [g] and [g] has no conflict-free extension filled from [p]
    on. *)
Definition searchPost (p : nat) (g : Grid) (b : bool) (g' : Grid) : Prop :=
  if b then
    wf g' ∧ extends g g' ∧ filledFrom p g' ∧
    (digits09 g → digits09 g') ∧ (consistent g → consistent g')
  else
    g' = g ∧
    ∀ s, wf s → digits09 s → consistent s → extends g s →
         filledFrom p s → False.

Lemma tryNumbers_post (rec : St → Grid → option (bool * Grid * St))
    row col g :
  wf g → row < 9 → col < 9 → cell g row col = Some 0%Z →
  (∀ st g1, wf g1 → ∃ b g' st',
      rec st g1 = Some (b, g', st') ∧ searchPost (row * 9 + col + 1) g1 b g') →
  ∀ numbers st, (∀ n, n ∈ numbers → (1 ≤ n ≤ 9)%Z) →
  ∃ b g' st', tryNumbers rec row col numbers st g = Some (b, g', st') ∧
    if b then searchPost (row * 9 + col) g true g'
    else g' = g ∧
      ∀ n s, n ∈ numbers → cell s row col = Some n →
        wf s → digits09 s → consistent s → extends g s →
        filledFrom (row * 9 + col) s → False.
Proof.
  intros Hwf Hrow Hcol Hzero Hrec numbers.
  induction numbers as [|n rest IH]; intros st Hrange.
  { exists false, g, st. split; [done|]. split; [done|].
    intros n s Hn. by apply elem_of_nil in Hn. }
  assert (1 ≤ n ≤ 9)%Z as Hn by (apply Hrange; left).
  assert (∀ m, m ∈ rest → (1 ≤ m ≤ 9)%Z) as Hrest
    by (intros m Hm; apply Hrange; by right).
  simpl. destruct (isValid g row col n) eqn:Hval.
  - destruct (Hrec st (setCell g row col n)) as (b & g' & st' & -> & Hpost);
      [by apply wf_setCell|].
    destruct b.
    + exists true, g', st'. split; [done|].
      destruct Hpost as (Hwf' & Hext & Hfill & Hdig & Hcons).
      assert (cell g' row col = Some n) as Hcell.
      { apply Hext; [|lia]. by apply cell_setCell_eq. }
      split; [done|]. split; [|split; [|split]].
      * eapply extends_trans; [|done]. by apply extends_setCell.
      * intros r c Hr Hc Hle.
        destruct (decide (row * 9 + col = r * 9 + c)) as [E|N].
        -- assert (r = row ∧ c = col) as [-> ->] by lia.
           rewrite Hcell. intros [=]. lia.
        -- apply Hfill; [done|done|lia].
      * intros Hd. apply Hdig. apply digits09_setCell; [done|lia].
      * intros Hc. apply Hcons. by apply consistent_setCell.
    + destruct Hpost as [-> Hnone].
      rewrite (setCell_restore g row col 0%Z n Hzero).
      destruct (IH st' Hrest) as (b & g'' & st'' & Heq & Hpost).
      exists b, g'', st''. split; [done|]. destruct b; [done|].
      destruct Hpost as [-> Hno]. split; [done|].
      intros m s Hm Hs Hwfs Hds Hcs Hes Hfs.
      apply elem_of_cons in Hm as [->|Hm]; [|by eapply Hno].
      apply (Hnone s); [done|done|done| |].
      * by apply extends_setCell_l.
      * eapply filledFrom_mono; [|done]. lia.
  - destruct (IH st Hrest) as (b & g'' & st'' & Heq & Hpost).
    exists b, g'', st''. split; [done|]. destruct b; [done|].
    destruct Hpost as [-> Hno]. split; [done|].
    intros m s Hm Hs Hwfs Hds Hcs Hes Hfs.
    apply elem_of_cons in Hm as [->|Hm]; [|by eapply Hno].
    assert (isValid g row col n = true); [|congruence].
    apply (isValid_of_extension g s); [done..|lia].
Qed.

Lemma search_post fuel : ∀ st g row col,
  wf g → col ≤ 9 → row * 9 + col ≤ 81 → 82 ≤ fuel + (row * 9 + col) →
  ∃ b g' st', search fuel st g row col = Some (b, g', st') ∧
    searchPost (row * 9 + col) g b g'.
Proof.
  induction fuel as [|fuel IH]; intros st g row col Hwf Hcol Hpos Hfuel;
    [lia|].
  simpl.
  set (rc := if col =? 9 then (row + 1, 0) else (row, col)).
  assert (rc.1 * 9 + rc.2 = row * 9 + col ∧ rc.2 < 9) as [Hrc Hc9].
  { unfold rc. destruct (Nat.eqb_spec col 9); simpl; lia. }
  destruct rc as [row1 col1]. simpl in Hrc, Hc9. rewrite <- Hrc in *.
  clear Hrc Hcol row col.
  destruct (Nat.eqb_spec row1 9) as [->|Hrow].
  { exists true, g, st. split; [done|]. split; [done|].
    split; [apply extends_refl|]. split; [|done]. intros r c Hr Hc. lia. }
  assert (row1 < 9) as Hrow1 by lia.
  destruct (wf_cell g row1 col1 Hwf Hrow1 Hc9) as [v Hv].
  destruct (cellIs g row1 col1 0) eqn:Hz; simpl.
  - apply cellIs_true in Hz.
    destruct (pick st) as [numbers st1] eqn:Hpick.
    destruct (tryNumbers_post
                (λ st g, search fuel st g row1 (col1 + 1)) row1 col1 g
                Hwf Hrow1 Hc9 Hz) with (numbers := numbers) (st := st1)
      as (b & g' & st' & Heq & Hpost).
    + intros st2 g1 Hwf1.
      destruct (IH st2 g1 row1 (col1 + 1)) as (b & g' & st' & Heq & Hpost);
        [done|lia|lia|lia|].
      exists b, g', st'. split; [done|].
      by replace (row1 * 9 + col1 + 1) with (row1 * 9 + (col1 + 1)) by lia.
    + intros n Hn. apply (pick_digits st). by rewrite Hpick.
    + exists b, g', st'. split; [done|]. destruct b; [done|].
      destruct Hpost as [-> Hno]. split; [done|].
      intros s Hwfs Hds Hcs Hes Hfs.
      destruct (wf_cell s row1 col1 Hwfs Hrow1 Hc9) as [n Hn].
      assert (n ≠ 0%Z) as Hn0.
      { intros ->. by apply (Hfs row1 col1). }
      pose proof (digits09_cell _ _ _ _ Hds Hn).
      apply (Hno n s); [|done..].
      pose proof (proj2 (pick_digits st n)) as Hin. rewrite Hpick in Hin.
      apply Hin. lia.
  - apply cellIs_false in Hz.
    destruct (IH st g row1 (col1 + 1)) as (b & g' & st' & Heq & Hpost);
      [done|lia|lia|lia|].
    exists b, g', st'. split; [done|].
    replace (row1 * 9 + (col1 + 1)) with (row1 * 9 + col1 + 1) in Hpost by lia.
    destruct b.
    + destruct Hpost as (Hwf' & Hext & Hfill & Hdig & Hcons).
      split; [done|]. split; [done|]. split; [|done].
      intros r c Hr Hc Hle.
      destruct (decide (row1 * 9 + col1 = r * 9 + c)) as [E|N].
      * assert (r = row1 ∧ c = col1) as [-> ->] by lia.
        rewrite (Hext row1 col1 v Hv); congruence.
      * apply Hfill; [done|done|lia].
    + destruct Hpost as [-> Hno]. split; [done|].
      intros s Hwfs Hds Hcs Hes Hfs. apply (Hno s); [done..|].
      eapply filledFrom_mono; [|done]. lia.
Qed.
End engine.

(** * The shuffle is a permutation *)

Section shuffle.
Context {A : Type}.
Implicit Types (arr l : list A).

Lemma insert_head_Permutation l j (a y : A) :
  l !! j = Some y → y :: <[j := a]> l ≡ₚ a :: l.
Proof.
  revert j. induction l as [|b l IH]; intros [|j] H; simplify_eq/=.
  - apply Permutation_swap.
  - rewrite (Permutation_swap b y), (IH j H). apply Permutation_swap.
Qed.

Lemma swap_Permutation arr i j : swap arr i j ≡ₚ arr.
Proof.
  unfold swap. destruct (arr !! i) as [x|] eqn:Hi; [|done].
  destruct (arr !! j) as [y|] eqn:Hj; [|done].
  revert i j Hi Hj. induction arr as [|a l IH]; intros [|i] [|j] Hi Hj;
    simplify_eq/=.
  - done.
  - by apply insert_head_Permutation.
  - by apply insert_head_Permutation.
  - f_equiv. by apply IH.
Qed.

Lemma shuffleFrom_Permutation random i k arr :
  (shuffleFrom random i k arr).1 ≡ₚ arr.
Proof.
  revert k arr. induction i as [|i IH]; intros k arr; simpl; [done|].
  rewrite IH. apply swap_Permutation.
Qed.

Lemma shuffle_Permutation random k arr : (shuffle random k arr).1 ≡ₚ arr.
Proof. apply shuffleFrom_Permutation. Qed.
End shuffle.

Lemma elem_of_digits n : n ∈ digits ↔ (1 ≤ n ≤ 9)%Z.
Proof. unfold digits. rewrite !elem_of_cons, elem_of_nil. lia. Qed.

Arguments digits : simpl never.

(** ** The generator and the solver as instances of the engine *)

Definition pickShuffled (random : nat → nat) (k : nat) : list Z * nat :=
  shuffle random k digits.

Definition pickAscending (_ : unit) : list Z * unit := (digits, ()).

Lemma pickShuffled_digits random k n :
  n ∈ (pickShuffled random k).1 ↔ (1 ≤ n ≤ 9)%Z.
Proof.
  unfold pickShuffled. rewrite shuffle_Permutation. apply elem_of_digits.
Qed.

Lemma pickAscending_digits u n : n ∈ (pickAscending u).1 ↔ (1 ≤ n ≤ 9)%Z.
Proof. apply elem_of_digits. Qed.

Lemma generateSolution_search fuel random k g row col :
  generateSolution fuel random k g row col
  = search (pickShuffled random) fuel k g row col.
Proof.
  revert k g row col. induction fuel as [|fuel IH]; intros k g row col;
    [done|].
  cbn [generateSolution search].
  destruct (if col =? 9 then _ else _) as [row1 col1].
  destruct (row1 =? 9); [done|].
  destruct (negb _); [apply IH|].
  unfold pickShuffled. destruct (shuffle random k digits) as [numbers k1].
  apply tryNumbers_ext. intros. apply IH.
Qed.

Lemma backtrack_search fuel copy row col :
  backtrack fuel copy row col
  = '(b, g, _) ← search pickAscending fuel () copy row col; Some (b, g).
Proof.
  revert copy row col. induction fuel as [|fuel IH]; intros copy row col;
    [done|].
  cbn [backtrack search].
  destruct (if col =? 9 then _ else _) as [row1 col1].
  destruct (row1 =? 9); [done|].
  destruct (negb _); [apply IH|].
  unfold pickAscending at 1. cbv beta iota.
  rewrite (tryNumbers_ext _
             (λ st g, search pickAscending fuel st g row1 (col1 + 1)));
    [done|].
  intros [] g. rewrite IH.
  by destruct (search _ _ _ _ _ _) as [[[b g'] []]|].
Qed.

(** * Rows, columns and boxes *)

Definition rowPositions (r : nat) : list (nat * nat) :=
  (λ c, (r, c)) <$> seq 0 9.

Definition colPositions (c : nat) : list (nat * nat) :=
  (λ r, (r, c)) <$> seq 0 9.

(** Box [b] (0 to 8, row-major) starts at row [b / 3 * 3], column
    [b mod 3 * 3]. *)
Definition boxPositions (b : nat) : list (nat * nat) :=
  (λ i, (b / 3 * 3 + i / 3, b `mod` 3 * 3 + i `mod` 3)) <$> seq 0 9.

(** The digits a grid holds at a list of positions. *)
Definition cellsAt (g : Grid) (ps : list (nat * nat)) : list Z :=
  omap (λ p, cell g p.1 p.2) ps.

Definition rowOf (g : Grid) (r : nat) : list Z := cellsAt g (rowPositions r).
Definition colOf (g : Grid) (c : nat) : list Z := cellsAt g (colPositions c).
Definition boxOf (g : Grid) (b : nat) : list Z := cellsAt g (boxPositions b).

(** A list of positions that all lie in the grid and pairwise see each
    other: a row, a column, a box, or part of one. *)
Definition isUnit (ps : list (nat * nat)) : Prop :=
  NoDup ps ∧
  Forall (λ p, p.1 < 9 ∧ p.2 < 9 ∧
               Forall (λ q, sameUnit p.1 p.2 q.1 q.2) ps) ps.

#[local] Instance sameUnit_dec r c r' c' : Decision (sameUnit r c r' c').
Proof. unfold sameUnit. apply _. Defined.

#[local] Instance isUnit_dec ps : Decision (isUnit ps).
Proof. unfold isUnit. apply _. Defined.

Lemma units_are_units :
  Forall (λ i, isUnit (rowPositions i) ∧ isUnit (colPositions i)
               ∧ isUnit (boxPositions i)) (seq 0 9).
Proof. by apply (bool_decide_unpack _); vm_compute. Qed.

Section units.
Implicit Types (g s : Grid) (ps : list (nat * nat)).

Lemma cellsAt_unit s ps :
  wf s → digits09 s → complete s → consistent s →
  NoDup ps →
  (∀ p, p ∈ ps → p.1 < 9 ∧ p.2 < 9) →
  (∀ p q, p ∈ ps → q ∈ ps → sameUnit p.1 p.2 q.1 q.2) →
  length (cellsAt s ps) = length ps ∧ NoDup (cellsAt s ps) ∧
  (∀ v, v ∈ cellsAt s ps → ∃ p, p ∈ ps ∧ cell s p.1 p.2 = Some v).
Proof.
  intros Hwf Hd Hcomp Hcons Hnd Hin Hunit.
  induction Hnd as [|p ps Hp Hnd IH].
  { split; [done|]. split; [constructor|]. intros v Hv.
    by apply elem_of_nil in Hv. }
  destruct IH as (Hlen & Hndv & Hvs).
  { intros q Hq. apply Hin. by right. }
  { intros q q' Hq Hq'. apply Hunit; by right. }
  destruct (Hin p) as [Hp1 Hp2]; [by left|].
  destruct (wf_cell s p.1 p.2 Hwf Hp1 Hp2) as [v Hv].
  unfold cellsAt in *. simpl. rewrite Hv. simpl.
  split; [exact (f_equal S Hlen)|]. split.
  - constructor; [|exact Hndv]. intros Hmem.
    destruct (Hvs v Hmem) as (q & Hq & Hqv).
    assert ((p.1, p.2) = (q.1, q.2)) as E.
    { apply (Hcons p.1 p.2 q.1 q.2 v); [done|done| |].
      - intros ->. by apply (Hcomp p.1 p.2).
      - apply Hunit; [by left|by right]. }
    apply Hp. destruct p, q. simpl in E. by simplify_eq.
  - intros w Hw. apply elem_of_cons in Hw as [->|Hw].
    + exists p. split; [by left|done].
    + destruct (Hvs w Hw) as (q & Hq & Hqv). exists q. split; [by right|done].
Qed.

(** A full conflict-free unit holds each digit from 1 to 9 once. *)
Lemma unit_Permutation s ps :
  wf s → digits09 s → complete s → consistent s →
  isUnit ps → length ps = 9 → cellsAt s ps ≡ₚ digits.
Proof.
  intros Hwf Hd Hcomp Hcons [Hnd Hall] Hlen.
  rewrite Forall_forall in Hall.
  destruct (cellsAt_unit s ps Hwf Hd Hcomp Hcons Hnd) as (Hl & Hndv & Hvs).
  { intros p Hp. destruct (Hall p Hp) as (? & ? & _). done. }
  { intros p q Hp Hq. destruct (Hall p Hp) as (_ & _ & Hq').
    rewrite Forall_forall in Hq'. by apply Hq'. }
  apply submseteq_length_Permutation.
  - apply NoDup_submseteq; [done|]. intros v Hv.
    destruct (Hvs v Hv) as (p & Hp & Hpv). apply elem_of_digits.
    pose proof (digits09_cell _ _ _ _ Hd Hpv).
    assert (v ≠ 0%Z); [|lia]. intros ->. by apply (Hcomp p.1 p.2).
  - rewrite Hl, Hlen. done.
Qed.

Lemma solved_units s :
  wf s → digits09 s → complete s → consistent s →
  Forall (λ i, rowOf s i ≡ₚ digits ∧ colOf s i ≡ₚ digits
               ∧ boxOf s i ≡ₚ digits) (seq 0 9).
Proof.
  intros Hwf Hd Hcomp Hcons. pose proof units_are_units as Hu.
  rewrite Forall_forall in Hu. apply Forall_forall. intros i Hi.
  destruct (Hu i Hi) as (Hr & Hc & Hb).
  split; [|split]; apply unit_Permutation; try done;
    unfold rowPositions, colPositions, boxPositions;
    by rewrite length_fmap, length_seq.
Qed.
End units.

(** * Conflict detector: [hasConflict] and [getErrors]

    The value read is kept as an option so that [===] on an out-of-range
    read compares [undefined] with [undefined] as the source does. *)

Definition hasConflict (board : Grid) (row col : nat) : bool :=
  let value := cell board row col in
  if bool_decide (value = Some 0%Z) then false
  else if existsb (λ c, negb (c =? col)
                        && bool_decide (cell board row c = value)) (seq 0 9)
  then true
  else if existsb (λ r, negb (r =? row)
                        && bool_decide (cell board r col = value)) (seq 0 9)
  then true
  else
    let boxRow := row / 3 * 3 in
    let boxCol := col / 3 * 3 in
    if existsb (λ r, existsb (λ c, (negb (r =? row) || negb (c =? col))
                                   && bool_decide (cell board r c = value))
                             (seq boxCol 3)) (seq boxRow 3)
    then true
    else false.

Definition getErrors (board : Grid) : list (nat * nat) :=
  filter (λ p, hasConflict board p.1 p.2 = true) positions.

Lemma elem_of_positions r c : (r, c) ∈ positions ↔ r < 9 ∧ c < 9.
Proof.
  unfold positions. rewrite list_elem_of_bind. split.
  - intros (r' & Hc & Hr). apply list_elem_of_bind in Hc as (c' & Hc & Hc').
    apply list_elem_of_singleton in Hc. simplify_eq.
    apply elem_of_seq in Hr, Hc'. lia.
  - intros [Hr Hc]. exists r. split; [|apply elem_of_seq; lia].
    apply list_elem_of_bind. exists c. split; [set_solver|apply elem_of_seq; lia].
Qed.

(** A board on which [getErrors] finds nothing is conflict-free. *)
Lemma getErrors_nil_consistent g : wf g → getErrors g = [] → consistent g.
Proof.
  intros Hwf Hnil r c r' c' v H1 H2 Hv Hu.
  destruct (decide ((r, c) = (r', c'))) as [|Hne]; [done|]. exfalso.
  destruct (cell_Some_lt _ _ _ _ Hwf H1) as [Hr Hc].
  destruct (cell_Some_lt _ _ _ _ Hwf H2) as [Hr' Hc'].
  assert (hasConflict g r c = false) as Hno.
  { destruct (hasConflict g r c) eqn:E; [|done].
    assert ((r, c) ∈ getErrors g) as Hin; [|rewrite Hnil in Hin; set_solver].
    apply list_elem_of_filter. split; [done|]. by apply elem_of_positions. }
  unfold hasConflict in Hno. rewrite H1 in Hno.
  rewrite bool_decide_eq_false_2 in Hno by congruence.
  destruct (existsb _ (seq 0 9)) eqn:E1; [done|].
  destruct (existsb (λ r0, negb (r0 =? r) && _) (seq 0 9)) eqn:E2; [done|].
  cbv zeta in Hno.
  destruct (existsb _ (seq (r / 3 * 3) 3)) eqn:E3; [done|].
  rewrite existsb_seq_false in E1, E2, E3.
  destruct Hu as [<-|[<-|[Hbr Hbc]]].
  - specialize (E1 c'). rewrite H2, bool_decide_eq_true_2 in E1 by done.
    destruct (Nat.eqb_spec c' c); [congruence|]. simpl in E1.
    discriminate E1. lia.
  - specialize (E2 r'). rewrite H2, bool_decide_eq_true_2 in E2 by done.
    destruct (Nat.eqb_spec r' r); [congruence|]. simpl in E2.
    discriminate E2. lia.
  - assert (r / 3 * 3 ≤ r' < r / 3 * 3 + 3) as Hr3
      by (apply box_range; congruence).
    assert (c / 3 * 3 ≤ c' < c / 3 * 3 + 3) as Hc3
      by (apply box_range; congruence).
    specialize (E3 r' Hr3). rewrite existsb_seq_false in E3.
    specialize (E3 c' Hc3). rewrite H2, bool_decide_eq_true_2 in E3 by done.
    destruct (Nat.eqb_spec r' r), (Nat.eqb_spec c' c); simpl in E3;
      congruence.
Qed.

#[local] Instance wf_dec g : Decision (wf g).
Proof. unfold wf. apply _. Defined.

#[local] Instance digits09_dec g : Decision (digits09 g).
Proof. unfold digits09. apply _. Defined.

(** Well-formedness, digit range and freedom from conflicts of a concrete
    grid, by evaluation. *)
Lemma checked_grid g :
  bool_decide (wf g ∧ digits09 g ∧ getErrors g = []) = true →
  wf g ∧ digits09 g ∧ consistent g.
Proof.
  intros H. apply bool_decide_eq_true in H as (Hwf & Hd & He).
  split; [done|]. split; [done|]. by apply getErrors_nil_consistent.
Qed.

Lemma complete_filledFrom g : complete g → filledFrom 0 g.
Proof. intros H r c _ _ _. apply H. Qed.

Lemma canonical_solved : completion createEmptyGrid canonical.
Proof.
  destruct (checked_grid canonical) as (Hwf & Hd & Hc); [by vm_compute|].
  split; [done|]. split; [done|]. split; [|split; [done|]].
  - apply filledFrom_complete; [done|]. intros r c Hr Hc' _.
    assert (Forall (λ p, cell canonical p.1 p.2 ≠ Some 0%Z) positions) as Hall
      by (by apply (bool_decide_unpack _); vm_compute).
    rewrite Forall_forall in Hall. apply (Hall (r, c)).
    by apply elem_of_positions.
  - intros r c v Hv Hv0. exfalso.
    assert (Forall (λ p, cell createEmptyGrid p.1 p.2 = Some 0%Z) positions)
      as Hall by (by apply (bool_decide_unpack _); vm_compute).
    rewrite Forall_forall in Hall.
    assert (wf createEmptyGrid) as Hwfe
      by (by apply (bool_decide_unpack _); vm_compute).
    destruct (cell_Some_lt _ _ _ _ Hwfe Hv).
    specialize (Hall (r, c)). simpl in Hall. rewrite Hall in Hv.
    + congruence.
    + by apply elem_of_positions.
Qed.

(** ** Generation *)

(** [generatePuzzle(difficulty)] of the stand-alone script: the puzzle and
    the solution. The flag [generateSolution] returns is dropped, as in
    the source. *)
Definition generatePuzzle (random : nat → nat) (k : nat)
    (difficulty : Difficulty) : option (Grid * Grid) :=
  '(_, solution, k) ← generateSolution searchFuel random k createEmptyGrid 0 0;
  puzzle ← createPuzzle random k solution difficulty;
  Some (puzzle, solution).

(** [SudokuGenerator.generate(difficulty)] of [script.js]. *)
Definition generate (random : nat → nat) (k : nat) (difficulty : Difficulty)
    : option (Grid * Grid) :=
  '(_, solution, k) ← generateSolution searchFuel random k createEmptyGrid 0 0;
  puzzle ← createPuzzlePwa random k solution difficulty;
  Some (puzzle, solution).

Lemma generateSolution_empty random k :
  ∃ s k', generateSolution searchFuel random k createEmptyGrid 0 0
          = Some (true, s, k') ∧
    wf s ∧ digits09 s ∧ complete s ∧ consistent s.
Proof.
  destruct (checked_grid createEmptyGrid) as (Hwf & Hd & Hc); [by vm_compute|].
  rewrite generateSolution_search.
  destruct (search_post (pickShuffled random) (pickShuffled_digits random)
              searchFuel k createEmptyGrid 0 0)
    as (b & s & k' & Heq & Hpost); [done|lia|lia|unfold searchFuel; lia|].
  destruct b.
  - destruct Hpost as (Hwf' & Hext & Hfill & Hdig & Hcons).
    exists s, k'. split; [done|]. split; [done|]. split; [by apply Hdig|].
    split; [by apply filledFrom_complete|by apply Hcons].
  - destruct Hpost as [_ Hno]. exfalso.
    destruct canonical_solved as (Hwfc & Hdc & Hcc & Hconsc & Hextc).
    apply (Hno canonical); [done..|]. by apply complete_filledFrom.
Qed.

(** C4. Whatever the random draws are, [generateSolution] on the all-zero
    grid returns true, and the grid it leaves is a complete valid
    solution: every row, every column and every 3x3 box is a permutation
    of the digits 1 to 9. *)
Theorem generateSolution_always_succeeds (random : nat → nat) (k : nat) :
  ∃ s k', generateSolution searchFuel random k createEmptyGrid 0 0
          = Some (true, s, k') ∧
    wf s ∧
    Forall (λ i, rowOf s i ≡ₚ digits ∧ colOf s i ≡ₚ digits
                 ∧ boxOf s i ≡ₚ digits) (seq 0 9).
Proof.
  destruct (generateSolution_empty random k)
    as (s & k' & Heq & Hwf & Hd & Hcomp & Hcons).
  exists s, k'. split; [done|]. split; [done|]. by apply solved_units.
Qed.

(** * The solver *)

Lemma solve_search g :
  wf g →
  ∃ b g', solve g = Some (if b : bool then Some g' else None) ∧
    searchPost 0 g b g'.
Proof.
  intros Hwf. unfold solve. rewrite copyGrid_id, backtrack_search.
  destruct (search_post pickAscending pickAscending_digits
              searchFuel () g 0 0)
    as (b & g' & [] & Heq & Hpost); [done|lia|lia|unfold searchFuel; lia|].
  exists b, g'. rewrite Heq. done.
Qed.

Lemma solve_backtrack g b g' :
  backtrack searchFuel g 0 0 = Some (b, g') →
  solve g = Some (if b then Some g' else None).
Proof. intros H. unfold solve. by rewrite copyGrid_id, H. Qed.

(** A grid with the digit 4 twice in row 4 (and twice in column 4), and an
    empty first row. *)
Definition conflictGrid : Grid :=
  [ [0;0;0;0;0;0;0;0;0]; [6;7;2;1;9;5;3;4;8]; [1;9;8;3;4;2;5;6;7];
    [8;5;9;7;6;1;4;2;3]; [4;2;6;8;4;3;7;9;1]; [7;1;3;9;2;4;8;5;6];
    [9;6;1;5;3;7;2;8;4]; [2;8;7;4;1;9;6;3;5]; [3;4;5;2;8;6;1;7;9] ]%Z.

(** The canonical solution with its first two rows emptied. *)
Definition twoRowsEmpty : Grid :=
  [ [0;0;0;0;0;0;0;0;0]; [0;0;0;0;0;0;0;0;0]; [1;9;8;3;4;2;5;6;7];
    [8;5;9;7;6;1;4;2;3]; [4;2;6;8;5;3;7;9;1]; [7;1;3;9;2;4;8;5;6];
    [9;6;1;5;3;7;2;8;4]; [2;8;7;4;1;9;6;3;5]; [3;4;5;2;8;6;1;7;9] ]%Z.

(** C2. The code does not do what the specification and the docstring of
    [solveSudoku] ("Returns the solved grid or null if unsolvable") say.
    This 9x9 grid with entries 0-9 holds 4 twice in a row, so it has no
    completion; [solve] does not return [null] but fills the first row
    with 5,3,4,6,7,8,9,1,2 and returns a grid that breaks the row
    constraint. *)
Theorem solve_returns_conflicting_grid :
  wf conflictGrid ∧ digits09 conflictGrid ∧
  (∀ s, ¬ completion conflictGrid s) ∧
  solve conflictGrid
  = Some (Some (<[0 := [5;3;4;6;7;8;9;1;2]%Z]> conflictGrid)) ∧
  ∃ s, solve conflictGrid = Some (Some s) ∧ ¬ consistent s.
Proof.
  split; [by apply (bool_decide_unpack _); vm_compute|].
  split; [by apply (bool_decide_unpack _); vm_compute|].
  split.
  { intros s (_ & _ & _ & Hcons & Hext).
    assert ((4, 0) = (4, 4)) as E; [|discriminate E].
    apply (Hcons 4 0 4 4 4%Z); [| |lia|by left].
    - by apply (Hext 4 0 4%Z).
    - by apply (Hext 4 4 4%Z). }
  split; [vm_compute; reflexivity|].
  eexists. split; [by vm_compute|]. intros Hcons.
  assert ((4, 0) = (4, 4)) as E; [|discriminate E].
  apply (Hcons 4 0 4 4 4%Z); [reflexivity|reflexivity|lia|by left].
Qed.

(** What [solve] does guarantee. It always returns; a grid it returns is
    full and agrees with the input wherever the input holds a digit, and
    [null] means that the input has no completion. When the input holds no
    digit twice in a row, column or box, the returned grid satisfies the
    constraints, and [null] is returned exactly when there is no
    completion. *)
Lemma solve_correct (g : Grid) :
  wf g → digits09 g →
  ∃ res, solve g = Some res ∧
    (∀ s, res = Some s → wf s ∧ digits09 s ∧ complete s ∧ extends g s) ∧
    (res = None → ∀ s, ¬ completion g s) ∧
    (consistent g →
       (∀ s, res = Some s → consistent s) ∧
       (res = None ↔ ∀ s, ¬ completion g s)).
Proof.
  intros Hwf Hd. destruct (solve_search g Hwf) as (b & g' & Heq & Hpost).
  exists (if b then Some g' else None). split; [done|]. destruct b.
  - destruct Hpost as (Hwf' & Hext & Hfill & Hdig & Hcons).
    split; [|split; [done|]].
    + intros s [= <-]. split; [done|]. split; [by apply Hdig|].
      split; [by apply filledFrom_complete|done].
    + intros Hc. split; [by intros s [= <-]; apply Hcons|].
      split; [done|]. intros Hno. exfalso. apply (Hno g').
      split; [done|]. split; [by apply Hdig|].
      split; [by apply filledFrom_complete|]. split; [by apply Hcons|done].
  - destruct Hpost as [_ Hno].
    assert (∀ s, ¬ completion g s) as Hnone.
    { intros s (Hwfs & Hds & Hcs & Hconss & Hes).
      apply (Hno s); [done..|]. by apply complete_filledFrom. }
    split; [done|]. split; [done|]. intros _. split; [done|]. done.
Qed.

Lemma solve_correct_witness :
  wf twoRowsEmpty ∧ digits09 twoRowsEmpty ∧
  ∃ res, solve twoRowsEmpty = Some res ∧
    (∀ s, res = Some s →
          wf s ∧ digits09 s ∧ complete s ∧ extends twoRowsEmpty s) ∧
    (res = None → ∀ s, ¬ completion twoRowsEmpty s) ∧
    (consistent twoRowsEmpty →
       (∀ s, res = Some s → consistent s) ∧
       (res = None ↔ ∀ s, ¬ completion twoRowsEmpty s)).
Proof.
  assert (wf twoRowsEmpty) as Hwf
    by (by apply (bool_decide_unpack _); vm_compute).
  assert (digits09 twoRowsEmpty) as Hd
    by (by apply (bool_decide_unpack _); vm_compute).
  split; [done|]. split; [done|]. exact (solve_correct twoRowsEmpty Hwf Hd).
Defined.

(** A grid with the digit 5 twice in its first row, and an empty last
    row. *)
Definition duplicateRowGrid : Grid :=
  [ [5;5;4;6;7;8;9;1;2]; [6;7;2;1;9;5;3;4;8]; [1;9;8;3;4;2;5;6;7];
    [8;5;9;7;6;1;4;2;3]; [4;2;6;8;5;3;7;9;1]; [7;1;3;9;2;4;8;5;6];
    [9;6;1;5;3;7;2;8;4]; [2;8;7;4;1;9;6;3;5]; [0;0;0;0;0;0;0;0;0] ]%Z.

(** C5. On this 9x9 grid, whose first row holds 5 twice, [solve] does not
    return [null]: it fills the last row and returns the grid, duplicate
    included. *)
Lemma solve_duplicate_row_returns_grid :
  solve duplicateRowGrid
  = Some (Some (<[8 := [3;4;5;2;8;6;1;7;9]%Z]> duplicateRowGrid)).
Proof. vm_compute. reflexivity. Qed.

(** * Counting solutions *)

(** The completions of a grid, listed by branching on the first empty cell
    over the digits the checker accepts: what [countSolutions] would count
    without its cap. It is a device of the proofs, not code of the
    program. *)
Fixpoint completionsFrom (fuel : nat) (g : Grid) : list Grid :=
  match fuel with
  | 0 => []
  | S fuel' =>
      match findEmpty g with
      | None => [g]
      | Some (row, col) =>
          n ← digits;
          if isValid g row col n
          then completionsFrom fuel' (setCell g row col n)
          else []
      end
  end.

(** Every cell before linear index [p] is filled. *)
Definition filledBefore (p : nat) (g : Grid) : Prop :=
  ∀ r c, r < 9 → c < 9 → r * 9 + c < p → cell g r c ≠ Some 0%Z.

Section first_empty.
Implicit Types (g s : Grid).

Lemma find_first {A} (f : A → bool) (l : list A) x :
  find f l = Some x →
  ∃ i, l !! i = Some x ∧ f x = true ∧
       ∀ j y, j < i → l !! j = Some y → f y = false.
Proof.
  induction l as [|a l IH]; [done|]. simpl. destruct (f a) eqn:Hfa.
  - intros [= ->]. exists 0. split; [done|]. split; [done|]. intros; lia.
  - intros H. destruct (IH H) as (i & Hi & Hfx & Hbefore).
    exists (S i). split; [done|]. split; [done|].
    intros [|j] y Hj Hy; simplify_eq/=; [done|]. apply (Hbefore j); [lia|done].
Qed.

Lemma positions_NoDup : NoDup positions.
Proof. by apply (bool_decide_unpack _); vm_compute. Qed.

Lemma positions_index r c :
  r < 9 → c < 9 → positions !! (r * 9 + c) = Some (r, c).
Proof.
  intros Hr Hc.
  assert (Forall (λ p, positions !! (p.1 * 9 + p.2) = Some p) positions)
    as Hall by (by apply (bool_decide_unpack _); vm_compute).
  rewrite Forall_forall in Hall. apply (Hall (r, c)).
  by apply elem_of_positions.
Qed.

Lemma findEmpty_Some g row col :
  findEmpty g = Some (row, col) →
  row < 9 ∧ col < 9 ∧ cell g row col = Some 0%Z ∧
  filledBefore (row * 9 + col) g.
Proof.
  unfold findEmpty. intros H.
  destruct (find_first _ _ _ H) as (i & Hi & Hz & Hbefore). simpl in Hz.
  apply cellIs_true in Hz.
  assert ((row, col) ∈ positions) as Hin by by eapply list_elem_of_lookup_2.
  apply elem_of_positions in Hin as [Hrow Hcol].
  pose proof (positions_index row col Hrow Hcol) as Hi'.
  assert (i = row * 9 + col) as ->
    by by eapply (NoDup_lookup _ _ _ _ positions_NoDup).
  split; [done|]. split; [done|]. split; [done|].
  intros r c Hr Hc Hlt. apply cellIs_false.
  apply (Hbefore (r * 9 + c) (r, c)); [done|]. by apply positions_index.
Qed.

Lemma findEmpty_None g :
  findEmpty g = None → ∀ r c, r < 9 → c < 9 → cell g r c ≠ Some 0%Z.
Proof.
  unfold findEmpty. intros H r c Hr Hc.
  apply cellIs_false. apply (find_none _ _ H (r, c)).
  apply list_elem_of_In. by apply elem_of_positions.
Qed.

Lemma filledBefore_setCell g row col n p :
  wf g → row < 9 → col < 9 → n ≠ 0%Z →
  filledBefore (row * 9 + col) g → p ≤ row * 9 + col + 1 →
  filledBefore p (setCell g row col n).
Proof.
  intros Hwf Hrow Hcol Hn Hfb Hp r c Hr Hc Hlt.
  destruct (decide ((row, col) = (r, c))) as [E|N].
  - injection E as <- <-. rewrite cell_setCell_eq by done. congruence.
  - rewrite cell_setCell_ne by done. apply Hfb; [done|done|].
    assert (r * 9 + c ≠ row * 9 + col); [|lia]. intros Heq.
    apply N. f_equal; lia.
Qed.
End first_empty.

Section counting.
Implicit Types (g s : Grid) (cnt : Z).

(** The loop of [countSolutions] against the branches it covers: the
    counter grows by the number of completions of each branch and stops at
    2; the grid is handed back as it was. *)
Lemma countLoop_count (rec : Grid → Z → option (Grid * Z))
    (F : Z → list Grid) g row col :
  cell g row col = Some 0%Z →
  ∀ numbers,
  (∀ n cnt, n ∈ numbers → isValid g row col n = true → (0 ≤ cnt ≤ 1)%Z →
     rec (setCell g row col n) cnt
     = Some (setCell g row col n,
             Z.min (cnt + Z.of_nat (length (F n))) 2)) →
  ∀ cnt, (0 ≤ cnt ≤ 1)%Z →
  countLoop rec row col numbers g cnt
  = Some (g, Z.min (cnt + Z.of_nat (length
               (n ← numbers; if isValid g row col n then F n else []))) 2).
Proof.
  intros Hzero numbers. induction numbers as [|n rest IH]; intros Hrec cnt Hcnt.
  { simpl. f_equal. f_equal. lia. }
  assert (∀ m cnt, m ∈ rest → isValid g row col m = true → (0 ≤ cnt ≤ 1)%Z →
            rec (setCell g row col m) cnt
            = Some (setCell g row col m,
                    Z.min (cnt + Z.of_nat (length (F m))) 2)) as Hrest
    by (intros m c Hm; apply Hrec; by right).
  cbn [countLoop mbind list_bind]. rewrite length_app.
  destruct (isValid g row col n) eqn:Hval.
  - rewrite (Hrec n cnt) by (done || by left). simpl.
    rewrite (setCell_restore g row col 0%Z n Hzero).
    destruct (Z.ltb_spec 1 (Z.min (cnt + Z.of_nat (length (F n))) 2)).
    + f_equal. f_equal. lia.
    + rewrite IH by (done || lia). f_equal. f_equal. lia.
  - rewrite IH by done. simpl. done.
Qed.

Lemma countSolutionsFrom_count fuel : ∀ g cnt,
  1 ≤ fuel → wf g → filledBefore (82 - fuel) g → (0 ≤ cnt ≤ 1)%Z →
  countSolutionsFrom fuel g cnt
  = Some (g, Z.min (cnt + Z.of_nat (length (completionsFrom fuel g))) 2).
Proof.
  induction fuel as [|fuel IH]; intros g cnt Hfuel Hwf Hfb Hcnt; [lia|].
  cbn [countSolutionsFrom completionsFrom].
  destruct (findEmpty g) as [[row col]|] eqn:Hfind.
  - destruct (findEmpty_Some g row col Hfind) as (Hrow & Hcol & Hz & Hfb').
    assert (82 - S fuel ≤ row * 9 + col) as Hpos.
    { destruct (decide (82 - S fuel ≤ row * 9 + col)); [done|].
      exfalso. apply (Hfb row col); [done|done|lia|done]. }
    apply (countLoop_count _ (λ n, completionsFrom fuel (setCell g row col n)));
      [done| |done].
    intros n c Hn Hval Hc. apply elem_of_digits in Hn.
    apply IH; [lia|by apply wf_setCell| |done].
    apply filledBefore_setCell; [done|done|done|lia|done|lia].
  - simpl. f_equal. f_equal. lia.
Qed.

(** The listing holds exactly the completions, each once. *)
Lemma completionsFrom_spec fuel : ∀ g,
  1 ≤ fuel → wf g → digits09 g → consistent g →
  filledBefore (82 - fuel) g →
  NoDup (completionsFrom fuel g) ∧
  ∀ s, s ∈ completionsFrom fuel g ↔ completion g s.
Proof.
  induction fuel as [|fuel IH]; intros g Hfuel Hwf Hd Hcons Hfb; [lia|].
  cbn [completionsFrom].
  destruct (findEmpty g) as [[row col]|] eqn:Hfind.
  - destruct (findEmpty_Some g row col Hfind) as (Hrow & Hcol & Hz & Hfb').
    assert (82 - S fuel ≤ row * 9 + col) as Hpos.
    { destruct (decide (82 - S fuel ≤ row * 9 + col)); [done|].
      exfalso. apply (Hfb row col); [done|done|lia|done]. }
    assert (∀ n, n ∈ digits → isValid g row col n = true →
              NoDup (completionsFrom fuel (setCell g row col n)) ∧
              ∀ s, s ∈ completionsFrom fuel (setCell g row col n)
                   ↔ completion (setCell g row col n) s) as Hbranch.
    { intros n Hn Hval. apply elem_of_digits in Hn.
      apply IH; [lia|by apply wf_setCell| |by apply consistent_setCell|].
      - apply digits09_setCell; [done|lia].
      - apply filledBefore_setCell; [done|done|done|lia|done|lia]. }
    assert (∀ n s, n ∈ digits →
              s ∈ (if isValid g row col n
                   then completionsFrom fuel (setCell g row col n) else []) →
              isValid g row col n = true ∧
              completion (setCell g row col n) s ∧
              cell s row col = Some n) as Hmem.
    { intros n s Hn Hs. destruct (isValid g row col n) eqn:Hval;
        [|by apply elem_of_nil in Hs].
      destruct (Hbranch n Hn Hval) as [_ Hiff]. apply Hiff in Hs.
      split; [done|]. split; [done|].
      destruct Hs as (_ & _ & _ & _ & Hext). apply Hext.
      - by apply cell_setCell_eq.
      - apply elem_of_digits in Hn. lia. }
    split.
    + apply NoDup_bind.
      * intros n1 n2 s Hn1 Hn2 Hs1 Hs2.
        destruct (Hmem n1 s Hn1 Hs1) as (_ & _ & E1).
        destruct (Hmem n2 s Hn2 Hs2) as (_ & _ & E2). congruence.
      * intros n Hn. destruct (isValid g row col n) eqn:Hval; [|constructor].
        by apply Hbranch.
      * by apply (bool_decide_unpack _); vm_compute.
    + intros s. rewrite list_elem_of_bind. split.
      * intros (n & Hs & Hn).
        destruct (Hmem n s Hn Hs) as (Hval & (Hwfs & Hds & Hcs & Hconss & Hes) & _).
        split; [done|]. split; [done|]. split; [done|]. split; [done|].
        eapply extends_trans; [|done]. by apply extends_setCell.
      * intros (Hwfs & Hds & Hcs & Hconss & Hes).
        destruct (wf_cell s row col Hwfs Hrow Hcol) as [n Hn].
        assert (n ≠ 0%Z) as Hn0 by (intros ->; by apply (Hcs row col)).
        pose proof (digits09_cell _ _ _ _ Hds Hn).
        assert (n ∈ digits) as Hnd by (apply elem_of_digits; lia).
        assert (isValid g row col n = true) as Hval
          by by apply (isValid_of_extension g s).
        exists n. split; [|done]. rewrite Hval.
        apply (Hbranch n Hnd Hval). split; [done|]. split; [done|].
        split; [done|]. split; [done|]. by apply extends_setCell_l.
  - pose proof (findEmpty_None g Hfind) as Hfull.
    split; [apply NoDup_singleton|].
    intros s. rewrite list_elem_of_singleton. split.
    + intros ->. split; [done|]. split; [done|]. split; [|split; [done|]].
      * intros r c Hc. destruct (cell_Some_lt _ _ _ _ Hwf Hc).
        by apply (Hfull r c).
      * apply extends_refl.
    + intros (Hwfs & Hds & Hcs & Hconss & Hes). apply grid_ext; [done|done|].
      intros r c Hr Hc. destruct (wf_cell g r c Hwf Hr Hc) as [v Hv].
      rewrite Hv. apply Hes; [done|]. intros ->. by apply (Hfull r c).
Qed.

Lemma countSolutions_count g :
  wf g →
  countSolutions g
  = Some (Z.min (Z.of_nat (length (completionsFrom searchFuel g))) 2).
Proof.
  intros Hwf. unfold countSolutions.
  rewrite countSolutionsFrom_count; [done|unfold searchFuel; lia|done| |lia].
  intros r c _ _ Hlt. unfold searchFuel in Hlt. lia.
Qed.

Lemma completions_enumerable g :
  wf g → digits09 g → consistent g →
  NoDup (completionsFrom searchFuel g) ∧
  ∀ s, s ∈ completionsFrom searchFuel g ↔ completion g s.
Proof.
  intros Hwf Hd Hcons.
  apply completionsFrom_spec; [unfold searchFuel; lia|done..|].
  intros r c _ _ Hlt. unfold searchFuel in Hlt. lia.
Qed.
End counting.

Lemma length_zero_one_two {A} (l : list A) :
  NoDup l →
  (length l = 0 ↔ ∀ x, x ∉ l) ∧
  (length l = 1 ↔ ∃ x, ∀ y, y ∈ l ↔ y = x) ∧
  (2 ≤ length l ↔ ∃ x y, x ≠ y ∧ x ∈ l ∧ y ∈ l).
Proof.
  intros Hnd. destruct l as [|a [|b l]].
  - split; [|split].
    + split; [intros _ x Hx; by apply elem_of_nil in Hx|done].
    + split; [done|]. intros (x & Hx). exfalso.
      eapply elem_of_nil. by apply Hx.
    + split; [simpl; lia|]. intros (x & y & _ & Hx & _).
      by apply elem_of_nil in Hx.
  - split; [|split].
    + split; [done|]. intros H. exfalso. apply (H a). by left.
    + split; [|done]. intros _. exists a. intros y.
      apply list_elem_of_singleton.
    + split; [simpl; lia|]. intros (x & y & Hne & Hx & Hy).
      apply list_elem_of_singleton in Hx, Hy. congruence.
  - split; [|split].
    + split; [done|]. intros H. exfalso. apply (H a). by left.
    + split; [done|]. intros (x & Hx). exfalso.
      apply NoDup_cons in Hnd as [Hab _]. apply Hab.
      assert (a = x) as -> by (apply Hx; by left).
      assert (b = x) as -> by (apply Hx; right; by left). by left.
    + split; [|simpl; lia]. intros _. exists a, b.
      apply NoDup_cons in Hnd as [Hab _].
      split; [|split; [by left|right; by left]].
      intros ->. apply Hab. by left.
Qed.

(** A full grid of ones: every row, column and box repeats its digit. *)
Definition allOnes : Grid := replicate 9 (replicate 9 1%Z).

(** C3, as stated, fails: on a full 9x9 grid that breaks the rules there is
    no completion, and [countSolutions] returns 1, not 0. *)
Lemma countSolutions_counts_conflicting_grid :
  wf allOnes ∧ digits09 allOnes ∧
  countSolutions allOnes = Some 1%Z ∧ ∀ s, ¬ completion allOnes s.
Proof.
  split; [by apply (bool_decide_unpack _); vm_compute|].
  split; [by apply (bool_decide_unpack _); vm_compute|].
  split; [by vm_compute|].
  intros s (_ & _ & _ & Hcons & Hext).
  assert ((0, 0) = (0, 1)) as E; [|discriminate E].
  apply (Hcons 0 0 0 1 1%Z); [by apply Hext|by apply Hext|lia|by left].
Qed.

(** C3, amended. On every 9x9 grid [countSolutions] returns a counter
    between 0 and 2. When the grid holds digits 0-9 and no digit twice in a
    row, column or box, the counter is [min(n, 2)] for [n] the number of
    distinct completions (the length of any duplicate-free list of them):
    0 when there is none, 1 when there is exactly one, 2 when there are
    two or more. *)
Theorem countSolutions_correct (g : Grid) :
  wf g →
  ∃ n, countSolutions g = Some n ∧ (0 ≤ n ≤ 2)%Z ∧
    (digits09 g → consistent g →
       (∀ l : list Grid, NoDup l → (∀ s, s ∈ l ↔ completion g s) →
          n = Z.min (Z.of_nat (length l)) 2) ∧
       (n = 0%Z ↔ ∀ s, ¬ completion g s) ∧
       (n = 1%Z ↔ ∃ s, ∀ s', completion g s' ↔ s' = s) ∧
       (n = 2%Z ↔ ∃ s1 s2, s1 ≠ s2 ∧ completion g s1 ∧ completion g s2)).
Proof.
  intros Hwf. eexists. split; [by apply countSolutions_count|].
  split; [lia|]. intros Hd Hcons.
  destruct (completions_enumerable g Hwf Hd Hcons) as [Hnd Hmem].
  set (L := completionsFrom searchFuel g) in *.
  destruct (length_zero_one_two L Hnd) as (H0 & H1 & H2).
  split; [|split; [|split]].
  - intros l Hl Hin. f_equal. f_equal. apply Permutation_length.
    apply NoDup_Permutation; [done|done|]. intros s. by rewrite Hmem, Hin.
  - transitivity (length L = 0); [lia|]. rewrite H0.
    split; intros H s; specialize (H s); by rewrite <- ?Hmem, ?Hmem in *.
  - transitivity (length L = 1); [lia|]. rewrite H1.
    split; intros (s & Hs); exists s; intros s'; specialize (Hs s');
      by rewrite <- ?Hmem, ?Hmem in *.
  - transitivity (2 ≤ length L); [lia|]. rewrite H2.
    split; intros (s1 & s2 & Hne & Hs1 & Hs2); exists s1, s2;
      (split; [done|]); by rewrite <- ?Hmem, ?Hmem in *.
Qed.

Lemma countSolutions_correct_witness :
  wf twoRowsEmpty ∧
  ∃ n, countSolutions twoRowsEmpty = Some n ∧ (0 ≤ n ≤ 2)%Z ∧
    (digits09 twoRowsEmpty → consistent twoRowsEmpty →
       (∀ l : list Grid, NoDup l →
          (∀ s, s ∈ l ↔ completion twoRowsEmpty s) →
          n = Z.min (Z.of_nat (length l)) 2) ∧
       (n = 0%Z ↔ ∀ s, ¬ completion twoRowsEmpty s) ∧
       (n = 1%Z ↔ ∃ s, ∀ s', completion twoRowsEmpty s' ↔ s' = s) ∧
       (n = 2%Z ↔ ∃ s1 s2, s1 ≠ s2 ∧ completion twoRowsEmpty s1
                           ∧ completion twoRowsEmpty s2)).
Proof.
  assert (wf twoRowsEmpty) as Hwf
    by (by apply (bool_decide_unpack _); vm_compute).
  split; [done|]. exact (countSolutions_correct twoRowsEmpty Hwf).
Defined.

(** * Clue removal *)

(** The number of clues (nonzero cells) and of empty cells of a grid. *)
Definition clueCount (g : Grid) : nat :=
  length (filter (λ v, v ≠ 0%Z) (concat g)).

Definition zeroCount (g : Grid) : nat :=
  length (filter (λ v, v = 0%Z) (concat g)).

Section clue_removal.
Implicit Types (g s puzzle S P : Grid) (ps : list (nat * nat)).

Lemma setCell_None g r c v : cell g r c = None → setCell g r c v = g.
Proof.
  unfold cell, setCell. intros H. apply list_eq. intros i.
  destruct (decide (i = r)) as [->|Hne]; [|by rewrite list_lookup_alter_ne].
  rewrite list_lookup_alter_eq. destruct (g !! r) as [row|]; [|done].
  simpl in *. f_equal. apply list_insert_ge. by apply lookup_ge_None.
Qed.

(** Zeroing a cell and writing the backup again gives the puzzle back. *)
Lemma restore_backup puzzle row col :
  let puzzle0 := setCell puzzle row col 0 in
  from_option (setCell puzzle0 row col) puzzle0 (cell puzzle row col) = puzzle.
Proof.
  simpl. destruct (cell puzzle row col) as [v|] eqn:Hc; simpl.
  - by apply setCell_restore.
  - by apply setCell_None.
Qed.

Lemma extends_zero puzzle S row col :
  extends puzzle S → extends (setCell puzzle row col 0) S.
Proof.
  intros Hext r c v Hv Hv0. destruct (decide ((row, col) = (r, c))) as [E|N].
  - injection E as <- <-. exfalso.
    destruct (cell puzzle row col) as [w|] eqn:Hw.
    + unfold cell, setCell in *. rewrite list_lookup_alter_eq in Hv.
      destruct (puzzle !! row) as [rw|]; [|done]. simpl in *.
      rewrite list_lookup_insert_eq in Hv by by eapply lookup_lt_Some.
      congruence.
    + rewrite setCell_None in Hv by done. congruence.
  - rewrite cell_setCell_ne in Hv by done. by apply Hext.
Qed.

Lemma consistent_extends P S : extends P S → consistent S → consistent P.
Proof.
  intros Hext Hcons r c r' c' v H1 H2 Hv Hu.
  apply (Hcons r c r' c' v); [by apply Hext|by apply Hext|done|done].
Qed.

Lemma completionsFrom_S fuel g :
  completionsFrom (S fuel) g
  = match findEmpty g with
    | None => [g]
    | Some (row, col) =>
        n ← digits;
        if isValid g row col n
        then completionsFrom fuel (setCell g row col n)
        else []
    end.
Proof. reflexivity. Qed.

Lemma countSolutions_complete g :
  wf g → complete g → countSolutions g = Some 1%Z.
Proof.
  intros Hwf Hcomp. rewrite countSolutions_count by done.
  change searchFuel with (S 81). rewrite completionsFrom_S.
  destruct (findEmpty g) as [[row col]|] eqn:Hfind; [|done].
  destruct (findEmpty_Some g row col Hfind) as (_ & _ & Hz & _).
  by destruct (Hcomp row col).
Qed.

(** The removal loop keeps a puzzle that is part of the solution and that
    [countSolutions] counts once. *)
Lemma removeClues_invariant S cellsToRemove ps : ∀ puzzle removed,
  wf puzzle → extends puzzle S → countSolutions puzzle = Some 1%Z →
  ∃ P, removeClues cellsToRemove ps puzzle removed = Some P ∧
    wf P ∧ extends P S ∧ countSolutions P = Some 1%Z ∧
    (digits09 puzzle → digits09 P).
Proof.
  induction ps as [|[row col] rest IH]; intros puzzle removed Hwf Hext Hone.
  { by exists puzzle. }
  cbn [removeClues]. destruct (cellsToRemove <=? removed)%Z.
  { by exists puzzle. }
  rewrite copyGrid_id.
  assert (wf (setCell puzzle row col 0)) as Hwf0 by by apply wf_setCell.
  destruct (countSolutions (setCell puzzle row col 0)) as [n|] eqn:Hn;
    [|by rewrite (countSolutions_count _ Hwf0) in Hn].
  cbn [mbind option_bind].
  destruct (Z.eqb_spec n 1) as [->|Hne]; cbn [negb].
  - destruct (IH (setCell puzzle row col 0) (removed + 1)%Z)
      as (P & HP & HwfP & HextP & HoneP & HdP);
      [done|by apply extends_zero|done|].
    exists P. split; [done|]. split; [done|]. split; [done|]. split; [done|].
    intros Hd. apply HdP. by apply digits09_setCell.
  - rewrite restore_backup. by apply IH.
Qed.

Lemma filter_insert_zero (row : list Z) c :
  length (filter (λ v, v = 0%Z) (<[c := 0%Z]> row))
  ≤ S (length (filter (λ v, v = 0%Z) row)).
Proof.
  revert c. induction row as [|a row IH]; intros [|c];
    cbn [list_insert insert]; [simpl; lia|simpl; lia| |].
  - rewrite !filter_cons. repeat case_decide; cbn [length]; lia.
  - rewrite !filter_cons. specialize (IH c).
    repeat case_decide; cbn [length]; [apply le_n_S|]; apply IH.
Qed.

Lemma zeroCount_setCell g r c : zeroCount (setCell g r c 0) ≤ S (zeroCount g).
Proof.
  unfold zeroCount, setCell. revert r.
  induction g as [|row g IH]; intros [|r]; cbn [alter list_alter concat];
    [simpl; lia|simpl; lia| |].
  - rewrite !filter_app, !length_app. pose proof (filter_insert_zero row c).
    lia.
  - rewrite !filter_app, !length_app. specialize (IH r).
    apply (Nat.add_le_mono_l _ _ (length (filter (λ v, v = 0%Z) row))) in IH.
    etrans; [apply IH|]. lia.
Qed.

Lemma clue_zero_count g : wf g → clueCount g + zeroCount g = 81.
Proof.
  intros [Hlen Hrows]. unfold clueCount, zeroCount.
  assert (length (concat g) = 81) as <-.
  { do 10 (destruct g as [|? g]; try discriminate Hlen).
    repeat (apply Forall_cons in Hrows as [? Hrows]).
    simpl. rewrite !length_app. simpl. lia. }
  generalize (concat g). intros l. induction l as [|a l IH]; [done|].
  rewrite !filter_cons. destruct (decide (a ≠ 0%Z)), (decide (a = 0%Z));
    simpl; lia || congruence.
Qed.

Lemma zeroCount_complete g : complete g → zeroCount g = 0.
Proof.
  intros Hcomp. unfold zeroCount.
  destruct (filter _ (concat g)) as [|v l] eqn:Hf; [done|]. exfalso.
  assert (v ∈ filter (λ v, v = 0%Z) (concat g)) as Hv
    by (rewrite Hf; by left).
  apply list_elem_of_filter in Hv as [-> Hin].
  apply list_elem_of_In, in_concat in Hin as (row & Hrow & Hv).
  apply list_elem_of_In in Hrow, Hv.
  apply list_elem_of_lookup in Hrow as [r Hr].
  apply list_elem_of_lookup in Hv as [c Hc].
  apply (Hcomp r c). unfold cell. by rewrite Hr.
Qed.

(** The removal loop empties at most [cellsToRemove - removed] more
    cells. *)
Lemma removeClues_count cellsToRemove ps : ∀ puzzle removed P,
  removeClues cellsToRemove ps puzzle removed = Some P →
  (removed ≤ cellsToRemove)%Z →
  (Z.of_nat (zeroCount P) ≤
   Z.of_nat (zeroCount puzzle) + (cellsToRemove - removed))%Z.
Proof.
  induction ps as [|[row col] rest IH]; intros puzzle removed P HP Hle.
  { injection HP as <-. lia. }
  cbn [removeClues] in HP.
  destruct (Z.leb_spec cellsToRemove removed).
  { injection HP as <-. lia. }
  destruct (countSolutions _) as [n|]; [|done]. cbn [mbind option_bind] in HP.
  destruct (n =? 1)%Z; cbn [negb] in HP.
  - apply IH in HP; [|lia]. pose proof (zeroCount_setCell puzzle row col). lia.
  - rewrite restore_backup in HP. by apply IH in HP.
Qed.

Lemma targetClues_range random k min max :
  (min ≤ max)%Z →
  (min ≤ targetClues random k min max ≤ max)%Z.
Proof.
  intros Hle. unfold targetClues, randomBelow.
  pose proof (Nat.mod_upper_bound (random k) (Z.to_nat (max - min + 1))).
  lia.
Qed.
End clue_removal.

Lemma createPuzzleOn_invariant ps random k S min max :
  wf S → complete S →
  ∃ P, createPuzzleOn ps random k S min max = Some P ∧
    wf P ∧ extends P S ∧ countSolutions P = Some 1%Z ∧
    (digits09 S → digits09 P).
Proof.
  intros Hwf Hcomp. unfold createPuzzleOn. rewrite copyGrid_id.
  apply removeClues_invariant; [done|apply extends_refl|].
  by apply countSolutions_complete.
Qed.

(** A puzzle that is part of a valid solution and is counted once has that
    solution as its only completion. *)
Lemma counted_once_unique P S :
  wf P → digits09 P → extends P S → completion S S →
  countSolutions P = Some 1%Z → ∀ s, completion P s ↔ s = S.
Proof.
  intros Hwf Hd Hext HS Hone.
  assert (consistent P) as Hcons.
  { eapply consistent_extends; [exact Hext|]. apply HS. }
  destruct (completions_enumerable P Hwf Hd Hcons) as [Hnd Hmem].
  rewrite countSolutions_count in Hone by exact Hwf.
  generalize dependent (completionsFrom searchFuel P). intros L Hone Hnd Hmem.
  assert (length L = 1) as Hlen.
  { injection Hone as Hone. lia. }
  destruct (length_zero_one_two L Hnd) as (_ & H1 & _).
  apply H1 in Hlen as (x & Hx).
  assert (S = x) as <-.
  { apply Hx, Hmem. destruct HS as (HwfS & HdS & HcS & HconsS & _).
    split; [exact HwfS|]. split; [exact HdS|]. split; [exact HcS|].
    split; [exact HconsS|exact Hext]. }
  intros s. rewrite <- Hmem. apply Hx.
Qed.

(** C1. For a complete solution grid [S] and a difficulty tier, the puzzle
    [P] that [createPuzzle] returns is part of [S] (every nonzero cell of
    [P] equals the cell of [S]), and [countSolutions] on a copy of [P]
    returns exactly 1; when [S] is a valid solution, [S] is the one
    completion of [P] under the rules. This holds for [createPuzzle] of
    both scripts. *)
Theorem createPuzzle_unique_solution (random : nat → nat) (k : nat)
    (S : Grid) (difficulty : Difficulty) :
  wf S → complete S →
  Forall (λ create : (nat → nat) → nat → Grid → Difficulty → option Grid,
            ∃ P, create random k S difficulty = Some P ∧
              (∀ r c v, cell P r c = Some v → v ≠ 0%Z →
                        cell S r c = Some v) ∧
              countSolutions (copyGrid P) = Some 1%Z ∧
              (digits09 S → consistent S →
                 ∀ s, completion P s ↔ s = S))
         [createPuzzle; createPuzzlePwa].
Proof.
  intros Hwf Hcomp.
  assert (∀ ps min max,
            ∃ P, createPuzzleOn ps random k S min max = Some P ∧
              (∀ r c v, cell P r c = Some v → v ≠ 0%Z →
                        cell S r c = Some v) ∧
              countSolutions (copyGrid P) = Some 1%Z ∧
              (digits09 S → consistent S →
                 ∀ s, completion P s ↔ s = S)) as Hon.
  { intros ps min max.
    destruct (createPuzzleOn_invariant ps random k S min max Hwf Hcomp)
      as (P & HP & HwfP & Hext & Hone & Hd).
    exists P. split; [done|]. split; [done|]. rewrite copyGrid_id.
    split; [done|]. intros HdS HconsS.
    apply counted_once_unique; [done|by apply Hd|done| |done].
    split; [done|]. split; [done|]. split; [done|]. split; [done|].
    apply extends_refl. }
  apply Forall_cons. split; [|apply Forall_cons; split; [|by apply Forall_nil]].
  - unfold createPuzzle, createPuzzleTier.
    destruct (DIFFICULTY difficulty) as [min max]. apply Hon.
  - unfold createPuzzlePwa, createPuzzleTierPwa.
    destruct (DIFFICULTY difficulty) as [min max]. apply Hon.
Qed.

Lemma canonical_complete : wf canonical ∧ complete canonical.
Proof. destruct canonical_solved as (? & _ & ? & _). done. Qed.

Lemma createPuzzle_unique_solution_witness :
  (wf canonical ∧ complete canonical) ∧
  Forall (λ create : (nat → nat) → nat → Grid → Difficulty → option Grid,
            ∃ P, create (λ _, 0) 0 canonical medium = Some P ∧
              (∀ r c v, cell P r c = Some v → v ≠ 0%Z →
                        cell canonical r c = Some v) ∧
              countSolutions (copyGrid P) = Some 1%Z ∧
              (digits09 canonical → consistent canonical →
                 ∀ s, completion P s ↔ s = canonical))
         [createPuzzle; createPuzzlePwa].
Proof.
  split; [exact canonical_complete|].
  exact (createPuzzle_unique_solution (λ _, 0) 0 canonical medium
           (proj1 canonical_complete) (proj2 canonical_complete)).
Defined.

(** C9. For a complete solution grid and a tier with
    [0 <= min <= max <= 81], the target clue count lies in [[min, max]],
    and [createPuzzle] empties at most [81 - target] cells: the puzzle
    keeps at least [target] clues, so at least [min]. This holds for
    [createPuzzle] of both scripts. *)
Theorem createPuzzle_clue_count (random : nat → nat) (k : nat) (S : Grid)
    (min max : Z) :
  wf S → complete S → (0 ≤ min)%Z → (min ≤ max)%Z → (max ≤ 81)%Z →
  (min ≤ targetClues random k min max ≤ max)%Z ∧
  Forall (λ create : (nat → nat) → nat → Grid → Z → Z → option Grid,
            ∃ P, create random k S min max = Some P ∧
              (Z.of_nat (zeroCount P)
               ≤ 81 - targetClues random k min max)%Z ∧
              (targetClues random k min max ≤ Z.of_nat (clueCount P))%Z ∧
              (min ≤ Z.of_nat (clueCount P))%Z)
         [createPuzzleTier; createPuzzleTierPwa].
Proof.
  intros Hwf Hcomp Hmin Hle Hmax.
  pose proof (targetClues_range random k min max Hle) as Htarget.
  split; [done|].
  assert (∀ ps,
            ∃ P, createPuzzleOn ps random k S min max = Some P ∧
              (Z.of_nat (zeroCount P)
               ≤ 81 - targetClues random k min max)%Z ∧
              (targetClues random k min max ≤ Z.of_nat (clueCount P))%Z ∧
              (min ≤ Z.of_nat (clueCount P))%Z) as Hon.
  { intros ps.
    destruct (createPuzzleOn_invariant ps random k S min max Hwf Hcomp)
      as (P & HP & HwfP & _).
    exists P. split; [done|]. unfold createPuzzleOn in HP.
    apply removeClues_count in HP; [|lia].
    rewrite copyGrid_id, (zeroCount_complete S Hcomp) in HP.
    pose proof (clue_zero_count P HwfP). lia. }
  apply Forall_cons. split; [|apply Forall_cons; split; [|by apply Forall_nil]].
  - unfold createPuzzleTier. apply Hon.
  - unfold createPuzzleTierPwa. apply Hon.
Qed.

Lemma createPuzzle_clue_count_witness :
  (wf canonical ∧ complete canonical ∧ (0 ≤ 40)%Z ∧ (40 ≤ 45)%Z
   ∧ (45 ≤ 81)%Z) ∧
  (40 ≤ targetClues (λ n, n) 3 40 45 ≤ 45)%Z ∧
  Forall (λ create : (nat → nat) → nat → Grid → Z → Z → option Grid,
            ∃ P, create (λ n, n) 3 canonical 40%Z 45%Z = Some P ∧
              (Z.of_nat (zeroCount P)
               ≤ 81 - targetClues (λ n, n) 3 40 45)%Z ∧
              (targetClues (λ n, n) 3 40 45 ≤ Z.of_nat (clueCount P))%Z ∧
              (40 ≤ Z.of_nat (clueCount P))%Z)
         [createPuzzleTier; createPuzzleTierPwa].
Proof.
  split.
  - split; [exact (proj1 canonical_complete)|].
    split; [exact (proj2 canonical_complete)|]. lia.
  - apply (createPuzzle_clue_count (λ n, n) 3 canonical 40%Z 45%Z);
      [exact (proj1 canonical_complete)|exact (proj2 canonical_complete)
      |lia|lia|lia].
Defined.

(** * The solver on the store

    Whether [solve] changes its argument is a question about objects, not
    values. Here arrays live in a store: a row array holds its cells, a
    grid array holds references to its row arrays, a write goes through the
    references, and [grid.map(row => [...row])] allocates new arrays. *)

Module Store.

(** The functions on values, under names that stay visible below. *)
Abbreviation tryNumbersV := tryNumbers.
Abbreviation backtrackV := backtrack.
Abbreviation solveV := solve.

Abbreviation loc := nat.

Inductive obj :=
  | Row (cells : list Z)
  | Rows (refs : list loc).

Abbreviation heap := (gmap loc obj).

(** The cells of the row array at [l]. *)
Definition rowAt (h : heap) (l : loc) : list Z :=
  match h !! l with
  | Some (Row cells) => cells
  | _ => []
  end.

(** The content of the grid array at [grid], as the reads [grid[r][c]]
    see it. *)
Definition view (h : heap) (grid : loc) : Grid :=
  match h !! grid with
  | Some (Rows refs) => rowAt h <$> refs
  | _ => []
  end.

(** [grid[r][c] = v] *)
Definition writeCell (h : heap) (grid : loc) (r c : nat) (v : Z) : heap :=
  match h !! grid with
  | Some (Rows refs) =>
      match refs !! r with
      | Some l =>
          match h !! l with
          | Some (Row cells) => <[l := Row (<[c := v]> cells)]> h
          | _ => h
          end
      | None => h
      end
  | _ => h
  end.

(** [rows.map(row => [...row])]: a new row array for each row. [None] is
    the [TypeError] of spreading something that is no row array. *)
Fixpoint copyRows (h : heap) (refs : list loc) : option (heap * list loc) :=
  match refs with
  | [] => Some (h, [])
  | l :: rest =>
      match h !! l with
      | Some (Row cells) =>
          let l' := fresh (dom h) in
          '(h', ls) ← copyRows (<[l' := Row cells]> h) rest;
          Some (h', l' :: ls)
      | _ => None
      end
  end.

(** [grid.map(row => [...row])] *)
Definition copyGrid (h : heap) (grid : loc) : option (heap * loc) :=
  match h !! grid with
  | Some (Rows refs) =>
      '(h1, refs') ← copyRows h refs;
      let copy := fresh (dom h1) in
      Some (<[copy := Rows refs']> h1, copy)
  | _ => None
  end.

(** The loop of [backtrack], its writes going to the store. *)
Fixpoint tryNumbers (rec : heap → option (bool * heap)) (copy : loc)
    (row col : nat) (numbers : list Z) (h : heap) : option (bool * heap) :=
  match numbers with
  | [] => Some (false, h)
  | num :: rest =>
      if isValid (view h copy) row col num then
        match rec (writeCell h copy row col num) with
        | None => None
        | Some (true, h') => Some (true, h')
        | Some (false, h') =>
            tryNumbers rec copy row col rest (writeCell h' copy row col 0)
        end
      else tryNumbers rec copy row col rest h
  end.

(** The solver's [backtrack(row, col)], closed over the reference
    [copy]. *)
Fixpoint backtrack (fuel : nat) (h : heap) (copy : loc) (row col : nat)
    : option (bool * heap) :=
  match fuel with
  | 0 => None
  | S fuel' =>
      let '(row, col) := if col =? 9 then (row + 1, 0) else (row, col) in
      if row =? 9 then Some (true, h)
      else if negb (cellIs (view h copy) row col 0) then
        backtrack fuel' h copy row (col + 1)
      else
        tryNumbers (λ h, backtrack fuel' h copy row (col + 1))
                   copy row col digits h
  end.

(** [solve(grid)]: the returned reference ([None] for [null]) and the
    store the call leaves. *)
Definition solve (h : heap) (grid : loc) : option (option loc * heap) :=
  '(h1, copy) ← copyGrid h grid;
  '(found, h2) ← backtrack searchFuel h1 copy 0 0;
  Some (if found : bool then Some copy else None, h2).

(** [grid] is a grid array of the store: an array of row arrays. *)
Definition isGrid (h : heap) (grid : loc) : Prop :=
  ∃ refs, h !! grid = Some (Rows refs) ∧
    Forall (λ l, ∃ cells, h !! l = Some (Row cells)) refs.

(** [copy] is a grid array whose rows are the distinct row arrays
    [refs]. *)
Definition owns (h : heap) (copy : loc) (refs : list loc) : Prop :=
  h !! copy = Some (Rows refs) ∧ NoDup refs ∧
  Forall (λ l, ∃ cells, h !! l = Some (Row cells)) refs.

Section store.
Implicit Types (h : heap) (refs : list loc).

Lemma rowAt_insert_ne h l l' o : l ≠ l' → rowAt (<[l := o]> h) l' = rowAt h l'.
Proof. intros Hne. unfold rowAt. by rewrite lookup_insert_ne. Qed.

(** A write through [copy] changes the view of [copy] as [setCell] does,
    and touches no object but the rows of [copy]. *)
Lemma writeCell_owned h copy refs r c v :
  owns h copy refs →
  view (writeCell h copy r c v) copy = setCell (view h copy) r c v ∧
  owns (writeCell h copy r c v) copy refs ∧
  ∀ l, l ∉ refs → writeCell h copy r c v !! l = h !! l.
Proof.
  intros (Hcopy & Hnd & Hrows). unfold writeCell. rewrite Hcopy.
  destruct (refs !! r) as [l|] eqn:Hl.
  - rewrite Forall_forall in Hrows.
    destruct (Hrows l) as [cells Hcells]; [by eapply list_elem_of_lookup_2|].
    rewrite Hcells.
    assert (copy ≠ l) as Hne by congruence.
    split; [|split].
    + unfold view. rewrite lookup_insert_ne by done. rewrite Hcopy.
      unfold setCell. apply list_eq. intros i.
      rewrite list_lookup_fmap. destruct (decide (i = r)) as [->|Hir].
      * rewrite list_lookup_alter_eq, list_lookup_fmap, Hl. simpl.
        unfold rowAt. by rewrite lookup_insert_eq, Hcells.
      * rewrite list_lookup_alter_ne, list_lookup_fmap by done.
        destruct (refs !! i) as [li|] eqn:Hli; [|done]. simpl. f_equal.
        apply rowAt_insert_ne. intros ->. apply Hir.
        by eapply (NoDup_lookup refs).
    + split; [by rewrite lookup_insert_ne|]. split; [done|].
      apply Forall_forall. intros l' Hl'.
      destruct (decide (l = l')) as [<-|Hll].
      * rewrite lookup_insert_eq. by eexists.
      * rewrite lookup_insert_ne by done. by apply Hrows.
    + intros l' Hl'. apply lookup_insert_ne. intros <-. apply Hl'.
      by eapply list_elem_of_lookup_2.
  - split; [|done]. unfold setCell, view. rewrite Hcopy.
    apply list_eq. intros i. destruct (decide (i = r)) as [->|Hir].
    + by rewrite list_lookup_alter_eq, list_lookup_fmap, Hl.
    + by rewrite list_lookup_alter_ne.
Qed.

(** The run on the store against the run on values: same result, the view
    of [copy] is the grid the run on values leaves, and no object but the
    rows of [copy] differs from the store [h0] the run started in. *)
Definition simulates (copy : loc) refs (h0 : heap)
    (onStore : option (bool * heap)) (onValues : option (bool * Grid))
    : Prop :=
  match onValues with
  | None => onStore = None
  | Some (b, g') =>
      ∃ h', onStore = Some (b, h') ∧ view h' copy = g' ∧
        owns h' copy refs ∧ ∀ l, l ∉ refs → h' !! l = h0 !! l
  end.

Lemma tryNumbers_simulates (recS : heap → option (bool * heap))
    (recV : Grid → option (bool * Grid)) copy refs row col :
  (∀ h, owns h copy refs → simulates copy refs h (recS h) (recV (view h copy))) →
  ∀ numbers h, owns h copy refs →
  simulates copy refs h
    (tryNumbers recS copy row col numbers h)
    ('(b, g, _) ← tryNumbersV
        (λ (_ : unit) g, '(b, g') ← recV g; Some (b, g', ()))
        row col numbers () (view h copy);
     Some (b, g)).
Proof.
  intros Hrec numbers. induction numbers as [|n rest IH]; intros h Hown.
  { simpl. by exists h. }
  cbn [tryNumbers tryNumbersV].
  destruct (isValid (view h copy) row col n); [|by apply IH].
  destruct (writeCell_owned h copy refs row col n Hown) as (Hv1 & Hown1 & Hfr1).
  specialize (Hrec _ Hown1). rewrite Hv1 in Hrec.
  destruct (recV (setCell (view h copy) row col n)) as [[b g']|]; simpl in *.
  - destruct Hrec as (h' & -> & Hv' & Hown' & Hfr'). destruct b; simpl.
    + exists h'. split; [done|]. split; [done|]. split; [done|].
      intros l Hl. rewrite Hfr' by done. by apply Hfr1.
    + destruct (writeCell_owned h' copy refs row col 0 Hown')
        as (Hv2 & Hown2 & Hfr2).
      specialize (IH _ Hown2). rewrite Hv2, Hv' in IH.
      destruct (tryNumbersV _ row col rest () (setCell g' row col 0))
        as [[[b g''] []]|]; simpl in *; [|done].
      destruct IH as (h'' & -> & Hv'' & Hown'' & Hfr'').
      exists h''. split; [done|]. split; [done|]. split; [done|].
      intros l Hl. rewrite Hfr'', Hfr2, Hfr' by done. by apply Hfr1.
  - by rewrite Hrec.
Qed.

Lemma backtrack_simulates copy refs fuel : ∀ h row col,
  owns h copy refs →
  simulates copy refs h (backtrack fuel h copy row col)
    (backtrackV fuel (view h copy) row col).
Proof.
  induction fuel as [|fuel IH]; intros h row col Hown; [done|].
  cbn [backtrack backtrackV].
  destruct (if col =? 9 then _ else _) as [row1 col1].
  destruct (row1 =? 9). { by exists h. }
  destruct (negb _); [by apply IH|].
  apply tryNumbers_simulates; [|done]. intros h1 Hown1. by apply IH.
Qed.

Lemma copyRows_fresh : ∀ refs h,
  Forall (λ l, ∃ cells, h !! l = Some (Row cells)) refs →
  ∃ h' refs', copyRows h refs = Some (h', refs') ∧
    (∀ l, l ∈ dom h → h' !! l = h !! l) ∧
    NoDup refs' ∧ (∀ l, l ∈ refs' → l ∉ dom h) ∧
    Forall (λ l, ∃ cells, h' !! l = Some (Row cells)) refs' ∧
    rowAt h' <$> refs' = rowAt h <$> refs.
Proof.
  induction refs as [|l rest IH]; intros h Hrows.
  { exists h, []. repeat split; try done; [constructor|set_solver]. }
  apply Forall_cons in Hrows as [[cells Hl] Hrest]. cbn [copyRows].
  rewrite Hl. set (l' := fresh (dom h)).
  assert (l' ∉ dom h) as Hfresh by apply is_fresh.
  assert (h !! l' = None) as Hnone by by apply not_elem_of_dom.
  destruct (IH (<[l' := Row cells]> h)) as
    (h' & refs' & -> & Hkeep & Hnd & Hnew & Hrows' & Hview).
  { eapply Forall_impl; [exact Hrest|]. intros x [cs Hx]. exists cs.
    rewrite lookup_insert_ne; [done|]. congruence. }
  exists h', (l' :: refs'). split; [done|].
  assert (h' !! l' = Some (Row cells)) as Hl'.
  { rewrite Hkeep; [apply lookup_insert_eq|]. rewrite dom_insert_L. set_solver. }
  split; [|split; [|split; [|split]]].
  - intros x Hx. rewrite Hkeep by (rewrite dom_insert_L; set_solver).
    apply lookup_insert_ne. congruence.
  - constructor; [|done]. intros Hin. apply (Hnew l' Hin).
    rewrite dom_insert_L. set_solver.
  - intros x Hx. apply elem_of_cons in Hx as [->|Hx]; [done|].
    specialize (Hnew x Hx). rewrite dom_insert_L in Hnew. set_solver.
  - apply Forall_cons. split; [by eexists|done].
  - cbn [fmap list_fmap]. f_equal.
    + unfold rowAt. by rewrite Hl', Hl.
    + etrans; [exact Hview|]. apply list_fmap_ext. intros i x Hx.
      apply rowAt_insert_ne. rewrite Forall_forall in Hrest.
      destruct (Hrest x) as [cs Hcs]; [by eapply list_elem_of_lookup_2|].
      congruence.
Qed.

Lemma copyGrid_fresh h grid :
  isGrid h grid →
  ∃ h1 copy refs', copyGrid h grid = Some (h1, copy) ∧
    (∀ l, l ∈ dom h → h1 !! l = h !! l) ∧
    (copy ∉ dom h) ∧ (∀ l, l ∈ refs' → l ∉ dom h) ∧
    owns h1 copy refs' ∧ view h1 copy = view h grid.
Proof.
  intros (refs & Hgrid & Hrows). unfold copyGrid. rewrite Hgrid.
  destruct (copyRows_fresh refs h Hrows) as
    (h' & refs' & -> & Hkeep & Hnd & Hnew & Hrows' & Hview).
  cbn [mbind option_bind]. set (copy := fresh (dom h')).
  assert (copy ∉ dom h') as Hfresh by apply is_fresh.
  assert (∀ l, l ∈ dom h → l ∈ dom h') as Hsub.
  { intros l Hl. apply elem_of_dom. rewrite Hkeep by done. by apply elem_of_dom. }
  assert (∀ l, l ∈ refs' → l ≠ copy) as Hne.
  { intros l Hl ->. rewrite Forall_forall in Hrows'.
    destruct (Hrows' copy Hl) as [cs Hcs]. apply Hfresh, elem_of_dom. by eexists. }
  exists (<[copy := Rows refs']> h'), copy, refs'. split; [done|].
  split; [|split; [|split; [done|split]]].
  - intros l Hl. rewrite lookup_insert_ne; [by apply Hkeep|].
    intros <-. by apply Hfresh, Hsub.
  - intros Hc. by apply Hfresh, Hsub.
  - split; [apply lookup_insert_eq|]. split; [done|].
    apply Forall_forall. intros l Hl. rewrite Forall_forall in Hrows'.
    rewrite lookup_insert_ne; [by apply Hrows'|]. intros <-. by apply (Hne copy).
  - unfold view at 1. rewrite lookup_insert_eq. unfold view. rewrite Hgrid.
    rewrite <- Hview. apply list_fmap_ext. intros i l Hl.
    apply rowAt_insert_ne. intros <-.
    apply (Hne copy); [by eapply list_elem_of_lookup_2|done].
Qed.

Lemma view_unchanged h h' grid :
  isGrid h grid → (∀ l, l ∈ dom h → h' !! l = h !! l) →
  view h' grid = view h grid.
Proof.
  intros (refs & Hgrid & Hrows) Hkeep. unfold view.
  rewrite Hkeep by (apply elem_of_dom; by eexists). rewrite Hgrid.
  apply list_fmap_ext. intros i l Hl. unfold rowAt.
  rewrite Forall_forall in Hrows.
  destruct (Hrows l) as [cs Hcs]; [by eapply list_elem_of_lookup_2|].
  rewrite Hkeep; [done|]. apply elem_of_dom. by eexists.
Qed.

Lemma solve_run h grid h1 copy b h2 :
  copyGrid h grid = Some (h1, copy) →
  backtrack searchFuel h1 copy 0 0 = Some (b, h2) →
  solve h grid = Some (if b then Some copy else None, h2).
Proof.
  intros Hcopy Hrun. unfold solve. rewrite Hcopy.
  generalize dependent searchFuel. intros fuel Hrun.
  cbn [mbind option_bind]. by rewrite Hrun.
Qed.

Lemma backtrack_total g :
  wf g → ∃ b g', backtrackV searchFuel g 0 0 = Some (b, g').
Proof.
  intros Hwf. rewrite backtrack_search.
  destruct (search_post pickAscending pickAscending_digits
              searchFuel () g 0 0)
    as (b & g' & [] & Heq & _); [done|lia|lia|unfold searchFuel; lia|].
  exists b, g'. by rewrite Heq.
Qed.
End store.

(** A store with the grid [twoRowsEmpty]: its rows at 0 to 8, the grid
    array at 9. *)
Definition sampleStore : heap :=
  list_to_map (zip (seq 0 9) (Row <$> twoRowsEmpty) ++ [(9, Rows (seq 0 9))]).

(** C10. [solve] does not change its argument: every object the store
    held before the call, the grid array and its row arrays among them, is
    the same after it, so the input reads cell for cell as before, whether
    the call returns a grid or [null]. A returned grid is a new array with
    new row arrays, and it holds what [solve] returns on values. *)
Theorem solve_leaves_argument (h : heap) (grid : loc) :
  isGrid h grid → wf (view h grid) →
  ∃ res h', solve h grid = Some (res, h') ∧
    (∀ l, l ∈ dom h → h' !! l = h !! l) ∧
    view h' grid = view h grid ∧
    (∀ s, res = Some s →
       s ≠ grid ∧ (s ∉ dom h) ∧
       ∃ refs, h' !! s = Some (Rows refs) ∧ ∀ l, l ∈ refs → l ∉ dom h) ∧
    solveV (view h grid) = Some (view h' <$> res).
Proof.
  intros Hgrid Hwf.
  destruct (copyGrid_fresh h grid Hgrid) as
    (h1 & copy & refs' & Hcopy & Hkeep & Hfresh & Hnew & Hown & Hview).
  pose proof (backtrack_simulates copy refs' searchFuel h1 0 0 Hown) as Hsim.
  rewrite Hview in Hsim.
  destruct (backtrack_total (view h grid) Hwf) as (b & g' & Hpure).
  pose proof (solve_backtrack _ _ _ Hpure) as Hsolve.
  rewrite Hpure in Hsim. clear Hpure.
  destruct Hsim as (h2 & Hrun & Hv2 & Hown2 & Hframe).
  pose proof (solve_run _ _ _ _ _ _ Hcopy Hrun) as Hres. clear Hrun.
  assert (∀ l, l ∈ dom h → h2 !! l = h !! l) as Hkeep2.
  { intros l Hl. rewrite Hframe; [by apply Hkeep|].
    intros Hin. by apply (Hnew l). }
  exists (if b then Some copy else None), h2.
  split; [exact Hres|]. split; [exact Hkeep2|].
  split; [by apply view_unchanged|]. split.
  - intros s Hs. destruct b; [|discriminate Hs]. injection Hs as <-.
    split; [|split; [exact Hfresh|]].
    + intros ->. apply Hfresh. destruct Hgrid as (refs & Hg & _).
      apply elem_of_dom. by eexists.
    + exists refs'. split; [apply Hown2|exact Hnew].
  - rewrite Hsolve. destruct b; cbn [fmap option_fmap option_map];
      [rewrite Hv2|]; reflexivity.
Qed.
End Store.

Lemma sampleStore_grid :
  Store.isGrid Store.sampleStore 9 ∧ wf (Store.view Store.sampleStore 9).
Proof.
  split.
  - exists (seq 0 9). split; [by vm_compute|].
    repeat (apply Forall_cons; split; [eexists; by vm_compute|]).
    by apply Forall_nil.
  - by apply (bool_decide_unpack _); vm_compute.
Qed.

Lemma solve_leaves_argument_witness :
  (Store.isGrid Store.sampleStore 9 ∧ wf (Store.view Store.sampleStore 9)) ∧
  ∃ res h', Store.solve Store.sampleStore 9 = Some (res, h') ∧
    (∀ l, l ∈ dom Store.sampleStore → h' !! l = Store.sampleStore !! l) ∧
    Store.view h' 9 = Store.view Store.sampleStore 9 ∧
    (∀ s, res = Some s →
       s ≠ 9 ∧ (s ∉ dom Store.sampleStore) ∧
       ∃ refs, h' !! s = Some (Store.Rows refs) ∧
               ∀ l, l ∈ refs → l ∉ dom Store.sampleStore) ∧
    solve (Store.view Store.sampleStore 9) = Some (Store.view h' <$> res).
Proof.
  split; [exact sampleStore_grid|].
  exact (Store.solve_leaves_argument Store.sampleStore 9
           (proj1 sampleStore_grid) (proj2 sampleStore_grid)).
Defined.

(** * Notes

    [notes] is a 9x9 array of [Set]s of digits. Only membership, size and
    copies of a set are used, and every set stored in a history entry or
    written back from one is a fresh copy ([new Set(...)]), so sets are
    values here. *)

Abbreviation NotesGrid := (list (list (gset Z))).

(** [notes[r][c]] *)
Definition noteAt (notes : NotesGrid) (r c : nat) : option (gset Z) :=
  notes !! r ≫= (.!! c).

(** [notes[r][c] = x], and the in-place updates of the set at [r], [c] *)
Definition setNote (notes : NotesGrid) (r c : nat) (x : gset Z) : NotesGrid :=
  alter (<[c := x]>) r notes.

(** [notes[r][c].delete(num)] *)
Definition deleteNote (num : Z) (notes : NotesGrid) (p : nat * nat)
    : NotesGrid :=
  alter (alter (λ x, x ∖ {[num]}) p.2) p.1 notes.

(** [Array(9).fill(null).map(() => Array(9).fill(null).map(() => new Set()))] *)
Definition emptyNotes : NotesGrid := replicate 9 (replicate 9 ∅).

(** The cells [removeRelatedNotes] visits, in its order: row and column
    interleaved, then the box. *)
Definition relatedCells (row col : nat) : list (nat * nat) :=
  (i ← seq 0 9; [(row, i); (i, col)]) ++
  (r ← seq (row / 3 * 3) 3; c ← seq (col / 3 * 3) 3; [(r, c)]).

(** [removeRelatedNotes(row, col, num)] *)
Definition removeRelatedNotes (notes : NotesGrid) (row col : nat) (num : Z)
    : NotesGrid :=
  foldl (deleteNote num) notes (relatedCells row col).

(** [notes.has(num) ? notes.delete(num) : notes.add(num)] *)
Definition toggleNote (num : Z) (x : gset Z) : gset Z :=
  if bool_decide (num ∈ x) then x ∖ {[num]} else x ∪ {[num]}.

(** The board matches the solution on all 81 cells: the test of
    [checkWin] / [checkWinCondition]. *)
Definition boardSolved (board solution : Grid) : bool :=
  forallb (λ p, bool_decide (cell board p.1 p.2 = cell solution p.1 p.2))
          positions.

(** The cells where the board differs from the solution, in row-major
    order: the [candidates] of a hint. *)
Definition hintCandidates (board solution : Grid) : list (nat * nat) :=
  filter (λ p, cell board p.1 p.2 ≠ cell solution p.1 p.2) positions.

Section notes_basics.
Implicit Types (notes : NotesGrid) (x : gset Z).

Lemma noteAt_setNote_ne notes r c x r' c' :
  (r, c) ≠ (r', c') → noteAt (setNote notes r c x) r' c' = noteAt notes r' c'.
Proof.
  intros Hne. unfold noteAt, setNote. destruct (decide (r = r')) as [->|Hr].
  - rewrite list_lookup_alter_eq. destruct (notes !! r') as [rw|]; [|done].
    simpl. apply list_lookup_insert_ne. congruence.
  - by rewrite list_lookup_alter_ne.
Qed.

Lemma noteAt_setNote_eq notes r c x y :
  noteAt notes r c = Some y → noteAt (setNote notes r c x) r c = Some x.
Proof.
  unfold noteAt, setNote. intros H. rewrite list_lookup_alter_eq.
  destruct (notes !! r) as [rw|]; [|done]. simpl in *.
  apply list_lookup_insert_eq. by eapply lookup_lt_Some.
Qed.

Lemma setNote_setNote notes r c x y :
  setNote (setNote notes r c x) r c y = setNote notes r c y.
Proof.
  unfold setNote. rewrite list_alter_alter_eq. apply list_alter_ext; [|done].
  intros rw _. simpl. apply list_insert_insert_eq.
Qed.

Lemma setNote_id notes r c x : noteAt notes r c = Some x → setNote notes r c x = notes.
Proof.
  unfold noteAt, setNote. intros H.
  destruct (notes !! r) as [rw|] eqn:Hrow; [|done]. simpl in H.
  apply list_eq. intros i. destruct (decide (i = r)) as [->|Hne].
  - rewrite list_lookup_alter_eq, Hrow. simpl. f_equal. by apply list_insert_id.
  - by rewrite list_lookup_alter_ne.
Qed.

Lemma setNote_restore notes r c x y :
  noteAt notes r c = Some x → setNote (setNote notes r c y) r c x = notes.
Proof. intros H. rewrite setNote_setNote. by apply setNote_id. Qed.

Lemma cell_setCell_same (g : Grid) r c v w :
  cell g r c = Some w → cell (setCell g r c v) r c = Some v.
Proof.
  unfold cell, setCell. intros H. rewrite list_lookup_alter_eq.
  destruct (g !! r) as [rw|]; [|done]. simpl in *.
  apply list_lookup_insert_eq. by eapply lookup_lt_Some.
Qed.
End notes_basics.

Lemma snoc_neq {A} (l : list A) x : l ≠ l ++ [x].
Proof.
  intros H. apply (f_equal length) in H. rewrite length_app in H. simpl in H.
  lia.
Qed.

(** * Chains of reversible edits

    A history entry applied forward ([applyE]) and backward ([unapplyE])
    to a component [X] of the state (the board, the notes). [okE e x] says
    that [e] was recorded at [x]: its old state is the one [x] holds. *)

Section chain.
Context {E X : Type} (applyE unapplyE : E → X → X) (okE : E → X → Prop).

(** The component after the entries [es], oldest first. *)
Definition replay (es : list E) (x : X) : X :=
  foldl (λ x e, applyE e x) x es.

(** Each entry was recorded at the state the entries before it lead to. *)
Fixpoint chainOk (x : X) (es : list E) : Prop :=
  match es with
  | [] => True
  | e :: rest => okE e x ∧ chainOk (applyE e x) rest
  end.

Lemma replay_snoc d e x : replay (d ++ [e]) x = applyE e (replay d x).
Proof. unfold replay. by rewrite foldl_app. Qed.

Lemma chainOk_middle x d e t : chainOk x (d ++ e :: t) → okE e (replay d x).
Proof.
  revert x. induction d as [|a d IH]; intros x; simpl.
  - by intros [? _].
  - intros [_ H]. by apply IH.
Qed.
End chain.

Lemma replay_app {E X} (applyE : E → X → X) d t x :
  replay applyE (d ++ t) x = replay applyE t (replay applyE d x).
Proof. unfold replay. by rewrite foldl_app. Qed.

Lemma chainOk_app {E X} (applyE : E → X → X) (okE : E → X → Prop) x d t :
  chainOk applyE okE x (d ++ t)
  ↔ chainOk applyE okE x d ∧ chainOk applyE okE (replay applyE d x) t.
Proof.
  revert x. induction d as [|a d IH]; intros x; simpl; [tauto|].
  rewrite IH. tauto.
Qed.

(** An undo/redo walk over [k] entries: [cursor k pos us] is where the
    walk [us] ends when it starts with [pos] entries applied; there is none
    when the walk undoes with nothing applied, redoes with nothing undone,
    or holds another action. *)
Section cursor.
Context {A : Type} (isUndo isRedo : A → bool).

Fixpoint cursor (k pos : nat) (us : list A) : option nat :=
  match us with
  | [] => Some pos
  | a :: rest =>
      if isUndo a then
        if pos =? 0 then None else cursor k (pos - 1) rest
      else if isRedo a then
        if k <=? pos then None else cursor k (pos + 1) rest
      else None
  end.

Context (u r : A).
Hypothesis undo_is_undo : isUndo u = true.
Hypothesis redo_is_redo : isRedo r = true.
Hypothesis redo_not_undo : isUndo r = false.

(** [k] undos after [n] entries stand at entry [n - k]. *)
Lemma cursor_undos n us : ∀ k pos,
  k ≤ pos → cursor n pos (replicate k u ++ us) = cursor n (pos - k) us.
Proof.
  induction k as [|k IH]; intros pos Hk; [by rewrite Nat.sub_0_r|].
  cbn [replicate app cursor]. rewrite undo_is_undo.
  destruct (Nat.eqb_spec pos 0); [lia|]. rewrite IH by lia.
  f_equal. lia.
Qed.

(** [k] redos with [k] entries undone stand at the last entry again. *)
Lemma cursor_redos n us : ∀ k pos,
  pos + k ≤ n → cursor n pos (replicate k r ++ us) = cursor n (pos + k) us.
Proof.
  induction k as [|k IH]; intros pos Hk; [by rewrite Nat.add_0_r|].
  cbn [replicate app cursor]. rewrite redo_not_undo, redo_is_redo.
  destruct (Nat.leb_spec n pos); [lia|]. rewrite IH by lia.
  f_equal. lia.
Qed.

Lemma cursor_undos_redos n k :
  k ≤ n →
  cursor n n (replicate k u) = Some (n - k) ∧
  cursor n n (replicate k u ++ replicate k r) = Some n.
Proof.
  intros Hk. split.
  - rewrite <- (app_nil_r (replicate k u)). by rewrite cursor_undos.
  - rewrite cursor_undos by done. rewrite <- (app_nil_r (replicate k r)).
    rewrite cursor_redos by lia. cbn [cursor]. f_equal. lia.
Qed.
End cursor.

(** * The game controller of [script.js]

    [gameState] with the fields the moves read and write; the timer, the
    dates and the difficulty label are left out. [autoRemoveNotes] is
    [preferences.autoRemoveNotes]. Rendering, storage and animation have
    no effect on these fields. *)

Module Pwa.

Inductive EntryType := Note | Value | Erase | Hint.

(** A history entry. [newNotes] is [null] in one path of [inputNumber]. *)
Record Entry := {
  type : EntryType;
  row : nat;
  col : nat;
  oldValue : Z;
  oldNotes : gset Z;
  newValue : Z;
  newNotes : option (gset Z)
}.

Record GameState := {
  board : Grid;
  solution : Grid;
  initial : Grid;
  notes : NotesGrid;
  selected : option (nat * nat);
  hintsRemaining : Z;
  hintsUsed : Z;
  isNotesMode : bool;
  isPaused : bool;
  isComplete : bool;
  moveHistory : list Entry;
  redoStack : list Entry;
  autoRemoveNotes : bool
}.

(** Field updates. *)
Definition withCells (b : Grid) (n : NotesGrid) (s : GameState) : GameState :=
  {| board := b; solution := solution s; initial := initial s; notes := n;
     selected := selected s; hintsRemaining := hintsRemaining s;
     hintsUsed := hintsUsed s; isNotesMode := isNotesMode s;
     isPaused := isPaused s; isComplete := isComplete s;
     moveHistory := moveHistory s; redoStack := redoStack s;
     autoRemoveNotes := autoRemoveNotes s |}.

Definition withLog (mh rs : list Entry) (s : GameState) : GameState :=
  {| board := board s; solution := solution s; initial := initial s;
     notes := notes s; selected := selected s;
     hintsRemaining := hintsRemaining s; hintsUsed := hintsUsed s;
     isNotesMode := isNotesMode s; isPaused := isPaused s;
     isComplete := isComplete s; moveHistory := mh; redoStack := rs;
     autoRemoveNotes := autoRemoveNotes s |}.

Definition withFlags (sel : option (nat * nat)) (notesMode paused complete : bool)
    (s : GameState) : GameState :=
  {| board := board s; solution := solution s; initial := initial s;
     notes := notes s; selected := sel;
     hintsRemaining := hintsRemaining s; hintsUsed := hintsUsed s;
     isNotesMode := notesMode; isPaused := paused; isComplete := complete;
     moveHistory := moveHistory s; redoStack := redoStack s;
     autoRemoveNotes := autoRemoveNotes s |}.

Definition withHints (remaining used : Z) (s : GameState) : GameState :=
  {| board := board s; solution := solution s; initial := initial s;
     notes := notes s; selected := selected s;
     hintsRemaining := remaining; hintsUsed := used;
     isNotesMode := isNotesMode s; isPaused := isPaused s;
     isComplete := isComplete s; moveHistory := moveHistory s;
     redoStack := redoStack s; autoRemoveNotes := autoRemoveNotes s |}.

(** [gameState.moveHistory.push(entry); gameState.redoStack = [];] *)
Definition record (entry : Entry) (s : GameState) : GameState :=
  withLog (moveHistory s ++ [entry]) [] s.

(** [array.pop()]: the last element and the rest. *)
Definition pop {A} (array : list A) : option (A * list A) :=
  match reverse array with
  | [] => None
  | x :: rest => Some (x, reverse rest)
  end.

(** [checkWin()]: sets [isComplete] when the board is the solution. *)
Definition checkWin (s : GameState) : GameState :=
  if boardSolved (board s) (solution s)
  then withFlags (selected s) (isNotesMode s) (isPaused s) true s
  else s.

(** [selectCell(row, col)] *)
Definition selectCell (r c : nat) (s : GameState) : GameState :=
  if isPaused s || isComplete s then s
  else withFlags (Some (r, c)) (isNotesMode s) (isPaused s) (isComplete s) s.

(** [toggleNotes()] *)
Definition toggleNotes (s : GameState) : GameState :=
  withFlags (selected s) (negb (isNotesMode s)) (isPaused s) (isComplete s) s.

(** [togglePause()] *)
Definition togglePause (s : GameState) : GameState :=
  if isComplete s then s
  else withFlags (selected s) (isNotesMode s) (negb (isPaused s))
                 (isComplete s) s.

(** [inputNumber(num)]. On a state whose board or notes lack the selected
    cell the source would throw; the model leaves the state. *)
Definition inputNumber (num : Z) (s : GameState) : GameState :=
  match selected s with
  | None => s
  | Some (r, c) =>
      if isPaused s || isComplete s then s
      else if negb (cellIs (initial s) r c 0) then s
      else
        match cell (board s) r c, noteAt (notes s) r c with
        | Some old, Some oldN =>
            if isNotesMode s then
              let n := toggleNote num oldN in
              let b := if negb (old =? 0)%Z
                       then setCell (board s) r c 0 else board s in
              checkWin (record
                {| type := Note; row := r; col := c; oldValue := old;
                   oldNotes := oldN; newValue := 0; newNotes := Some n |}
                (withCells b (setNote (notes s) r c n) s))
            else if (old =? num)%Z then
              checkWin (record
                {| type := Value; row := r; col := c; oldValue := old;
                   oldNotes := oldN; newValue := 0; newNotes := None |}
                (withCells (setCell (board s) r c 0) (notes s) s))
            else
              let n := setNote (notes s) r c ∅ in
              let n := if autoRemoveNotes s
                       then removeRelatedNotes n r c num else n in
              checkWin (record
                {| type := Value; row := r; col := c; oldValue := old;
                   oldNotes := oldN; newValue := num; newNotes := Some ∅ |}
                (withCells (setCell (board s) r c num) n s))
        | _, _ => s
        end
  end.

(** [erase()] *)
Definition erase (s : GameState) : GameState :=
  match selected s with
  | None => s
  | Some (r, c) =>
      if isPaused s || isComplete s then s
      else if negb (cellIs (initial s) r c 0) then s
      else
        match cell (board s) r c, noteAt (notes s) r c with
        | Some old, Some oldN =>
            if (old =? 0)%Z && (size oldN =? 0) then s
            else
              withCells (setCell (board s) r c 0) (setNote (notes s) r c ∅)
                (record
                   {| type := Erase; row := r; col := c; oldValue := old;
                      oldNotes := oldN; newValue := 0; newNotes := Some ∅ |}
                   s)
        | _, _ => s
        end
  end.

(** [undo()] *)
Definition undo (s : GameState) : GameState :=
  if (length (moveHistory s) =? 0) || isPaused s || isComplete s then s
  else
    match pop (moveHistory s) with
    | None => s
    | Some (move, rest) =>
        withCells (setCell (board s) (row move) (col move) (oldValue move))
                  (setNote (notes s) (row move) (col move) (oldNotes move))
          (withLog rest (redoStack s ++ [move]) s)
    end.

(** [redo()]; [new Set(move.newNotes || [])] *)
Definition redo (s : GameState) : GameState :=
  if (length (redoStack s) =? 0) || isPaused s || isComplete s then s
  else
    match pop (redoStack s) with
    | None => s
    | Some (move, rest) =>
        withCells (setCell (board s) (row move) (col move) (newValue move))
                  (setNote (notes s) (row move) (col move)
                     (default ∅ (newNotes move)))
          (withLog (moveHistory s ++ [move]) rest s)
    end.

(** [hint()]; [draw] is the raw random draw that picks the candidate. *)
Definition hint (draw : nat) (s : GameState) : GameState :=
  if (hintsRemaining s <=? 0)%Z || isPaused s || isComplete s then s
  else
    let candidates := hintCandidates (board s) (solution s) in
    if length candidates =? 0 then s
    else
      match candidates !! (draw `mod` length candidates) with
      | None => s
      | Some (r, c) =>
          match cell (solution s) r c, cell (board s) r c,
                noteAt (notes s) r c with
          | Some correctValue, Some old, Some oldN =>
              checkWin
                (withHints (hintsRemaining s - 1) (hintsUsed s + 1)
                   (withCells (setCell (board s) r c correctValue)
                              (setNote (notes s) r c ∅)
                      (record
                         {| type := Hint; row := r; col := c;
                            oldValue := old; oldNotes := oldN;
                            newValue := correctValue; newNotes := Some ∅ |}
                         s)))
          | _, _, _ => s
          end
      end.

(** [autoSolve()]: the board becomes the solution, cell by cell, and every
    note set is cleared. *)
Definition autoSolve (s : GameState) : GameState :=
  if isPaused s || isComplete s then s
  else
    withFlags (selected s) (isNotesMode s) (isPaused s) true
      (withCells
         (foldl (λ b p, from_option (setCell b p.1 p.2) b
                          (cell (solution s) p.1 p.2))
                (board s) positions)
         (foldl (λ n p, setNote n p.1 p.2 ∅) (notes s) positions)
         s).

(** The state the callback of [newGame] builds from a generated puzzle. *)
Definition startGame (puzzle solution : Grid) (autoRemove : bool)
    : GameState :=
  {| board := copyGrid puzzle; solution := solution;
     initial := copyGrid puzzle; notes := emptyNotes; selected := None;
     hintsRemaining := 3; hintsUsed := 0; isNotesMode := false;
     isPaused := false; isComplete := false; moveHistory := [];
     redoStack := []; autoRemoveNotes := autoRemove |}.

(** [newGame(difficulty)], past the confirmation dialogue. *)
Definition newGame (random : nat → nat) (k : nat) (difficulty : Difficulty)
    (autoRemove : bool) : option GameState :=
  '(puzzle, solution) ← generate random k difficulty;
  Some (startGame puzzle solution autoRemove).

(** What the player can do. *)
Inductive Action :=
  | DoSelect (r c : nat)
  | DoToggleNotes
  | DoTogglePause
  | DoInput (num : Z)
  | DoErase
  | DoHint (draw : nat)
  | DoUndo
  | DoRedo
  | DoAutoSolve.

Definition step (a : Action) (s : GameState) : GameState :=
  match a with
  | DoSelect r c => selectCell r c s
  | DoToggleNotes => toggleNotes s
  | DoTogglePause => togglePause s
  | DoInput num => inputNumber num s
  | DoErase => erase s
  | DoHint draw => hint draw s
  | DoUndo => undo s
  | DoRedo => redo s
  | DoAutoSolve => autoSolve s
  end.

(** The state after a sequence of actions, first action first. *)
Definition run (acts : list Action) (s : GameState) : GameState :=
  foldl (λ s a, step a s) s acts.

(** ** Prefilled cells stay as they are *)

(** The cell is not a clue of the puzzle [init]. *)
Definition unfilled (init : Grid) (r c : nat) : Prop :=
  ∀ v, cell init r c = Some v → v = 0%Z.

(** Every clue of the puzzle is on the board. *)
Definition prefilledKept (s : GameState) : Prop :=
  ∀ r c v, cell (initial s) r c = Some v → v ≠ 0%Z →
    cell (board s) r c = Some v.

(** The clues are part of the solution, they are on the board, and no
    history entry is about a clue. *)
Definition sound (s : GameState) : Prop :=
  extends (initial s) (solution s) ∧ prefilledKept s ∧
  ∀ e, e ∈ moveHistory s ++ redoStack s → unfilled (initial s) (row e) (col e).

#[local] Opaque positions.

Section invariant.
Implicit Types (s : GameState) (e : Entry).

Lemma pop_Some {A} (l rest : list A) x :
  pop l = Some (x, rest) ↔ l = rest ++ [x].
Proof.
  unfold pop. split.
  - destruct (reverse l) as [|y r] eqn:Hr; [done|]. intros [= -> <-].
    apply (inj reverse). by rewrite reverse_snoc, reverse_involutive.
  - intros ->. by rewrite reverse_snoc, reverse_involutive.
Qed.

Lemma cellIs_unfilled init r c : cellIs init r c 0 = true → unfilled init r c.
Proof. intros H v Hv. apply cellIs_true in H. congruence. Qed.

Lemma sound_flags s sel nm p cmp : sound s → sound (withFlags sel nm p cmp s).
Proof. done. Qed.

Lemma sound_hints s a b : sound s → sound (withHints a b s).
Proof. done. Qed.

Lemma sound_checkWin s : sound s → sound (checkWin s).
Proof. unfold checkWin. by destruct (boardSolved _ _). Qed.

Lemma sound_record s e :
  sound s → unfilled (initial s) (row e) (col e) → sound (record e s).
Proof.
  intros (Hext & Hkept & Hlog) He. split; [done|]. split; [done|].
  intros e' Hin. simpl in Hin. rewrite app_nil_r in Hin.
  apply elem_of_app in Hin as [Hin|Hin].
  - apply Hlog. apply elem_of_app. by left.
  - apply list_elem_of_singleton in Hin as ->. done.
Qed.

Lemma sound_write s r c v n :
  sound s → unfilled (initial s) r c →
  sound (withCells (setCell (board s) r c v) n s).
Proof.
  intros (Hext & Hkept & Hlog) Hun. split; [done|]. split; [|done].
  intros r' c' w Hw Hw0. simpl. rewrite cell_setCell_ne; [by apply Hkept|].
  intros [= <- <-]. apply Hw0. by apply Hun.
Qed.

Lemma sound_notes s n : sound s → sound (withCells (board s) n s).
Proof. done. Qed.

Lemma hintCandidate_unfilled s r c :
  sound s → (r, c) ∈ hintCandidates (board s) (solution s) →
  unfilled (initial s) r c.
Proof.
  intros (Hext & Hkept & _) Hin v Hv.
  apply list_elem_of_filter in Hin as [Hne _]. simpl in Hne.
  destruct (decide (v = 0%Z)) as [|Hv0]; [done|]. exfalso. apply Hne.
  by rewrite (Hkept r c v), (Hext r c v).
Qed.

Lemma autoSolve_board solution : ∀ ps (b : Grid) r c v,
  cell b r c = Some v → cell solution r c = Some v →
  cell (foldl (λ b p, from_option (setCell b p.1 p.2) b
                        (cell solution p.1 p.2)) b ps) r c = Some v.
Proof.
  induction ps as [|p ps IH]; intros b r c v Hb Hs; [done|].
  simpl. apply IH; [|done].
  destruct (cell solution p.1 p.2) as [w|] eqn:Hw; [|done]. simpl.
  destruct (decide ((p.1, p.2) = (r, c))) as [E|N].
  - injection E as E1 E2. rewrite E1, E2 in *.
    rewrite (cell_setCell_same b r c w v Hb). congruence.
  - by rewrite cell_setCell_ne.
Qed.

Lemma step_sound a s :
  sound s →
  sound (step a s) ∧ initial (step a s) = initial s
  ∧ solution (step a s) = solution s.
Proof.
  intros Hs. destruct a; cbn [step].
  - unfold selectCell. by destruct (_ || _).
  - done.
  - unfold togglePause. by destruct (isComplete s).
  - unfold inputNumber. destruct (selected s) as [[r c]|]; [|done].
    destruct (_ || _); [done|].
    destruct (cellIs (initial s) r c 0) eqn:Hun; [|done]. cbn [negb].
    apply cellIs_unfilled in Hun.
    destruct (cell (board s) r c) as [old|]; [|done].
    destruct (noteAt (notes s) r c) as [oldN|]; [|done].
    assert (∀ e b n, row e = r → col e = c →
              (b = board s ∨ ∃ v, b = setCell (board s) r c v) →
              let s' := checkWin (record e (withCells b n s)) in
              sound s' ∧ initial s' = initial s ∧ solution s' = solution s)
      as Hedit.
    { intros e b n Hr Hc Hb. split.
      - apply sound_checkWin, sound_record; [|simpl; by rewrite Hr, Hc].
        destruct Hb as [->|[v ->]]; [done|by apply sound_write].
      - unfold checkWin. by destruct (boardSolved _ _). }
    destruct (isNotesMode s); [|destruct (old =? num)%Z].
    + apply Hedit; [done|done|]. destruct (negb _); [right; by eexists|by left].
    + apply Hedit; [done|done|]. right. by eexists.
    + apply Hedit; [done|done|]. right. by eexists.
  - unfold erase. destruct (selected s) as [[r c]|]; [|done].
    destruct (_ || _); [done|].
    destruct (cellIs (initial s) r c 0) eqn:Hun; [|done]. cbn [negb].
    apply cellIs_unfilled in Hun.
    destruct (cell (board s) r c) as [old|]; [|done].
    destruct (noteAt (notes s) r c) as [oldN|]; [|done].
    destruct (_ && _); [done|]. split; [|done].
    apply (sound_write (record _ s)); [|done]. by apply sound_record.
  - unfold hint. destruct (_ || _); [done|].
    destruct (length _ =? 0); [done|].
    destruct (_ !! _) as [[r c]|] eqn:Hcand; [|done].
    apply list_elem_of_lookup_2 in Hcand.
    pose proof (hintCandidate_unfilled s r c Hs Hcand) as Hun.
    destruct (cell (solution s) r c) as [correct|]; [|done].
    destruct (cell (board s) r c) as [old|]; [|done].
    destruct (noteAt (notes s) r c) as [oldN|]; [|done].
    split; [|unfold checkWin; by destruct (boardSolved _ _)].
    apply sound_checkWin, sound_hints.
    apply (sound_write (record _ s)); [|done]. by apply sound_record.
  - unfold undo. destruct (_ || _); [done|].
    destruct (pop (moveHistory s)) as [[move rest]|] eqn:Hpop; [|done].
    apply pop_Some in Hpop. split; [|done].
    destruct Hs as (Hext & Hkept & Hlog).
    assert (unfilled (initial s) (row move) (col move)) as Hun.
    { apply Hlog. rewrite Hpop, !elem_of_app, list_elem_of_singleton. tauto. }
    apply (sound_write (withLog rest (redoStack s ++ [move]) s)); [|done].
    split; [done|]. split; [done|]. intros e He. apply Hlog.
    simpl in He. rewrite Hpop.
    rewrite !elem_of_app, list_elem_of_singleton in *. tauto.
  - unfold redo. destruct (_ || _); [done|].
    destruct (pop (redoStack s)) as [[move rest]|] eqn:Hpop; [|done].
    apply pop_Some in Hpop. split; [|done].
    destruct Hs as (Hext & Hkept & Hlog).
    assert (unfilled (initial s) (row move) (col move)) as Hun.
    { apply Hlog. rewrite Hpop, !elem_of_app, list_elem_of_singleton. tauto. }
    apply (sound_write (withLog (moveHistory s ++ [move]) rest s)); [|done].
    split; [done|]. split; [done|]. intros e He. apply Hlog.
    simpl in He. rewrite Hpop.
    rewrite !elem_of_app, list_elem_of_singleton in *. tauto.
  - unfold autoSolve. destruct (_ || _); [done|]. split; [|done].
    destruct Hs as (Hext & Hkept & Hlog). split; [done|]. split; [|done].
    intros r c v Hv Hv0. cbn [board withFlags withCells].
    apply autoSolve_board; [by apply Hkept|].
    by apply Hext.
Qed.

Lemma run_sound acts : ∀ s,
  sound s →
  sound (run acts s) ∧ initial (run acts s) = initial s
  ∧ solution (run acts s) = solution s.
Proof.
  induction acts as [|a acts IH]; intros s Hs; [done|].
  destruct (step_sound a s Hs) as (Hs' & Hi & Hsol).
  destruct (IH (step a s) Hs') as (Hs'' & Hi' & Hsol').
  simpl. split; [done|]. split; congruence.
Qed.

Lemma startGame_sound puzzle solution autoRemove :
  extends puzzle solution → sound (startGame puzzle solution autoRemove).
Proof.
  intros Hext. unfold sound. simpl. rewrite copyGrid_id.
  split; [done|]. split; [by intros r c v Hv _|]. intros e He.
  by apply elem_of_nil in He.
Qed.
End invariant.

(** ** Undo and redo *)

(** The moves that edit the board or the notes. *)
Definition isEdit (a : Action) : bool :=
  match a with
  | DoInput _ | DoErase | DoHint _ => true
  | _ => false
  end.

Definition isUndo (a : Action) : bool :=
  match a with DoUndo => true | _ => false end.

Definition isRedo (a : Action) : bool :=
  match a with DoRedo => true | _ => false end.

(** What [redo] and [undo] write for an entry, and what the entry holds of
    the state it was recorded in. *)
Definition applyBoard (e : Entry) (b : Grid) : Grid :=
  setCell b (row e) (col e) (newValue e).
Definition unapplyBoard (e : Entry) (b : Grid) : Grid :=
  setCell b (row e) (col e) (oldValue e).
Definition okBoard (e : Entry) (b : Grid) : Prop :=
  cell b (row e) (col e) = Some (oldValue e).

Definition applyNotes (e : Entry) (n : NotesGrid) : NotesGrid :=
  setNote n (row e) (col e) (default ∅ (newNotes e)).
Definition unapplyNotes (e : Entry) (n : NotesGrid) : NotesGrid :=
  setNote n (row e) (col e) (oldNotes e).
Definition okNotes (e : Entry) (n : NotesGrid) : Prop :=
  noteAt n (row e) (col e) = Some (oldNotes e).

(** The edit [a] in state [s] put the entry [e] in the history and did not
    complete the game. *)
Definition recorded (a : Action) (s : GameState) (e : Entry) : Prop :=
  isEdit a = true ∧ isComplete (step a s) = false ∧
  moveHistory (step a s) = moveHistory s ++ [e].

(** The entry [e] covers what the edit from [s] to [s'] did to the notes:
    the edit changed no notes but those of the entry's cell, and an entry
    without a snapshot of the new notes was recorded on a cell without
    notes. *)
Definition notesCaptured (s s' : GameState) (e : Entry) : Prop :=
  (∃ x, notes s' = setNote (notes s) (row e) (col e) x) ∧
  (newNotes e = None → oldNotes e = ∅).

(** A move: the player selects cells and switches the notes mode, then
    edits. *)
Definition isNeutral (a : Action) : bool :=
  match a with
  | DoSelect _ _ | DoToggleNotes => true
  | _ => false
  end.

Definition Move : Type := list Action * Action.

Definition play (m : Move) (s : GameState) : GameState :=
  step m.2 (run m.1 s).

Definition playAll (ms : list Move) (s : GameState) : GameState :=
  foldl (λ s m, play m s) s ms.

(** The moves [ms] from [s] recorded the entries [es], one each, and [P]
    holds of each edit. *)
Fixpoint edits (P : GameState → GameState → Entry → Prop)
    (ms : list Move) (s : GameState) (es : list Entry) : Prop :=
  match ms, es with
  | [], [] => True
  | m :: ms, e :: es =>
      forallb isNeutral m.1 = true ∧ recorded m.2 (run m.1 s) e ∧
      P (run m.1 s) (play m s) e ∧ edits P ms (play m s) es
  | _, _ => False
  end.

Section undo_redo.
Implicit Types (s u : GameState) (e : Entry).

Lemma board_checkWin s : board (checkWin s) = board s.
Proof. unfold checkWin. by destruct (boardSolved _ _). Qed.

Lemma notes_checkWin s : notes (checkWin s) = notes s.
Proof. unfold checkWin. by destruct (boardSolved _ _). Qed.

Lemma moveHistory_checkWin s : moveHistory (checkWin s) = moveHistory s.
Proof. unfold checkWin. by destruct (boardSolved _ _). Qed.

Lemma redoStack_checkWin s : redoStack (checkWin s) = redoStack s.
Proof. unfold checkWin. by destruct (boardSolved _ _). Qed.

Lemma isPaused_checkWin s : isPaused (checkWin s) = isPaused s.
Proof. unfold checkWin. by destruct (boardSolved _ _). Qed.

Lemma removeRelatedNotes_empty num : ∀ ps n r c,
  noteAt n r c = Some ∅ → noteAt (foldl (deleteNote num) n ps) r c = Some ∅.
Proof.
  induction ps as [|p ps IH]; intros n r c H; [done|]. simpl. apply IH.
  unfold deleteNote, noteAt in *.
  destruct (decide (p.1 = r)) as [->|Hr]; [|by rewrite list_lookup_alter_ne].
  rewrite list_lookup_alter_eq. destruct (n !! r) as [rw|]; [|done].
  simpl in *. destruct (decide (p.2 = c)) as [->|Hc];
    [|by rewrite list_lookup_alter_ne].
  rewrite list_lookup_alter_eq, H. simpl. f_equal. apply set_eq. intros x.
  rewrite elem_of_difference, elem_of_empty. tauto.
Qed.

Ltac fields :=
  cbn [board notes isPaused isComplete redoStack moveHistory record
       withCells withLog withHints withFlags row col oldValue newValue
       oldNotes newNotes from_option id].

(** What a recorded edit did, in terms of its entry. *)
Lemma recorded_entry a s e :
  recorded a s e →
  isPaused (step a s) = false ∧ redoStack (step a s) = [] ∧
  okBoard e (board s) ∧ board (step a s) = applyBoard e (board s) ∧
  okNotes e (notes s) ∧
  (notesCaptured s (step a s) e →
   notes (step a s) = applyNotes e (notes s)).
Proof.
  intros (Hedit & _ & Hlog). unfold notesCaptured.
  unfold okBoard, applyBoard, okNotes, applyNotes.
  destruct a; try discriminate Hedit; cbn [step] in *.
  - unfold inputNumber in *. destruct (selected s) as [[r c]|];
      [|by apply snoc_neq in Hlog].
    destruct (isPaused s) eqn:Hp; [by apply snoc_neq in Hlog|].
    destruct (isComplete s); [by apply snoc_neq in Hlog|]. cbn [orb] in *.
    destruct (negb _); [by apply snoc_neq in Hlog|].
    destruct (cell (board s) r c) as [old|] eqn:Hold;
      [|by apply snoc_neq in Hlog].
    destruct (noteAt (notes s) r c) as [oldN|] eqn:HoldN;
      [|by apply snoc_neq in Hlog].
    destruct (isNotesMode s); [|destruct (Z.eqb_spec old num)];
      cbv zeta in *;
      rewrite moveHistory_checkWin in Hlog; cbn in Hlog;
      apply app_inj_tail in Hlog as [_ <-];
      rewrite isPaused_checkWin, redoStack_checkWin, board_checkWin,
        notes_checkWin; fields.
    + split; [done|]. split; [done|]. split; [done|]. split; [|done].
      destruct (Z.eqb_spec old 0) as [->|]; [|done]. cbn [negb].
      by rewrite setCell_id.
    + repeat (split; [done|]). intros [_ Hnone].
      rewrite setNote_id; [done|]. by rewrite HoldN, (Hnone eq_refl).
    + repeat (split; [done|]). intros [[x Hx] _]. rewrite Hx.
      f_equal. apply (inj Some).
      rewrite <- (noteAt_setNote_eq (notes s) r c x oldN HoldN), <- Hx.
      destruct (autoRemoveNotes s);
        [apply removeRelatedNotes_empty|]; by eapply noteAt_setNote_eq.
  - unfold erase in *. destruct (selected s) as [[r c]|];
      [|by apply snoc_neq in Hlog].
    destruct (isPaused s) eqn:Hp; [by apply snoc_neq in Hlog|].
    destruct (isComplete s); [by apply snoc_neq in Hlog|]. cbn [orb] in *.
    destruct (negb _); [by apply snoc_neq in Hlog|].
    destruct (cell (board s) r c) as [old|] eqn:Hold;
      [|by apply snoc_neq in Hlog].
    destruct (noteAt (notes s) r c) as [oldN|] eqn:HoldN;
      [|by apply snoc_neq in Hlog].
    destruct (_ && _); [by apply snoc_neq in Hlog|]. cbn in Hlog.
    apply app_inj_tail in Hlog as [_ <-]. by fields.
  - unfold hint in *. destruct (hintsRemaining s <=? 0)%Z;
      [by apply snoc_neq in Hlog|].
    destruct (isPaused s) eqn:Hp; [by apply snoc_neq in Hlog|].
    destruct (isComplete s); [by apply snoc_neq in Hlog|]. cbn [orb] in *.
    cbv zeta in *. destruct (length _ =? 0); [by apply snoc_neq in Hlog|].
    destruct (_ !! _) as [[r c]|]; [|by apply snoc_neq in Hlog].
    destruct (cell (solution s) r c) as [correct|];
      [|by apply snoc_neq in Hlog].
    destruct (cell (board s) r c) as [old|] eqn:Hold;
      [|by apply snoc_neq in Hlog].
    destruct (noteAt (notes s) r c) as [oldN|] eqn:HoldN;
      [|by apply snoc_neq in Hlog].
    rewrite moveHistory_checkWin in Hlog. cbn in Hlog.
    apply app_inj_tail in Hlog as [_ <-].
    rewrite isPaused_checkWin, redoStack_checkWin, board_checkWin,
      notes_checkWin. by fields.
Qed.

Lemma undo_last u e rest :
  isPaused u = false → isComplete u = false →
  moveHistory u = rest ++ [e] →
  undo u = withCells (unapplyBoard e (board u)) (unapplyNotes e (notes u))
             (withLog rest (redoStack u ++ [e]) u).
Proof.
  intros Hp Hc Hmh. unfold undo. rewrite Hp, Hc, Hmh, length_app. simpl.
  replace (length rest + 1 =? 0) with false
    by (symmetry; apply Nat.eqb_neq; lia).
  simpl. by rewrite (proj2 (pop_Some (rest ++ [e]) rest e) eq_refl).
Qed.

Lemma redo_last u e rest :
  isPaused u = false → isComplete u = false →
  redoStack u = rest ++ [e] →
  redo u = withCells (applyBoard e (board u)) (applyNotes e (notes u))
             (withLog (moveHistory u ++ [e]) rest u).
Proof.
  intros Hp Hc Hrs. unfold redo. rewrite Hp, Hc, Hrs, length_app. simpl.
  replace (length rest + 1 =? 0) with false
    by (symmetry; apply Nat.eqb_neq; lia).
  simpl. by rewrite (proj2 (pop_Some (rest ++ [e]) rest e) eq_refl).
Qed.

Lemma unapplyBoard_applyBoard e b : okBoard e b → unapplyBoard e (applyBoard e b) = b.
Proof. apply setCell_restore. Qed.

Lemma unapplyNotes_applyNotes e n : okNotes e n → unapplyNotes e (applyNotes e n) = n.
Proof. apply setNote_restore. Qed.

Lemma neutral_moveHistory pre : ∀ s,
  forallb isNeutral pre = true → moveHistory (run pre s) = moveHistory s.
Proof.
  induction pre as [|a pre IH]; intros s H; [done|].
  apply andb_prop in H as [Ha Hpre]. cbn [run foldl].
  fold (run pre (step a s)). rewrite IH by done.
  destruct a; try discriminate Ha; cbn [step]; [|done].
  unfold selectCell. by destruct (_ || _).
Qed.

(** A component of the state that [undo] and [redo] write entry by
    entry. *)
Section component.
Context {X : Type} (proj : GameState → X)
        (applyE unapplyE : Entry → X → X) (okE : Entry → X → Prop)
        (P : GameState → GameState → Entry → Prop).
Hypothesis inverse : ∀ e x, okE e x → unapplyE e (applyE e x) = x.
Hypothesis proj_undo : ∀ e u mh rs,
  proj (withCells (unapplyBoard e (board u)) (unapplyNotes e (notes u))
          (withLog mh rs u))
  = unapplyE e (proj u).
Hypothesis proj_redo : ∀ e u mh rs,
  proj (withCells (applyBoard e (board u)) (applyNotes e (notes u))
          (withLog mh rs u))
  = applyE e (proj u).
Hypothesis proj_neutral : ∀ a s, isNeutral a = true → proj (step a s) = proj s.
Hypothesis proj_edit : ∀ a s e,
  recorded a s e → P s (step a s) e →
  okE e (proj s) ∧ proj (step a s) = applyE e (proj s).

Lemma walk us : ∀ done todo u j mh0 x0,
  cursor isUndo isRedo (length (done ++ todo)) (length done) us = Some j →
  isPaused u = false → isComplete u = false →
  moveHistory u = mh0 ++ done → redoStack u = reverse todo →
  chainOk applyE okE x0 (done ++ todo) →
  proj u = replay applyE done x0 →
  proj (run us u) = replay applyE (take j (done ++ todo)) x0.
Proof.
  induction us as [|a us IH];
    intros done todo u j mh0 x0 Hcur Hp Hc Hmh Hrs Hok Hu.
  { injection Hcur as <-. by rewrite take_app_length. }
  cbn [cursor] in Hcur. cbn [run foldl]. fold (run us (step a u)).
  destruct a; try discriminate Hcur; cbn [isUndo isRedo step] in *.
  - destruct (Nat.eqb_spec (length done) 0) as [|Hpos]; [done|].
    destruct done as [|e0 d0] using rev_ind; [done|]. clear IHd0.
    replace (length (d0 ++ [e0]) - 1) with (length d0) in Hcur
      by (rewrite length_app; simpl; lia).
    rewrite (undo_last u e0 (mh0 ++ d0)) by (done || by rewrite Hmh, app_assoc).
    rewrite <- app_assoc in Hok |- *. rewrite <- app_assoc in Hcur.
    cbn [app] in *.
    apply (IH d0 (e0 :: todo) _ j mh0 x0); try done.
    + fields. by rewrite Hrs, reverse_cons.
    + rewrite proj_undo, Hu, replay_snoc. apply inverse.
      by eapply chainOk_middle.
  - destruct (Nat.leb_spec (length (done ++ todo)) (length done)) as [|Hlt];
      [done|].
    destruct todo as [|e0 t0]; [rewrite app_nil_r in Hlt; lia|].
    rewrite (redo_last u e0 (reverse t0)) by (done || by rewrite Hrs, reverse_cons).
    replace (done ++ e0 :: t0) with ((done ++ [e0]) ++ t0) in *
      by by rewrite <- app_assoc.
    apply (IH (done ++ [e0]) t0 _ j mh0 x0); try done.
    + replace (length (done ++ [e0])) with (length done + 1); [done|].
      rewrite length_app. simpl. lia.
    + fields. by rewrite Hmh, app_assoc.
    + by rewrite proj_redo, Hu, replay_snoc.
Qed.

Lemma neutral_proj pre : ∀ s,
  forallb isNeutral pre = true → proj (run pre s) = proj s.
Proof.
  induction pre as [|a pre IH]; intros s H; [done|].
  apply andb_prop in H as [Ha Hpre]. cbn [run foldl].
  fold (run pre (step a s)). by rewrite IH, proj_neutral.
Qed.

Lemma edits_chain ms : ∀ s es,
  edits P ms s es →
  length es = length ms ∧
  moveHistory (playAll ms s) = moveHistory s ++ es ∧
  chainOk applyE okE (proj s) es ∧
  (∀ j, proj (playAll (take j ms) s) = replay applyE (take j es) (proj s)) ∧
  (ms ≠ [] → isPaused (playAll ms s) = false
             ∧ isComplete (playAll ms s) = false
             ∧ redoStack (playAll ms s) = []).
Proof.
  induction ms as [|m ms IH]; intros s [|e es] H; try done.
  { split; [done|]. split; [by rewrite app_nil_r|]. split; [done|].
    split; [|done]. intros j. by rewrite !take_nil. }
  destruct H as (Hpre & Hrec & HP & Hrest).
  destruct (IH _ _ Hrest) as (Hlen & Hmh & Hok & Hproj & Hflags).
  destruct (proj_edit _ _ e Hrec HP) as [Hoke Happ].
  rewrite (neutral_proj _ s Hpre) in Hoke, Happ. fold (play m s) in Happ.
  destruct (recorded_entry _ _ e Hrec) as (Hp & Hrs & _).
  destruct Hrec as (_ & Hcomp & Hlog).
  rewrite (neutral_moveHistory _ s Hpre) in Hlog.
  fold (play m s) in Hp, Hrs, Hcomp, Hlog.
  split; [simpl; by rewrite Hlen|]. split; [|split; [|split]].
  - cbn [playAll foldl]. fold (playAll ms (play m s)).
    by rewrite Hmh, Hlog, <- app_assoc.
  - split; [done|]. by rewrite <- Happ.
  - intros [|j]; [done|]. cbn [take playAll foldl].
    fold (playAll (take j ms) (play m s)). rewrite Hproj, Happ. done.
  - intros _. cbn [playAll foldl]. fold (playAll ms (play m s)).
    destruct ms as [|m' ms']; [done|]. by apply Hflags.
Qed.

(** Undos and redos after the moves [ms], never more undos than moves to
    undo nor more redos than moves undone, lead to the component after the
    first [j] moves, where [j] is where the cursor stands. *)
Lemma undo_redo_component ms s0 es us j :
  edits P ms s0 es →
  cursor isUndo isRedo (length ms) (length ms) us = Some j →
  proj (run us (playAll ms s0)) = proj (playAll (take j ms) s0).
Proof.
  intros Hedits Hcur.
  destruct (edits_chain ms s0 es Hedits) as (Hlen & Hmh & Hok & Hproj & Hfl).
  destruct ms as [|m ms].
  { destruct us as [|a us]; [by injection Hcur as <-|].
    cbn in Hcur. by destruct (isUndo a), (isRedo a). }
  destruct Hfl as (Hp & Hc & Hrs); [done|].
  rewrite Hproj.
  replace (take j es) with (take j (es ++ [])) by by rewrite app_nil_r.
  apply (walk us es [] _ j (moveHistory s0)); try done.
  - by rewrite app_nil_r, Hlen.
  - by rewrite app_nil_r.
  - specialize (Hproj (length (m :: ms))).
    rewrite take_ge in Hproj by done. rewrite Hproj.
    by rewrite take_ge by lia.
Qed.
End component.

Lemma neutral_cells a s :
  isNeutral a = true → board (step a s) = board s ∧ notes (step a s) = notes s.
Proof.
  destruct a; try discriminate; intros _; cbn [step]; [|done].
  unfold selectCell. by destruct (_ || _).
Qed.

(** The board after undos and redos is the board after the first [j]
    moves. *)
Lemma undo_redo_board ms s0 es us j :
  edits (λ _ _ _, True) ms s0 es →
  cursor isUndo isRedo (length ms) (length ms) us = Some j →
  board (run us (playAll ms s0)) = board (playAll (take j ms) s0).
Proof.
  apply (undo_redo_component board applyBoard unapplyBoard okBoard).
  - apply unapplyBoard_applyBoard.
  - done.
  - done.
  - intros a s Ha. by apply neutral_cells.
  - intros a s e Hrec _.
    by destruct (recorded_entry a s e Hrec) as (_ & _ & ? & ? & _).
Qed.

(** So are the notes, when the entries cover what the moves did to the
    notes. *)
Lemma undo_redo_notes ms s0 es us j :
  edits notesCaptured ms s0 es →
  cursor isUndo isRedo (length ms) (length ms) us = Some j →
  notes (run us (playAll ms s0)) = notes (playAll (take j ms) s0).
Proof.
  apply (undo_redo_component notes applyNotes unapplyNotes okNotes).
  - apply unapplyNotes_applyNotes.
  - done.
  - done.
  - intros a s Ha. by apply neutral_cells.
  - intros a s e Hrec Hcap.
    destruct (recorded_entry a s e Hrec) as (_ & _ & _ & _ & ? & Hn).
    split; [done|]. by apply Hn.
Qed.

Lemma edits_weaken (P Q : GameState → GameState → Entry → Prop) ms :
  (∀ s s' e, P s s' e → Q s s' e) →
  ∀ s es, edits P ms s es → edits Q ms s es.
Proof.
  intros HPQ. induction ms as [|m ms IH]; intros s [|e es]; try done.
  intros (? & ? & ? & ?). cbn [edits].
  split; [done|]. split; [done|]. split; [by apply HPQ|by apply IH].
Qed.

(** ** Recording discards what could be redone *)

Lemma record_discards_redo e s :
  moveHistory (record e s) = moveHistory s ++ [e] ∧
  redoStack (record e s) = [] ∧ redo (record e s) = record e s.
Proof. done. Qed.

Lemma redo_nothing s : redoStack s = [] → redo s = s.
Proof. intros H. unfold redo. by rewrite H. Qed.

(** An edit leaves the history and the redo stack as they are, or records:
    then nothing is left to redo. *)
Lemma edit_discards_redo a s :
  isEdit a = true →
  (moveHistory (step a s) = moveHistory s ∧
   redoStack (step a s) = redoStack s) ∨
  ((∃ e, moveHistory (step a s) = moveHistory s ++ [e]) ∧
   redoStack (step a s) = [] ∧ redo (step a s) = step a s).
Proof.
  intros Hedit. destruct a; try discriminate Hedit; cbn [step].
  - unfold inputNumber. destruct (selected s) as [[r c]|]; [|by left].
    destruct (_ || _); [by left|]. destruct (negb _); [by left|].
    destruct (cell (board s) r c) as [old|]; [|by left].
    destruct (noteAt (notes s) r c) as [oldN|]; [|by left].
    right. destruct (isNotesMode s); [|destruct (old =? num)%Z];
      cbv zeta; rewrite moveHistory_checkWin, redoStack_checkWin;
      (split; [by eexists|]); (split; [done|]);
      apply redo_nothing; by rewrite redoStack_checkWin.
  - unfold erase. destruct (selected s) as [[r c]|]; [|by left].
    destruct (_ || _); [by left|]. destruct (negb _); [by left|].
    destruct (cell (board s) r c) as [old|]; [|by left].
    destruct (noteAt (notes s) r c) as [oldN|]; [|by left].
    destruct (_ && _); [by left|]. right. split; [by eexists|]. done.
  - unfold hint. destruct (_ || _); [by left|]. cbv zeta.
    destruct (length _ =? 0); [by left|].
    destruct (_ !! _) as [[r c]|]; [|by left].
    destruct (cell (solution s) r c) as [correct|]; [|by left].
    destruct (cell (board s) r c) as [old|]; [|by left].
    destruct (noteAt (notes s) r c) as [oldN|]; [|by left].
    right. rewrite moveHistory_checkWin, redoStack_checkWin.
    split; [by eexists|]. split; [done|].
    apply redo_nothing. by rewrite redoStack_checkWin.
Qed.

(** [record(); undo(); record(X)]: the entry that was undone is gone. *)
Lemma record_undo_record a x s :
  isPaused s = false → isComplete s = false →
  moveHistory (record x (undo (record a s))) = moveHistory s ++ [x] ∧
  redoStack (record x (undo (record a s))) = [] ∧
  redo (record x (undo (record a s))) = record x (undo (record a s)).
Proof.
  intros Hp Hc. by rewrite (undo_last (record a s) a (moveHistory s)).
Qed.
End undo_redo.

End Pwa.

(** * The game of the stand-alone script

    [GameState] with the fields the moves read and write. The history is
    an array with a cursor, [historyIndex]. *)

Module Classic.

(** A history action, by its [type]: what each type carries. *)
Inductive Entry :=
  | Value (row col : nat) (oldValue newValue : Z)
  | Hint (row col : nat) (oldValue newValue : Z)
  | Note (row col : nat) (oldNotes newNotes : gset Z)
  | Erase (row col : nat) (oldValue : Z) (oldNotes : gset Z).

Record GameState := {
  board : Grid;
  solution : Grid;
  initial : Grid;
  notes : NotesGrid;
  selected : option (nat * nat);
  hintsRemaining : Z;
  isNotesMode : bool;
  isPaused : bool;
  isComplete : bool;
  history : list Entry;
  historyIndex : Z
}.

(** Field updates. *)
Definition withCells (b : Grid) (n : NotesGrid) (s : GameState) : GameState :=
  {| board := b; solution := solution s; initial := initial s; notes := n;
     selected := selected s; hintsRemaining := hintsRemaining s;
     isNotesMode := isNotesMode s; isPaused := isPaused s;
     isComplete := isComplete s; history := history s;
     historyIndex := historyIndex s |}.

Definition withLog (h : list Entry) (i : Z) (s : GameState) : GameState :=
  {| board := board s; solution := solution s; initial := initial s;
     notes := notes s; selected := selected s;
     hintsRemaining := hintsRemaining s; isNotesMode := isNotesMode s;
     isPaused := isPaused s; isComplete := isComplete s; history := h;
     historyIndex := i |}.

Definition withFlags (sel : option (nat * nat)) (notesMode paused complete : bool)
    (s : GameState) : GameState :=
  {| board := board s; solution := solution s; initial := initial s;
     notes := notes s; selected := sel;
     hintsRemaining := hintsRemaining s; isNotesMode := notesMode;
     isPaused := paused; isComplete := complete; history := history s;
     historyIndex := historyIndex s |}.

Definition withHints (remaining : Z) (s : GameState) : GameState :=
  {| board := board s; solution := solution s; initial := initial s;
     notes := notes s; selected := selected s; hintsRemaining := remaining;
     isNotesMode := isNotesMode s; isPaused := isPaused s;
     isComplete := isComplete s; history := history s;
     historyIndex := historyIndex s |}.

(** [array.slice(0, end)]; a negative [end] counts from the end of the
    array. *)
Definition slice0 {A} (array : list A) (end_ : Z) : list A :=
  if (end_ <? 0)%Z
  then take (Z.to_nat (Z.of_nat (length array) + end_)) array
  else take (Z.to_nat end_) array.

(** [addToHistory(action)] *)
Definition addToHistory (action : Entry) (s : GameState) : GameState :=
  withLog (slice0 (history s) (historyIndex s + 1) ++ [action])
          (historyIndex s + 1) s.

(** [applyAction(action, reverse)] *)
Definition applyAction (action : Entry) (reverse : bool) (s : GameState)
    : GameState :=
  match action with
  | Value row col oldValue newValue
  | Hint row col oldValue newValue =>
      withCells (setCell (board s) row col
                   (if reverse then oldValue else newValue))
                (notes s) s
  | Note row col oldNotes newNotes =>
      withCells (board s)
                (setNote (notes s) row col
                   (if reverse then oldNotes else newNotes)) s
  | Erase row col oldValue oldNotes =>
      if reverse then
        withCells (setCell (board s) row col oldValue)
                  (setNote (notes s) row col oldNotes) s
      else
        withCells (setCell (board s) row col 0)
                  (setNote (notes s) row col ∅) s
  end.

(** [undo()]. Reading [history[historyIndex]] past the end of the array
    makes the source throw; the model leaves the state. *)
Definition undo (s : GameState) : GameState :=
  if (historyIndex s <? 0)%Z || isPaused s || isComplete s then s
  else
    match history s !! Z.to_nat (historyIndex s) with
    | None => s
    | Some action =>
        applyAction action true (withLog (history s) (historyIndex s - 1) s)
    end.

(** [redo()] *)
Definition redo (s : GameState) : GameState :=
  if (Z.of_nat (length (history s)) - 1 <=? historyIndex s)%Z
     || isPaused s || isComplete s then s
  else
    match history s !! Z.to_nat (historyIndex s + 1) with
    | None => s
    | Some action =>
        applyAction action false (withLog (history s) (historyIndex s + 1) s)
    end.

(** [checkWinCondition()] *)
Definition checkWinCondition (s : GameState) : GameState :=
  if boardSolved (board s) (solution s)
  then withFlags (selected s) (isNotesMode s) (isPaused s) true s
  else s.

(** [selectCell(row, col)] *)
Definition selectCell (r c : nat) (s : GameState) : GameState :=
  if isPaused s || isComplete s then s
  else withFlags (Some (r, c)) (isNotesMode s) (isPaused s) (isComplete s) s.

(** [toggleNotesMode()] *)
Definition toggleNotesMode (s : GameState) : GameState :=
  withFlags (selected s) (negb (isNotesMode s)) (isPaused s) (isComplete s) s.

(** [togglePause()] *)
Definition togglePause (s : GameState) : GameState :=
  if isComplete s then s
  else withFlags (selected s) (isNotesMode s) (negb (isPaused s))
                 (isComplete s) s.

(** [inputNumber(num)]. [setsEqual(oldNotes, notes)] is equality of the
    two sets. *)
Definition inputNumber (num : Z) (s : GameState) : GameState :=
  match selected s with
  | None => s
  | Some (r, c) =>
      if isPaused s || isComplete s then s
      else if negb (cellIs (initial s) r c 0) then s
      else
        match cell (board s) r c, noteAt (notes s) r c with
        | Some old, Some oldN =>
            if isNotesMode s then
              let n := toggleNote num oldN in
              let s1 := withCells (board s) (setNote (notes s) r c n) s in
              let s2 := if negb (bool_decide (oldN = n))
                        then addToHistory (Note r c oldN n) s1 else s1 in
              let s3 := if negb (old =? 0)%Z
                        then addToHistory (Value r c old 0)
                               (withCells (setCell (board s2) r c 0)
                                          (notes s2) s2)
                        else s2 in
              checkWinCondition s3
            else if (old =? num)%Z then
              checkWinCondition
                (addToHistory (Value r c old 0)
                   (withCells (setCell (board s) r c 0) (notes s) s))
            else
              checkWinCondition
                (addToHistory (Value r c old num)
                   (withCells (setCell (board s) r c num)
                              (setNote (notes s) r c ∅) s))
        | _, _ => s
        end
  end.

(** [eraseCell()] *)
Definition eraseCell (s : GameState) : GameState :=
  match selected s with
  | None => s
  | Some (r, c) =>
      if isPaused s || isComplete s then s
      else if negb (cellIs (initial s) r c 0) then s
      else
        match cell (board s) r c, noteAt (notes s) r c with
        | Some old, Some oldN =>
            if negb (old =? 0)%Z || (0 <? size oldN) then
              addToHistory (Erase r c old oldN)
                (withCells (setCell (board s) r c 0)
                           (setNote (notes s) r c ∅) s)
            else s
        | _, _ => s
        end
  end.

(** [giveHint()]; [draw] is the raw random draw that picks the candidate. *)
Definition giveHint (draw : nat) (s : GameState) : GameState :=
  if (hintsRemaining s <=? 0)%Z || isPaused s || isComplete s then s
  else
    let candidates := hintCandidates (board s) (solution s) in
    if length candidates =? 0 then s
    else
      match candidates !! (draw `mod` length candidates) with
      | None => s
      | Some (r, c) =>
          match cell (solution s) r c, cell (board s) r c with
          | Some correctValue, Some old =>
              checkWinCondition
                (addToHistory (Hint r c old correctValue)
                   (withHints (hintsRemaining s - 1)
                      (withCells (setCell (board s) r c correctValue)
                                 (setNote (notes s) r c ∅) s)))
          | _, _ => s
          end
      end.

(** [autoSolve()] *)
Definition autoSolve (s : GameState) : GameState :=
  if isPaused s || isComplete s then s
  else
    withFlags (selected s) (isNotesMode s) (isPaused s) true
      (withCells
         (foldl (λ b p, from_option (setCell b p.1 p.2) b
                          (cell (solution s) p.1 p.2))
                (board s) positions)
         (foldl (λ n p, setNote n p.1 p.2 ∅) (notes s) positions)
         s).

(** The state the callback of [startNewGame] builds. *)
Definition startGame (puzzle solution : Grid) : GameState :=
  {| board := copyGrid puzzle; solution := solution;
     initial := copyGrid puzzle; notes := emptyNotes; selected := None;
     hintsRemaining := 3; isNotesMode := false; isPaused := false;
     isComplete := false; history := []; historyIndex := -1 |}.

(** [startNewGame(difficulty)] *)
Definition startNewGame (random : nat → nat) (k : nat)
    (difficulty : Difficulty) : option GameState :=
  '(puzzle, solution) ← generatePuzzle random k difficulty;
  Some (startGame puzzle solution).

(** What the player can do. *)
Inductive Action :=
  | DoSelect (r c : nat)
  | DoToggleNotes
  | DoTogglePause
  | DoInput (num : Z)
  | DoErase
  | DoHint (draw : nat)
  | DoUndo
  | DoRedo
  | DoAutoSolve.

Definition step (a : Action) (s : GameState) : GameState :=
  match a with
  | DoSelect r c => selectCell r c s
  | DoToggleNotes => toggleNotesMode s
  | DoTogglePause => togglePause s
  | DoInput num => inputNumber num s
  | DoErase => eraseCell s
  | DoHint draw => giveHint draw s
  | DoUndo => undo s
  | DoRedo => redo s
  | DoAutoSolve => autoSolve s
  end.

(** The state after a sequence of actions, first action first. *)
Definition run (acts : list Action) (s : GameState) : GameState :=
  foldl (λ s a, step a s) s acts.

(** ** Prefilled cells stay as they are *)

(** The cell a history action is about. *)
Definition entryCell (e : Entry) : nat * nat :=
  match e with
  | Value row col _ _ | Hint row col _ _ | Note row col _ _
  | Erase row col _ _ => (row, col)
  end.

(** The cell is not a clue of the puzzle [init]. *)
Definition unfilled (init : Grid) (r c : nat) : Prop :=
  ∀ v, cell init r c = Some v → v = 0%Z.

(** Every clue of the puzzle is on the board. *)
Definition prefilledKept (s : GameState) : Prop :=
  ∀ r c v, cell (initial s) r c = Some v → v ≠ 0%Z →
    cell (board s) r c = Some v.

(** The cursor points at an entry of the history, or just before the
    first. *)
Definition cursorInRange (s : GameState) : Prop :=
  (-1 ≤ historyIndex s < Z.of_nat (length (history s)))%Z.

(** The clues are part of the solution, they are on the board, no history
    action is about a clue, and the cursor is in range. *)
Definition sound (s : GameState) : Prop :=
  extends (initial s) (solution s) ∧ prefilledKept s ∧
  (∀ e, e ∈ history s →
        unfilled (initial s) (entryCell e).1 (entryCell e).2) ∧
  cursorInRange s.

Section invariant.
Implicit Types (s : GameState) (e : Entry).

Lemma cellIs_zero_unfilled init r c : cellIs init r c 0 = true → unfilled init r c.
Proof. intros H v Hv. apply cellIs_true in H. congruence. Qed.

Lemma slice0_cursor {A} (l : list A) (i : Z) :
  (-1 ≤ i < Z.of_nat (length l))%Z → slice0 l (i + 1) = take (Z.to_nat (i + 1)) l.
Proof. intros Hi. unfold slice0. destruct (Z.ltb_spec (i + 1) 0); [lia|done]. Qed.

Lemma sound_withFlags s sel nm p cmp : sound s → sound (withFlags sel nm p cmp s).
Proof. done. Qed.

Lemma sound_withHints s a : sound s → sound (withHints a s).
Proof. done. Qed.

Lemma sound_checkWinCondition s : sound s → sound (checkWinCondition s).
Proof. unfold checkWinCondition. by destruct (boardSolved _ _). Qed.

Lemma sound_addToHistory s e :
  sound s → unfilled (initial s) (entryCell e).1 (entryCell e).2 →
  sound (addToHistory e s).
Proof.
  intros (Hext & Hkept & Hlog & Hcur) He.
  split; [done|]. split; [done|]. unfold addToHistory. split.
  - intros e' Hin. cbn [history withLog initial] in *.
    rewrite (slice0_cursor _ _ Hcur) in Hin.
    apply elem_of_app in Hin as [Hin|Hin].
    + apply Hlog. apply elem_of_take in Hin as (i & Hi & _).
      by eapply list_elem_of_lookup_2.
    + apply list_elem_of_singleton in Hin as ->. done.
  - unfold cursorInRange in *. cbn [history historyIndex withLog].
    rewrite (slice0_cursor _ _ Hcur), length_app, length_take. simpl. lia.
Qed.

Lemma sound_withCells s r c v n :
  sound s → unfilled (initial s) r c →
  sound (withCells (setCell (board s) r c v) n s).
Proof.
  intros (Hext & Hkept & Hlog) Hun. split; [done|]. split; [|done].
  intros r' c' w Hw Hw0. simpl. rewrite cell_setCell_ne; [by apply Hkept|].
  intros [= <- <-]. apply Hw0. by apply Hun.
Qed.

Lemma sound_withNotes s n : sound s → sound (withCells (board s) n s).
Proof. done. Qed.

Lemma sound_cursor s i :
  sound s → (-1 ≤ i < Z.of_nat (length (history s)))%Z →
  sound (withLog (history s) i s).
Proof. intros (Hext & Hkept & Hlog & _) Hi. done. Qed.

Lemma sound_applyAction s e reverse :
  sound s → unfilled (initial s) (entryCell e).1 (entryCell e).2 →
  sound (applyAction e reverse s).
Proof.
  intros Hs He. destruct e; cbn [applyAction entryCell fst snd] in *.
  - by apply sound_withCells.
  - by apply sound_withCells.
  - by apply sound_withNotes.
  - destruct reverse; by apply sound_withCells.
Qed.

Lemma giveHint_candidate_unfilled s r c :
  sound s → (r, c) ∈ hintCandidates (board s) (solution s) →
  unfilled (initial s) r c.
Proof.
  intros (Hext & Hkept & _) Hin v Hv.
  apply list_elem_of_filter in Hin as [Hne _]. simpl in Hne.
  destruct (decide (v = 0%Z)) as [|Hv0]; [done|]. exfalso. apply Hne.
  by rewrite (Hkept r c v), (Hext r c v).
Qed.

Lemma applyAction_frame e reverse s :
  initial (applyAction e reverse s) = initial s ∧
  solution (applyAction e reverse s) = solution s.
Proof. destruct e, reverse; done. Qed.

Lemma checkWin_frame s :
  initial (checkWinCondition s) = initial s ∧
  solution (checkWinCondition s) = solution s.
Proof. unfold checkWinCondition. by destruct (boardSolved _ _). Qed.

Lemma step_keeps_sound a s :
  sound s →
  sound (step a s) ∧ initial (step a s) = initial s
  ∧ solution (step a s) = solution s.
Proof.
  intros Hs. destruct a; cbn [step].
  - unfold selectCell. by destruct (_ || _).
  - done.
  - unfold togglePause. by destruct (isComplete s).
  - unfold inputNumber. destruct (selected s) as [[r c]|]; [|done].
    destruct (_ || _); [done|].
    destruct (cellIs (initial s) r c 0) eqn:Hun; [|done]. cbn [negb].
    apply cellIs_zero_unfilled in Hun.
    destruct (cell (board s) r c) as [old|]; [|done].
    destruct (noteAt (notes s) r c) as [oldN|]; [|done].
    destruct (isNotesMode s); [|destruct (old =? num)%Z].
    + cbv zeta. split; [|rewrite !(proj1 (checkWin_frame _)),
                            !(proj2 (checkWin_frame _));
                          by destruct (negb (bool_decide _)), (negb (old =? 0)%Z)].
      apply sound_checkWinCondition.
      set (s1 := withCells (board s) _ s).
      assert (sound s1) as Hs1 by by apply sound_withNotes.
      set (s2 := if negb (bool_decide _) then _ else s1).
      assert (sound s2 ∧ initial s2 = initial s) as [Hs2 Hi2].
      { unfold s2. destruct (negb (bool_decide _)); [|done].
        split; [|done]. by apply sound_addToHistory. }
      destruct (negb (old =? 0)%Z); [|done].
      apply sound_addToHistory; [|cbn; by rewrite Hi2].
      apply sound_withCells; [done|by rewrite Hi2].
    + split; [|by rewrite (proj1 (checkWin_frame _)), (proj2 (checkWin_frame _))].
      apply sound_checkWinCondition, sound_addToHistory; [|done]. by apply sound_withCells.
    + split; [|by rewrite (proj1 (checkWin_frame _)), (proj2 (checkWin_frame _))].
      apply sound_checkWinCondition, sound_addToHistory; [|done]. by apply sound_withCells.
  - unfold eraseCell. destruct (selected s) as [[r c]|]; [|done].
    destruct (_ || _); [done|].
    destruct (cellIs (initial s) r c 0) eqn:Hun; [|done]. cbn [negb].
    apply cellIs_zero_unfilled in Hun.
    destruct (cell (board s) r c) as [old|]; [|done].
    destruct (noteAt (notes s) r c) as [oldN|]; [|done].
    destruct (_ || _); [|done]. split; [|done].
    apply sound_addToHistory; [|done]. by apply sound_withCells.
  - unfold giveHint. destruct (_ || _); [done|].
    destruct (length _ =? 0); [done|].
    destruct (_ !! _) as [[r c]|] eqn:Hcand; [|done].
    apply list_elem_of_lookup_2 in Hcand.
    pose proof (giveHint_candidate_unfilled s r c Hs Hcand) as Hun.
    destruct (cell (solution s) r c) as [correct|]; [|done].
    destruct (cell (board s) r c) as [old|]; [|done].
    split; [|by rewrite (proj1 (checkWin_frame _)), (proj2 (checkWin_frame _))].
    apply sound_checkWinCondition, sound_addToHistory; [|done].
    apply sound_withHints. by apply sound_withCells.
  - unfold undo. destruct (Z.ltb_spec (historyIndex s) 0); [done|].
    destruct (_ || _); [done|].
    destruct (history s !! _) as [action|] eqn:Hact; [|done].
    split; [|by destruct action].
    pose proof Hs as (_ & _ & Hlog & Hcur).
    apply sound_applyAction.
    + apply sound_cursor; [done|]. unfold cursorInRange in Hcur. lia.
    + apply Hlog. by eapply list_elem_of_lookup_2.
  - unfold redo.
    destruct (Z.leb_spec (Z.of_nat (length (history s)) - 1) (historyIndex s));
      [done|].
    destruct (_ || _); [done|].
    destruct (history s !! _) as [action|] eqn:Hact; [|done].
    split; [|by destruct action].
    pose proof Hs as (_ & _ & Hlog & Hcur).
    apply sound_applyAction.
    + apply sound_cursor; [done|]. unfold cursorInRange in Hcur. lia.
    + apply Hlog. by eapply list_elem_of_lookup_2.
  - unfold autoSolve. destruct (_ || _); [done|]. split; [|done].
    destruct Hs as (Hext & Hkept & Hlog). split; [done|]. split; [|done].
    intros r c v Hv Hv0. cbn [board withFlags withCells].
    apply Pwa.autoSolve_board; [by apply Hkept|]. by apply Hext.
Qed.

Lemma run_keeps_sound acts : ∀ s,
  sound s →
  sound (run acts s) ∧ initial (run acts s) = initial s
  ∧ solution (run acts s) = solution s.
Proof.
  induction acts as [|a acts IH]; intros s Hs; [done|].
  destruct (step_keeps_sound a s Hs) as (Hs' & Hi & Hsol).
  destruct (IH (step a s) Hs') as (Hs'' & Hi' & Hsol').
  simpl. split; [done|]. split; congruence.
Qed.

Lemma startGame_is_sound puzzle solution :
  extends puzzle solution → sound (startGame puzzle solution).
Proof.
  intros Hext. unfold sound, cursorInRange. simpl. rewrite copyGrid_id.
  split; [done|]. split; [by intros r c v Hv _|]. split; [|lia]. intros e He.
  by apply elem_of_nil in He.
Qed.
End invariant.

(** ** Undo and redo *)

Definition isEdit (a : Action) : bool :=
  match a with
  | DoInput _ | DoErase | DoHint _ => true
  | _ => false
  end.

Definition isUndo (a : Action) : bool :=
  match a with DoUndo => true | _ => false end.

Definition isRedo (a : Action) : bool :=
  match a with DoRedo => true | _ => false end.

Definition isNeutral (a : Action) : bool :=
  match a with
  | DoSelect _ _ | DoToggleNotes => true
  | _ => false
  end.

(** What [applyAction] does to the board and to the notes, forward
    ([reverse = false]) and backward, and what an action holds of the state
    it was recorded in. *)
Definition applyBoard (e : Entry) (b : Grid) : Grid :=
  match e with
  | Value row col _ newValue | Hint row col _ newValue =>
      setCell b row col newValue
  | Note _ _ _ _ => b
  | Erase row col _ _ => setCell b row col 0
  end.

Definition unapplyBoard (e : Entry) (b : Grid) : Grid :=
  match e with
  | Value row col oldValue _ | Hint row col oldValue _
  | Erase row col oldValue _ => setCell b row col oldValue
  | Note _ _ _ _ => b
  end.

Definition okBoard (e : Entry) (b : Grid) : Prop :=
  match e with
  | Value row col oldValue _ | Hint row col oldValue _
  | Erase row col oldValue _ => cell b row col = Some oldValue
  | Note _ _ _ _ => True
  end.

Definition applyNotes (e : Entry) (n : NotesGrid) : NotesGrid :=
  match e with
  | Value _ _ _ _ | Hint _ _ _ _ => n
  | Note row col _ newNotes => setNote n row col newNotes
  | Erase row col _ _ => setNote n row col ∅
  end.

Definition unapplyNotes (e : Entry) (n : NotesGrid) : NotesGrid :=
  match e with
  | Value _ _ _ _ | Hint _ _ _ _ => n
  | Note row col oldNotes _ | Erase row col _ oldNotes =>
      setNote n row col oldNotes
  end.

Definition okNotes (e : Entry) (n : NotesGrid) : Prop :=
  match e with
  | Value _ _ _ _ | Hint _ _ _ _ => True
  | Note row col oldNotes _ | Erase row col _ oldNotes =>
      noteAt n row col = Some oldNotes
  end.

(** The edit [a] in state [s] added the actions [es] to the history, one
    call of [addToHistory] each, and did not complete the game. An edit
    adds one action, but for a note toggled on a cell that holds a value:
    that edit adds a note action and a value action. *)
Definition recorded (a : Action) (s : GameState) (es : list Entry) : Prop :=
  isEdit a = true ∧ isComplete (step a s) = false ∧ es ≠ [] ∧
  history (step a s) = slice0 (history s) (historyIndex s + 1) ++ es ∧
  historyIndex (step a s) = (historyIndex s + Z.of_nat (length es))%Z.

(** The actions [es] cover what the edit from [s] to [s'] did to the notes:
    redoing them on the notes of [s] gives the notes of [s']. *)
Definition notesCaptured (s s' : GameState) (es : list Entry) : Prop :=
  notes s' = replay applyNotes es (notes s).

Definition Move : Type := list Action * Action.

Definition play (m : Move) (s : GameState) : GameState :=
  step m.2 (run m.1 s).

Definition playAll (ms : list Move) (s : GameState) : GameState :=
  foldl (λ s m, play m s) s ms.

Fixpoint edits (P : GameState → GameState → list Entry → Prop)
    (ms : list Move) (s : GameState) (ess : list (list Entry)) : Prop :=
  match ms, ess with
  | [], [] => True
  | m :: ms, es :: ess =>
      forallb isNeutral m.1 = true ∧ recorded m.2 (run m.1 s) es ∧
      P (run m.1 s) (play m s) es ∧ edits P ms (play m s) ess
  | _, _ => False
  end.

Section history.
Implicit Types (s u : GameState) (e : Entry) (es : list Entry).

Ltac fields :=
  cbn [board notes isPaused isComplete history historyIndex addToHistory
       withCells withLog withHints withFlags okBoard applyBoard okNotes
       applyNotes] in *.

Lemma board_checkWinCondition s : board (checkWinCondition s) = board s.
Proof. unfold checkWinCondition. by destruct (boardSolved _ _). Qed.

Lemma notes_checkWinCondition s : notes (checkWinCondition s) = notes s.
Proof. unfold checkWinCondition. by destruct (boardSolved _ _). Qed.

Lemma history_checkWinCondition s : history (checkWinCondition s) = history s.
Proof. unfold checkWinCondition. by destruct (boardSolved _ _). Qed.

Lemma historyIndex_checkWinCondition s :
  historyIndex (checkWinCondition s) = historyIndex s.
Proof. unfold checkWinCondition. by destruct (boardSolved _ _). Qed.

Lemma isPaused_checkWinCondition s :
  isPaused (checkWinCondition s) = isPaused s.
Proof. unfold checkWinCondition. by destruct (boardSolved _ _). Qed.

Lemma applyAction_cells e (reverse : bool) s :
  applyAction e reverse s
  = withCells ((if reverse then unapplyBoard e else applyBoard e) (board s))
              ((if reverse then unapplyNotes e else applyNotes e) (notes s))
              s.
Proof. by destruct e, reverse. Qed.

(** A second [addToHistory] right after a first discards nothing. *)
Lemma slice0_snoc {A} (l : list A) (i : Z) (x : A) :
  (-1 ≤ i < Z.of_nat (length l))%Z →
  slice0 (slice0 l (i + 1) ++ [x]) (i + 1 + 1) = slice0 l (i + 1) ++ [x].
Proof.
  intros Hi. rewrite (slice0_cursor l i Hi). unfold slice0.
  destruct (Z.ltb_spec (i + 1 + 1) 0); [lia|].
  apply take_ge. rewrite length_app, length_take. simpl. lia.
Qed.

(** What a recorded edit did, in terms of its actions: they are what
    [applyAction] needs to redo and to undo the edit on the board; on the
    notes too, but for a value or a hint put on a cell, which clears the
    notes of the cell and holds none of them. *)
Lemma recorded_action a s es :
  cursorInRange s → recorded a s es →
  isPaused (step a s) = false ∧
  chainOk applyBoard okBoard (board s) es ∧
  board (step a s) = replay applyBoard es (board s) ∧
  chainOk applyNotes okNotes (notes s) es ∧
  (notesCaptured s (step a s) es ∨
   ∃ r c old new, (es = [Value r c old new] ∨ es = [Hint r c old new]) ∧
                  notes (step a s) = setNote (notes s) r c ∅).
Proof.
  intros Hin (Hedit & _ & Hne & Hlog & Hidx).
  assert (history (step a s) = history s →
          historyIndex (step a s) = historyIndex s → False) as Hnone.
  { intros _ Hi. rewrite Hi in Hidx. destruct es; [done|]. simpl in Hidx. lia. }
  unfold notesCaptured.
  destruct a; try discriminate Hedit; cbn [step] in *.
  - unfold inputNumber in *.
    destruct (selected s) as [[r c]|]; [|by destruct Hnone].
    destruct (isPaused s) eqn:Hp; [by destruct Hnone|].
    destruct (isComplete s); cbn [orb] in *; [by destruct Hnone|].
    destruct (negb _); [by destruct Hnone|].
    destruct (cell (board s) r c) as [old|] eqn:Hold; [|by destruct Hnone].
    destruct (noteAt (notes s) r c) as [oldN|] eqn:HoldN;
      [|by destruct Hnone].
    destruct (isNotesMode s); [|destruct (Z.eqb_spec old num)];
      cbv zeta in *.
    + rewrite history_checkWinCondition in Hlog.
      rewrite historyIndex_checkWinCondition in Hnone.
      rewrite history_checkWinCondition in Hnone.
      rewrite isPaused_checkWinCondition, board_checkWinCondition,
        notes_checkWinCondition.
      clear Hidx.
      destruct (bool_decide_reflect (oldN = toggleNote num oldN)) as [Heq|_],
        (Z.eqb_spec old 0) as [->|Hz]; cbn [negb] in *; fields.
      * by destruct Hnone.
      * apply app_inv_head in Hlog as <-. rewrite <- Heq.
        cbn [chainOk replay foldl]. fields.
        rewrite (setNote_id _ _ _ _ HoldN). eauto 10.
      * apply app_inv_head in Hlog as <-.
        cbn [chainOk replay foldl]. fields. eauto 10.
      * rewrite (slice0_snoc _ _ _ Hin), <- app_assoc in Hlog.
        apply app_inv_head in Hlog as <-.
        cbn [chainOk replay foldl app]. fields. eauto 10.
    + rewrite history_checkWinCondition in Hlog. fields.
      apply app_inv_head in Hlog as <-.
      rewrite isPaused_checkWinCondition, board_checkWinCondition,
        notes_checkWinCondition. cbn [chainOk replay foldl]. fields.
      eauto 10.
    + rewrite history_checkWinCondition in Hlog. fields.
      apply app_inv_head in Hlog as <-.
      rewrite isPaused_checkWinCondition, board_checkWinCondition,
        notes_checkWinCondition. cbn [chainOk replay foldl]. fields.
      do 4 (split; [done|]). right. eauto 10.
  - unfold eraseCell in *.
    destruct (selected s) as [[r c]|]; [|by destruct Hnone].
    destruct (isPaused s) eqn:Hp; [by destruct Hnone|].
    destruct (isComplete s); cbn [orb] in *; [by destruct Hnone|].
    destruct (negb (cellIs _ _ _ _)); [by destruct Hnone|].
    destruct (cell (board s) r c) as [old|] eqn:Hold; [|by destruct Hnone].
    destruct (noteAt (notes s) r c) as [oldN|] eqn:HoldN;
      [|by destruct Hnone].
    destruct (_ || _); [|by destruct Hnone]. fields.
    apply app_inv_head in Hlog as <-. cbn [chainOk replay foldl]. fields.
    eauto 10.
  - unfold giveHint in *.
    destruct (hintsRemaining s <=? 0)%Z; cbn [orb] in *;
      [by destruct Hnone|].
    destruct (isPaused s) eqn:Hp; [by destruct Hnone|].
    destruct (isComplete s); cbn [orb] in *; [by destruct Hnone|].
    cbv zeta in *. destruct (length _ =? 0); [by destruct Hnone|].
    destruct (_ !! _) as [[r c]|]; [|by destruct Hnone].
    destruct (cell (solution s) r c) as [correct|]; [|by destruct Hnone].
    destruct (cell (board s) r c) as [old|] eqn:Hold; [|by destruct Hnone].
    rewrite history_checkWinCondition in Hlog. fields.
    apply app_inv_head in Hlog as <-.
    rewrite isPaused_checkWinCondition, board_checkWinCondition,
      notes_checkWinCondition. cbn [chainOk replay foldl]. fields.
    do 4 (split; [done|]). right. eauto 10.
Qed.

Lemma unapplyBoard_after_applyBoard e b :
  okBoard e b → unapplyBoard e (applyBoard e b) = b.
Proof. destruct e; try done; apply setCell_restore. Qed.

Lemma unapplyNotes_after_applyNotes e n :
  okNotes e n → unapplyNotes e (applyNotes e n) = n.
Proof. destruct e; try done; apply setNote_restore. Qed.

Lemma neutral_history pre : ∀ s,
  forallb isNeutral pre = true →
  history (run pre s) = history s ∧ historyIndex (run pre s) = historyIndex s.
Proof.
  induction pre as [|a pre IH]; intros s H; [done|].
  apply andb_prop in H as [Ha Hpre]. cbn [run foldl].
  fold (run pre (step a s)). destruct (IH (step a s) Hpre) as [-> ->].
  destruct a; try discriminate Ha; cbn [step]; [|done].
  unfold selectCell. by destruct (_ || _).
Qed.

Lemma neutral_grids a s :
  isNeutral a = true → board (step a s) = board s ∧ notes (step a s) = notes s.
Proof.
  destruct a; try discriminate; intros _; cbn [step]; [|done].
  unfold selectCell. by destruct (_ || _).
Qed.

(** A component of the state that [applyAction] writes action by action. *)
Section component.
Context {X : Type} (proj : GameState → X)
        (applyE unapplyE : Entry → X → X) (okE : Entry → X → Prop)
        (P : GameState → GameState → list Entry → Prop).
Hypothesis inverse : ∀ e x, okE e x → unapplyE e (applyE e x) = x.
Hypothesis proj_applyAction : ∀ e (reverse : bool) u h i,
  proj (applyAction e reverse (withLog h i u))
  = (if reverse then unapplyE e else applyE e) (proj u).
Hypothesis proj_neutral : ∀ a s, isNeutral a = true → proj (step a s) = proj s.
Hypothesis proj_edit : ∀ a s es,
  cursorInRange s → recorded a s es → P s (step a s) es →
  chainOk applyE okE (proj s) es ∧ proj (step a s) = replay applyE es (proj s).

(** The history is [pre ++ es] and the cursor is at entry [pos] of [es],
    counted from one. *)
Lemma cursor_walk (pre es : list Entry) x0 us : ∀ pos u j,
  cursor isUndo isRedo (length es) pos us = Some j →
  pos ≤ length es →
  isPaused u = false → isComplete u = false →
  history u = pre ++ es →
  historyIndex u = (Z.of_nat (length pre + pos) - 1)%Z →
  chainOk applyE okE x0 es →
  proj u = replay applyE (take pos es) x0 →
  proj (run us u) = replay applyE (take j es) x0.
Proof.
  induction us as [|a us IH];
    intros pos u j Hcur Hpos Hp Hc Hh Hi Hok Hu.
  { by injection Hcur as <-. }
  cbn [cursor] in Hcur. cbn [run foldl]. fold (run us (step a u)).
  destruct a; try discriminate Hcur; cbn [isUndo isRedo step] in *.
  - destruct pos as [|pos]; [done|]. cbn [Nat.eqb] in Hcur.
    replace (S pos - 1) with pos in Hcur by lia.
    destruct (lookup_lt_is_Some_2 es pos) as [e He]; [lia|].
    unfold undo. rewrite Hp, Hc, Hi, Hh.
    destruct (Z.ltb_spec (Z.of_nat (length pre + S pos) - 1) 0); [lia|].
    cbn [orb].
    replace (Z.to_nat (Z.of_nat (length pre + S pos) - 1))
      with (length pre + pos) by lia.
    rewrite lookup_app_r, Nat.add_comm, Nat.add_sub, He by lia.
    apply (IH pos _ j);
      [done|lia|by rewrite applyAction_cells..| |done|].
    + rewrite applyAction_cells. fields. lia.
    + rewrite proj_applyAction, Hu, (take_S_r es pos e He), replay_snoc.
      apply inverse. apply (chainOk_middle applyE okE x0 _ e (drop (S pos) es)).
      by rewrite take_drop_middle.
  - destruct (Nat.leb_spec (length es) pos) as [|Hlt]; [done|].
    destruct (lookup_lt_is_Some_2 es pos) as [e He]; [lia|].
    unfold redo. rewrite Hp, Hc, Hi, Hh, length_app.
    destruct (Z.leb_spec (Z.of_nat (length pre + length es) - 1)
                (Z.of_nat (length pre + pos) - 1)); [lia|].
    cbn [orb].
    replace (Z.to_nat (Z.of_nat (length pre + pos) - 1 + 1))
      with (length pre + pos) by lia.
    rewrite lookup_app_r, Nat.add_comm, Nat.add_sub, He by lia.
    replace (pos + 1) with (S pos) in Hcur by lia.
    apply (IH (S pos) _ j);
      [done|lia|by rewrite applyAction_cells..| |done|].
    + rewrite applyAction_cells. fields. lia.
    + by rewrite proj_applyAction, Hu, (take_S_r es pos e He), replay_snoc.
Qed.

Lemma neutral_component pre : ∀ s,
  forallb isNeutral pre = true → proj (run pre s) = proj s.
Proof.
  induction pre as [|a pre IH]; intros s H; [done|].
  apply andb_prop in H as [Ha Hpre]. cbn [run foldl].
  fold (run pre (step a s)). by rewrite IH, proj_neutral.
Qed.

Lemma neutral_cursorInRange pre s :
  forallb isNeutral pre = true → cursorInRange s → cursorInRange (run pre s).
Proof.
  intros Hpre. unfold cursorInRange.
  by destruct (neutral_history pre s Hpre) as [-> ->].
Qed.

(** The moves [ms] recorded the actions [concat ess], move by move. *)
Lemma edits_history ms : ∀ s ess,
  cursorInRange s → edits P ms s ess →
  length ess = length ms ∧
  historyIndex (playAll ms s)
  = (historyIndex s + Z.of_nat (length (concat ess)))%Z ∧
  chainOk applyE okE (proj s) (concat ess) ∧
  (∀ i, proj (playAll (take i ms) s)
        = replay applyE (concat (take i ess)) (proj s)) ∧
  (ms ≠ [] →
   isPaused (playAll ms s) = false ∧ isComplete (playAll ms s) = false ∧
   history (playAll ms s)
   = take (Z.to_nat (historyIndex s + 1)) (history s) ++ concat ess).
Proof.
  induction ms as [|m ms IH]; intros s [|es ess] Hin H; try done.
  { split; [done|]. split; [cbn; lia|]. split; [done|]. split; [|done].
    intros i. by rewrite !take_nil. }
  destruct H as (Hpre & Hrec & HP & Hrest).
  pose proof (neutral_cursorInRange _ s Hpre Hin) as Hin0.
  destruct (proj_edit _ _ es Hin0 Hrec HP) as [Hoke Happ].
  rewrite (neutral_component _ s Hpre) in Hoke, Happ. fold (play m s) in Happ.
  destruct (recorded_action _ _ es Hin0 Hrec) as (Hp & _).
  destruct Hrec as (_ & Hcomp & Hne & Hlog & Hidx).
  destruct (neutral_history _ s Hpre) as [Eh Ei].
  rewrite Eh, Ei in Hlog. rewrite Ei in Hidx.
  fold (play m s) in Hp, Hcomp, Hlog, Hidx.
  rewrite (slice0_cursor _ _ Hin) in Hlog.
  assert (length (history (play m s))
          = Z.to_nat (historyIndex s + 1) + length es) as Hlen1.
  { rewrite Hlog, length_app, length_take. unfold cursorInRange in Hin. lia. }
  assert (cursorInRange (play m s)) as Hin1.
  { unfold cursorInRange in *. rewrite Hidx, Hlen1.
    destruct es; [done|]. simpl. lia. }
  destruct (IH _ _ Hin1 Hrest) as (Hlen & Hi & Hok & Hproj & Hflags).
  split; [simpl; by rewrite Hlen|]. split; [|split; [|split]].
  - cbn [playAll foldl]. fold (playAll ms (play m s)). rewrite Hi, Hidx.
    cbn [concat]. rewrite length_app. lia.
  - cbn [concat]. rewrite chainOk_app. split; [done|]. by rewrite <- Happ.
  - intros [|i]; [done|]. cbn [take playAll foldl concat].
    fold (playAll (take i ms) (play m s)).
    by rewrite Hproj, Happ, replay_app.
  - intros _. cbn [playAll foldl concat]. fold (playAll ms (play m s)).
    destruct ms as [|m' ms'].
    { destruct ess; [|done]. cbn [concat]. by rewrite app_nil_r, <- Hlog. }
    destruct Hflags as (-> & -> & ->); [done|]. split; [done|]. split; [done|].
    rewrite take_ge by (rewrite Hlen1, Hidx; unfold cursorInRange in Hin; lia).
    by rewrite Hlog, <- app_assoc.
Qed.

(** Undos and redos after the moves [ms], never more undos than actions to
    undo nor more redos than actions undone, lead to the component that the
    first [j] actions give, where [j] is where the cursor stands; when [j]
    actions are what the first [i] moves recorded, that is the component
    after the first [i] moves. *)
Lemma undo_redo_history ms s0 ess us j :
  cursorInRange s0 → edits P ms s0 ess →
  cursor isUndo isRedo (length (concat ess)) (length (concat ess)) us
  = Some j →
  proj (run us (playAll ms s0)) = replay applyE (take j (concat ess)) (proj s0) ∧
  ∀ i, j = length (concat (take i ess)) →
       proj (run us (playAll ms s0)) = proj (playAll (take i ms) s0).
Proof.
  intros Hin Hedits Hcur.
  destruct (edits_history ms s0 ess Hin Hedits)
    as (Hlen & Hi & Hok & Hproj & Hfl).
  assert (proj (run us (playAll ms s0))
          = replay applyE (take j (concat ess)) (proj s0)) as Hwalk.
  { destruct ms as [|m ms].
    { destruct ess; [|done]. destruct us as [|a us]; [by injection Hcur as <-|].
      cbn in Hcur. by destruct (isUndo a), (isRedo a). }
    destruct Hfl as (Hp & Hc & Hh); [done|].
    apply (cursor_walk (take (Z.to_nat (historyIndex s0 + 1)) (history s0))
             (concat ess) (proj s0) us (length (concat ess))); try done.
    - rewrite Hi, length_take. unfold cursorInRange in Hin. lia.
    - specialize (Hproj (length (m :: ms))).
      rewrite take_ge in Hproj by done. rewrite Hproj.
      by rewrite !take_ge by lia. }
  split; [done|]. intros i ->. rewrite Hwalk, Hproj. f_equal.
  rewrite <- (take_drop i ess) at 2. by rewrite concat_app, take_app_length.
Qed.
End component.

(** The board after undos and redos. *)
Lemma undo_redo_grid ms s0 ess us j :
  cursorInRange s0 → edits (λ _ _ _, True) ms s0 ess →
  cursor isUndo isRedo (length (concat ess)) (length (concat ess)) us
  = Some j →
  board (run us (playAll ms s0))
  = replay applyBoard (take j (concat ess)) (board s0) ∧
  ∀ i, j = length (concat (take i ess)) →
       board (run us (playAll ms s0)) = board (playAll (take i ms) s0).
Proof.
  apply (undo_redo_history board applyBoard unapplyBoard okBoard).
  - apply unapplyBoard_after_applyBoard.
  - intros e reverse u h i. rewrite applyAction_cells. by destruct reverse.
  - intros a s Ha. by apply neutral_grids.
  - intros a s es Hin Hrec _.
    by destruct (recorded_action a s es Hin Hrec) as (_ & ? & ? & _).
Qed.

(** So are the notes, when the actions cover what the moves did to the
    notes. *)
Lemma undo_redo_pencil ms s0 ess us j :
  cursorInRange s0 → edits notesCaptured ms s0 ess →
  cursor isUndo isRedo (length (concat ess)) (length (concat ess)) us
  = Some j →
  notes (run us (playAll ms s0))
  = replay applyNotes (take j (concat ess)) (notes s0) ∧
  ∀ i, j = length (concat (take i ess)) →
       notes (run us (playAll ms s0)) = notes (playAll (take i ms) s0).
Proof.
  apply (undo_redo_history notes applyNotes unapplyNotes okNotes).
  - apply unapplyNotes_after_applyNotes.
  - intros e reverse u h i. rewrite applyAction_cells. by destruct reverse.
  - intros a s Ha. by apply neutral_grids.
  - intros a s es Hin Hrec Hcap.
    by destruct (recorded_action a s es Hin Hrec) as (_ & _ & _ & ? & _).
Qed.

Lemma edits_monotone
    (P Q : GameState → GameState → list Entry → Prop) ms :
  (∀ s s' es, P s s' es → Q s s' es) →
  ∀ s ess, edits P ms s ess → edits Q ms s ess.
Proof.
  intros HPQ. induction ms as [|m ms IH]; intros s [|es ess]; try done.
  intros (? & ? & ? & ?). cbn [edits].
  split; [done|]. split; [done|]. split; [by apply HPQ|by apply IH].
Qed.

Lemma edits_length (P : GameState → GameState → list Entry → Prop) ms :
  ∀ s ess, edits P ms s ess → length ess = length ms.
Proof.
  induction ms as [|m ms IH]; intros s [|es ess]; try done.
  intros (_ & _ & _ & H). simpl. f_equal. by apply (IH (play m s)).
Qed.

(** The actions of an edit cover what it did to the notes, unless the edit
    put a value or a hint on a cell that had notes. *)
Lemma recorded_covers_notes a s es :
  cursorInRange s → recorded a s es →
  (∀ r c old new, es = [Value r c old new] ∨ es = [Hint r c old new] →
                  noteAt (notes s) r c = Some ∅) →
  notesCaptured s (step a s) es.
Proof.
  intros Hin Hrec Hclean.
  destruct (recorded_action a s es Hin Hrec)
    as (_ & _ & _ & _ & [Hcap|(r & c & old & new & Hes & Hn)]); [done|].
  unfold notesCaptured. rewrite Hn, (setNote_id _ _ _ _ (Hclean r c old new Hes)).
  by destruct Hes as [-> | ->].
Qed.

(** ** Recording discards what could be redone *)

(** The cursor is at the last action of the history. *)
Definition atEnd (s : GameState) : Prop :=
  historyIndex s = (Z.of_nat (length (history s)) - 1)%Z.

Lemma atEnd_cursorInRange s : atEnd s → cursorInRange s.
Proof. unfold atEnd, cursorInRange. lia. Qed.

Lemma redo_atEnd s : atEnd s → redo s = s.
Proof.
  unfold atEnd, redo. intros ->.
  by destruct (Z.leb_spec (Z.of_nat (length (history s)) - 1)
                 (Z.of_nat (length (history s)) - 1)); [|lia].
Qed.

Lemma addToHistory_discards_redo e s :
  cursorInRange s →
  history (addToHistory e s)
  = take (Z.to_nat (historyIndex s + 1)) (history s) ++ [e] ∧
  atEnd (addToHistory e s) ∧ redo (addToHistory e s) = addToHistory e s.
Proof.
  intros Hin.
  assert (atEnd (addToHistory e s)) as Hend.
  { unfold atEnd, addToHistory. fields.
    rewrite (slice0_cursor _ _ Hin), length_app, length_take.
    unfold cursorInRange in Hin. simpl. lia. }
  split; [|split; [done|by apply redo_atEnd]].
  unfold addToHistory. fields. by rewrite (slice0_cursor _ _ Hin).
Qed.

Lemma atEnd_checkWinCondition s : atEnd s → atEnd (checkWinCondition s).
Proof.
  unfold atEnd.
  by rewrite historyIndex_checkWinCondition, history_checkWinCondition.
Qed.

(** An edit leaves the history and its cursor as they are, or records:
    then the cursor is at the last action and nothing is left to redo. *)
Lemma edit_discards_tail a s :
  isEdit a = true → cursorInRange s →
  (history (step a s) = history s ∧ historyIndex (step a s) = historyIndex s) ∨
  (atEnd (step a s) ∧ redo (step a s) = step a s).
Proof.
  assert (∀ u, atEnd u → atEnd u ∧ redo u = u) as Hredo.
  { intros u Hu. split; [done|by apply redo_atEnd]. }
  intros Hedit Hin. destruct a; try discriminate Hedit; cbn [step].
  - unfold inputNumber. destruct (selected s) as [[r c]|]; [|by left].
    destruct (_ || _); [by left|]. destruct (negb _); [by left|].
    destruct (cell (board s) r c) as [old|]; [|by left].
    destruct (noteAt (notes s) r c) as [oldN|]; [|by left].
    destruct (isNotesMode s); [|destruct (old =? num)%Z]; cbv zeta.
    + destruct (bool_decide _), (old =? 0)%Z; cbn [negb];
        [left; by rewrite history_checkWinCondition,
                  historyIndex_checkWinCondition|..];
        right; apply Hredo, atEnd_checkWinCondition;
        apply addToHistory_discards_redo; try done.
      apply atEnd_cursorInRange.
      by apply (addToHistory_discards_redo _
                  (withCells (board s) (setNote (notes s) r c _) s)).
    + right. apply Hredo, atEnd_checkWinCondition.
      by apply addToHistory_discards_redo.
    + right. apply Hredo, atEnd_checkWinCondition.
      by apply addToHistory_discards_redo.
  - unfold eraseCell. destruct (selected s) as [[r c]|]; [|by left].
    destruct (_ || _); [by left|]. destruct (negb _); [by left|].
    destruct (cell (board s) r c) as [old|]; [|by left].
    destruct (noteAt (notes s) r c) as [oldN|]; [|by left].
    destruct (_ || _); [|by left]. right. apply Hredo.
    by apply addToHistory_discards_redo.
  - unfold giveHint. destruct (_ || _); [by left|]. cbv zeta.
    destruct (length _ =? 0); [by left|].
    destruct (_ !! _) as [[r c]|]; [|by left].
    destruct (cell (solution s) r c) as [correct|]; [|by left].
    destruct (cell (board s) r c) as [old|]; [|by left].
    right. apply Hredo, atEnd_checkWinCondition.
    by apply addToHistory_discards_redo.
Qed.

(** [addToHistory(); undo(); addToHistory(X)]: the action that was undone
    is gone. *)
Lemma addToHistory_undo_addToHistory a x s :
  isPaused s = false → isComplete s = false → cursorInRange s →
  history (addToHistory x (undo (addToHistory a s)))
  = take (Z.to_nat (historyIndex s + 1)) (history s) ++ [x] ∧
  atEnd (addToHistory x (undo (addToHistory a s))) ∧
  redo (addToHistory x (undo (addToHistory a s)))
  = addToHistory x (undo (addToHistory a s)).
Proof.
  intros Hp Hc Hin.
  destruct (addToHistory_discards_redo a s Hin) as (Hh & Hend & _).
  assert (length (take (Z.to_nat (historyIndex s + 1)) (history s))
          = Z.to_nat (historyIndex s + 1)) as Hlen.
  { rewrite length_take. unfold cursorInRange in Hin. lia. }
  assert (history (undo (addToHistory a s)) = history (addToHistory a s) ∧
          historyIndex (undo (addToHistory a s)) = historyIndex s) as [Eh Ei].
  { unfold undo. change (isPaused (addToHistory a s)) with (isPaused s).
    change (isComplete (addToHistory a s)) with (isComplete s).
    rewrite Hp, Hc.
    change (historyIndex (addToHistory a s)) with (historyIndex s + 1)%Z.
    destruct (Z.ltb_spec (historyIndex s + 1) 0) as [Hneg|_].
    { unfold cursorInRange in Hin. lia. }
    cbn [orb]. rewrite Hh, lookup_app_r by lia.
    rewrite Hlen, Nat.sub_diag. cbn [lookup list_lookup].
    rewrite applyAction_cells. fields. split; [done|lia]. }
  assert (cursorInRange (undo (addToHistory a s))) as Hin'.
  { unfold cursorInRange in *. rewrite Ei, Eh, Hh, length_app. simpl. lia. }
  destruct (addToHistory_discards_redo x _ Hin') as (Hh' & Hend' & Hredo').
  split; [|done]. rewrite Hh', Ei, Eh, Hh.
  by rewrite take_app_length' by done.
Qed.

End history.

End Classic.

(** * A fresh game *)

Lemma bind_Some_eq {A B} (m : option A) (f : A → option B) x :
  m = Some x → m ≫= f = f x.
Proof. by intros ->. Qed.

(** Both generators return a puzzle that is part of its solution. *)
Lemma generate_extends random k difficulty :
  (∃ puzzle solution, generate random k difficulty = Some (puzzle, solution)
                      ∧ extends puzzle solution) ∧
  (∃ puzzle solution, generatePuzzle random k difficulty
                      = Some (puzzle, solution) ∧ extends puzzle solution).
Proof.
  destruct (generateSolution_empty random k)
    as (sol & k' & Heq & Hwf & _ & Hcomp & _).
  split.
  - destruct (DIFFICULTY difficulty) as [min max] eqn:Hd.
    destruct (createPuzzleOn_invariant positions random k' sol min max Hwf Hcomp)
      as (P & HP & _ & Hext & _).
    exists P, sol. split; [|done]. unfold generate.
    rewrite (bind_Some_eq _ _ _ Heq). cbv beta iota.
    unfold createPuzzlePwa, createPuzzleTierPwa. rewrite Hd.
    by rewrite (bind_Some_eq _ _ _ HP).
  - destruct (DIFFICULTY difficulty) as [min max] eqn:Hd.
    destruct (createPuzzleOn_invariant
                (shuffle random (S k') positions).1 random k' sol min max
                Hwf Hcomp)
      as (P & HP & _ & Hext & _).
    exists P, sol. split; [|done]. unfold generatePuzzle.
    rewrite (bind_Some_eq _ _ _ Heq). cbv beta iota.
    unfold createPuzzle, createPuzzleTier. rewrite Hd.
    by rewrite (bind_Some_eq _ _ _ HP).
Qed.

(** C8. In every state reached from a freshly started game by any sequence
    of moves (cell selection, notes toggle, pause, number input, erase,
    hint, undo, redo, auto-solve), the clue grid is the one the game
    started with and every cell that is nonzero in it holds its initial
    value on the board. This holds for both scripts. *)
Theorem prefilled_cells_read_only (random : nat → nat) (k : nat)
    (difficulty : Difficulty) :
  (∀ autoRemove, ∃ s0,
     Pwa.newGame random k difficulty autoRemove = Some s0 ∧
     ∀ acts,
       Pwa.initial (Pwa.run acts s0) = Pwa.initial s0 ∧
       ∀ r c v, cell (Pwa.initial s0) r c = Some v → v ≠ 0%Z →
                cell (Pwa.board (Pwa.run acts s0)) r c = Some v) ∧
  (∃ s0,
     Classic.startNewGame random k difficulty = Some s0 ∧
     ∀ acts,
       Classic.initial (Classic.run acts s0) = Classic.initial s0 ∧
       ∀ r c v, cell (Classic.initial s0) r c = Some v → v ≠ 0%Z →
                cell (Classic.board (Classic.run acts s0)) r c = Some v).
Proof.
  destruct (generate_extends random k difficulty)
    as [(p1 & s1 & Hg1 & He1) (p2 & s2 & Hg2 & He2)].
  split.
  - intros autoRemove. exists (Pwa.startGame p1 s1 autoRemove). split.
    + unfold Pwa.newGame. by rewrite (bind_Some_eq _ _ _ Hg1).
    + intros acts.
      destruct (Pwa.run_sound acts _ (Pwa.startGame_sound p1 s1 autoRemove He1))
        as ((_ & Hkept & _) & Hinit & _).
      split; [done|]. intros r c v Hv Hv0. apply Hkept; [|done].
      by rewrite Hinit.
  - exists (Classic.startGame p2 s2). split.
    + unfold Classic.startNewGame. by rewrite (bind_Some_eq _ _ _ Hg2).
    + intros acts.
      destruct (Classic.run_keeps_sound acts _ (Classic.startGame_is_sound p2 s2 He2))
        as ((_ & Hkept & _) & Hinit & _).
      split; [done|]. intros r c v Hv Hv0. apply Hkept; [|done].
      by rewrite Hinit.
Qed.

(** * Undo and redo in both scripts *)

(** A game of [script.js] on the canonical solution with its first two rows
    emptied, the player having noted 5 in the second cell and selected the
    first. *)
Definition sampleGamePwa (autoRemove : bool) : Pwa.GameState :=
  Pwa.run [Pwa.DoSelect 0 1; Pwa.DoToggleNotes; Pwa.DoInput 5;
           Pwa.DoToggleNotes; Pwa.DoSelect 0 0]
    (Pwa.startGame twoRowsEmpty canonical autoRemove).

(** A game of [part_000] on the same puzzle, the player having noted 3 in
    the first cell. *)
Definition sampleGameClassic : Classic.GameState :=
  Classic.run [Classic.DoSelect 0 0; Classic.DoToggleNotes; Classic.DoInput 3;
               Classic.DoToggleNotes]
    (Classic.startGame twoRowsEmpty canonical).

(** Three moves of [script.js] from the sample game, without removal of
    related notes: 5 in the first cell, a note 7 in the third, 6 in the
    first cell of the second row. *)
Definition sampleMovesPwa : list Pwa.Move :=
  [ ([], Pwa.DoInput 5);
    ([Pwa.DoSelect 0 2; Pwa.DoToggleNotes], Pwa.DoInput 7);
    ([Pwa.DoToggleNotes; Pwa.DoSelect 1 0], Pwa.DoInput 6) ].

Definition sampleEntriesPwa : list Pwa.Entry :=
  [ {| Pwa.type := Pwa.Value; Pwa.row := 0; Pwa.col := 0; Pwa.oldValue := 0;
       Pwa.oldNotes := ∅; Pwa.newValue := 5; Pwa.newNotes := Some ∅ |};
    {| Pwa.type := Pwa.Note; Pwa.row := 0; Pwa.col := 2; Pwa.oldValue := 0;
       Pwa.oldNotes := ∅; Pwa.newValue := 0; Pwa.newNotes := Some {[7%Z]} |};
    {| Pwa.type := Pwa.Value; Pwa.row := 1; Pwa.col := 0; Pwa.oldValue := 0;
       Pwa.oldNotes := ∅; Pwa.newValue := 6; Pwa.newNotes := Some ∅ |} ].

(** Three moves of [part_000] from the sample game: 7 in the second cell,
    then a note 2 in that cell, which takes the 7 away and records two
    actions, then the first cell erased. *)
Definition sampleMovesClassic : list Classic.Move :=
  [ ([Classic.DoSelect 0 1], Classic.DoInput 7);
    ([Classic.DoToggleNotes], Classic.DoInput 2);
    ([Classic.DoSelect 0 0], Classic.DoErase) ].

Definition sampleEntriesClassic : list (list Classic.Entry) :=
  [ [Classic.Value 0 1 0 7];
    [Classic.Note 0 1 ∅ {[2%Z]}; Classic.Value 0 1 7 0];
    [Classic.Erase 0 0 0 {[3%Z]}] ].

Lemma sampleMovesPwa_edits :
  Pwa.edits Pwa.notesCaptured sampleMovesPwa (sampleGamePwa false)
    sampleEntriesPwa.
Proof.
  unfold sampleMovesPwa, sampleEntriesPwa. cbn [Pwa.edits].
  unfold Pwa.recorded, Pwa.notesCaptured.
  repeat match goal with
         | |- _ ∧ _ => split
         | |- ∃ x, _ => eexists; vm_compute; reflexivity
         | |- _ → _ => by vm_compute
         | |- _ = _ => vm_compute; reflexivity
         | |- True => exact I
         end.
Qed.

Lemma sampleMovesClassic_edits :
  Classic.edits Classic.notesCaptured sampleMovesClassic sampleGameClassic
    sampleEntriesClassic.
Proof.
  unfold sampleMovesClassic, sampleEntriesClassic. cbn [Classic.edits].
  unfold Classic.recorded, Classic.notesCaptured.
  repeat match goal with
         | |- _ ∧ _ => split
         | |- _ ≠ _ => discriminate
         | |- _ = _ => vm_compute; reflexivity
         | |- True => exact I
         end.
Qed.

(** Games on the canonical solution with only its first cell empty, that
    cell selected. *)
Definition oneCellLeft : Grid := setCell canonical 0 0 0.

Definition lastMovePwa : Pwa.GameState :=
  Pwa.run [Pwa.DoSelect 0 0] (Pwa.startGame oneCellLeft canonical false).

Definition lastMoveClassic : Classic.GameState :=
  Classic.run [Classic.DoSelect 0 0] (Classic.startGame oneCellLeft canonical).

(** C6, as stated, fails in both scripts: one recorded edit followed by one
    undo does not bring the state back.
    - In [script.js] with removal of related notes switched on, 5 set in
      the first cell takes the note 5 out of the second cell, of which the
      history entry holds nothing, and the undo leaves the second cell
      without its note. In [part_000] 5 set in the first cell clears the
      note 3 of that cell, the value action holds no notes, and the undo
      leaves the cell without its note.
    - In both scripts the edit that completes the board is recorded, and
      undo does nothing once the game is complete: the 5 stays in the
      cell. *)
Lemma undo_does_not_restore_state :
  ((∃ e, Pwa.recorded (Pwa.DoInput 5) (sampleGamePwa true) e) ∧
   noteAt (Pwa.notes (sampleGamePwa true)) 0 1 = Some {[5%Z]} ∧
   noteAt (Pwa.notes
             (Pwa.undo (Pwa.step (Pwa.DoInput 5) (sampleGamePwa true))))
     0 1 = Some ∅ ∧
   Classic.recorded (Classic.DoInput 5) sampleGameClassic
     [Classic.Value 0 0 0 5] ∧
   noteAt (Classic.notes sampleGameClassic) 0 0 = Some {[3%Z]} ∧
   noteAt (Classic.notes
             (Classic.undo
                (Classic.step (Classic.DoInput 5) sampleGameClassic)))
     0 0 = Some ∅) ∧
  ((∃ e, Pwa.moveHistory (Pwa.step (Pwa.DoInput 5) lastMovePwa)
         = Pwa.moveHistory lastMovePwa ++ [e]) ∧
   cell (Pwa.board lastMovePwa) 0 0 = Some 0%Z ∧
   cell (Pwa.board (Pwa.undo (Pwa.step (Pwa.DoInput 5) lastMovePwa))) 0 0
   = Some 5%Z ∧
   (∃ e, Classic.history (Classic.step (Classic.DoInput 5) lastMoveClassic)
         = Classic.history lastMoveClassic ++ [e]) ∧
   cell (Classic.board lastMoveClassic) 0 0 = Some 0%Z ∧
   cell (Classic.board
           (Classic.undo (Classic.step (Classic.DoInput 5) lastMoveClassic)))
     0 0 = Some 5%Z).
Proof.
  split.
  - split.
    { exists {| Pwa.type := Pwa.Value; Pwa.row := 0; Pwa.col := 0;
                Pwa.oldValue := 0; Pwa.oldNotes := ∅; Pwa.newValue := 5;
                Pwa.newNotes := Some ∅ |}.
      repeat split; vm_compute; reflexivity. }
    split; [vm_compute; reflexivity|]. split; [vm_compute; reflexivity|].
    split.
    { split; [reflexivity|]. split; [vm_compute; reflexivity|].
      split; [discriminate|]. split; vm_compute; reflexivity. }
    split; vm_compute; reflexivity.
  - split.
    { exists {| Pwa.type := Pwa.Value; Pwa.row := 0; Pwa.col := 0;
                Pwa.oldValue := 0; Pwa.oldNotes := ∅; Pwa.newValue := 5;
                Pwa.newNotes := Some ∅ |}.
      vm_compute. reflexivity. }
    split; [vm_compute; reflexivity|]. split; [vm_compute; reflexivity|].
    split.
    { exists (Classic.Value 0 0 0 5). vm_compute. reflexivity. }
    split; vm_compute; reflexivity.
Qed.

(** C6, amended. Take edits that recorded and left the game incomplete, the
    player selecting cells and switching the notes mode in between, and
    then undos and redos: never an undo with none of the recorded entries
    left to undo, never a redo with none undone. An edit of [script.js]
    records one entry; an edit of [part_000] records one action, or two
    when it toggles a note on a cell that holds a value, and an undo takes
    back one action.
    - With [j] entries applied, the board is, cell for cell, the board
      that the first [j] entries give from the board before the first
      edit; when [j] entries are what the first [i] edits recorded, it is
      the board after the first [i] edits.
    - So are the notes when every edit's entries cover what the edit did
      to the notes: in [script.js] the edit changed the notes of its own
      cell only, and a value switched off was on a cell without notes; in
      [part_000] the edit's actions redo what it did to the notes.
    - So undoing all [n] entries restores the board, and under that
      condition the notes, that held before the first edit, and [n] redos
      after them restore those after the last edit.
    - [k] undos bring the cursor from [n] to [n - k], [k] redos after them
      back to [n].
    - In [part_000] the actions of an edit cover what it did to the notes,
      unless the edit put a value or a hint on a cell that had notes. *)
Theorem undo_redo_round_trip :
  (∀ ms s0 es us j,
     Pwa.edits (λ _ _ _, True) ms s0 es →
     cursor Pwa.isUndo Pwa.isRedo (length ms) (length ms) us = Some j →
     Pwa.board (Pwa.run us (Pwa.playAll ms s0))
     = Pwa.board (Pwa.playAll (take j ms) s0) ∧
     (Pwa.edits Pwa.notesCaptured ms s0 es →
      Pwa.notes (Pwa.run us (Pwa.playAll ms s0))
      = Pwa.notes (Pwa.playAll (take j ms) s0))) ∧
  (∀ ms s0 ess us j,
     Classic.cursorInRange s0 →
     Classic.edits (λ _ _ _, True) ms s0 ess →
     cursor Classic.isUndo Classic.isRedo
       (length (concat ess)) (length (concat ess)) us = Some j →
     (Classic.board (Classic.run us (Classic.playAll ms s0))
      = replay Classic.applyBoard (take j (concat ess)) (Classic.board s0) ∧
      ∀ i, j = length (concat (take i ess)) →
           Classic.board (Classic.run us (Classic.playAll ms s0))
           = Classic.board (Classic.playAll (take i ms) s0)) ∧
     (Classic.edits Classic.notesCaptured ms s0 ess →
      Classic.notes (Classic.run us (Classic.playAll ms s0))
      = replay Classic.applyNotes (take j (concat ess)) (Classic.notes s0) ∧
      ∀ i, j = length (concat (take i ess)) →
           Classic.notes (Classic.run us (Classic.playAll ms s0))
           = Classic.notes (Classic.playAll (take i ms) s0))) ∧
  (∀ ms s0 es,
     Pwa.edits (λ _ _ _, True) ms s0 es →
     let n := length ms in
     let s := Pwa.playAll ms s0 in
     Pwa.board (Pwa.run (replicate n Pwa.DoUndo) s) = Pwa.board s0 ∧
     Pwa.board (Pwa.run (replicate n Pwa.DoUndo ++ replicate n Pwa.DoRedo) s)
     = Pwa.board s ∧
     (Pwa.edits Pwa.notesCaptured ms s0 es →
      Pwa.notes (Pwa.run (replicate n Pwa.DoUndo) s) = Pwa.notes s0 ∧
      Pwa.notes (Pwa.run (replicate n Pwa.DoUndo ++ replicate n Pwa.DoRedo) s)
      = Pwa.notes s)) ∧
  (∀ ms s0 ess,
     Classic.cursorInRange s0 →
     Classic.edits (λ _ _ _, True) ms s0 ess →
     let n := length (concat ess) in
     let s := Classic.playAll ms s0 in
     Classic.board (Classic.run (replicate n Classic.DoUndo) s)
     = Classic.board s0 ∧
     Classic.board
       (Classic.run (replicate n Classic.DoUndo ++ replicate n Classic.DoRedo)
          s)
     = Classic.board s ∧
     (Classic.edits Classic.notesCaptured ms s0 ess →
      Classic.notes (Classic.run (replicate n Classic.DoUndo) s)
      = Classic.notes s0 ∧
      Classic.notes
        (Classic.run
           (replicate n Classic.DoUndo ++ replicate n Classic.DoRedo) s)
      = Classic.notes s)) ∧
  (∀ n k, k ≤ n →
     cursor Pwa.isUndo Pwa.isRedo n n (replicate k Pwa.DoUndo) = Some (n - k) ∧
     cursor Pwa.isUndo Pwa.isRedo n n
       (replicate k Pwa.DoUndo ++ replicate k Pwa.DoRedo) = Some n ∧
     cursor Classic.isUndo Classic.isRedo n n (replicate k Classic.DoUndo)
     = Some (n - k) ∧
     cursor Classic.isUndo Classic.isRedo n n
       (replicate k Classic.DoUndo ++ replicate k Classic.DoRedo) = Some n) ∧
  (∀ a s es,
     Classic.cursorInRange s → Classic.recorded a s es →
     (∀ r c old new,
        es = [Classic.Value r c old new] ∨ es = [Classic.Hint r c old new] →
        noteAt (Classic.notes s) r c = Some ∅) →
     Classic.notesCaptured s (Classic.step a s) es).
Proof.
  assert (∀ n,
    cursor Pwa.isUndo Pwa.isRedo n n (replicate n Pwa.DoUndo) = Some 0 ∧
    cursor Pwa.isUndo Pwa.isRedo n n
      (replicate n Pwa.DoUndo ++ replicate n Pwa.DoRedo) = Some n ∧
    cursor Classic.isUndo Classic.isRedo n n (replicate n Classic.DoUndo)
    = Some 0 ∧
    cursor Classic.isUndo Classic.isRedo n n
      (replicate n Classic.DoUndo ++ replicate n Classic.DoRedo) = Some n)
    as Hall.
  { intros n.
    destruct (cursor_undos_redos Pwa.isUndo Pwa.isRedo Pwa.DoUndo Pwa.DoRedo
                eq_refl eq_refl eq_refl n n (le_n n)) as [H1 ?].
    destruct (cursor_undos_redos Classic.isUndo Classic.isRedo Classic.DoUndo
                Classic.DoRedo eq_refl eq_refl eq_refl n n (le_n n))
      as [H2 ?].
    rewrite Nat.sub_diag in H1, H2. done. }
  split; [|split; [|split; [|split; [|split]]]].
  - intros ms s0 es us j Hedits Hcur. split.
    + by apply (Pwa.undo_redo_board ms s0 es).
    + intros Hnotes. by apply (Pwa.undo_redo_notes ms s0 es).
  - intros ms s0 ess us j Hin Hedits Hcur. split.
    + by apply (Classic.undo_redo_grid ms s0 ess).
    + intros Hnotes. by apply (Classic.undo_redo_pencil ms s0 ess).
  - intros ms s0 es Hedits n s.
    destruct (Hall n) as (Hu & Hur & _).
    pose proof (Pwa.undo_redo_board ms s0 es _ _ Hedits Hu) as Hb0.
    pose proof (Pwa.undo_redo_board ms s0 es _ _ Hedits Hur) as Hb1.
    unfold n in Hb1 at 3. rewrite firstn_all in Hb1.
    split; [exact Hb0|]. split; [exact Hb1|]. intros Hnotes.
    pose proof (Pwa.undo_redo_notes ms s0 es _ _ Hnotes Hu) as Hn0.
    pose proof (Pwa.undo_redo_notes ms s0 es _ _ Hnotes Hur) as Hn1.
    unfold n in Hn1 at 3. rewrite firstn_all in Hn1. done.
  - intros ms s0 ess Hin Hedits n s.
    destruct (Hall n) as (_ & _ & Hu & Hur).
    pose proof (Classic.edits_length _ ms s0 ess Hedits) as Hlen.
    assert (n = length (concat (take (length ms) ess))) as Hn
      by (by rewrite <- Hlen, firstn_all).
    assert (take (length ms) ms = ms) as Hms by apply firstn_all.
    destruct (Classic.undo_redo_grid ms s0 ess _ _ Hin Hedits Hu)
      as [_ Hb0].
    destruct (Classic.undo_redo_grid ms s0 ess _ _ Hin Hedits Hur)
      as [_ Hb1].
    specialize (Hb0 0 eq_refl). specialize (Hb1 (length ms) Hn).
    rewrite Hms in Hb1.
    split; [exact Hb0|]. split; [exact Hb1|]. intros Hnotes.
    destruct (Classic.undo_redo_pencil ms s0 ess _ _ Hin Hnotes Hu)
      as [_ Hn0].
    destruct (Classic.undo_redo_pencil ms s0 ess _ _ Hin Hnotes Hur)
      as [_ Hn1].
    specialize (Hn0 0 eq_refl). specialize (Hn1 (length ms) Hn).
    rewrite Hms in Hn1. done.
  - intros n k Hk.
    destruct (cursor_undos_redos Pwa.isUndo Pwa.isRedo Pwa.DoUndo Pwa.DoRedo
                eq_refl eq_refl eq_refl n k Hk) as [? ?].
    destruct (cursor_undos_redos Classic.isUndo Classic.isRedo Classic.DoUndo
                Classic.DoRedo eq_refl eq_refl eq_refl n k Hk) as [? ?].
    done.
  - intros a s es Hin Hrec Hclean.
    by apply (Classic.recorded_covers_notes a s es).
Qed.

(** The sample moves. In [script.js] two of the three entries undone give
    the board and the notes after the first move. In [part_000] the three
    moves recorded four actions; all four undone and three redone give the
    board and the notes after the first two moves, all four undone those of
    the sample game, and four redos after that those after the three
    moves. *)
Lemma undo_redo_round_trip_witness :
  (Pwa.edits Pwa.notesCaptured sampleMovesPwa (sampleGamePwa false)
     sampleEntriesPwa ∧
   cursor Pwa.isUndo Pwa.isRedo 3 3 [Pwa.DoUndo; Pwa.DoUndo] = Some 1 ∧
   Pwa.board (Pwa.run [Pwa.DoUndo; Pwa.DoUndo]
                (Pwa.playAll sampleMovesPwa (sampleGamePwa false)))
   = Pwa.board (Pwa.playAll (take 1 sampleMovesPwa) (sampleGamePwa false)) ∧
   Pwa.notes (Pwa.run [Pwa.DoUndo; Pwa.DoUndo]
                (Pwa.playAll sampleMovesPwa (sampleGamePwa false)))
   = Pwa.notes (Pwa.playAll (take 1 sampleMovesPwa) (sampleGamePwa false))) ∧
  (Classic.cursorInRange sampleGameClassic ∧
   Classic.edits Classic.notesCaptured sampleMovesClassic sampleGameClassic
     sampleEntriesClassic ∧
   length (concat sampleEntriesClassic) = 4 ∧
   cursor Classic.isUndo Classic.isRedo 4 4
     [Classic.DoUndo; Classic.DoUndo; Classic.DoUndo; Classic.DoUndo;
      Classic.DoRedo; Classic.DoRedo; Classic.DoRedo] = Some 3 ∧
   3 = length (concat (take 2 sampleEntriesClassic)) ∧
   Classic.board
     (Classic.run [Classic.DoUndo; Classic.DoUndo; Classic.DoUndo;
                   Classic.DoUndo; Classic.DoRedo; Classic.DoRedo;
                   Classic.DoRedo]
        (Classic.playAll sampleMovesClassic sampleGameClassic))
   = Classic.board (Classic.playAll (take 2 sampleMovesClassic)
                      sampleGameClassic) ∧
   Classic.notes
     (Classic.run [Classic.DoUndo; Classic.DoUndo; Classic.DoUndo;
                   Classic.DoUndo; Classic.DoRedo; Classic.DoRedo;
                   Classic.DoRedo]
        (Classic.playAll sampleMovesClassic sampleGameClassic))
   = Classic.notes (Classic.playAll (take 2 sampleMovesClassic)
                      sampleGameClassic) ∧
   Classic.board
     (Classic.run (replicate 4 Classic.DoUndo)
        (Classic.playAll sampleMovesClassic sampleGameClassic))
   = Classic.board sampleGameClassic ∧
   Classic.notes
     (Classic.run (replicate 4 Classic.DoUndo)
        (Classic.playAll sampleMovesClassic sampleGameClassic))
   = Classic.notes sampleGameClassic ∧
   Classic.board
     (Classic.run (replicate 4 Classic.DoUndo ++ replicate 4 Classic.DoRedo)
        (Classic.playAll sampleMovesClassic sampleGameClassic))
   = Classic.board (Classic.playAll sampleMovesClassic sampleGameClassic) ∧
   Classic.notes
     (Classic.run (replicate 4 Classic.DoUndo ++ replicate 4 Classic.DoRedo)
        (Classic.playAll sampleMovesClassic sampleGameClassic))
   = Classic.notes (Classic.playAll sampleMovesClassic sampleGameClassic)).
Proof.
  destruct undo_redo_round_trip as (Hpwa & Hclassic & _ & Hall & _).
  assert (Classic.cursorInRange sampleGameClassic) as Hin
    by (vm_compute; split; [discriminate|reflexivity]).
  assert (Classic.edits (λ _ _ _, True) sampleMovesClassic sampleGameClassic
            sampleEntriesClassic) as Hedits.
  { apply (Classic.edits_monotone Classic.notesCaptured); [done|].
    exact sampleMovesClassic_edits. }
  split.
  - split; [exact sampleMovesPwa_edits|]. split; [reflexivity|].
    destruct (Hpwa sampleMovesPwa (sampleGamePwa false) sampleEntriesPwa
                [Pwa.DoUndo; Pwa.DoUndo] 1) as [Hb Hn].
    + apply (Pwa.edits_weaken Pwa.notesCaptured); [done|].
      exact sampleMovesPwa_edits.
    + reflexivity.
    + split; [exact Hb|]. apply Hn. exact sampleMovesPwa_edits.
  - split; [exact Hin|].
    split; [exact sampleMovesClassic_edits|]. split; [reflexivity|].
    split; [reflexivity|]. split; [reflexivity|].
    destruct (Hclassic sampleMovesClassic sampleGameClassic
                sampleEntriesClassic
                [Classic.DoUndo; Classic.DoUndo; Classic.DoUndo;
                 Classic.DoUndo; Classic.DoRedo; Classic.DoRedo;
                 Classic.DoRedo] 3 Hin Hedits eq_refl) as [[_ Hb] Hn].
    destruct (Hn sampleMovesClassic_edits) as [_ Hn'].
    split; [exact (Hb 2 eq_refl)|]. split; [exact (Hn' 2 eq_refl)|].
    destruct (Hall sampleMovesClassic sampleGameClassic sampleEntriesClassic
                Hin Hedits) as (Hb0 & Hb1 & Hnotes).
    destruct (Hnotes sampleMovesClassic_edits) as [Hn0 Hn1].
    split; [exact Hb0|]. split; [exact Hn0|]. split; [exact Hb1|exact Hn1].
Defined.

(** C7. Recording discards what could be redone. In [script.js] [record]
    empties the redo stack, so does every edit that records, and a [redo]
    right after does nothing; [record(); undo(); record(X)] in a running
    game puts [X] where the undone entry was, so on an empty history [X] is
    the one entry left. In [part_000] [addToHistory] cuts the history after
    the cursor and puts the cursor on the new last action, so does every
    edit that records, and a [redo] right after does nothing;
    [addToHistory(); undo(); addToHistory(X)] leaves [X] alone in a history
    that was empty. *)
Theorem recording_discards_redo_tail :
  (∀ e s,
     Pwa.moveHistory (Pwa.record e s) = Pwa.moveHistory s ++ [e] ∧
     Pwa.redoStack (Pwa.record e s) = [] ∧
     Pwa.redo (Pwa.record e s) = Pwa.record e s) ∧
  (∀ a s,
     Pwa.isEdit a = true →
     Pwa.moveHistory (Pwa.step a s) ≠ Pwa.moveHistory s →
     Pwa.redoStack (Pwa.step a s) = [] ∧
     Pwa.redo (Pwa.step a s) = Pwa.step a s) ∧
  (∀ a x s,
     Pwa.isPaused s = false → Pwa.isComplete s = false →
     Pwa.moveHistory s = [] →
     Pwa.moveHistory (Pwa.record x (Pwa.undo (Pwa.record a s))) = [x] ∧
     Pwa.redoStack (Pwa.record x (Pwa.undo (Pwa.record a s))) = [] ∧
     Pwa.redo (Pwa.record x (Pwa.undo (Pwa.record a s)))
     = Pwa.record x (Pwa.undo (Pwa.record a s))) ∧
  (∀ e s,
     Classic.cursorInRange s →
     Classic.history (Classic.addToHistory e s)
     = take (Z.to_nat (Classic.historyIndex s + 1)) (Classic.history s) ++ [e] ∧
     Classic.atEnd (Classic.addToHistory e s) ∧
     Classic.redo (Classic.addToHistory e s) = Classic.addToHistory e s) ∧
  (∀ a s,
     Classic.isEdit a = true → Classic.cursorInRange s →
     Classic.historyIndex (Classic.step a s) ≠ Classic.historyIndex s →
     Classic.atEnd (Classic.step a s) ∧
     Classic.redo (Classic.step a s) = Classic.step a s) ∧
  (∀ a x s,
     Classic.isPaused s = false → Classic.isComplete s = false →
     Classic.history s = [] → Classic.historyIndex s = (-1)%Z →
     Classic.history
       (Classic.addToHistory x (Classic.undo (Classic.addToHistory a s)))
     = [x] ∧
     Classic.historyIndex
       (Classic.addToHistory x (Classic.undo (Classic.addToHistory a s)))
     = 0%Z ∧
     Classic.redo
       (Classic.addToHistory x (Classic.undo (Classic.addToHistory a s)))
     = Classic.addToHistory x (Classic.undo (Classic.addToHistory a s))).
Proof.
  split; [|split; [|split; [|split; [|split]]]].
  - apply Pwa.record_discards_redo.
  - intros a s Ha Hlog.
    by destruct (Pwa.edit_discards_redo a s Ha) as [[? _]|(_ & ? & ?)].
  - intros a x s Hp Hc Hmh.
    destruct (Pwa.record_undo_record a x s Hp Hc) as (Hh & ? & ?).
    by rewrite Hmh in Hh.
  - apply Classic.addToHistory_discards_redo.
  - intros a s Ha Hin Hidx.
    by destruct (Classic.edit_discards_tail a s Ha Hin) as [[_ ?]|?].
  - intros a x s Hp Hc Hh Hi.
    assert (Classic.cursorInRange s) as Hin.
    { unfold Classic.cursorInRange. rewrite Hh, Hi. simpl. lia. }
    destruct (Classic.addToHistory_undo_addToHistory a x s Hp Hc Hin)
      as (Hh' & Hend & Hredo).
    rewrite Hh, Hi in Hh'. split; [done|]. split; [|done].
    unfold Classic.atEnd in Hend. rewrite Hend, Hh'. done.
Qed.

(** In the sample games: an edit after an undo leaves nothing to redo, and
    [record(); undo(); record(X)] on a new game leaves [X] alone. *)
Lemma recording_discards_redo_tail_witness :
  (Pwa.redoStack (Pwa.undo (sampleGamePwa false)) ≠ [] ∧
   Pwa.redoStack (Pwa.step (Pwa.DoInput 5) (Pwa.undo (sampleGamePwa false)))
   = [] ∧
   Pwa.redo (Pwa.step (Pwa.DoInput 5) (Pwa.undo (sampleGamePwa false)))
   = Pwa.step (Pwa.DoInput 5) (Pwa.undo (sampleGamePwa false))) ∧
  Classic.history
    (Classic.addToHistory (Classic.Value 0 1 0 7)
       (Classic.undo
          (Classic.addToHistory (Classic.Value 0 0 0 5)
             (Classic.startGame twoRowsEmpty canonical))))
  = [Classic.Value 0 1 0 7].
Proof.
  destruct recording_discards_redo_tail
    as (_ & Hedit & _ & _ & _ & Hclassic).
  split.
  - split; [vm_compute; discriminate|].
    apply Hedit; [reflexivity|]. vm_compute. discriminate.
  - by destruct (Hclassic (Classic.Value 0 0 0 5) (Classic.Value 0 1 0 7)
                   (Classic.startGame twoRowsEmpty canonical))
      as (? & _).
Defined.

(** * Further properties of the engine *)

Lemma shuffleFrom_position {A} random : ∀ i k (arr : list A),
  (shuffleFrom random i k arr).2 = k + i.
Proof.
  induction i as [|i IH]; intros k arr; [simpl; lia|].
  cbn [shuffleFrom]. rewrite IH. lia.
Qed.

(** X1. [shuffle] returns a permutation of the array it is given, of the
    same length, and draws one random number for each element but one. *)
Theorem shuffle_permutes {A} (random : nat → nat) (k : nat) (array : list A) :
  (shuffle random k array).1 ≡ₚ array ∧
  length (shuffle random k array).1 = length array ∧
  (shuffle random k array).2 = k + (length array - 1).
Proof.
  pose proof (shuffle_Permutation random k array) as H.
  split; [done|]. split; [by rewrite H|]. apply shuffleFrom_position.
Qed.

(** X2. [generateSolution] returns on every 9x9 grid, empty or not. When it
    answers true the grid is filled, keeps the cells it had, has entries
    0-9 if it had, and breaks no rule if the given cells broke none. When
    it answers false the grid is as it was given and has no completion. *)
Theorem generateSolution_any_grid (random : nat → nat) (k : nat) (g : Grid) :
  wf g →
  ∃ found g' k',
    generateSolution searchFuel random k g 0 0 = Some (found, g', k') ∧
    (found = true →
       wf g' ∧ complete g' ∧ extends g g' ∧
       (digits09 g → digits09 g') ∧ (consistent g → consistent g')) ∧
    (found = false → g' = g ∧ ∀ s, ¬ completion g s).
Proof.
  intros Hwf. rewrite generateSolution_search.
  destruct (search_post (pickShuffled random) (pickShuffled_digits random)
              searchFuel k g 0 0)
    as (b & g' & k' & Heq & Hpost); [done|lia|lia|unfold searchFuel; lia|].
  exists b, g', k'. split; [done|].
  destruct b; (split; [|]); try done; intros _.
  - destruct Hpost as (Hwf' & Hext & Hfill & Hdig & Hcons).
    split; [done|]. split; [by apply filledFrom_complete|done].
  - destruct Hpost as [-> Hno]. split; [done|].
    intros s (Hs & Hd & Hc & Hcs & He).
    apply (Hno s); try done. by apply complete_filledFrom.
Qed.

Lemma generateSolution_any_grid_witness :
  wf twoRowsEmpty ∧
  ∃ found g' k',
    generateSolution searchFuel (λ n, n) 0 twoRowsEmpty 0 0
    = Some (found, g', k') ∧
    (found = true →
       wf g' ∧ complete g' ∧ extends twoRowsEmpty g' ∧
       (digits09 twoRowsEmpty → digits09 g') ∧
       (consistent twoRowsEmpty → consistent g')) ∧
    (found = false → g' = twoRowsEmpty ∧ ∀ s, ¬ completion twoRowsEmpty s).
Proof.
  assert (wf twoRowsEmpty) as Hwf
    by (apply (bool_decide_unpack _); vm_compute; exact I).
  split; [exact Hwf|].
  exact (generateSolution_any_grid (λ n, n) 0 twoRowsEmpty Hwf).
Defined.

(** X3. [countSolutions] returns on every 9x9 grid, leaves the grid as it
    found it (each trial digit is taken back), and answers 0, 1 or 2. *)
Theorem countSolutions_restores_grid (g : Grid) :
  wf g →
  ∃ n, countSolutionsFrom searchFuel g 0 = Some (g, n) ∧
       countSolutions g = Some n ∧ (0 ≤ n ≤ 2)%Z.
Proof.
  intros Hwf.
  assert (countSolutionsFrom searchFuel g 0
          = Some (g, Z.min (0 + Z.of_nat (length (completionsFrom searchFuel g))) 2))
    as Heq.
  { apply countSolutionsFrom_count; [unfold searchFuel; lia|done| |lia].
    intros r c _ _ Hlt. unfold searchFuel in Hlt. lia. }
  eexists. split; [exact Heq|]. split.
  - unfold countSolutions. by rewrite Heq.
  - generalize (completionsFrom searchFuel g). intros l. lia.
Qed.

Lemma countSolutions_restores_grid_witness :
  wf twoRowsEmpty ∧
  ∃ n, countSolutionsFrom searchFuel twoRowsEmpty 0 = Some (twoRowsEmpty, n) ∧
       countSolutions twoRowsEmpty = Some n ∧ (0 ≤ n ≤ 2)%Z.
Proof.
  assert (wf twoRowsEmpty) as Hwf
    by (apply (bool_decide_unpack _); vm_compute; exact I).
  split; [exact Hwf|]. exact (countSolutions_restores_grid twoRowsEmpty Hwf).
Defined.

(** ** The generators end to end *)

(** What [createPuzzle] returns on a valid solution, whatever the order of
    the positions. *)
Lemma createPuzzleOn_result ps random k S min max :
  completion S S → (min ≤ max)%Z → (max ≤ 81)%Z →
  ∃ P, createPuzzleOn ps random k S min max = Some P ∧
    wf P ∧ digits09 P ∧ consistent P ∧ extends P S ∧
    countSolutions P = Some 1%Z ∧
    (∀ s, completion P s ↔ s = S) ∧
    (min ≤ Z.of_nat (clueCount P))%Z.
Proof.
  intros HS Hle Hmax. pose proof HS as (Hwf & Hd & Hcomp & Hcons & _).
  destruct (createPuzzleOn_invariant ps random k S min max Hwf Hcomp)
    as (P & HP & HwfP & Hext & Hone & HdP).
  exists P. split; [done|]. split; [done|]. split; [by apply HdP|].
  split; [by eapply consistent_extends|]. split; [done|]. split; [done|].
  split; [apply counted_once_unique; auto|].
  pose proof (targetClues_range random k min max Hle) as Htarget.
  unfold createPuzzleOn in HP. apply removeClues_count in HP; [|lia].
  rewrite copyGrid_id, (zeroCount_complete S Hcomp) in HP.
  pose proof (clue_zero_count P HwfP). lia.
Qed.

Lemma DIFFICULTY_range d :
  ((DIFFICULTY d).1 ≤ (DIFFICULTY d).2)%Z ∧ ((DIFFICULTY d).2 ≤ 81)%Z.
Proof. by destruct d. Qed.

(** A generated game: a valid solution and a puzzle that is part of it,
    has it as its one completion and keeps the clues of its tier. *)
Definition wellPosed (difficulty : Difficulty) (puzzle solution : Grid)
    : Prop :=
  completion solution solution ∧
  wf puzzle ∧ digits09 puzzle ∧ consistent puzzle ∧
  extends puzzle solution ∧
  countSolutions puzzle = Some 1%Z ∧
  (∀ s, completion puzzle s ↔ s = solution) ∧
  ((DIFFICULTY difficulty).1 ≤ Z.of_nat (clueCount puzzle))%Z.

Lemma generators_wellPosed random k difficulty :
  (∃ puzzle solution, generate random k difficulty = Some (puzzle, solution)
                      ∧ wellPosed difficulty puzzle solution) ∧
  (∃ puzzle solution, generatePuzzle random k difficulty
                      = Some (puzzle, solution)
                      ∧ wellPosed difficulty puzzle solution).
Proof.
  destruct (generateSolution_empty random k)
    as (sol & k' & Heq & Hwf & Hd & Hcomp & Hcons).
  assert (completion sol sol) as HS.
  { split; [done|]. split; [done|]. split; [done|]. split; [done|].
    apply extends_refl. }
  pose proof (DIFFICULTY_range difficulty) as [Hle Hmax].
  destruct (DIFFICULTY difficulty) as [min max] eqn:Hdiff. simpl in Hle, Hmax.
  split.
  - destruct (createPuzzleOn_result positions random k' sol min max HS Hle Hmax)
      as (P & HP & HPs).
    exists P, sol. split.
    + unfold generate. rewrite (bind_Some_eq _ _ _ Heq). cbv beta iota.
      unfold createPuzzlePwa, createPuzzleTierPwa. rewrite Hdiff.
      by rewrite (bind_Some_eq _ _ _ HP).
    + unfold wellPosed. rewrite Hdiff. done.
  - destruct (createPuzzleOn_result (shuffle random (S k') positions).1
                random k' sol min max HS Hle Hmax) as (P & HP & HPs).
    exists P, sol. split.
    + unfold generatePuzzle. rewrite (bind_Some_eq _ _ _ Heq). cbv beta iota.
      unfold createPuzzle, createPuzzleTier. rewrite Hdiff.
      by rewrite (bind_Some_eq _ _ _ HP).
    + unfold wellPosed. rewrite Hdiff. done.
Qed.

(** X4. Both generators ([SudokuGenerator.generate] of [script.js] and
    [generatePuzzle] of the stand-alone script) return, for every random
    stream and difficulty, a solution that is a full valid board and a
    puzzle that is part of it, has it as its only completion, and keeps at
    least the least number of clues of its difficulty. *)
Theorem generate_well_posed (random : nat → nat) (k : nat)
    (difficulty : Difficulty) :
  Forall (λ gen : (nat → nat) → nat → Difficulty → option (Grid * Grid),
            ∃ puzzle solution,
              gen random k difficulty = Some (puzzle, solution) ∧
              (wf solution ∧ digits09 solution ∧ complete solution
               ∧ consistent solution) ∧
              wf puzzle ∧ extends puzzle solution ∧
              (∀ s, completion puzzle s ↔ s = solution) ∧
              ((DIFFICULTY difficulty).1 ≤ Z.of_nat (clueCount puzzle))%Z)
         [generate; generatePuzzle].
Proof.
  destruct (generators_wellPosed random k difficulty)
    as [(P1 & S1 & H1 & W1) (P2 & S2 & H2 & W2)].
  apply Forall_cons. split; [|apply Forall_cons; split; [|by apply Forall_nil]].
  - exists P1, S1. split; [done|].
    destruct W1 as ((? & ? & ? & ? & _) & ? & _ & _ & ? & _ & ? & ?). done.
  - exists P2, S2. split; [done|].
    destruct W2 as ((? & ? & ? & ? & _) & ? & _ & _ & ? & _ & ? & ?). done.
Qed.

(** The solver finds the one completion of a grid that has exactly one. *)
Lemma solve_unique g S :
  wf g → digits09 g → consistent g → (∀ s, completion g s ↔ s = S) →
  solve g = Some (Some S).
Proof.
  intros Hwf Hd Hcons Huniq.
  destruct (solve_search g Hwf) as (b & g' & Heq & Hpost). rewrite Heq.
  destruct b.
  - destruct Hpost as (Hwf' & Hext & Hfill & Hdig & Hcs).
    do 2 f_equal. apply Huniq. split; [done|]. split; [by apply Hdig|].
    split; [by apply filledFrom_complete|]. split; [by apply Hcs|done].
  - destruct Hpost as [_ Hno]. exfalso.
    destruct (proj2 (Huniq S) eq_refl) as (? & ? & ? & ? & ?).
    apply (Hno S); try done. by apply complete_filledFrom.
Qed.

(** X5. On a generated puzzle [solve] finds the generated solution and
    [countSolutions] answers 1; on the solution itself [solve] returns it
    unchanged. *)
Theorem solve_recovers_generated_solution (random : nat → nat) (k : nat)
    (difficulty : Difficulty) :
  Forall (λ gen : (nat → nat) → nat → Difficulty → option (Grid * Grid),
            ∃ puzzle solution,
              gen random k difficulty = Some (puzzle, solution) ∧
              solve puzzle = Some (Some solution) ∧
              solve solution = Some (Some solution) ∧
              countSolutions puzzle = Some 1%Z)
         [generate; generatePuzzle].
Proof.
  assert (∀ P S, wellPosed difficulty P S →
            solve P = Some (Some S) ∧ solve S = Some (Some S)
            ∧ countSolutions P = Some 1%Z) as Hwp.
  { intros P S (HS & HwfP & HdP & HcP & Hext & Hone & Huniq & _).
    split; [by apply solve_unique|]. split; [|done].
    pose proof HS as (? & ? & ? & ? & _).
    apply solve_unique; try done. intros s. split.
    - intros (Hs1 & Hs2 & Hs3 & Hs4 & Hs5). apply Huniq.
      split; [done|]. split; [done|]. split; [done|]. split; [done|].
      by eapply extends_trans.
    - by intros ->. }
  destruct (generators_wellPosed random k difficulty)
    as [(P1 & S1 & H1 & W1) (P2 & S2 & H2 & W2)].
  apply Forall_cons. split; [|apply Forall_cons; split; [|by apply Forall_nil]].
  - exists P1, S1. split; [done|]. by apply Hwp.
  - exists P2, S2. split; [done|]. by apply Hwp.
Qed.

(** ** The conflict detector *)

(** Another cell that sees [(r, c)] holds the same digit. *)
Definition clashes (g : Grid) (r c : nat) : Prop :=
  ∃ v r' c', cell g r c = Some v ∧ v ≠ 0%Z ∧ r' < 9 ∧ c' < 9 ∧
             (r', c') ≠ (r, c) ∧ sameUnit r c r' c' ∧ cell g r' c' = Some v.

Lemma hasConflict_clashes g r c :
  wf g → r < 9 → c < 9 → hasConflict g r c = true ↔ clashes g r c.
Proof.
  intros Hwf Hr Hc. destruct (wf_cell g r c Hwf Hr Hc) as [v Hv].
  unfold hasConflict. rewrite Hv.
  destruct (decide (v = 0%Z)) as [->|Hv0].
  { rewrite bool_decide_eq_true_2 by done. split; [done|].
    intros (w & r' & c' & Hw & Hw0 & _). congruence. }
  rewrite bool_decide_eq_false_2 by congruence.
  destruct (existsb _ (seq 0 9)) eqn:E1.
  { split; [|done]. intros _.
    apply existsb_exists in E1 as (c' & Hc' & Hb). apply in_seq in Hc'.
    apply andb_prop in Hb as [Hne Hb]. apply bool_decide_eq_true in Hb.
    apply negb_true_iff, Nat.eqb_neq in Hne.
    exists v, r, c'. repeat split; try done; try lia; [congruence|by left]. }
  destruct (existsb (λ r0, negb (r0 =? r) && _) (seq 0 9)) eqn:E2.
  { split; [|done]. intros _.
    apply existsb_exists in E2 as (r' & Hr' & Hb). apply in_seq in Hr'.
    apply andb_prop in Hb as [Hne Hb]. apply bool_decide_eq_true in Hb.
    apply negb_true_iff, Nat.eqb_neq in Hne.
    exists v, r', c. repeat split; try done; try lia; [congruence|].
    right. by left. }
  cbv zeta.
  destruct (existsb _ (seq (r / 3 * 3) 3)) eqn:E3.
  { split; [|done]. intros _.
    apply existsb_exists in E3 as (r' & Hr' & Hb). apply in_seq in Hr'.
    apply existsb_exists in Hb as (c' & Hc' & Hb). apply in_seq in Hc'.
    apply andb_prop in Hb as [Hne Hb]. apply bool_decide_eq_true in Hb.
    exists v, r', c'. split; [done|]. split; [done|].
    split; [by apply (box_lt r' r)|]. split; [by apply (box_lt c' c)|].
    split.
    - intros [= -> ->]. rewrite !Nat.eqb_refl in Hne. done.
    - split; [|done]. right. right. split; symmetry; apply box_range; lia. }
  split; [done|]. intros (w & r' & c' & Hw & Hw0 & Hr' & Hc' & Hne & Hu & Hw').
  assert (w = v) as -> by congruence. exfalso.
  rewrite existsb_seq_false in E1, E2, E3.
  destruct Hu as [<-|[<-|[Hbr Hbc]]].
  - specialize (E1 c'). rewrite Hw', bool_decide_eq_true_2 in E1 by done.
    destruct (Nat.eqb_spec c' c); [congruence|]. simpl in E1.
    discriminate E1. lia.
  - specialize (E2 r'). rewrite Hw', bool_decide_eq_true_2 in E2 by done.
    destruct (Nat.eqb_spec r' r); [congruence|]. simpl in E2.
    discriminate E2. lia.
  - assert (r / 3 * 3 ≤ r' < r / 3 * 3 + 3) as Hr3
      by (apply box_range; congruence).
    assert (c / 3 * 3 ≤ c' < c / 3 * 3 + 3) as Hc3
      by (apply box_range; congruence).
    specialize (E3 r' Hr3). rewrite existsb_seq_false in E3.
    specialize (E3 c' Hc3). rewrite Hw', bool_decide_eq_true_2 in E3 by done.
    destruct (Nat.eqb_spec r' r), (Nat.eqb_spec c' c); simpl in E3;
      congruence.
Qed.

Lemma getErrors_clashes g r c :
  wf g → (r, c) ∈ getErrors g ↔ r < 9 ∧ c < 9 ∧ clashes g r c.
Proof.
  intros Hwf. unfold getErrors. rewrite list_elem_of_filter, elem_of_positions.
  simpl. split.
  - intros [Hh [Hr Hc]]. split; [done|]. split; [done|].
    by apply hasConflict_clashes.
  - intros (Hr & Hc & Hcl). split; [|done]. by apply hasConflict_clashes.
Qed.

Lemma consistent_no_clash g r c : consistent g → ¬ clashes g r c.
Proof.
  intros Hcons (v & r' & c' & Hv & Hv0 & _ & _ & Hne & Hu & Hv').
  apply Hne. symmetry. by apply (Hcons r c r' c' v).
Qed.

Lemma consistent_getErrors g : wf g → consistent g → getErrors g = [].
Proof.
  intros Hwf Hcons. destruct (getErrors g) as [|[r c] l] eqn:E; [done|].
  exfalso. assert ((r, c) ∈ getErrors g) as Hin by (rewrite E; by left).
  apply getErrors_clashes in Hin as (_ & _ & Hcl); [|done].
  by apply (consistent_no_clash g r c).
Qed.

(** X6. On a 9x9 board, [hasConflict(board, row, col)] answers true exactly
    when the cell holds a digit other than 0 that another cell of its row,
    column or box holds too; and then it answers true on both cells of the
    pair. *)
Theorem hasConflict_reports_clashes (board : Grid) (row col : nat) :
  wf board → row < 9 → col < 9 →
  (hasConflict board row col = true ↔
   ∃ v r c, cell board row col = Some v ∧ v ≠ 0%Z ∧ r < 9 ∧ c < 9 ∧
            (r, c) ≠ (row, col) ∧ sameUnit row col r c ∧
            cell board r c = Some v) ∧
  (∀ r c, r < 9 → c < 9 → (r, c) ≠ (row, col) → sameUnit row col r c →
          cell board r c = cell board row col →
          cell board row col ≠ Some 0%Z →
          hasConflict board row col = true ∧ hasConflict board r c = true).
Proof.
  intros Hwf Hr Hc. split; [by apply hasConflict_clashes|].
  intros r c Hr' Hc' Hne Hu Heq Hv0.
  destruct (wf_cell board row col Hwf Hr Hc) as [v Hv].
  split; apply hasConflict_clashes; try done.
  - exists v, r, c. repeat split; try done; congruence.
  - exists v, row, col. repeat split; try done; try congruence.
    by apply sameUnit_sym.
Qed.

Lemma hasConflict_reports_clashes_witness :
  wf conflictGrid ∧ 4 < 9 ∧ 0 < 9 ∧
  hasConflict conflictGrid 4 0 = true ∧ hasConflict conflictGrid 4 4 = true.
Proof.
  assert (wf conflictGrid) as Hwf
    by (apply (bool_decide_unpack _); vm_compute; exact I).
  split; [exact Hwf|]. split; [lia|]. split; [lia|].
  apply (proj2 (hasConflict_reports_clashes conflictGrid 4 0 Hwf
                  ltac:(lia) ltac:(lia)) 4 4);
    [lia|lia|discriminate|by left|reflexivity|discriminate].
Defined.

(** X7. On a 9x9 board, [getErrors] returns the empty list exactly when no
    digit stands twice in a row, column or box; in general it lists the
    cells of the board on which [hasConflict] answers true. *)
Theorem getErrors_empty_iff_consistent (board : Grid) :
  wf board →
  (getErrors board = [] ↔ consistent board) ∧
  (∀ r c, (r, c) ∈ getErrors board ↔
          r < 9 ∧ c < 9 ∧ hasConflict board r c = true).
Proof.
  intros Hwf. split.
  - split; [by apply getErrors_nil_consistent|by apply consistent_getErrors].
  - intros r c. unfold getErrors.
    rewrite list_elem_of_filter, elem_of_positions. simpl. tauto.
Qed.

Lemma getErrors_empty_iff_consistent_witness :
  wf canonical ∧ getErrors canonical = [] ∧
  ∀ r c, (r, c) ∈ getErrors canonical ↔
         r < 9 ∧ c < 9 ∧ hasConflict canonical r c = true.
Proof.
  destruct canonical_solved as (Hwf & _ & _ & Hcons & _).
  split; [exact Hwf|].
  destruct (getErrors_empty_iff_consistent canonical Hwf) as [Hnil Hin].
  split; [exact (proj2 Hnil Hcons)|exact Hin].
Defined.

(** X8. The checker of the engine and the detector of the board agree: on
    an empty cell of a 9x9 board, writing a digit [num] other than 0 makes
    [hasConflict] answer true on that cell exactly when [isValid] refused
    [num] there. *)
Theorem isValid_agrees_with_hasConflict (g : Grid) (row col : nat) (num : Z) :
  wf g → row < 9 → col < 9 → num ≠ 0%Z → cell g row col = Some 0%Z →
  hasConflict (setCell g row col num) row col = negb (isValid g row col num).
Proof.
  intros Hwf Hr Hc Hnum Hz.
  assert (wf (setCell g row col num)) as Hwf' by by apply wf_setCell.
  assert (cell (setCell g row col num) row col = Some num) as Hnew
    by by apply cell_setCell_eq.
  destruct (isValid g row col num) eqn:Hval; simpl.
  - rewrite isValid_true in Hval by done.
    destruct (hasConflict _ row col) eqn:Hh; [|done]. exfalso.
    apply hasConflict_clashes in Hh; [|done..].
    destruct Hh as (v & r' & c' & Hv & _ & Hr' & Hc' & Hne & Hu & Hv').
    assert (v = num) as -> by congruence.
    rewrite cell_setCell_ne in Hv' by congruence.
    by apply (Hval r' c').
  - apply hasConflict_clashes; [done..|].
    destruct (decide (Exists (λ p, (row = p.1 ∨ col = p.2
                                    ∨ (row / 3 = p.1 / 3 ∧ col / 3 = p.2 / 3))
                                   ∧ cell g p.1 p.2 = Some num) positions))
      as [Hex|Hno].
    + apply Exists_exists in Hex as ([r' c'] & Hp & Hu & Hv). simpl in *.
      apply elem_of_positions in Hp as [Hr' Hc'].
      assert ((r', c') ≠ (row, col)) as Hne by congruence.
      exists num, r', c'. repeat split; try done.
      by rewrite cell_setCell_ne.
    + exfalso. assert (isValid g row col num = true) as Ht; [|congruence].
      apply isValid_true; [done..|]. intros r c Hr' Hc' Hu Hv.
      apply Hno, Exists_exists. exists (r, c).
      split; [by apply elem_of_positions|done].
Qed.

Lemma isValid_agrees_with_hasConflict_witness :
  wf twoRowsEmpty ∧ 0 < 9 ∧ 1 < 9 ∧ 1%Z ≠ 0%Z ∧
  cell twoRowsEmpty 0 1 = Some 0%Z ∧
  hasConflict (setCell twoRowsEmpty 0 1 1) 0 1
  = negb (isValid twoRowsEmpty 0 1 1) ∧
  isValid twoRowsEmpty 0 1 1 = false.
Proof.
  assert (wf twoRowsEmpty) as Hwf
    by (apply (bool_decide_unpack _); vm_compute; exact I).
  split; [exact Hwf|]. split; [lia|]. split; [lia|]. split; [lia|].
  split; [reflexivity|]. split; [|reflexivity].
  apply (isValid_agrees_with_hasConflict twoRowsEmpty 0 1 1 Hwf);
    [lia|lia|lia|reflexivity].
Defined.

#[local] Opaque positions.

(** * Further properties of the game controllers *)

(** The notes hold a set for each of the 81 cells, as every game starts. *)
Definition fullNotes (notes : NotesGrid) : Prop :=
  ∀ r c, r < 9 → c < 9 → is_Some (noteAt notes r c).

Lemma fullNotes_check notes :
  forallb (λ p, bool_decide (is_Some (noteAt notes p.1 p.2))) positions = true →
  fullNotes notes.
Proof.
  rewrite forallb_forall. intros H r c Hr Hc. specialize (H (r, c)).
  rewrite bool_decide_eq_true in H. apply H.
  apply list_elem_of_In. by apply elem_of_positions.
Qed.

(** The steps of a completed game return at their guard, all but the
    switch of the notes mode; those of a paused game too, all but that
    switch and the pause button. *)
Lemma frozen_pwa a s :
  a ≠ Pwa.DoToggleNotes →
  Pwa.isComplete s = true ∨ (Pwa.isPaused s = true ∧ a ≠ Pwa.DoTogglePause) →
  Pwa.step a s = s.
Proof.
  intros Ha [Hc|[Hp Ha']]; destruct a; try done; cbn [Pwa.step].
  - unfold Pwa.selectCell. by rewrite Hc, orb_true_r.
  - unfold Pwa.togglePause. by rewrite Hc.
  - unfold Pwa.inputNumber. destruct (Pwa.selected s) as [[r c]|]; [|done].
    by rewrite Hc, orb_true_r.
  - unfold Pwa.erase. destruct (Pwa.selected s) as [[r c]|]; [|done].
    by rewrite Hc, orb_true_r.
  - unfold Pwa.hint. by rewrite Hc, orb_true_r.
  - unfold Pwa.undo. by rewrite Hc, orb_true_r.
  - unfold Pwa.redo. by rewrite Hc, orb_true_r.
  - unfold Pwa.autoSolve. by rewrite Hc, orb_true_r.
  - unfold Pwa.selectCell. by rewrite Hp.
  - unfold Pwa.inputNumber. destruct (Pwa.selected s) as [[r c]|]; [|done].
    by rewrite Hp.
  - unfold Pwa.erase. destruct (Pwa.selected s) as [[r c]|]; [|done].
    by rewrite Hp.
  - unfold Pwa.hint. by rewrite Hp, orb_true_r.
  - unfold Pwa.undo. by rewrite Hp, orb_true_r.
  - unfold Pwa.redo. by rewrite Hp, orb_true_r.
  - unfold Pwa.autoSolve. by rewrite Hp.
Qed.

Lemma frozen_classic a s :
  a ≠ Classic.DoToggleNotes →
  Classic.isComplete s = true
  ∨ (Classic.isPaused s = true ∧ a ≠ Classic.DoTogglePause) →
  Classic.step a s = s.
Proof.
  intros Ha [Hc|[Hp Ha']]; destruct a; try done; cbn [Classic.step].
  - unfold Classic.selectCell. by rewrite Hc, orb_true_r.
  - unfold Classic.togglePause. by rewrite Hc.
  - unfold Classic.inputNumber.
    destruct (Classic.selected s) as [[r c]|]; [|done].
    by rewrite Hc, orb_true_r.
  - unfold Classic.eraseCell.
    destruct (Classic.selected s) as [[r c]|]; [|done].
    by rewrite Hc, orb_true_r.
  - unfold Classic.giveHint. by rewrite Hc, orb_true_r.
  - unfold Classic.undo. by rewrite Hc, orb_true_r.
  - unfold Classic.redo. by rewrite Hc, orb_true_r.
  - unfold Classic.autoSolve. by rewrite Hc, orb_true_r.
  - unfold Classic.selectCell. by rewrite Hp.
  - unfold Classic.inputNumber.
    destruct (Classic.selected s) as [[r c]|]; [|done].
    by rewrite Hp.
  - unfold Classic.eraseCell.
    destruct (Classic.selected s) as [[r c]|]; [|done].
    by rewrite Hp.
  - unfold Classic.giveHint. by rewrite Hp, orb_true_r.
  - unfold Classic.undo. by rewrite Hp, orb_true_r.
  - unfold Classic.redo. by rewrite Hp, orb_true_r.
  - unfold Classic.autoSolve. by rewrite Hp.
Qed.

(** [GameController.setPaused(paused)] of [script.js]; it has no guard. *)
Definition setPaused (paused : bool) (s : Pwa.GameState) : Pwa.GameState :=
  Pwa.withFlags (Pwa.selected s) (Pwa.isNotesMode s) paused
    (Pwa.isComplete s) s.

(** The Escape key of [script.js]. [openModal] is whether
    [document.querySelector('.modal:not(.hidden)')] finds a modal; hiding
    it leaves [gameState]. *)
Definition escapeKey (openModal : bool) (s : Pwa.GameState)
    : Pwa.GameState :=
  if openModal then s
  else if Pwa.isPaused s then setPaused false s
  else Pwa.withFlags None (Pwa.isNotesMode s) (Pwa.isPaused s)
         (Pwa.isComplete s) s.

(** X9. The guards of the controller functions. In both scripts
    [selectCell], [inputNumber], [erase] / [eraseCell], [hint] /
    [giveHint], [undo], [redo] and [autoSolve] return at once on a game
    that is paused or complete and leave the whole state as it is, and so
    does [togglePause] on a complete game. Not every handler has such a
    guard: the Escape key of [script.js], with no modal open, resumes a
    paused game and otherwise clears the selection, complete or not. *)
Theorem guarded_functions_leave_paused_or_complete_game :
  (∀ s, Pwa.isComplete s = true ∨ Pwa.isPaused s = true →
        (∀ r c, Pwa.selectCell r c s = s) ∧
        (∀ num, Pwa.inputNumber num s = s) ∧ Pwa.erase s = s ∧
        (∀ draw, Pwa.hint draw s = s) ∧ Pwa.undo s = s ∧ Pwa.redo s = s ∧
        Pwa.autoSolve s = s) ∧
  (∀ s, Pwa.isComplete s = true → Pwa.togglePause s = s) ∧
  (∀ s, Classic.isComplete s = true ∨ Classic.isPaused s = true →
        (∀ r c, Classic.selectCell r c s = s) ∧
        (∀ num, Classic.inputNumber num s = s) ∧ Classic.eraseCell s = s ∧
        (∀ draw, Classic.giveHint draw s = s) ∧ Classic.undo s = s ∧
        Classic.redo s = s ∧ Classic.autoSolve s = s) ∧
  (∀ s, Classic.isComplete s = true → Classic.togglePause s = s) ∧
  (∀ s, escapeKey true s = s ∧
        (Pwa.isPaused s = true →
         Pwa.isPaused (escapeKey false s) = false ∧
         Pwa.selected (escapeKey false s) = Pwa.selected s) ∧
        (Pwa.isPaused s = false →
         Pwa.selected (escapeKey false s) = None ∧
         Pwa.isComplete (escapeKey false s) = Pwa.isComplete s)).
Proof.
  split; [|split; [|split; [|split]]].
  - intros s Hs.
    assert (∀ a, a ≠ Pwa.DoToggleNotes → a ≠ Pwa.DoTogglePause →
                 Pwa.step a s = s) as Hstep.
    { intros a Ha Ha'. apply frozen_pwa; [done|].
      destruct Hs as [Hc|Hp]; [by left|by right]. }
    split; [intros r c; by apply (Hstep (Pwa.DoSelect r c))|].
    split; [intros num; by apply (Hstep (Pwa.DoInput num))|].
    split; [by apply (Hstep Pwa.DoErase)|].
    split; [intros draw; by apply (Hstep (Pwa.DoHint draw))|].
    split; [by apply (Hstep Pwa.DoUndo)|].
    split; [by apply (Hstep Pwa.DoRedo)|by apply (Hstep Pwa.DoAutoSolve)].
  - intros s Hc. unfold Pwa.togglePause. by rewrite Hc.
  - intros s Hs.
    assert (∀ a, a ≠ Classic.DoToggleNotes → a ≠ Classic.DoTogglePause →
                 Classic.step a s = s) as Hstep.
    { intros a Ha Ha'. apply frozen_classic; [done|].
      destruct Hs as [Hc|Hp]; [by left|by right]. }
    split; [intros r c; by apply (Hstep (Classic.DoSelect r c))|].
    split; [intros num; by apply (Hstep (Classic.DoInput num))|].
    split; [by apply (Hstep Classic.DoErase)|].
    split; [intros draw; by apply (Hstep (Classic.DoHint draw))|].
    split; [by apply (Hstep Classic.DoUndo)|].
    split; [by apply (Hstep Classic.DoRedo)
           |by apply (Hstep Classic.DoAutoSolve)].
  - intros s Hc. unfold Classic.togglePause. by rewrite Hc.
  - intros s. split; [done|]. unfold escapeKey. split.
    + by intros ->.
    + by intros ->.
Qed.

(** A solved game still loses its selection to the Escape key, and keeps
    it through a digit key. *)
Lemma guarded_functions_leave_paused_or_complete_game_witness :
  Pwa.isComplete (Pwa.autoSolve lastMovePwa) = true ∧
  Pwa.selected (Pwa.autoSolve lastMovePwa) = Some (0, 0) ∧
  Pwa.inputNumber 5 (Pwa.autoSolve lastMovePwa) = Pwa.autoSolve lastMovePwa ∧
  Pwa.selected (escapeKey false (Pwa.autoSolve lastMovePwa)) = None ∧
  Classic.isPaused (Classic.togglePause lastMoveClassic) = true ∧
  Classic.undo (Classic.togglePause lastMoveClassic)
  = Classic.togglePause lastMoveClassic.
Proof.
  destruct guarded_functions_leave_paused_or_complete_game
    as (Hpwa & _ & Hclassic & _ & Hescape).
  split; [reflexivity|]. split; [reflexivity|].
  split.
  { destruct (Hpwa (Pwa.autoSolve lastMovePwa) (or_introl eq_refl))
      as (_ & Hinput & _). apply Hinput. }
  split.
  { destruct (Hescape (Pwa.autoSolve lastMovePwa)) as (_ & _ & Hclear).
    by destruct (Hclear eq_refl). }
  split; [reflexivity|].
  by destruct (Hclassic (Classic.togglePause lastMoveClassic)
                 (or_intror eq_refl)) as (_ & _ & _ & _ & Hundo & _).
Defined.

(** ** Hints *)

Lemma hints_checkWin s :
  Pwa.hintsRemaining (Pwa.checkWin s) = Pwa.hintsRemaining s ∧
  Pwa.hintsUsed (Pwa.checkWin s) = Pwa.hintsUsed s.
Proof. unfold Pwa.checkWin. by destruct (boardSolved _ _). Qed.

Lemma hints_checkWinCondition s :
  Classic.hintsRemaining (Classic.checkWinCondition s)
  = Classic.hintsRemaining s.
Proof. unfold Classic.checkWinCondition. by destruct (boardSolved _ _). Qed.

(** Only a hint changes the counters, by one, and only with hints left. *)
Lemma step_hints_pwa a s :
  (Pwa.hintsRemaining (Pwa.step a s) = Pwa.hintsRemaining s ∧
   Pwa.hintsUsed (Pwa.step a s) = Pwa.hintsUsed s) ∨
  ((0 < Pwa.hintsRemaining s)%Z ∧
   Pwa.hintsRemaining (Pwa.step a s) = (Pwa.hintsRemaining s - 1)%Z ∧
   Pwa.hintsUsed (Pwa.step a s) = (Pwa.hintsUsed s + 1)%Z).
Proof.
  destruct a; cbn [Pwa.step].
  - left. unfold Pwa.selectCell. by destruct (_ || _).
  - by left.
  - left. unfold Pwa.togglePause. by destruct (Pwa.isComplete s).
  - left. unfold Pwa.inputNumber.
    destruct (Pwa.selected s) as [[r c]|]; [|done].
    destruct (_ || _); [done|]. destruct (negb _); [done|].
    destruct (cell _ r c) as [old|]; [|done].
    destruct (noteAt _ r c) as [oldN|]; [|done].
    destruct (Pwa.isNotesMode s); [|destruct (old =? num)%Z]; cbv zeta;
      by rewrite (proj1 (hints_checkWin _)), (proj2 (hints_checkWin _)).
  - left. unfold Pwa.erase.
    destruct (Pwa.selected s) as [[r c]|]; [|done].
    destruct (_ || _); [done|]. destruct (negb _); [done|].
    destruct (cell _ r c) as [old|]; [|done].
    destruct (noteAt _ r c) as [oldN|]; [|done].
    by destruct (_ && _).
  - unfold Pwa.hint.
    destruct (Z.leb_spec (Pwa.hintsRemaining s) 0); [by left|].
    cbn [orb]. destruct (_ || _); [by left|]. cbv zeta.
    destruct (length _ =? 0); [by left|].
    destruct (_ !! _) as [[r c]|]; [|by left].
    destruct (cell (Pwa.solution s) r c) as [correct|]; [|by left].
    destruct (cell (Pwa.board s) r c) as [old|]; [|by left].
    destruct (noteAt _ r c) as [oldN|]; [|by left].
    right. split; [done|]. by rewrite !(proj1 (hints_checkWin _)),
      !(proj2 (hints_checkWin _)).
  - left. unfold Pwa.undo. destruct (_ || _); [done|].
    by destruct (Pwa.pop _) as [[??]|].
  - left. unfold Pwa.redo. destruct (_ || _); [done|].
    by destruct (Pwa.pop _) as [[??]|].
  - left. unfold Pwa.autoSolve. by destruct (_ || _).
Qed.

Lemma step_hints_classic a s :
  Classic.hintsRemaining (Classic.step a s) = Classic.hintsRemaining s ∨
  ((0 < Classic.hintsRemaining s)%Z ∧
   Classic.hintsRemaining (Classic.step a s)
   = (Classic.hintsRemaining s - 1)%Z).
Proof.
  destruct a; cbn [Classic.step].
  - left. unfold Classic.selectCell. by destruct (_ || _).
  - by left.
  - left. unfold Classic.togglePause. by destruct (Classic.isComplete s).
  - left. unfold Classic.inputNumber.
    destruct (Classic.selected s) as [[r c]|]; [|done].
    destruct (_ || _); [done|]. destruct (negb _); [done|].
    destruct (cell _ r c) as [old|]; [|done].
    destruct (noteAt _ r c) as [oldN|]; [|done].
    destruct (Classic.isNotesMode s); [|destruct (old =? num)%Z]; cbv zeta;
      rewrite hints_checkWinCondition; [|done..].
    by destruct (negb (bool_decide _)), (negb (old =? 0)%Z).
  - left. unfold Classic.eraseCell.
    destruct (Classic.selected s) as [[r c]|]; [|done].
    destruct (_ || _); [done|]. destruct (negb _); [done|].
    destruct (cell _ r c) as [old|]; [|done].
    destruct (noteAt _ r c) as [oldN|]; [|done].
    by destruct (_ || _).
  - unfold Classic.giveHint.
    destruct (Z.leb_spec (Classic.hintsRemaining s) 0); [by left|].
    cbn [orb]. destruct (_ || _); [by left|]. cbv zeta.
    destruct (length _ =? 0); [by left|].
    destruct (_ !! _) as [[r c]|]; [|by left].
    destruct (cell (Classic.solution s) r c) as [correct|]; [|by left].
    destruct (cell (Classic.board s) r c) as [old|]; [|by left].
    right. split; [done|]. by rewrite hints_checkWinCondition.
  - left. unfold Classic.undo. destruct (_ || _); [done|].
    destruct (_ !! _) as [e|]; [|done]. by destruct e.
  - left. unfold Classic.redo. destruct (_ || _); [done|].
    destruct (_ !! _) as [e|]; [|done]. by destruct e.
  - left. unfold Classic.autoSolve. by destruct (_ || _).
Qed.

(** X10. Whatever the player does from a new game, the hints that remain
    stay between 0 and 3; in [script.js] the hints used and the hints that
    remain add up to 3. *)
Theorem hints_stay_within_budget :
  (∀ puzzle solution autoRemove acts,
     let s := Pwa.run acts (Pwa.startGame puzzle solution autoRemove) in
     (0 ≤ Pwa.hintsRemaining s ≤ 3)%Z ∧
     Pwa.hintsUsed s = (3 - Pwa.hintsRemaining s)%Z) ∧
  (∀ puzzle solution acts,
     let s := Classic.run acts (Classic.startGame puzzle solution) in
     (0 ≤ Classic.hintsRemaining s ≤ 3)%Z).
Proof.
  split.
  - intros puzzle solution autoRemove acts. cbv zeta.
    assert (∀ s, (0 ≤ Pwa.hintsRemaining s ≤ 3)%Z ∧
                 Pwa.hintsUsed s = (3 - Pwa.hintsRemaining s)%Z →
                 (0 ≤ Pwa.hintsRemaining (Pwa.run acts s) ≤ 3)%Z ∧
                 Pwa.hintsUsed (Pwa.run acts s)
                 = (3 - Pwa.hintsRemaining (Pwa.run acts s))%Z) as Hrun.
    { induction acts as [|a acts IH]; intros s Hs; [done|].
      cbn [Pwa.run foldl]. apply IH.
      destruct (step_hints_pwa a s) as [[-> ->]|(? & -> & ->)]; lia. }
    by apply Hrun.
  - intros puzzle solution acts. cbv zeta.
    assert (∀ s, (0 ≤ Classic.hintsRemaining s ≤ 3)%Z →
                 (0 ≤ Classic.hintsRemaining (Classic.run acts s) ≤ 3)%Z)
      as Hrun.
    { induction acts as [|a acts IH]; intros s Hs; [done|].
      cbn [Classic.run foldl]. apply IH.
      destruct (step_hints_classic a s) as [->|(? & ->)]; lia. }
    by apply Hrun.
Qed.

(** ** Auto-solve and the end of the game *)

(** The copy loop of [autoSolve] over the cells [ps]. *)
Definition copySolution (solution : Grid) (ps : list (nat * nat))
    (b : Grid) : Grid :=
  foldl (λ b p, from_option (setCell b p.1 p.2) b (cell solution p.1 p.2))
        b ps.

Lemma copySolution_wf solution ps : ∀ b, wf b → wf (copySolution solution ps b).
Proof.
  induction ps as [|p ps IH]; intros b Hwf; [done|].
  cbn [copySolution foldl]. apply IH.
  destruct (cell solution p.1 p.2); [by apply wf_setCell|done].
Qed.

Lemma copySolution_cell solution ps : ∀ b r c,
  wf b → wf solution → (∀ p, p ∈ ps → p.1 < 9 ∧ p.2 < 9) →
  cell (copySolution solution ps b) r c
  = if bool_decide ((r, c) ∈ ps) then cell solution r c else cell b r c.
Proof.
  induction ps as [|p ps IH] using rev_ind; intros b r c Hb Hs Hps.
  { by rewrite bool_decide_eq_false_2 by apply not_elem_of_nil. }
  unfold copySolution. rewrite foldl_app. cbn [foldl].
  fold (copySolution solution ps b).
  assert (∀ q, q ∈ ps → q.1 < 9 ∧ q.2 < 9) as Hps'.
  { intros q Hq. apply Hps, elem_of_app. by left. }
  destruct (Hps p) as [Hp1 Hp2]; [apply elem_of_app; right; by left|].
  destruct (wf_cell solution p.1 p.2 Hs Hp1 Hp2) as [v Hv]. rewrite Hv.
  cbn [from_option].
  pose proof (copySolution_wf solution ps b Hb) as Hwf.
  destruct (decide ((p.1, p.2) = (r, c))) as [E|N].
  - injection E as E1 E2. rewrite <- E1, <- E2.
    rewrite cell_setCell_eq by done.
    rewrite bool_decide_eq_true_2; [done|].
    apply elem_of_app. right. destruct p. by left.
  - rewrite cell_setCell_ne by done. rewrite IH by done.
    destruct (decide ((r, c) ∈ ps)) as [Hin|Hnin].
    + rewrite !bool_decide_eq_true_2; [done| |done].
      apply elem_of_app. by left.
    + rewrite !bool_decide_eq_false_2; [done| |done].
      intros [?|Hin]%elem_of_app; [done|].
      apply list_elem_of_singleton in Hin. destruct p. simplify_eq.
Qed.

Lemma copySolution_positions solution b :
  wf b → wf solution → copySolution solution positions b = solution.
Proof.
  intros Hb Hs. apply grid_ext; [by apply copySolution_wf|done|].
  intros r c Hr Hc. rewrite copySolution_cell; [|done|done|].
  - rewrite bool_decide_eq_true_2; [done|]. by apply elem_of_positions.
  - intros [r' c'] Hp. by apply elem_of_positions in Hp.
Qed.

Lemma clearNotes_cell ps : ∀ (n : NotesGrid) r c x,
  noteAt n r c = Some x →
  noteAt (foldl (λ n p, setNote n p.1 p.2 ∅) n ps) r c
  = Some (if bool_decide ((r, c) ∈ ps) then ∅ else x).
Proof.
  induction ps as [|p ps IH] using rev_ind; intros n r c x Hx.
  { by rewrite bool_decide_eq_false_2 by apply not_elem_of_nil. }
  rewrite foldl_app. cbn [foldl].
  specialize (IH n r c x Hx).
  destruct (decide ((p.1, p.2) = (r, c))) as [E|N].
  - injection E as E1 E2. rewrite <- E1, <- E2 in *.
    rewrite (noteAt_setNote_eq _ _ _ _ _ IH).
    rewrite bool_decide_eq_true_2; [done|].
    apply elem_of_app. right. destruct p. by left.
  - rewrite noteAt_setNote_ne by done. rewrite IH. f_equal.
    destruct (decide ((r, c) ∈ ps)) as [Hin|Hnin].
    + rewrite !bool_decide_eq_true_2; [done| |done].
      apply elem_of_app. by left.
    + rewrite !bool_decide_eq_false_2; [done| |done].
      intros [?|Hin]%elem_of_app; [done|].
      apply list_elem_of_singleton in Hin. destruct p. simplify_eq.
Qed.

Lemma boardSolved_true board solution :
  boardSolved board solution = true ↔
  ∀ r c, r < 9 → c < 9 → cell board r c = cell solution r c.
Proof.
  unfold boardSolved. rewrite forallb_forall. split.
  - intros H r c Hr Hc. specialize (H (r, c)).
    rewrite bool_decide_eq_true in H. apply H.
    apply list_elem_of_In. by apply elem_of_positions.
  - intros H [r c] Hin. apply list_elem_of_In, elem_of_positions in Hin.
    destruct Hin. apply bool_decide_eq_true. simpl. by apply H.
Qed.

(** X11. [autoSolve] of both scripts, on a game that is neither paused nor
    complete: the board becomes the solution, the notes of all 81 cells
    are emptied, the game is complete, and the history is left as it was
    (the step cannot be undone: a complete game takes no undo). *)
Theorem autoSolve_shows_solution :
  (∀ s, Pwa.isPaused s = false → Pwa.isComplete s = false →
        wf (Pwa.board s) → wf (Pwa.solution s) → fullNotes (Pwa.notes s) →
        Pwa.board (Pwa.autoSolve s) = Pwa.solution s ∧
        Pwa.isComplete (Pwa.autoSolve s) = true ∧
        Pwa.moveHistory (Pwa.autoSolve s) = Pwa.moveHistory s ∧
        (∀ r c, r < 9 → c < 9 →
                noteAt (Pwa.notes (Pwa.autoSolve s)) r c = Some ∅) ∧
        Pwa.undo (Pwa.autoSolve s) = Pwa.autoSolve s) ∧
  (∀ s, Classic.isPaused s = false → Classic.isComplete s = false →
        wf (Classic.board s) → wf (Classic.solution s) →
        fullNotes (Classic.notes s) →
        Classic.board (Classic.autoSolve s) = Classic.solution s ∧
        Classic.isComplete (Classic.autoSolve s) = true ∧
        Classic.history (Classic.autoSolve s) = Classic.history s ∧
        (∀ r c, r < 9 → c < 9 →
                noteAt (Classic.notes (Classic.autoSolve s)) r c = Some ∅) ∧
        Classic.undo (Classic.autoSolve s) = Classic.autoSolve s).
Proof.
  split.
  - intros s Hp Hc Hb Hs Hn.
    assert (Pwa.isComplete (Pwa.autoSolve s) = true) as Hdone.
    { unfold Pwa.autoSolve. by rewrite Hp, Hc. }
    split; [|split; [done|split; [|split]]].
    + unfold Pwa.autoSolve. rewrite Hp, Hc.
      cbn [orb Pwa.board Pwa.withFlags Pwa.withCells].
      by apply copySolution_positions.
    + unfold Pwa.autoSolve. by rewrite Hp, Hc.
    + intros r c Hr Hc'. destruct (Hn r c Hr Hc') as [x Hx].
      unfold Pwa.autoSolve. rewrite Hp, Hc.
      cbn [orb Pwa.notes Pwa.withFlags Pwa.withCells].
      rewrite (clearNotes_cell _ _ _ _ _ Hx).
      rewrite bool_decide_eq_true_2; [done|]. by apply elem_of_positions.
    + unfold Pwa.undo. by rewrite Hdone, orb_true_r.
  - intros s Hp Hc Hb Hs Hn.
    assert (Classic.isComplete (Classic.autoSolve s) = true) as Hdone.
    { unfold Classic.autoSolve. by rewrite Hp, Hc. }
    split; [|split; [done|split; [|split]]].
    + unfold Classic.autoSolve. rewrite Hp, Hc.
      cbn [orb Classic.board Classic.withFlags Classic.withCells].
      by apply copySolution_positions.
    + unfold Classic.autoSolve. by rewrite Hp, Hc.
    + intros r c Hr Hc'. destruct (Hn r c Hr Hc') as [x Hx].
      unfold Classic.autoSolve. rewrite Hp, Hc.
      cbn [orb Classic.notes Classic.withFlags Classic.withCells].
      rewrite (clearNotes_cell _ _ _ _ _ Hx).
      rewrite bool_decide_eq_true_2; [done|]. by apply elem_of_positions.
    + unfold Classic.undo. by rewrite Hdone, orb_true_r.
Qed.

Lemma autoSolve_shows_solution_witness :
  Pwa.isPaused lastMovePwa = false ∧ Pwa.isComplete lastMovePwa = false ∧
  wf (Pwa.board lastMovePwa) ∧ wf (Pwa.solution lastMovePwa) ∧
  fullNotes (Pwa.notes lastMovePwa) ∧
  Pwa.board (Pwa.autoSolve lastMovePwa) = Pwa.solution lastMovePwa ∧
  Pwa.board lastMovePwa ≠ Pwa.solution lastMovePwa.
Proof.
  assert (wf (Pwa.board lastMovePwa)) as Hb
    by (apply (bool_decide_unpack _); vm_compute; exact I).
  assert (wf (Pwa.solution lastMovePwa)) as Hs
    by (apply (bool_decide_unpack _); vm_compute; exact I).
  assert (fullNotes (Pwa.notes lastMovePwa)) as Hn
    by (apply fullNotes_check; vm_compute; reflexivity).
  split; [reflexivity|]. split; [reflexivity|]. split; [exact Hb|].
  split; [exact Hs|]. split; [exact Hn|].
  split; [|vm_compute; discriminate].
  exact (proj1 (proj1 autoSolve_shows_solution lastMovePwa
                  eq_refl eq_refl Hb Hs Hn)).
Defined.

(** The board has its 81 cells, and a completed game shows the solution. *)
Definition finishedRight (board solution : Grid) (isComplete : bool) : Prop :=
  wf board ∧ wf solution ∧ (isComplete = true → board = solution).

Lemma finishedRight_solved board solution (isComplete : bool) :
  wf board → wf solution →
  finishedRight board solution
    (if boardSolved board solution then true else isComplete) ∨
  boardSolved board solution = false.
Proof.
  intros Hb Hs. destruct (boardSolved board solution) eqn:E; [left|by right].
  split; [done|]. split; [done|]. intros _.
  apply grid_ext; [done|done|]. by apply boardSolved_true.
Qed.

Lemma checkWin_finishedRight s :
  wf (Pwa.board s) → wf (Pwa.solution s) → Pwa.isComplete s = false →
  finishedRight (Pwa.board (Pwa.checkWin s)) (Pwa.solution (Pwa.checkWin s))
    (Pwa.isComplete (Pwa.checkWin s)).
Proof.
  intros Hb Hs Hc. unfold Pwa.checkWin.
  destruct (boardSolved _ _) eqn:E; cbn.
  - split; [done|]. split; [done|]. intros _.
    apply grid_ext; [done|done|]. by apply boardSolved_true.
  - split; [done|]. split; [done|]. by rewrite Hc.
Qed.

Lemma checkWinCondition_finishedRight s :
  wf (Classic.board s) → wf (Classic.solution s) →
  Classic.isComplete s = false →
  finishedRight (Classic.board (Classic.checkWinCondition s))
    (Classic.solution (Classic.checkWinCondition s))
    (Classic.isComplete (Classic.checkWinCondition s)).
Proof.
  intros Hb Hs Hc. unfold Classic.checkWinCondition.
  destruct (boardSolved _ _) eqn:E; cbn.
  - split; [done|]. split; [done|]. intros _.
    apply grid_ext; [done|done|]. by apply boardSolved_true.
  - split; [done|]. split; [done|]. by rewrite Hc.
Qed.

Ltac same :=
  cbn [Pwa.step Classic.step];
  unfold Pwa.toggleNotes, Classic.toggleNotesMode;
  cbn [orb Pwa.board Pwa.solution Pwa.isComplete Pwa.withFlags
       Classic.board Classic.solution Classic.isComplete Classic.withFlags];
  match goal with
  | Hc : _ = _, Hs : finishedRight _ _ _ |- _ => rewrite ?Hc; exact Hs
  end.

Lemma step_finishedRight_pwa a s :
  finishedRight (Pwa.board s) (Pwa.solution s) (Pwa.isComplete s) →
  finishedRight (Pwa.board (Pwa.step a s)) (Pwa.solution (Pwa.step a s))
    (Pwa.isComplete (Pwa.step a s)).
Proof.
  intros Hs.
  assert (∀ b r c v, wf b → wf (setCell b r c v)) as Hset
    by (intros; by apply wf_setCell).
  destruct (Pwa.isComplete s) eqn:Hc.
  { assert (a = Pwa.DoToggleNotes ∨ a ≠ Pwa.DoToggleNotes) as [->|Ha]
      by (destruct a; (by left) || (by right)).
    - same.
    - rewrite frozen_pwa by auto. same. }
  pose proof Hs as (Hb & Hsol & _).
  assert (∀ b, wf b → finishedRight b (Pwa.solution s) false) as Hopen by done.
  destruct a; cbn [Pwa.step].
  - unfold Pwa.selectCell. rewrite Hc.
    destruct (Pwa.isPaused s); same.
  - same.
  - unfold Pwa.togglePause. rewrite Hc. same.
  - unfold Pwa.inputNumber. destruct (Pwa.selected s) as [[r c]|];
      [|same].
    rewrite Hc. destruct (Pwa.isPaused s); [same|]. cbn [orb].
    destruct (negb _); [same|].
    destruct (cell _ r c) as [old|]; [|same].
    destruct (noteAt _ r c) as [oldN|]; [|same].
    destruct (Pwa.isNotesMode s); [|destruct (old =? num)%Z]; cbv zeta;
      apply checkWin_finishedRight; cbn; try done; try by apply Hset.
    by destruct (negb _); [apply Hset|].
  - unfold Pwa.erase. destruct (Pwa.selected s) as [[r c]|];
      [|same].
    rewrite Hc. destruct (Pwa.isPaused s); [same|]. cbn [orb].
    destruct (negb _); [same|].
    destruct (cell _ r c) as [old|]; [|same].
    destruct (noteAt _ r c) as [oldN|]; [|same].
    destruct (_ && _); [same|]. cbn. rewrite Hc.
    by apply Hopen, Hset.
  - unfold Pwa.hint. rewrite Hc. destruct (_ <=? _)%Z; [same|].
    destruct (Pwa.isPaused s); [same|]. cbn [orb]. cbv zeta.
    destruct (length _ =? 0); [same|].
    destruct (_ !! _) as [[r c]|]; [|same].
    destruct (cell (Pwa.solution s) r c) as [correct|]; [|same].
    destruct (cell (Pwa.board s) r c) as [old|]; [|same].
    destruct (noteAt _ r c) as [oldN|]; [|same].
    apply checkWin_finishedRight; cbn; try done. by apply Hset.
  - unfold Pwa.undo. rewrite Hc. destruct (length _ =? 0); [same|].
    destruct (Pwa.isPaused s); [same|]. cbn [orb].
    destruct (Pwa.pop _) as [[move rest]|]; [|same]. cbn.
    rewrite Hc. by apply Hopen, Hset.
  - unfold Pwa.redo. rewrite Hc. destruct (length _ =? 0); [same|].
    destruct (Pwa.isPaused s); [same|]. cbn [orb].
    destruct (Pwa.pop _) as [[move rest]|]; [|same]. cbn.
    rewrite Hc. by apply Hopen, Hset.
  - unfold Pwa.autoSolve. rewrite Hc.
    destruct (Pwa.isPaused s); [same|]. cbn [orb].
    cbn [Pwa.board Pwa.solution Pwa.isComplete Pwa.withFlags Pwa.withCells].
    split; [|split; [done|]].
    + by apply (copySolution_wf (Pwa.solution s) positions).
    + intros _. by apply copySolution_positions.
Qed.

Lemma step_finishedRight_classic a s :
  finishedRight (Classic.board s) (Classic.solution s) (Classic.isComplete s) →
  finishedRight (Classic.board (Classic.step a s))
    (Classic.solution (Classic.step a s))
    (Classic.isComplete (Classic.step a s)).
Proof.
  intros Hs.
  assert (∀ b r c v, wf b → wf (setCell b r c v)) as Hset
    by (intros; by apply wf_setCell).
  destruct (Classic.isComplete s) eqn:Hc.
  { assert (a = Classic.DoToggleNotes ∨ a ≠ Classic.DoToggleNotes)
      as [->|Ha] by (destruct a; (by left) || (by right)).
    - same.
    - rewrite frozen_classic by auto. same. }
  pose proof Hs as (Hb & Hsol & _).
  assert (∀ b, wf b → finishedRight b (Classic.solution s) false) as Hopen
    by done.
  destruct a; cbn [Classic.step].
  - unfold Classic.selectCell. rewrite Hc.
    destruct (Classic.isPaused s); same.
  - same.
  - unfold Classic.togglePause. rewrite Hc. same.
  - unfold Classic.inputNumber. destruct (Classic.selected s) as [[r c]|];
      [|same].
    rewrite Hc. destruct (Classic.isPaused s); [same|]. cbn [orb].
    destruct (negb _); [same|].
    destruct (cell _ r c) as [old|]; [|same].
    destruct (noteAt _ r c) as [oldN|]; [|same].
    destruct (Classic.isNotesMode s); [|destruct (old =? num)%Z]; cbv zeta;
      apply checkWinCondition_finishedRight;
      try (destruct (negb (bool_decide _)), (negb (old =? 0)%Z));
      cbn; try done; by apply Hset.
  - unfold Classic.eraseCell. destruct (Classic.selected s) as [[r c]|];
      [|same].
    rewrite Hc. destruct (Classic.isPaused s); [same|]. cbn [orb].
    destruct (negb (cellIs _ _ _ _)); [same|].
    destruct (cell _ r c) as [old|]; [|same].
    destruct (noteAt _ r c) as [oldN|]; [|same].
    destruct (_ || _); [|same]. cbn. rewrite Hc.
    by apply Hopen, Hset.
  - unfold Classic.giveHint. rewrite Hc. destruct (_ <=? _)%Z; [same|].
    destruct (Classic.isPaused s); [same|]. cbn [orb]. cbv zeta.
    destruct (length _ =? 0); [same|].
    destruct (_ !! _) as [[r c]|]; [|same].
    destruct (cell (Classic.solution s) r c) as [correct|]; [|same].
    destruct (cell (Classic.board s) r c) as [old|]; [|same].
    apply checkWinCondition_finishedRight; cbn; try done. by apply Hset.
  - unfold Classic.undo. rewrite Hc. destruct (_ <? _)%Z; [same|].
    destruct (Classic.isPaused s); [same|]. cbn [orb].
    destruct (_ !! _) as [e|]; [|same].
    rewrite Classic.applyAction_cells. cbn. rewrite Hc.
    apply Hopen. destruct e; cbn; by try apply Hset.
  - unfold Classic.redo. rewrite Hc. destruct (_ <=? _)%Z; [same|].
    destruct (Classic.isPaused s); [same|]. cbn [orb].
    destruct (_ !! _) as [e|]; [|same].
    rewrite Classic.applyAction_cells. cbn. rewrite Hc.
    apply Hopen. destruct e; cbn; by try apply Hset.
  - unfold Classic.autoSolve. rewrite Hc.
    destruct (Classic.isPaused s); [same|]. cbn [orb].
    cbn [Classic.board Classic.solution Classic.isComplete Classic.withFlags
         Classic.withCells].
    split; [|split; [done|]].
    + by apply (copySolution_wf (Classic.solution s) positions).
    + intros _. by apply copySolution_positions.
Qed.

Lemma step_solution_pwa a s : Pwa.solution (Pwa.step a s) = Pwa.solution s.
Proof.
  destruct a; cbn [Pwa.step].
  - unfold Pwa.selectCell. by destruct (Pwa.isPaused s), (Pwa.isComplete s).
  - done.
  - unfold Pwa.togglePause. by destruct (Pwa.isComplete s).
  - unfold Pwa.inputNumber. destruct (Pwa.selected s) as [[r c]|]; [|done].
    destruct (Pwa.isPaused s), (Pwa.isComplete s); try done. cbn [orb].
    destruct (negb _); [done|].
    destruct (cell _ r c) as [old|]; [|done].
    destruct (noteAt _ r c) as [oldN|]; [|done].
    destruct (Pwa.isNotesMode s); [|destruct (old =? num)%Z]; cbv zeta;
      unfold Pwa.checkWin; by destruct (boardSolved _ _).
  - unfold Pwa.erase. destruct (Pwa.selected s) as [[r c]|]; [|done].
    destruct (Pwa.isPaused s), (Pwa.isComplete s); try done. cbn [orb].
    destruct (negb _); [done|].
    destruct (cell _ r c) as [old|]; [|done].
    destruct (noteAt _ r c) as [oldN|]; [|done].
    by destruct (_ && _).
  - unfold Pwa.hint. destruct (_ <=? _)%Z; [done|].
    destruct (Pwa.isPaused s), (Pwa.isComplete s); try done. cbn [orb].
    cbv zeta. destruct (length _ =? 0); [done|].
    destruct (_ !! _) as [[r c]|]; [|done].
    destruct (cell (Pwa.solution s) r c) as [correct|]; [|done].
    destruct (cell (Pwa.board s) r c) as [old|]; [|done].
    destruct (noteAt _ r c) as [oldN|]; [|done].
    unfold Pwa.checkWin; by destruct (boardSolved _ _).
  - unfold Pwa.undo. destruct (length _ =? 0); [done|].
    destruct (Pwa.isPaused s), (Pwa.isComplete s); try done. cbn [orb].
    by destruct (Pwa.pop _) as [[move rest]|].
  - unfold Pwa.redo. destruct (length _ =? 0); [done|].
    destruct (Pwa.isPaused s), (Pwa.isComplete s); try done. cbn [orb].
    by destruct (Pwa.pop _) as [[move rest]|].
  - unfold Pwa.autoSolve.
    by destruct (Pwa.isPaused s), (Pwa.isComplete s).
Qed.

Lemma step_solution_classic a s :
  Classic.solution (Classic.step a s) = Classic.solution s.
Proof.
  destruct a; cbn [Classic.step].
  - unfold Classic.selectCell.
    by destruct (Classic.isPaused s), (Classic.isComplete s).
  - done.
  - unfold Classic.togglePause. by destruct (Classic.isComplete s).
  - unfold Classic.inputNumber.
    destruct (Classic.selected s) as [[r c]|]; [|done].
    destruct (Classic.isPaused s), (Classic.isComplete s); try done.
    cbn [orb]. destruct (negb _); [done|].
    destruct (cell _ r c) as [old|]; [|done].
    destruct (noteAt _ r c) as [oldN|]; [|done].
    destruct (Classic.isNotesMode s); [|destruct (old =? num)%Z]; cbv zeta;
      unfold Classic.checkWinCondition; destruct (boardSolved _ _);
      try done; by destruct (negb (bool_decide _)), (negb (old =? 0)%Z).
  - unfold Classic.eraseCell.
    destruct (Classic.selected s) as [[r c]|]; [|done].
    destruct (Classic.isPaused s), (Classic.isComplete s); try done.
    cbn [orb]. destruct (negb (cellIs _ _ _ _)); [done|].
    destruct (cell _ r c) as [old|]; [|done].
    destruct (noteAt _ r c) as [oldN|]; [|done].
    by destruct (_ || _).
  - unfold Classic.giveHint. destruct (_ <=? _)%Z; [done|].
    destruct (Classic.isPaused s), (Classic.isComplete s); try done.
    cbn [orb]. cbv zeta. destruct (length _ =? 0); [done|].
    destruct (_ !! _) as [[r c]|]; [|done].
    destruct (cell (Classic.solution s) r c) as [correct|]; [|done].
    destruct (cell (Classic.board s) r c) as [old|]; [|done].
    unfold Classic.checkWinCondition; by destruct (boardSolved _ _).
  - unfold Classic.undo. destruct (_ <? _)%Z; [done|].
    destruct (Classic.isPaused s), (Classic.isComplete s); try done.
    cbn [orb]. destruct (_ !! _) as [e|]; [|done].
    by rewrite Classic.applyAction_cells.
  - unfold Classic.redo. destruct (_ <=? _)%Z; [done|].
    destruct (Classic.isPaused s), (Classic.isComplete s); try done.
    cbn [orb]. destruct (_ !! _) as [e|]; [|done].
    by rewrite Classic.applyAction_cells.
  - unfold Classic.autoSolve.
    by destruct (Classic.isPaused s), (Classic.isComplete s).
Qed.

(** X12. Whatever the player does from a new game on 9x9 grids, the board
    stays 9x9, and whenever the game is marked complete the board is the
    solution, in both scripts. *)
Theorem completed_game_shows_solution :
  (∀ puzzle solution autoRemove acts,
     wf puzzle → wf solution →
     let s := Pwa.run acts (Pwa.startGame puzzle solution autoRemove) in
     wf (Pwa.board s) ∧
     (Pwa.isComplete s = true → Pwa.board s = solution)) ∧
  (∀ puzzle solution acts,
     wf puzzle → wf solution →
     let s := Classic.run acts (Classic.startGame puzzle solution) in
     wf (Classic.board s) ∧
     (Classic.isComplete s = true → Classic.board s = solution)).
Proof.
  split.
  - intros puzzle solution autoRemove acts Hp Hsol. cbv zeta.
    assert (∀ s, finishedRight (Pwa.board s) (Pwa.solution s)
                   (Pwa.isComplete s) →
                 finishedRight (Pwa.board (Pwa.run acts s))
                   (Pwa.solution (Pwa.run acts s))
                   (Pwa.isComplete (Pwa.run acts s)) ∧
                 Pwa.solution (Pwa.run acts s) = Pwa.solution s) as Hrun.
    { induction acts as [|a acts IH]; intros s Hs; [done|].
      cbn [Pwa.run foldl]. fold (Pwa.run acts (Pwa.step a s)).
      destruct (IH (Pwa.step a s) (step_finishedRight_pwa a s Hs)) as [H1 H2].
      split; [done|]. by rewrite H2, step_solution_pwa. }
    destruct (Hrun (Pwa.startGame puzzle solution autoRemove))
      as [(Hb & _ & Hdone) Hsame].
    { split; [cbn; by rewrite copyGrid_id|]. split; [done|]. done. }
    split; [done|]. intros Hc. rewrite (Hdone Hc). by rewrite Hsame.
  - intros puzzle solution acts Hp Hsol. cbv zeta.
    assert (∀ s, finishedRight (Classic.board s) (Classic.solution s)
                   (Classic.isComplete s) →
                 finishedRight (Classic.board (Classic.run acts s))
                   (Classic.solution (Classic.run acts s))
                   (Classic.isComplete (Classic.run acts s)) ∧
                 Classic.solution (Classic.run acts s) = Classic.solution s)
      as Hrun.
    { induction acts as [|a acts IH]; intros s Hs; [done|].
      cbn [Classic.run foldl]. fold (Classic.run acts (Classic.step a s)).
      destruct (IH (Classic.step a s) (step_finishedRight_classic a s Hs))
        as [H1 H2].
      split; [done|]. by rewrite H2, step_solution_classic. }
    destruct (Hrun (Classic.startGame puzzle solution))
      as [(Hb & _ & Hdone) Hsame].
    { split; [cbn; by rewrite copyGrid_id|]. split; [done|]. done. }
    split; [done|]. intros Hc. rewrite (Hdone Hc). by rewrite Hsame.
Qed.

Lemma completed_game_shows_solution_witness :
  wf oneCellLeft ∧ wf canonical ∧
  Classic.isComplete
    (Classic.run [Classic.DoSelect 0 0; Classic.DoInput 5]
       (Classic.startGame oneCellLeft canonical)) = true ∧
  Classic.board
    (Classic.run [Classic.DoSelect 0 0; Classic.DoInput 5]
       (Classic.startGame oneCellLeft canonical)) = canonical.
Proof.
  assert (wf oneCellLeft) as Hp
    by (apply (bool_decide_unpack _); vm_compute; exact I).
  assert (wf canonical) as Hs
    by (apply (bool_decide_unpack _); vm_compute; exact I).
  split; [exact Hp|]. split; [exact Hs|]. split; [reflexivity|].
  exact (proj2 (proj2 completed_game_shows_solution oneCellLeft canonical
                  [Classic.DoSelect 0 0; Classic.DoInput 5] Hp Hs) eq_refl).
Defined.

(** ** Notes *)

(** [setsEqual(a, b)] of the stand-alone script. The loop runs over the
    elements of [a] in the order of the set; the answer does not depend on
    the order. *)
Definition setsEqual (a b : gset Z) : bool :=
  if negb (size a =? size b) then false
  else forallb (λ item, bool_decide (item ∈ b)) (elements a).

Lemma toggleNote_changes num (x : gset Z) : toggleNote num x ≠ x.
Proof.
  unfold toggleNote. destruct (decide (num ∈ x)) as [Hin|Hnin].
  - rewrite bool_decide_eq_true_2 by done. intros H.
    assert (num ∈ x ∖ {[num]}) as Hin' by by rewrite H.
    apply elem_of_difference in Hin' as [_ Hn]. apply Hn.
    by apply elem_of_singleton.
  - rewrite bool_decide_eq_false_2 by done. intros H.
    apply Hnin. rewrite <- H. apply elem_of_union. right.
    by apply elem_of_singleton.
Qed.

Lemma setsEqual_true a b : setsEqual a b = true ↔ a = b.
Proof.
  unfold setsEqual. split.
  - destruct (Nat.eqb_spec (size a) (size b)) as [Hsz|]; [|done]. cbn [negb].
    rewrite forallb_forall. intros Hall.
    apply set_subseteq_size_eq; [|lia]. intros x Hx.
    specialize (Hall x). rewrite bool_decide_eq_true in Hall. apply Hall.
    by apply list_elem_of_In, elem_of_elements.
  - intros ->. rewrite Nat.eqb_refl. cbn [negb]. apply forallb_forall.
    intros x Hx. apply bool_decide_eq_true.
    by apply list_elem_of_In, elem_of_elements in Hx.
Qed.

(** X13. [setsEqual(a, b)] answers true exactly when the two sets hold the
    same elements; on the notes of a cell before and after a digit is
    toggled it answers false, so a toggled note is always recorded. *)
Theorem setsEqual_decides_equality (a b : gset Z) (num : Z) :
  (setsEqual a b = true ↔ a = b) ∧
  setsEqual a (toggleNote num a) = false.
Proof.
  split; [apply setsEqual_true|].
  destruct (setsEqual a (toggleNote num a)) eqn:E; [|done].
  apply setsEqual_true in E. by destruct (toggleNote_changes num a).
Qed.

(** One [delete] on the notes of a cell. *)
Lemma noteAt_deleteNote num (n : NotesGrid) p r c :
  noteAt (deleteNote num n p) r c
  = (λ x, if bool_decide (p = (r, c)) then x ∖ {[num]} else x)
      <$> noteAt n r c.
Proof.
  unfold deleteNote, noteAt. destruct p as [pr pc]. cbn [fst snd].
  destruct (decide (pr = r)) as [->|Hr].
  - rewrite list_lookup_alter_eq. destruct (n !! r) as [rw|]; [|done].
    cbn. destruct (decide (pc = c)) as [->|Hc].
    + rewrite list_lookup_alter_eq, bool_decide_eq_true_2 by done.
      by destruct (rw !! c).
    + rewrite list_lookup_alter_ne by done.
      rewrite bool_decide_eq_false_2 by congruence. by destruct (rw !! c).
  - rewrite list_lookup_alter_ne by done.
    rewrite bool_decide_eq_false_2 by congruence.
    by destruct (n !! r ≫= _).
Qed.

Lemma noteAt_deleteNotes num ps : ∀ (n : NotesGrid) r c,
  noteAt (foldl (deleteNote num) n ps) r c
  = (λ x, if bool_decide ((r, c) ∈ ps) then x ∖ {[num]} else x)
      <$> noteAt n r c.
Proof.
  induction ps as [|p ps IH]; intros n r c.
  { rewrite bool_decide_eq_false_2 by apply not_elem_of_nil.
    cbn [foldl]. by destruct (noteAt n r c). }
  cbn [foldl]. rewrite IH, noteAt_deleteNote.
  destruct (noteAt n r c) as [x|]; [|done]. cbn. f_equal.
  destruct (decide (p = (r, c))) as [->|Hp].
  - rewrite (bool_decide_eq_true_2 ((r, c) = (r, c))) by done.
    rewrite (bool_decide_eq_true_2 ((r, c) ∈ (r, c) :: ps)) by by left.
    destruct (bool_decide _); [|done]. apply set_eq. intros y.
    rewrite !elem_of_difference. tauto.
  - rewrite (bool_decide_eq_false_2 (p = (r, c))) by done.
    destruct (decide ((r, c) ∈ ps)) as [Hin|Hnin].
    + rewrite !bool_decide_eq_true_2; [done|by right|done].
    + rewrite !bool_decide_eq_false_2; [done| |done].
      intros [?|?]%elem_of_cons; congruence.
Qed.

Lemma elem_of_relatedCells row col r c :
  row < 9 → col < 9 → r < 9 → c < 9 →
  (r, c) ∈ relatedCells row col ↔ sameUnit row col r c.
Proof.
  intros Hrow Hcol Hr Hc. unfold relatedCells, sameUnit.
  rewrite elem_of_app, !list_elem_of_bind. split.
  - intros [(i & Hi & _)|(r' & Hr' & Hin)].
    + apply elem_of_cons in Hi as [Hi|Hi]; [left; congruence|].
      apply list_elem_of_singleton in Hi. right. left. congruence.
    + apply list_elem_of_bind in Hr' as (c' & Hc' & Hin').
      apply list_elem_of_singleton in Hc'. injection Hc' as -> ->.
      apply elem_of_seq in Hin, Hin'. right. right.
      split; symmetry; apply box_range; lia.
  - intros [<-|[<-|[Hbr Hbc]]].
    + left. exists c. split; [by left|]. apply elem_of_seq. lia.
    + left. exists r. split; [right; by left|]. apply elem_of_seq. lia.
    + right. exists r. split.
      * apply list_elem_of_bind. exists c. split; [by left|].
        apply elem_of_seq. symmetry in Hbc. apply box_range in Hbc. lia.
      * apply elem_of_seq. symmetry in Hbr. apply box_range in Hbr. lia.
Qed.

(** X14. [removeRelatedNotes(row, col, num)], on notes that hold a set for
    every cell: [num] is deleted from the notes of each cell in the row,
    the column and the box of the cell (the cell itself included); the
    other notes of those cells and all notes of the other cells stay. *)
Theorem removeRelatedNotes_clears_unit (notes : NotesGrid) (row col : nat)
    (num : Z) (r c : nat) :
  fullNotes notes → row < 9 → col < 9 → r < 9 → c < 9 →
  ∃ x, noteAt notes r c = Some x ∧
       noteAt (removeRelatedNotes notes row col num) r c
       = Some (if bool_decide (sameUnit row col r c) then x ∖ {[num]} else x).
Proof.
  intros Hfull Hrow Hcol Hr Hc. destruct (Hfull r c Hr Hc) as [x Hx].
  exists x. split; [done|]. unfold removeRelatedNotes.
  rewrite noteAt_deleteNotes, Hx.
  pose proof (elem_of_relatedCells row col r c Hrow Hcol Hr Hc) as Hin.
  destruct (decide (sameUnit row col r c)) as [Hu|Hu].
  - rewrite !bool_decide_eq_true_2; [done|done|by apply Hin].
  - rewrite !bool_decide_eq_false_2; [done|done|by rewrite Hin].
Qed.

Lemma removeRelatedNotes_clears_unit_witness :
  fullNotes (setNote emptyNotes 0 1 {[5%Z; 6%Z]}) ∧ 0 < 9 ∧ 1 < 9 ∧
  ∃ x, noteAt (setNote emptyNotes 0 1 {[5%Z; 6%Z]}) 0 1 = Some x ∧
       noteAt (removeRelatedNotes (setNote emptyNotes 0 1 {[5%Z; 6%Z]}) 0 0 5)
              0 1
       = Some (if bool_decide (sameUnit 0 0 0 1) then x ∖ {[5%Z]} else x).
Proof.
  assert (fullNotes (setNote emptyNotes 0 1 {[5%Z; 6%Z]})) as Hfull
    by (apply fullNotes_check; vm_compute; reflexivity).
  split; [exact Hfull|]. split; [lia|]. split; [lia|].
  apply (removeRelatedNotes_clears_unit _ 0 0 5 0 1 Hfull); lia.
Defined.

(** ** Erasing *)

Lemma erase_idempotent_pwa s : Pwa.erase (Pwa.erase s) = Pwa.erase s.
Proof.
  unfold Pwa.erase at 2.
  destruct (Pwa.selected s) as [[r c]|] eqn:Hsel;
    [|unfold Pwa.erase; by rewrite Hsel].
  destruct (Pwa.isPaused s || Pwa.isComplete s) eqn:Hg;
    [unfold Pwa.erase; by rewrite Hsel, Hg|].
  destruct (negb (cellIs (Pwa.initial s) r c 0)) eqn:Hi;
    [unfold Pwa.erase; by rewrite Hsel, Hg, Hi|].
  destruct (cell (Pwa.board s) r c) as [old|] eqn:Hold;
    [|unfold Pwa.erase; by rewrite Hsel, Hg, Hi, Hold].
  destruct (noteAt (Pwa.notes s) r c) as [oldN|] eqn:HoldN;
    [|unfold Pwa.erase; by rewrite Hsel, Hg, Hi, Hold, HoldN].
  destruct ((old =? 0)%Z && (size oldN =? 0)) eqn:Hz;
    [unfold Pwa.erase; by rewrite Hsel, Hg, Hi, Hold, HoldN, Hz|].
  unfold Pwa.erase.
  cbn [Pwa.selected Pwa.isPaused Pwa.isComplete Pwa.initial Pwa.board
       Pwa.notes Pwa.withCells Pwa.withLog Pwa.record].
  rewrite Hsel, Hg, Hi.
  rewrite (cell_setCell_same _ _ _ _ _ Hold).
  rewrite (noteAt_setNote_eq _ _ _ _ _ HoldN).
  by rewrite size_empty, Hold, HoldN, Hz.
Qed.

Lemma erase_idempotent_classic s :
  Classic.eraseCell (Classic.eraseCell s) = Classic.eraseCell s.
Proof.
  unfold Classic.eraseCell at 2.
  destruct (Classic.selected s) as [[r c]|] eqn:Hsel;
    [|unfold Classic.eraseCell; by rewrite Hsel].
  destruct (Classic.isPaused s || Classic.isComplete s) eqn:Hg;
    [unfold Classic.eraseCell; by rewrite Hsel, Hg|].
  destruct (negb (cellIs (Classic.initial s) r c 0)) eqn:Hi;
    [unfold Classic.eraseCell; by rewrite Hsel, Hg, Hi|].
  destruct (cell (Classic.board s) r c) as [old|] eqn:Hold;
    [|unfold Classic.eraseCell; by rewrite Hsel, Hg, Hi, Hold].
  destruct (noteAt (Classic.notes s) r c) as [oldN|] eqn:HoldN;
    [|unfold Classic.eraseCell; by rewrite Hsel, Hg, Hi, Hold, HoldN].
  destruct (negb (old =? 0)%Z || (0 <? size oldN)) eqn:Hz;
    [|unfold Classic.eraseCell; by rewrite Hsel, Hg, Hi, Hold, HoldN, Hz].
  unfold Classic.eraseCell.
  cbn [Classic.selected Classic.isPaused Classic.isComplete Classic.initial
       Classic.board Classic.notes Classic.withCells Classic.withLog
       Classic.addToHistory].
  rewrite Hsel, Hg, Hi.
  rewrite (cell_setCell_same _ _ _ _ _ Hold).
  rewrite (noteAt_setNote_eq _ _ _ _ _ HoldN).
  by rewrite size_empty, Hold, HoldN, Hz.
Qed.

Lemma erase_cell_pwa s r c old oldN :
  Pwa.selected s = Some (r, c) → Pwa.isPaused s = false →
  Pwa.isComplete s = false → cell (Pwa.initial s) r c = Some 0%Z →
  cell (Pwa.board s) r c = Some old →
  noteAt (Pwa.notes s) r c = Some oldN →
  cell (Pwa.board (Pwa.erase s)) r c = Some 0%Z ∧
  noteAt (Pwa.notes (Pwa.erase s)) r c = Some ∅.
Proof.
  intros Hsel Hp Hc Hi Hold HoldN.
  unfold Pwa.erase. rewrite Hsel, Hp, Hc. cbn [orb].
  rewrite (proj2 (cellIs_true _ _ _ _) Hi). cbn [negb].
  rewrite Hold, HoldN.
  destruct (Z.eqb_spec old 0) as [->|];
    [destruct (Nat.eqb_spec (size oldN) 0) as [Hsz|]|]; cbn [andb].
  - apply size_empty_inv, leibniz_equiv in Hsz. by subst.
  - split; [by apply (cell_setCell_same _ _ _ _ _ Hold)|].
    by apply (noteAt_setNote_eq _ _ _ _ _ HoldN).
  - split; [by apply (cell_setCell_same _ _ _ _ _ Hold)|].
    by apply (noteAt_setNote_eq _ _ _ _ _ HoldN).
Qed.

Lemma erase_cell_classic s r c old oldN :
  Classic.selected s = Some (r, c) → Classic.isPaused s = false →
  Classic.isComplete s = false → cell (Classic.initial s) r c = Some 0%Z →
  cell (Classic.board s) r c = Some old →
  noteAt (Classic.notes s) r c = Some oldN →
  cell (Classic.board (Classic.eraseCell s)) r c = Some 0%Z ∧
  noteAt (Classic.notes (Classic.eraseCell s)) r c = Some ∅.
Proof.
  intros Hsel Hp Hc Hi Hold HoldN.
  unfold Classic.eraseCell. rewrite Hsel, Hp, Hc. cbn [orb].
  rewrite (proj2 (cellIs_true _ _ _ _) Hi). cbn [negb].
  rewrite Hold, HoldN.
  destruct (Z.eqb_spec old 0) as [->|];
    [destruct (Nat.ltb_spec 0 (size oldN)) as [|Hsz]|]; cbn [negb orb].
  - split; [by apply (cell_setCell_same _ _ _ _ _ Hold)|].
    by apply (noteAt_setNote_eq _ _ _ _ _ HoldN).
  - assert (size oldN = 0) as Hz by lia.
    apply size_empty_inv, leibniz_equiv in Hz. by subst.
  - split; [by apply (cell_setCell_same _ _ _ _ _ Hold)|].
    by apply (noteAt_setNote_eq _ _ _ _ _ HoldN).
Qed.

(** X15. Erasing, in both scripts: on a selected cell that the player may
    edit, of a game that is neither paused nor complete, the cell ends
    empty with no notes; and erasing twice is the same as erasing once. *)
Theorem erase_empties_the_cell :
  (∀ s r c old oldN,
     Pwa.selected s = Some (r, c) → Pwa.isPaused s = false →
     Pwa.isComplete s = false → cell (Pwa.initial s) r c = Some 0%Z →
     cell (Pwa.board s) r c = Some old →
     noteAt (Pwa.notes s) r c = Some oldN →
     cell (Pwa.board (Pwa.erase s)) r c = Some 0%Z ∧
     noteAt (Pwa.notes (Pwa.erase s)) r c = Some ∅) ∧
  (∀ s, Pwa.erase (Pwa.erase s) = Pwa.erase s) ∧
  (∀ s r c old oldN,
     Classic.selected s = Some (r, c) → Classic.isPaused s = false →
     Classic.isComplete s = false → cell (Classic.initial s) r c = Some 0%Z →
     cell (Classic.board s) r c = Some old →
     noteAt (Classic.notes s) r c = Some oldN →
     cell (Classic.board (Classic.eraseCell s)) r c = Some 0%Z ∧
     noteAt (Classic.notes (Classic.eraseCell s)) r c = Some ∅) ∧
  (∀ s, Classic.eraseCell (Classic.eraseCell s) = Classic.eraseCell s).
Proof.
  split; [apply erase_cell_pwa|]. split; [apply erase_idempotent_pwa|].
  split; [apply erase_cell_classic|apply erase_idempotent_classic].
Qed.

Lemma erase_empties_the_cell_witness :
  Classic.selected sampleGameClassic = Some (0, 0) ∧
  Classic.isPaused sampleGameClassic = false ∧
  Classic.isComplete sampleGameClassic = false ∧
  cell (Classic.initial sampleGameClassic) 0 0 = Some 0%Z ∧
  cell (Classic.board sampleGameClassic) 0 0 = Some 0%Z ∧
  noteAt (Classic.notes sampleGameClassic) 0 0 = Some {[3%Z]} ∧
  cell (Classic.board (Classic.eraseCell sampleGameClassic)) 0 0 = Some 0%Z ∧
  noteAt (Classic.notes (Classic.eraseCell sampleGameClassic)) 0 0 = Some ∅.
Proof.
  do 6 (split; [vm_compute; reflexivity|]).
  destruct erase_empties_the_cell as (_ & _ & Herase & _).
  apply (Herase sampleGameClassic 0 0 0%Z {[3%Z]}); vm_compute; reflexivity.
Defined.

(** ** What a hint does *)

(** Two boards of 81 cells that differ leave a candidate for a hint. *)
Lemma hintCandidates_nonempty board solution :
  wf board → wf solution → board ≠ solution →
  hintCandidates board solution ≠ [].
Proof.
  intros Hb Hs Hne Hnil. apply Hne, grid_ext; [done|done|].
  intros r c Hr Hc.
  destruct (decide (cell board r c = cell solution r c)) as [|Hd]; [done|].
  exfalso. assert ((r, c) ∈ hintCandidates board solution) as Hin.
  { apply list_elem_of_filter. split; [done|]. by apply elem_of_positions. }
  rewrite Hnil in Hin. by apply not_elem_of_nil in Hin.
Qed.

Lemma hintCandidates_pick board solution draw :
  hintCandidates board solution ≠ [] →
  ∃ r c, hintCandidates board solution
           !! (draw `mod` length (hintCandidates board solution))
         = Some (r, c) ∧
         r < 9 ∧ c < 9 ∧ cell board r c ≠ cell solution r c.
Proof.
  intros Hne.
  destruct (lookup_lt_is_Some_2 (hintCandidates board solution)
              (draw `mod` length (hintCandidates board solution)))
    as [[r c] Hrc].
  { apply Nat.mod_upper_bound. by destruct (hintCandidates board solution). }
  exists r, c. split; [done|].
  apply list_elem_of_lookup_2, list_elem_of_filter in Hrc as [Hd Hp].
  apply elem_of_positions in Hp. tauto.
Qed.

(** X16. A hint, in both scripts, on a game that is neither paused nor
    complete, with hints left and a board that is not the solution:
    whatever the random draw, one cell of the board that differs from the
    solution gets the digit of the solution, its notes are emptied, and
    one hint less remains. *)
Theorem hint_reveals_a_wrong_cell :
  (∀ draw s,
     Pwa.isPaused s = false → Pwa.isComplete s = false →
     (0 < Pwa.hintsRemaining s)%Z →
     wf (Pwa.board s) → wf (Pwa.solution s) →
     fullNotes (Pwa.notes s) →
     Pwa.board s ≠ Pwa.solution s →
     ∃ r c v, r < 9 ∧ c < 9 ∧ cell (Pwa.solution s) r c = Some v ∧
       cell (Pwa.board s) r c ≠ Some v ∧
       Pwa.board (Pwa.hint draw s) = setCell (Pwa.board s) r c v ∧
       Pwa.notes (Pwa.hint draw s) = setNote (Pwa.notes s) r c ∅ ∧
       Pwa.hintsRemaining (Pwa.hint draw s) = (Pwa.hintsRemaining s - 1)%Z) ∧
  (∀ draw s,
     Classic.isPaused s = false → Classic.isComplete s = false →
     (0 < Classic.hintsRemaining s)%Z →
     wf (Classic.board s) → wf (Classic.solution s) →
     fullNotes (Classic.notes s) →
     Classic.board s ≠ Classic.solution s →
     ∃ r c v, r < 9 ∧ c < 9 ∧ cell (Classic.solution s) r c = Some v ∧
       cell (Classic.board s) r c ≠ Some v ∧
       Classic.board (Classic.giveHint draw s)
       = setCell (Classic.board s) r c v ∧
       Classic.notes (Classic.giveHint draw s)
       = setNote (Classic.notes s) r c ∅ ∧
       Classic.hintsRemaining (Classic.giveHint draw s)
       = (Classic.hintsRemaining s - 1)%Z).
Proof.
  split.
  - intros draw s Hp Hc Hh Hb Hs Hn Hne.
    pose proof (hintCandidates_nonempty _ _ Hb Hs Hne) as Hcand.
    destruct (hintCandidates_pick _ _ draw Hcand) as (r & c & Hrc & Hr & Hc' & Hd).
    destruct (wf_cell _ r c Hs Hr Hc') as [v Hv].
    destruct (wf_cell _ r c Hb Hr Hc') as [old Hold].
    destruct (Hn r c Hr Hc') as [oldN HoldN].
    exists r, c, v. split; [done|]. split; [done|]. split; [done|].
    split; [congruence|].
    unfold Pwa.hint. rewrite Hp, Hc.
    destruct (Z.leb_spec (Pwa.hintsRemaining s) 0); [lia|]. cbn [orb].
    cbv zeta.
    destruct (Nat.eqb_spec (length (hintCandidates (Pwa.board s)
                                      (Pwa.solution s))) 0) as [Hl|_].
    { by destruct (hintCandidates _ _). }
    rewrite Hrc, Hv, Hold, HoldN.
    unfold Pwa.checkWin. by destruct (boardSolved _ _).
  - intros draw s Hp Hc Hh Hb Hs _ Hne.
    pose proof (hintCandidates_nonempty _ _ Hb Hs Hne) as Hcand.
    destruct (hintCandidates_pick _ _ draw Hcand) as (r & c & Hrc & Hr & Hc' & Hd).
    destruct (wf_cell _ r c Hs Hr Hc') as [v Hv].
    destruct (wf_cell _ r c Hb Hr Hc') as [old Hold].
    exists r, c, v. split; [done|]. split; [done|]. split; [done|].
    split; [congruence|].
    unfold Classic.giveHint. rewrite Hp, Hc.
    destruct (Z.leb_spec (Classic.hintsRemaining s) 0); [lia|]. cbn [orb].
    cbv zeta.
    destruct (Nat.eqb_spec (length (hintCandidates (Classic.board s)
                                      (Classic.solution s))) 0) as [Hl|_].
    { by destruct (hintCandidates _ _). }
    rewrite Hrc, Hv, Hold.
    unfold Classic.checkWinCondition. by destruct (boardSolved _ _).
Qed.

Lemma hint_reveals_a_wrong_cell_witness :
  Pwa.isPaused lastMovePwa = false ∧ Pwa.isComplete lastMovePwa = false ∧
  (0 < Pwa.hintsRemaining lastMovePwa)%Z ∧
  Pwa.board lastMovePwa ≠ Pwa.solution lastMovePwa ∧
  ∃ r c v, r < 9 ∧ c < 9 ∧ cell (Pwa.solution lastMovePwa) r c = Some v ∧
    cell (Pwa.board lastMovePwa) r c ≠ Some v ∧
    Pwa.board (Pwa.hint 7 lastMovePwa) = setCell (Pwa.board lastMovePwa) r c v ∧
    Pwa.notes (Pwa.hint 7 lastMovePwa) = setNote (Pwa.notes lastMovePwa) r c ∅ ∧
    Pwa.hintsRemaining (Pwa.hint 7 lastMovePwa)
    = (Pwa.hintsRemaining lastMovePwa - 1)%Z.
Proof.
  assert (Pwa.board lastMovePwa ≠ Pwa.solution lastMovePwa) as Hne
    by (vm_compute; discriminate).
  split; [reflexivity|]. split; [reflexivity|]. split; [by vm_compute|].
  split; [exact Hne|].
  apply (proj1 hint_reveals_a_wrong_cell 7 lastMovePwa);
    [reflexivity|reflexivity|by vm_compute
    |apply (bool_decide_unpack _); vm_compute; exact I
    |apply (bool_decide_unpack _); vm_compute; exact I
    |apply fullNotes_check; vm_compute; reflexivity
    |exact Hne].
Defined.

(** ** The history cursor of the stand-alone script *)

Lemma step_cursorInRange a s :
  Classic.cursorInRange s → Classic.cursorInRange (Classic.step a s).
Proof.
  intros Hin.
  destruct (Classic.isEdit a) eqn:Hedit.
  { destruct (Classic.edit_discards_tail a s Hedit Hin) as [[Hh Hi]|[Hend _]].
    - unfold Classic.cursorInRange. by rewrite Hh, Hi.
    - by apply Classic.atEnd_cursorInRange. }
  destruct a; try discriminate Hedit; cbn [Classic.step].
  - unfold Classic.selectCell.
    by destruct (Classic.isPaused s), (Classic.isComplete s).
  - done.
  - unfold Classic.togglePause. by destruct (Classic.isComplete s).
  - unfold Classic.undo, Classic.cursorInRange in *.
    destruct (Z.ltb_spec (Classic.historyIndex s) 0); [done|].
    destruct (Classic.isPaused s), (Classic.isComplete s); try done.
    cbn [orb]. destruct (_ !! _) as [e|]; [|done].
    rewrite Classic.applyAction_cells.
    cbn [Classic.history Classic.historyIndex Classic.withCells
         Classic.withLog]. lia.
  - unfold Classic.redo, Classic.cursorInRange in *.
    destruct (Z.leb_spec (Z.of_nat (length (Classic.history s)) - 1)
                (Classic.historyIndex s)); [done|].
    destruct (Classic.isPaused s), (Classic.isComplete s); try done.
    cbn [orb]. destruct (_ !! _) as [e|]; [|done].
    rewrite Classic.applyAction_cells.
    cbn [Classic.history Classic.historyIndex Classic.withCells
         Classic.withLog]. lia.
  - unfold Classic.autoSolve.
    by destruct (Classic.isPaused s), (Classic.isComplete s).
Qed.

(** X17. Whatever the player does from a new game of the stand-alone
    script, [historyIndex] stays between -1 and the last index of
    [history], so the entry [undo] reads and the entry [redo] reads are
    always there. *)
Theorem history_cursor_stays_in_range (puzzle solution : Grid)
    (acts : list Classic.Action) :
  let s := Classic.run acts (Classic.startGame puzzle solution) in
  (-1 ≤ Classic.historyIndex s < Z.of_nat (length (Classic.history s)))%Z ∧
  ((0 ≤ Classic.historyIndex s)%Z →
   is_Some (Classic.history s !! Z.to_nat (Classic.historyIndex s))) ∧
  ((Classic.historyIndex s < Z.of_nat (length (Classic.history s)) - 1)%Z →
   is_Some (Classic.history s !! Z.to_nat (Classic.historyIndex s + 1))).
Proof.
  cbv zeta.
  assert (∀ s, Classic.cursorInRange s →
               Classic.cursorInRange (Classic.run acts s)) as Hrun.
  { induction acts as [|a acts IH]; intros s Hs; [done|].
    cbn [Classic.run foldl]. by apply IH, step_cursorInRange. }
  assert (Classic.cursorInRange
            (Classic.run acts (Classic.startGame puzzle solution))) as Hin.
  { apply Hrun. unfold Classic.cursorInRange. simpl. lia. }
  unfold Classic.cursorInRange in Hin. split; [done|].
  split; intros Hi; apply lookup_lt_is_Some_2; lia.
Qed.

(** ** Checking the board against the solution *)

(** The loop of [checkSolution]: the counters [errors] and [empty]. *)
Definition countErrors (board solution : Grid) (ps : list (nat * nat))
    (counters : nat * nat) : nat * nat :=
  foldl (λ '(errors, empty) p,
           if cellIs board p.1 p.2 0 then (errors, S empty)
           else if bool_decide (cell board p.1 p.2 ≠ cell solution p.1 p.2)
                then (S errors, empty)
                else (errors, empty))
        counters ps.

(** The toast [checkSolution] shows; [plural] is whether the word "cell"
    gets its "s". *)
Inductive Toast :=
  | Perfect
  | Remaining (empty : nat)
  | Incorrect (errors : nat) (plural : bool).

(** [GameController.checkSolution()] of [script.js]:
    [errors !== 1 ? 's' : ''] *)
Definition checkSolutionPwa (s : Pwa.GameState) : option Toast :=
  if Pwa.isPaused s || Pwa.isComplete s then None
  else
    let '(errors, empty) :=
      countErrors (Pwa.board s) (Pwa.solution s) positions (0, 0) in
    if (errors =? 0) && (empty =? 0) then Some Perfect
    else if errors =? 0 then Some (Remaining empty)
    else Some (Incorrect errors (negb (errors =? 1))).

(** [checkSolution()] of the stand-alone script: [errors > 1 ? 's' : ''] *)
Definition checkSolutionClassic (s : Classic.GameState) : option Toast :=
  if Classic.isPaused s || Classic.isComplete s then None
  else
    let '(errors, empty) :=
      countErrors (Classic.board s) (Classic.solution s) positions (0, 0) in
    if (errors =? 0) && (empty =? 0) then Some Perfect
    else if errors =? 0 then Some (Remaining empty)
    else Some (Incorrect errors (1 <? errors)).

(** The cells that are filled in wrongly, and the empty cells. *)
Definition wrongCells (board solution : Grid) (ps : list (nat * nat))
    : list (nat * nat) :=
  filter (λ p, cell board p.1 p.2 ≠ Some 0%Z
               ∧ cell board p.1 p.2 ≠ cell solution p.1 p.2) ps.

Definition emptyCells (board : Grid) (ps : list (nat * nat))
    : list (nat * nat) :=
  filter (λ p, cell board p.1 p.2 = Some 0%Z) ps.

Lemma countErrors_count board solution ps : ∀ errors empty,
  countErrors board solution ps (errors, empty)
  = (errors + length (wrongCells board solution ps),
     empty + length (emptyCells board ps)).
Proof.
  induction ps as [|p ps IH]; intros errors empty.
  { cbn. f_equal; lia. }
  unfold countErrors in *. cbn [foldl]. unfold cellIs.
  unfold wrongCells, emptyCells in *.
  destruct (decide (cell board p.1 p.2 = Some 0%Z)) as [Hz|Hz].
  - rewrite bool_decide_eq_true_2 by done. rewrite IH.
    rewrite !filter_cons. repeat case_decide; try tauto.
    cbn [length]. f_equal; lia.
  - rewrite bool_decide_eq_false_2 by done.
    destruct (decide (cell board p.1 p.2 ≠ cell solution p.1 p.2)) as [Hd|Hd].
    + rewrite bool_decide_eq_true_2 by done. rewrite IH.
      rewrite !filter_cons. repeat case_decide; try tauto.
      cbn [length]. f_equal; lia.
    + rewrite bool_decide_eq_false_2 by done. rewrite IH.
      rewrite !filter_cons. by repeat case_decide; try tauto.
Qed.

Lemma filter_nil_length {A} (P : A → Prop) `{∀ x, Decision (P x)} l :
  length (filter P l) = 0 ↔ ∀ x, x ∈ l → ¬ P x.
Proof.
  split.
  - intros Hl x Hx HP. apply length_zero_iff_nil in Hl.
    assert (x ∈ filter P l) as Hin by by apply list_elem_of_filter.
    rewrite Hl in Hin. by apply not_elem_of_nil in Hin.
  - intros Hall. destruct (filter P l) as [|x l'] eqn:E; [done|].
    assert (x ∈ filter P l) as Hin by (rewrite E; by left).
    apply list_elem_of_filter in Hin as [HP Hx]. by destruct (Hall x Hx).
Qed.

(** X18. [checkSolution] of the two scripts, on games with the same 9x9
    board and solution: both show the same message. They show nothing when
    the game is paused or complete; "Perfect" exactly when every cell is
    filled and right; the number of empty cells when no filled cell is
    wrong; and otherwise the number of filled cells that differ from the
    solution, with "cells" in the plural unless that number is 1. *)
Theorem checkSolution_verdict (board solution : Grid) (paused complete : bool)
    (sp : Pwa.GameState) (sc : Classic.GameState) :
  wf board → wf solution →
  Pwa.board sp = board → Pwa.solution sp = solution →
  Pwa.isPaused sp = paused → Pwa.isComplete sp = complete →
  Classic.board sc = board → Classic.solution sc = solution →
  Classic.isPaused sc = paused → Classic.isComplete sc = complete →
  checkSolutionPwa sp = checkSolutionClassic sc ∧
  (paused || complete = true → checkSolutionPwa sp = None) ∧
  (paused || complete = false →
   ∃ toast, checkSolutionPwa sp = Some toast ∧
     (toast = Perfect ↔
      ∀ r c, r < 9 → c < 9 →
        cell board r c ≠ Some 0%Z ∧ cell board r c = cell solution r c) ∧
     (∀ n, toast = Remaining n →
        n = length (emptyCells board positions) ∧ 0 < n ∧
        ∀ r c, r < 9 → c < 9 → cell board r c ≠ Some 0%Z →
               cell board r c = cell solution r c) ∧
     (∀ n plural, toast = Incorrect n plural →
        n = length (wrongCells board solution positions) ∧ 0 < n ∧
        plural = bool_decide (n ≠ 1))).
Proof.
  intros _ _ <- <- <- <- Hb Hs Hp Hc.
  unfold checkSolutionPwa, checkSolutionClassic. rewrite Hb, Hs, Hp, Hc.
  rewrite countErrors_count. cbn [Nat.add].
  set (errors := length (wrongCells _ _ _)).
  set (empty := length (emptyCells _ _)).
  split; [|split].
  - destruct (_ || _); [done|].
    destruct (Nat.eqb_spec errors 0) as [->|He]; [done|]. cbn [andb].
    do 2 f_equal. destruct (Nat.eqb_spec errors 1), (Nat.ltb_spec 1 errors);
      try done; lia.
  - by intros ->.
  - intros ->.
    assert (errors = 0 ↔
            ∀ r c, r < 9 → c < 9 → cell (Pwa.board sp) r c ≠ Some 0%Z →
                   cell (Pwa.board sp) r c = cell (Pwa.solution sp) r c)
      as Herr.
    { unfold errors, wrongCells. rewrite filter_nil_length. split.
      - intros H r c Hr Hc' Hz.
        destruct (decide (cell (Pwa.board sp) r c
                          = cell (Pwa.solution sp) r c)) as [|Hd]; [done|].
        destruct (H (r, c)); [by apply elem_of_positions|done].
      - intros H [r c] [Hr Hc']%elem_of_positions [Hz Hd]. apply Hd.
        by apply H. }
    assert (empty = 0 ↔
            ∀ r c, r < 9 → c < 9 → cell (Pwa.board sp) r c ≠ Some 0%Z)
      as Hemp.
    { unfold empty, emptyCells. rewrite filter_nil_length. split.
      - intros H r c Hr Hc'. apply (H (r, c)). by apply elem_of_positions.
      - intros H [r c] [Hr Hc']%elem_of_positions. by apply H. }
    destruct (Nat.eqb_spec errors 0) as [He|He];
      [destruct (Nat.eqb_spec empty 0) as [Hm|Hm]|]; cbn [andb];
      eexists; (split; [done|]).
    + split; [|done]. split; [|done]. intros _ r c Hr Hc'.
      split; [by apply Hemp|]. apply Herr; [done..|]. by apply Hemp.
    + split; [|split; [|done]].
      * split; [done|]. intros Hall. exfalso. apply Hm, Hemp.
        intros r c Hr Hc'. by apply Hall.
      * intros n [= <-]. split; [done|]. split; [lia|]. by apply Herr.
    + split; [|split; [done|]].
      * split; [done|]. intros Hall. exfalso. apply He, Herr.
        intros r c Hr Hc' _. by apply Hall.
      * intros n plural [= <- <-]. split; [done|]. split; [lia|].
        destruct (Nat.eqb_spec errors 1) as [->|Hne]; cbn [negb].
        -- by rewrite bool_decide_eq_false_2 by (intros H; by apply H).
        -- by rewrite bool_decide_eq_true_2.
Qed.

Lemma checkSolution_verdict_witness :
  wf twoRowsEmpty ∧ wf canonical ∧
  checkSolutionPwa (Pwa.startGame twoRowsEmpty canonical false)
  = checkSolutionClassic (Classic.startGame twoRowsEmpty canonical) ∧
  checkSolutionPwa (Pwa.startGame twoRowsEmpty canonical false)
  = Some (Remaining 18).
Proof.
  assert (wf twoRowsEmpty) as Hb
    by (apply (bool_decide_unpack _); vm_compute; exact I).
  assert (wf canonical) as Hs
    by (apply (bool_decide_unpack _); vm_compute; exact I).
  split; [exact Hb|]. split; [exact Hs|]. split; [|vm_compute; reflexivity].
  exact (proj1 (checkSolution_verdict twoRowsEmpty canonical false false
                  (Pwa.startGame twoRowsEmpty canonical false)
                  (Classic.startGame twoRowsEmpty canonical)
                  Hb Hs eq_refl eq_refl eq_refl eq_refl
                  eq_refl eq_refl eq_refl eq_refl)).
Defined.

(** ** The number pad *)

(** [counts] of [updateNumberPad] / [updateNumberPadCompletion]:
    [counts[val]++] for every cell that is not empty. A value outside 0-9
    makes the source store [NaN] under a key no button reads; here it
    leaves the counters. *)
Definition countValues (board : Grid) (ps : list (nat * nat))
    (counts : list nat) : list nat :=
  foldl (λ counts p,
           match cell board p.1 p.2 with
           | Some val =>
               if negb (val =? 0)%Z && (0 <=? val)%Z && (val <? 10)%Z
               then alter S (Z.to_nat val) counts
               else counts
           | None => counts
           end)
        counts ps.

(** The button of [num] gets the class [completed]:
    [counts[num] >= 9]. *)
Definition completed (board : Grid) (num : nat) : bool :=
  9 <=? countValues board positions (replicate 10 0) !!! num.

(** The cells that hold [num]. *)
Definition cellsWith (board : Grid) (num : nat) (ps : list (nat * nat))
    : list (nat * nat) :=
  filter (λ p, cell board p.1 p.2 = Some (Z.of_nat num)) ps.

Lemma countValues_count board ps : ∀ counts num,
  1 ≤ num < 10 → length counts = 10 →
  countValues board ps counts !!! num
  = counts !!! num + length (cellsWith board num ps) ∧
  length (countValues board ps counts) = 10.
Proof.
  induction ps as [|p ps IH]; intros counts num Hnum Hlen.
  { cbn. split; [lia|done]. }
  unfold countValues, cellsWith in *. cbn [foldl]. rewrite filter_cons.
  destruct (cell board p.1 p.2) as [val|] eqn:Hval.
  - destruct (Z.eqb_spec val 0) as [->|Hv0]; cbn [negb andb].
    { rewrite decide_False by (intros [= E]; lia). by apply IH. }
    destruct (Z.leb_spec 0 val); cbn [andb];
      [|rewrite decide_False by (intros [= E]; lia); by apply IH].
    destruct (Z.ltb_spec val 10);
      [|rewrite decide_False by (intros [= E]; lia); by apply IH].
    destruct (IH (alter S (Z.to_nat val) counts) num Hnum) as [-> ->];
      [by rewrite length_alter|].
    split; [|done].
    destruct (decide (Z.to_nat val = num)) as [<-|Hne].
    + rewrite decide_True by (f_equal; lia).
      rewrite list_lookup_total_alter, decide_True by lia.
      cbn [length]. lia.
    + rewrite decide_False by (intros [= E]; lia).
      rewrite list_lookup_total_alter, decide_False by tauto. done.
  - rewrite decide_False by done. by apply IH.
Qed.

Lemma elem_of_cellsWith board num r c :
  (r, c) ∈ cellsWith board num positions ↔
  r < 9 ∧ c < 9 ∧ cell board r c = Some (Z.of_nat num).
Proof.
  unfold cellsWith. rewrite list_elem_of_filter, elem_of_positions.
  simpl. tauto.
Qed.

(** On a board without conflicts the cells that hold a digit lie in
    different rows. *)
Lemma cellsWith_rows board num :
  consistent board → 1 ≤ num →
  NoDup (cellsWith board num positions).*1 ∧
  (cellsWith board num positions).*1 ⊆+ seq 0 9.
Proof.
  intros Hcons Hnum.
  assert (NoDup (cellsWith board num positions).*1) as Hnd.
  { apply NoDup_fmap_2_strong.
    - intros [r c] [r' c'] Hp Hq Heq. simpl in Heq. subst r'.
      apply elem_of_cellsWith in Hp as (_ & _ & Hp).
      apply elem_of_cellsWith in Hq as (_ & _ & Hq).
      apply (Hcons r c r c' (Z.of_nat num)); [done|done|lia|by left].
    - apply NoDup_filter, positions_NoDup. }
  split; [done|]. apply NoDup_submseteq; [done|]. intros r Hr.
  apply list_elem_of_fmap in Hr as ([r' c] & -> & Hp).
  apply elem_of_cellsWith in Hp as (Hr & _). apply elem_of_seq. simpl. lia.
Qed.

(** X19. The number pad ([updateNumberPad] / [updateNumberPadCompletion]):
    on a 9x9 board that breaks no rule, the count of a digit 1-9 is at
    most 9, and the button of the digit is marked completed exactly when
    every row of the board holds the digit. *)
Theorem completed_digit_is_in_every_row (board : Grid) (num : nat) :
  wf board → consistent board → 1 ≤ num < 10 →
  countValues board positions (replicate 10 0) !!! num ≤ 9 ∧
  (completed board num = true ↔
   ∀ r, r < 9 → ∃ c, c < 9 ∧ cell board r c = Some (Z.of_nat num)).
Proof.
  intros _ Hcons Hnum. unfold completed.
  destruct (countValues_count board positions (replicate 10 0) num Hnum)
    as [-> _]; [by rewrite length_replicate|].
  rewrite lookup_total_replicate_2 by lia. cbn [Nat.add].
  destruct (cellsWith_rows board num Hcons) as [Hnd Hsub]; [lia|].
  pose proof (submseteq_length _ _ Hsub) as Hlen.
  rewrite length_fmap, length_seq in Hlen. split; [done|].
  rewrite Nat.leb_le. split.
  - intros Hnine r Hr.
    assert ((cellsWith board num positions).*1 ≡ₚ seq 0 9) as Hperm.
    { apply submseteq_length_Permutation; [done|].
      rewrite length_fmap, length_seq. lia. }
    assert (r ∈ (cellsWith board num positions).*1) as Hin.
    { rewrite Hperm. apply elem_of_seq. lia. }
    apply list_elem_of_fmap in Hin as ([r' c] & -> & Hp).
    apply elem_of_cellsWith in Hp as (_ & Hc & Hv). by exists c.
  - intros Hall.
    assert (seq 0 9 ⊆+ (cellsWith board num positions).*1) as Hsup.
    { apply NoDup_submseteq; [apply NoDup_seq|]. intros r Hr.
      apply elem_of_seq in Hr. destruct (Hall r) as (c & Hc & Hv); [lia|].
      apply list_elem_of_fmap. exists (r, c). split; [done|].
      apply elem_of_cellsWith. split; [lia|done]. }
    apply submseteq_length in Hsup.
    by rewrite length_fmap, length_seq in Hsup.
Qed.

Lemma completed_digit_is_in_every_row_witness :
  wf canonical ∧ consistent canonical ∧ 1 ≤ 5 < 10 ∧
  completed canonical 5 = true ∧
  ∀ r, r < 9 → ∃ c, c < 9 ∧ cell canonical r c = Some (Z.of_nat 5).
Proof.
  destruct canonical_solved as (Hwf & _ & _ & Hcons & _).
  split; [exact Hwf|]. split; [exact Hcons|]. split; [lia|].
  split; [vm_compute; reflexivity|].
  apply (proj2 (completed_digit_is_in_every_row canonical 5 Hwf Hcons
                  ltac:(lia))).
  vm_compute. reflexivity.
Defined.

(** ** What a digit key does *)



(** X21. [inputNumber] of the stand-alone script on a selected cell that the
    player may edit, in a game that is neither paused nor complete. No
    other cell of the board and no notes of another cell change. In notes
    mode the cell is emptied and the digit is toggled in its notes. In
    value mode the digit the cell already holds empties the cell and
    leaves its notes; any other digit is written to the cell and the notes
    of the cell are emptied. *)
Theorem inputNumber_classic_places_the_digit (s : Classic.GameState)
    (num : Z) (r c : nat) (old : Z) (oldN : gset Z) :
  Classic.selected s = Some (r, c) → Classic.isPaused s = false →
  Classic.isComplete s = false → cell (Classic.initial s) r c = Some 0%Z →
  cell (Classic.board s) r c = Some old →
  noteAt (Classic.notes s) r c = Some oldN →
  (∀ r' c', (r', c') ≠ (r, c) →
     cell (Classic.board (Classic.inputNumber num s)) r' c'
     = cell (Classic.board s) r' c' ∧
     noteAt (Classic.notes (Classic.inputNumber num s)) r' c'
     = noteAt (Classic.notes s) r' c') ∧
  (Classic.isNotesMode s = true →
     cell (Classic.board (Classic.inputNumber num s)) r c = Some 0%Z ∧
     noteAt (Classic.notes (Classic.inputNumber num s)) r c
     = Some (toggleNote num oldN)) ∧
  (Classic.isNotesMode s = false → old = num →
     cell (Classic.board (Classic.inputNumber num s)) r c = Some 0%Z ∧
     Classic.notes (Classic.inputNumber num s) = Classic.notes s) ∧
  (Classic.isNotesMode s = false → old ≠ num →
     cell (Classic.board (Classic.inputNumber num s)) r c = Some num ∧
     noteAt (Classic.notes (Classic.inputNumber num s)) r c = Some ∅).
Proof.
  intros Hsel Hp Hc Hi Hold HoldN.
  unfold Classic.inputNumber. rewrite Hsel, Hp, Hc. cbn [orb].
  rewrite (proj2 (cellIs_true _ _ _ _) Hi). cbn [negb].
  rewrite Hold, HoldN.
  destruct (Classic.isNotesMode s);
    [|destruct (Z.eqb_spec old num) as [Heq|Hne]];
    cbv zeta; rewrite Classic.board_checkWinCondition,
      Classic.notes_checkWinCondition.
  - destruct (negb (bool_decide _)), (Z.eqb_spec old 0) as [->|Hz];
      cbn [negb Classic.board Classic.notes Classic.withCells
           Classic.addToHistory Classic.withLog];
      (split; [|split; [|done]]);
      try (intros r' c' Hne'; rewrite ?cell_setCell_ne by done;
           by rewrite noteAt_setNote_ne by congruence);
      intros _; (split; [|by apply (noteAt_setNote_eq _ _ _ _ _ HoldN)]);
      try done; by apply (cell_setCell_same _ _ _ _ _ Hold).
  - cbn [Classic.board Classic.notes Classic.withCells
         Classic.addToHistory Classic.withLog].
    split; [|split; [done|split; [|done]]].
    + intros r' c' Hne'. by rewrite cell_setCell_ne.
    + intros _ _. split; [|done]. by apply (cell_setCell_same _ _ _ _ _ Hold).
  - cbn [Classic.board Classic.notes Classic.withCells
         Classic.addToHistory Classic.withLog].
    split; [|split; [done|split; [done|]]].
    + intros r' c' Hne'. rewrite cell_setCell_ne by done.
      by rewrite noteAt_setNote_ne by congruence.
    + intros _ _. split; [by apply (cell_setCell_same _ _ _ _ _ Hold)|].
      by apply (noteAt_setNote_eq _ _ _ _ _ HoldN).
Qed.

Lemma inputNumber_classic_places_the_digit_witness :
  Classic.selected sampleGameClassic = Some (0, 0) ∧
  Classic.isNotesMode sampleGameClassic = false ∧
  noteAt (Classic.notes sampleGameClassic) 0 0 = Some {[3%Z]} ∧
  cell (Classic.board (Classic.inputNumber 7 sampleGameClassic)) 0 0
  = Some 7%Z ∧
  noteAt (Classic.notes (Classic.inputNumber 7 sampleGameClassic)) 0 0
  = Some ∅.
Proof.
  do 3 (split; [vm_compute; reflexivity|]).
  destruct (inputNumber_classic_places_the_digit sampleGameClassic 7 0 0 0
              {[3%Z]}) as (_ & _ & _ & Hvalue);
    [vm_compute; reflexivity..|].
  apply Hvalue; [vm_compute; reflexivity|discriminate].
Defined.

(** ** The same digit twice *)

Lemma toggleNote_twice num (x : gset Z) : toggleNote num (toggleNote num x) = x.
Proof.
  unfold toggleNote. destruct (decide (num ∈ x)) as [Hin|Hnin].
  - rewrite (bool_decide_eq_true_2 (num ∈ x)) by done.
    rewrite bool_decide_eq_false_2.
    + apply set_eq. intros y.
      rewrite elem_of_union, elem_of_difference, elem_of_singleton.
      destruct (decide (y = num)) as [->|]; tauto.
    + rewrite elem_of_difference, elem_of_singleton. tauto.
  - rewrite (bool_decide_eq_false_2 (num ∈ x)) by done.
    rewrite bool_decide_eq_true_2.
    + apply set_eq. intros y.
      rewrite elem_of_difference, elem_of_union, elem_of_singleton.
      destruct (decide (y = num)) as [->|]; tauto.
    + rewrite elem_of_union, elem_of_singleton. tauto.
Qed.

(** X22. The same digit entered twice in a row, in [script.js], on an empty
    selected cell that the player may edit, when the first entry does not
    complete the game: the board is back as it was (the second entry takes
    the digit out again), the history holds two more moves, and in notes
    mode the notes are back as they were too. *)
Theorem inputNumber_twice (s : Pwa.GameState) (num : Z) (r c : nat)
    (oldN : gset Z) :
  Pwa.selected s = Some (r, c) → Pwa.isPaused s = false →
  Pwa.isComplete s = false → cell (Pwa.initial s) r c = Some 0%Z →
  cell (Pwa.board s) r c = Some 0%Z →
  noteAt (Pwa.notes s) r c = Some oldN → fullNotes (Pwa.notes s) →
  num ≠ 0%Z →
  Pwa.isComplete (Pwa.inputNumber num s) = false →
  Pwa.board (Pwa.inputNumber num (Pwa.inputNumber num s)) = Pwa.board s ∧
  length (Pwa.moveHistory (Pwa.inputNumber num (Pwa.inputNumber num s)))
  = length (Pwa.moveHistory s) + 2 ∧
  (Pwa.isNotesMode s = true →
   Pwa.notes (Pwa.inputNumber num (Pwa.inputNumber num s)) = Pwa.notes s).
Proof.
  intros Hsel Hp Hc Hi Hold HoldN _ Hnum Hopen.
  assert (∀ u, Pwa.selected (Pwa.checkWin u) = Pwa.selected u ∧
               Pwa.isPaused (Pwa.checkWin u) = Pwa.isPaused u ∧
               Pwa.initial (Pwa.checkWin u) = Pwa.initial u ∧
               Pwa.isNotesMode (Pwa.checkWin u) = Pwa.isNotesMode u ∧
               Pwa.autoRemoveNotes (Pwa.checkWin u) = Pwa.autoRemoveNotes u)
    as Hcw.
  { intros u. unfold Pwa.checkWin. by destruct (boardSolved _ _). }
  remember (Pwa.inputNumber num s) as s1 eqn:Hs1.
  unfold Pwa.inputNumber in Hs1. rewrite Hsel, Hp, Hc in Hs1.
  cbn [orb] in Hs1. rewrite (proj2 (cellIs_true _ _ _ _) Hi) in Hs1.
  cbn [negb] in Hs1. rewrite Hold, HoldN in Hs1.
  destruct (Z.eqb_spec 0 num) as [|_]; [congruence|].
  change (negb (0 =? 0)%Z) with false in Hs1. cbv zeta in Hs1.
  destruct (Pwa.isNotesMode s) eqn:Hmode.
  - assert (Pwa.selected s1 = Some (r, c) ∧ Pwa.isPaused s1 = false ∧
            Pwa.initial s1 = Pwa.initial s ∧ Pwa.isNotesMode s1 = true ∧
            Pwa.board s1 = Pwa.board s ∧
            Pwa.notes s1 = setNote (Pwa.notes s) r c (toggleNote num oldN) ∧
            length (Pwa.moveHistory s1) = length (Pwa.moveHistory s) + 1)
      as (Hsel1 & Hp1 & Hi1 & Hm1 & Hb1 & Hn1 & Hh1).
    { rewrite Hs1. destruct (Hcw (Pwa.record
        {| Pwa.type := Pwa.Note; Pwa.row := r; Pwa.col := c;
           Pwa.oldValue := 0; Pwa.oldNotes := oldN; Pwa.newValue := 0;
           Pwa.newNotes := Some (toggleNote num oldN) |}
        (Pwa.withCells (Pwa.board s)
           (setNote (Pwa.notes s) r c (toggleNote num oldN)) s)))
        as (-> & -> & -> & -> & _).
      rewrite Pwa.board_checkWin, Pwa.notes_checkWin,
        Pwa.moveHistory_checkWin. cbn.
      rewrite length_app. cbn. done. }
    unfold Pwa.inputNumber. rewrite Hsel1, Hp1, Hopen, Hi1. cbn [orb].
    rewrite (proj2 (cellIs_true _ _ _ _) Hi). cbn [negb].
    rewrite Hb1, Hold, Hn1, (noteAt_setNote_eq _ _ _ _ _ HoldN), Hm1.
    cbv zeta. change (negb (0 =? 0)%Z) with false. cbv iota.
    rewrite Pwa.board_checkWin, Pwa.notes_checkWin, Pwa.moveHistory_checkWin.
    cbn [Pwa.board Pwa.notes Pwa.moveHistory Pwa.withCells Pwa.record
         Pwa.withLog].
    split; [done|]. split; [rewrite length_app; cbn; lia|]. intros _.
    rewrite setNote_setNote, toggleNote_twice. by apply setNote_id.
  - assert (Pwa.selected s1 = Some (r, c) ∧ Pwa.isPaused s1 = false ∧
            Pwa.initial s1 = Pwa.initial s ∧ Pwa.isNotesMode s1 = false ∧
            Pwa.board s1 = setCell (Pwa.board s) r c num ∧
            (∃ x, noteAt (Pwa.notes s1) r c = Some x) ∧
            length (Pwa.moveHistory s1) = length (Pwa.moveHistory s) + 1)
      as (Hsel1 & Hp1 & Hi1 & Hm1 & Hb1 & [x Hn1] & Hh1).
    { rewrite Hs1.
      set (n1 := if Pwa.autoRemoveNotes s then _ else _).
      destruct (Hcw (Pwa.record
        {| Pwa.type := Pwa.Value; Pwa.row := r; Pwa.col := c;
           Pwa.oldValue := 0; Pwa.oldNotes := oldN; Pwa.newValue := num;
           Pwa.newNotes := Some ∅ |}
        (Pwa.withCells (setCell (Pwa.board s) r c num) n1 s)))
        as (-> & -> & -> & -> & _).
      rewrite Pwa.board_checkWin, Pwa.notes_checkWin,
        Pwa.moveHistory_checkWin. cbn.
      rewrite length_app. cbn. repeat (split; [done|]). split; [|done].
      exists ∅. unfold n1.
      pose proof (noteAt_setNote_eq _ _ _ ∅ _ HoldN) as Hempty.
      destruct (Pwa.autoRemoveNotes s); [|done].
      by apply Pwa.removeRelatedNotes_empty. }
    unfold Pwa.inputNumber. rewrite Hsel1, Hp1, Hopen, Hi1. cbn [orb].
    rewrite (proj2 (cellIs_true _ _ _ _) Hi). cbn [negb].
    rewrite Hb1, (cell_setCell_same _ _ _ _ _ Hold), Hn1, Hm1.
    rewrite Z.eqb_refl.
    rewrite Pwa.board_checkWin, Pwa.moveHistory_checkWin.
    cbn [Pwa.board Pwa.notes Pwa.moveHistory Pwa.withCells Pwa.record
         Pwa.withLog].
    split; [|split; [rewrite length_app; cbn; lia|done]].
    rewrite setCell_setCell. by apply setCell_id.
Qed.

Lemma inputNumber_twice_witness :
  Pwa.selected (sampleGamePwa true) = Some (0, 0) ∧
  cell (Pwa.board (sampleGamePwa true)) 0 0 = Some 0%Z ∧
  Pwa.isComplete (Pwa.inputNumber 5 (sampleGamePwa true)) = false ∧
  Pwa.board (Pwa.inputNumber 5 (Pwa.inputNumber 5 (sampleGamePwa true)))
  = Pwa.board (sampleGamePwa true) ∧
  length (Pwa.moveHistory
            (Pwa.inputNumber 5 (Pwa.inputNumber 5 (sampleGamePwa true))))
  = length (Pwa.moveHistory (sampleGamePwa true)) + 2 ∧
  Pwa.notes (Pwa.inputNumber 5 (Pwa.inputNumber 5 (sampleGamePwa true)))
  ≠ Pwa.notes (sampleGamePwa true).
Proof.
  do 3 (split; [vm_compute; reflexivity|]).
  destruct (inputNumber_twice (sampleGamePwa true) 5 0 0 ∅)
    as (Hboard & Hlog & _);
    [vm_compute; reflexivity..
    |apply fullNotes_check; vm_compute; reflexivity|discriminate
    |vm_compute; reflexivity|].
  split; [exact Hboard|]. split; [exact Hlog|].
  intros Hnotes. apply (f_equal (λ n, noteAt n 0 1)) in Hnotes.
  vm_compute in Hnotes. discriminate Hnotes.
Defined.

(** X23. The same digit entered twice in a row, in the stand-alone script, on
    an empty selected cell that the player may edit, when the first entry
    does not complete the game: the board is back as it was, the history
    cursor has moved on by two actions, and in notes mode the notes are
    back as they were too. *)
Theorem inputNumber_twice_classic (s : Classic.GameState) (num : Z)
    (r c : nat) (oldN : gset Z) :
  Classic.selected s = Some (r, c) → Classic.isPaused s = false →
  Classic.isComplete s = false → cell (Classic.initial s) r c = Some 0%Z →
  cell (Classic.board s) r c = Some 0%Z →
  noteAt (Classic.notes s) r c = Some oldN → num ≠ 0%Z →
  Classic.isComplete (Classic.inputNumber num s) = false →
  Classic.board (Classic.inputNumber num (Classic.inputNumber num s))
  = Classic.board s ∧
  Classic.historyIndex (Classic.inputNumber num (Classic.inputNumber num s))
  = (Classic.historyIndex s + 2)%Z ∧
  (Classic.isNotesMode s = true →
   Classic.notes (Classic.inputNumber num (Classic.inputNumber num s))
   = Classic.notes s).
Proof.
  intros Hsel Hp Hc Hi Hold HoldN Hnum Hopen.
  assert (∀ u, Classic.selected (Classic.checkWinCondition u)
               = Classic.selected u ∧
               Classic.isPaused (Classic.checkWinCondition u)
               = Classic.isPaused u ∧
               Classic.initial (Classic.checkWinCondition u)
               = Classic.initial u ∧
               Classic.isNotesMode (Classic.checkWinCondition u)
               = Classic.isNotesMode u) as Hcw.
  { intros u. unfold Classic.checkWinCondition.
    by destruct (boardSolved _ _). }
  pose proof (toggleNote_changes num oldN) as Hch.
  pose proof (toggleNote_changes num (toggleNote num oldN)) as Hch'.
  remember (Classic.inputNumber num s) as s1 eqn:Hs1.
  unfold Classic.inputNumber in Hs1. rewrite Hsel, Hp, Hc in Hs1.
  cbn [orb] in Hs1. rewrite (proj2 (cellIs_true _ _ _ _) Hi) in Hs1.
  cbn [negb] in Hs1. rewrite Hold, HoldN in Hs1.
  destruct (Z.eqb_spec 0 num) as [|_]; [congruence|].
  change (negb (0 =? 0)%Z) with false in Hs1. cbv zeta in Hs1.
  destruct (Classic.isNotesMode s) eqn:Hmode.
  - rewrite bool_decide_eq_false_2 in Hs1 by done. cbn [negb] in Hs1.
    assert (Classic.selected s1 = Some (r, c) ∧ Classic.isPaused s1 = false ∧
            Classic.initial s1 = Classic.initial s ∧
            Classic.isNotesMode s1 = true ∧
            Classic.board s1 = Classic.board s ∧
            Classic.notes s1
            = setNote (Classic.notes s) r c (toggleNote num oldN) ∧
            Classic.historyIndex s1 = (Classic.historyIndex s + 1)%Z)
      as (Hsel1 & Hp1 & Hi1 & Hm1 & Hb1 & Hn1 & Hh1).
    { rewrite Hs1.
      destruct (Hcw (Classic.addToHistory
                       (Classic.Note r c oldN (toggleNote num oldN))
                       (Classic.withCells (Classic.board s)
                          (setNote (Classic.notes s) r c
                             (toggleNote num oldN)) s)))
        as (-> & -> & -> & ->).
      rewrite Classic.board_checkWinCondition,
        Classic.notes_checkWinCondition,
        Classic.historyIndex_checkWinCondition. done. }
    unfold Classic.inputNumber. rewrite Hsel1, Hp1, Hopen, Hi1. cbn [orb].
    rewrite (proj2 (cellIs_true _ _ _ _) Hi). cbn [negb].
    rewrite Hb1, Hold, Hn1, (noteAt_setNote_eq _ _ _ _ _ HoldN), Hm1.
    cbv zeta. change (negb (0 =? 0)%Z) with false. cbv iota.
    rewrite bool_decide_eq_false_2 by done. cbn [negb].
    rewrite Classic.board_checkWinCondition, Classic.notes_checkWinCondition,
      Classic.historyIndex_checkWinCondition.
    cbn [Classic.board Classic.notes Classic.historyIndex Classic.withCells
         Classic.addToHistory Classic.withLog].
    split; [done|]. split; [lia|]. intros _.
    rewrite setNote_setNote, toggleNote_twice. by apply setNote_id.
  - assert (Classic.selected s1 = Some (r, c) ∧ Classic.isPaused s1 = false ∧
            Classic.initial s1 = Classic.initial s ∧
            Classic.isNotesMode s1 = false ∧
            Classic.board s1 = setCell (Classic.board s) r c num ∧
            noteAt (Classic.notes s1) r c = Some ∅ ∧
            Classic.historyIndex s1 = (Classic.historyIndex s + 1)%Z)
      as (Hsel1 & Hp1 & Hi1 & Hm1 & Hb1 & Hn1 & Hh1).
    { rewrite Hs1.
      destruct (Hcw (Classic.addToHistory (Classic.Value r c 0 num)
                       (Classic.withCells (setCell (Classic.board s) r c num)
                          (setNote (Classic.notes s) r c ∅) s)))
        as (-> & -> & -> & ->).
      rewrite Classic.board_checkWinCondition,
        Classic.notes_checkWinCondition,
        Classic.historyIndex_checkWinCondition.
      repeat (split; [done|]). split; [|done].
      by apply (noteAt_setNote_eq _ _ _ _ _ HoldN). }
    unfold Classic.inputNumber. rewrite Hsel1, Hp1, Hopen, Hi1. cbn [orb].
    rewrite (proj2 (cellIs_true _ _ _ _) Hi). cbn [negb].
    rewrite Hb1, (cell_setCell_same _ _ _ _ _ Hold), Hn1, Hm1.
    rewrite Z.eqb_refl.
    rewrite Classic.board_checkWinCondition,
      Classic.historyIndex_checkWinCondition.
    cbn [Classic.board Classic.notes Classic.historyIndex Classic.withCells
         Classic.addToHistory Classic.withLog].
    split; [|split; [lia|done]].
    rewrite setCell_setCell. by apply setCell_id.
Qed.

Lemma inputNumber_twice_classic_witness :
  Classic.selected sampleGameClassic = Some (0, 0) ∧
  cell (Classic.board sampleGameClassic) 0 0 = Some 0%Z ∧
  Classic.isComplete (Classic.inputNumber 7 sampleGameClassic) = false ∧
  Classic.board
    (Classic.inputNumber 7 (Classic.inputNumber 7 sampleGameClassic))
  = Classic.board sampleGameClassic ∧
  Classic.historyIndex
    (Classic.inputNumber 7 (Classic.inputNumber 7 sampleGameClassic))
  = (Classic.historyIndex sampleGameClassic + 2)%Z.
Proof.
  do 3 (split; [vm_compute; reflexivity|]).
  destruct (inputNumber_twice_classic sampleGameClassic 7 0 0 {[3%Z]})
    as (Hboard & Hlog & _);
    [vm_compute; reflexivity..|discriminate|vm_compute; reflexivity|].
  split; [exact Hboard|exact Hlog].
Defined.

(** * The icon script: PNG chunks and their checksum

    [create-icons.js] writes placeholder icons as PNG files. Numbers are
    integers here; the bitwise operators of the source work on 32 bits:
    [&] and [^] take both sides as signed 32-bit integers and give one,
    [>>>] takes its left side as an unsigned 32-bit integer. Buffers are
    lists of bytes. *)

Module Icons.
#[local] Open Scope Z_scope.

(** [ToUint32] and [ToInt32] of the language *)
Definition toUint32 (x : Z) : Z := x mod 2 ^ 32.

Definition toInt32 (x : Z) : Z :=
  if toUint32 x <? 2 ^ 31 then toUint32 x else toUint32 x - 2 ^ 32.

(** [a & b], [a ^ b] and [a >>> k] *)
Definition band (a b : Z) : Z := Z.land (toInt32 a) (toInt32 b).
Definition bxor (a b : Z) : Z := Z.lxor (toInt32 a) (toInt32 b).
Definition ushr (a k : Z) : Z := Z.shiftr (toUint32 a) k.

(** The body of the inner loop of [makeCRCTable]:
    [c = (c & 1) ? (0xedb88320 ^ (c >>> 1)) : (c >>> 1)] *)
Definition tableStep (c : Z) : Z :=
  if negb (band c 1 =? 0) then bxor 0xedb88320 (ushr c 1) else ushr c 1.

(** [makeCRCTable()] *)
Definition makeCRCTable : list Z :=
  (λ n, Nat.iter 8 tableStep (Z.of_nat n)) <$> seq 0 256.

(** [table[i]], and [undefined] as an operand of [^] counts as 0 *)
Definition tableAt (table : list Z) (i : Z) : Z :=
  default 0 (if i <? 0 then None else table !! Z.to_nat i).

(** [crc32(buffer)] *)
Definition crc32 (buffer : list Z) : Z :=
  let table := makeCRCTable in
  let crc :=
    foldl (λ crc byte,
             bxor (ushr crc 8) (tableAt table (band (bxor crc byte) 0xff)))
          0xffffffff buffer in
  bxor crc 0xffffffff.

(** [buf.writeUInt32BE(value, 0)] on a buffer of four bytes; a value out
    of range raises a [RangeError]. *)
Definition writeUInt32BE (value : Z) : option (list Z) :=
  if (0 <=? value) && (value <? 2 ^ 32) then
    Some [value / 2 ^ 24 mod 256; value / 2 ^ 16 mod 256;
          value / 2 ^ 8 mod 256; value mod 256]
  else None.

(** [createChunk(type, data)], on the bytes of [type] *)
Definition createChunk (typeBuffer data : list Z) : option (list Z) :=
  length ← writeUInt32BE (Z.of_nat (length data));
  let crcData := typeBuffer ++ data in
  let crc := crc32 crcData in
  crcBuffer ← writeUInt32BE (ushr crc 0);
  Some (length ++ typeBuffer ++ data ++ crcBuffer).

(** ** The checksum bit by bit

    One step of the shift register of CRC-32 in its reflected form, on
    unsigned numbers: shift right, and subtract the polynomial when a one
    falls out. *)
Definition shiftStep (c : Z) : Z :=
  if Z.odd c then Z.lxor 0xedb88320 (Z.shiftr c 1) else Z.shiftr c 1.

(** A byte enters the register and is shifted through. *)
Definition feedByte (c byte : Z) : Z := Nat.iter 8 shiftStep (Z.lxor c byte).

(** CRC-32 of a buffer, bit by bit. *)
Definition crcBitwise (buffer : list Z) : Z :=
  Z.lxor (foldl feedByte 0xffffffff buffer) 0xffffffff.

Definition isByte (b : Z) : Prop := 0 ≤ b < 256.

Definition readUInt32BE (bytes : list Z) : Z :=
  match bytes with
  | [a; b; c; d] => a * 2 ^ 24 + b * 2 ^ 16 + c * 2 ^ 8 + d
  | _ => 0
  end.

Section bits.

Lemma toUint32_range x : 0 ≤ toUint32 x < 2 ^ 32.
Proof. unfold toUint32. apply Z.mod_pos_bound. lia. Qed.

Lemma toUint32_small x : 0 ≤ x < 2 ^ 32 → toUint32 x = x.
Proof. apply Z.mod_small. Qed.

Lemma toUint32_land x : toUint32 x = Z.land x (Z.ones 32).
Proof. unfold toUint32. by rewrite Z.land_ones by lia. Qed.

Lemma toUint32_toInt32 x : toUint32 (toInt32 x) = toUint32 x.
Proof.
  unfold toInt32. pose proof (toUint32_range x).
  destruct (toUint32 x <? 2 ^ 31); [by apply toUint32_small|].
  unfold toUint32 at 1. rewrite <- (Z.mod_add _ 1) by lia.
  replace (toUint32 x - 2 ^ 32 + 1 * 2 ^ 32) with (toUint32 x) by lia.
  by apply toUint32_small.
Qed.

Lemma toInt32_range x : - 2 ^ 31 ≤ toInt32 x < 2 ^ 31.
Proof.
  unfold toInt32. pose proof (toUint32_range x).
  destruct (Z.ltb_spec (toUint32 x) (2 ^ 31)); lia.
Qed.

Lemma toUint32_lxor a b :
  toUint32 (Z.lxor a b) = Z.lxor (toUint32 a) (toUint32 b).
Proof.
  rewrite !toUint32_land. apply Z.bits_inj'. intros n _.
  rewrite Z.land_spec, !Z.lxor_spec, !Z.land_spec.
  by destruct (Z.testbit a n), (Z.testbit b n), (Z.testbit (Z.ones 32) n).
Qed.

Lemma toUint32_bxor a b :
  toUint32 (bxor a b) = Z.lxor (toUint32 a) (toUint32 b).
Proof. unfold bxor. by rewrite toUint32_lxor, !toUint32_toInt32. Qed.

Lemma toUint32_odd x : Z.odd (toUint32 x) = Z.odd x.
Proof.
  rewrite toUint32_land, <- !Z.bit0_odd, Z.land_spec.
  by rewrite andb_true_r.
Qed.

Lemma toInt32_odd x : Z.odd (toInt32 x) = Z.odd x.
Proof. by rewrite <- (toUint32_odd (toInt32 x)), toUint32_toInt32, toUint32_odd. Qed.

Lemma band_one c : negb (band c 1 =? 0) = Z.odd c.
Proof.
  unfold band. change (toInt32 1) with 1.
  replace (Z.land (toInt32 c) 1) with (toInt32 c mod 2)
    by (symmetry; apply (Z.land_ones (toInt32 c) 1); lia).
  rewrite Zmod_odd, toInt32_odd. by destruct (Z.odd c).
Qed.

Lemma ushr_range a k : 0 ≤ k → 0 ≤ ushr a k < 2 ^ 32.
Proof.
  intros Hk. unfold ushr. pose proof (toUint32_range a).
  rewrite Z.shiftr_div_pow2 by done. split.
  - apply Z.div_pos; lia.
  - apply Z.div_lt_upper_bound; [lia|].
    assert (1 ≤ 2 ^ k) by (apply Z.pow_le_mono_r with (b := 0); lia). nia.
Qed.

(** The step of the table builder is the step of the shift register. *)
Lemma toUint32_tableStep c :
  toUint32 (tableStep c) = shiftStep (toUint32 c).
Proof.
  unfold tableStep, shiftStep. rewrite band_one, toUint32_odd.
  destruct (Z.odd c).
  - rewrite toUint32_bxor. f_equal.
    apply toUint32_small, (ushr_range c 1). lia.
  - apply toUint32_small, (ushr_range c 1). lia.
Qed.

Lemma toUint32_iter_tableStep k c :
  toUint32 (Nat.iter k tableStep c) = Nat.iter k shiftStep (toUint32 c).
Proof.
  induction k as [|k IH]; [done|].
  by rewrite !Nat.iter_succ, toUint32_tableStep, IH.
Qed.

(** The shift register is linear over exclusive or. *)
Lemma shiftStep_lxor x y :
  shiftStep (Z.lxor x y) = Z.lxor (shiftStep x) (shiftStep y).
Proof.
  unfold shiftStep. rewrite <- !Z.bit0_odd, Z.lxor_spec, Z.shiftr_lxor.
  generalize (Z.shiftr x 1) (Z.shiftr y 1). intros sx sy.
  destruct (Z.testbit x 0), (Z.testbit y 0); cbn [xorb];
    apply Z.bits_inj'; intros n _; rewrite ?Z.lxor_spec;
    by destruct (Z.testbit 3988292384 n), (Z.testbit sx n), (Z.testbit sy n).
Qed.

Lemma iter_shiftStep_lxor k x y :
  Nat.iter k shiftStep (Z.lxor x y)
  = Z.lxor (Nat.iter k shiftStep x) (Nat.iter k shiftStep y).
Proof.
  induction k as [|k IH]; [done|].
  by rewrite !Nat.iter_succ, IH, shiftStep_lxor.
Qed.

(** Zeros shifted out leave what was above them. *)
Lemma iter_shiftStep_shiftl k h :
  Nat.iter k shiftStep (Z.shiftl h (Z.of_nat k)) = h.
Proof.
  revert h. induction k as [|k IH]; intros h; [apply Z.shiftl_0_r|].
  rewrite Nat.iter_succ_r.
  assert (shiftStep (Z.shiftl h (Z.of_nat (S k))) = Z.shiftl h (Z.of_nat k))
    as ->; [|apply IH].
  unfold shiftStep. rewrite <- Z.bit0_odd, Z.shiftl_spec_low by lia.
  rewrite Z.shiftr_shiftl_l by lia. f_equal. lia.
Qed.

(** One table lookup does the eight shifts of a byte. *)
Lemma table_lookup_feeds_byte crc byte :
  0 ≤ crc → isByte byte →
  Z.lxor (Z.shiftr crc 8)
         (Nat.iter 8 shiftStep (Z.land (Z.lxor crc byte) 255))
  = feedByte crc byte.
Proof.
  intros Hcrc Hb. unfold feedByte.
  assert (Z.lxor crc byte
          = Z.lxor (Z.shiftl (Z.shiftr crc 8) 8)
                   (Z.land (Z.lxor crc byte) 255)) as Hsplit.
  { apply Z.bits_inj'. intros n Hn.
    rewrite !Z.lxor_spec. change 255 with (Z.ones 8).
    destruct (Z.lt_ge_cases n 8) as [Hlt|Hge].
    - rewrite Z.shiftl_spec_low by done.
      rewrite Z.land_spec, Z.ones_spec_low, Z.lxor_spec by lia.
      by rewrite andb_true_r.
    - rewrite Z.shiftl_spec, Z.shiftr_spec by lia.
      rewrite Z.land_spec, Z.ones_spec_high by lia.
      replace (n - 8 + 8) with n by lia. rewrite andb_false_r.
      assert (Z.testbit byte n = false) as ->; [|by rewrite !xorb_false_r].
      destruct (Z.eq_dec byte 0) as [->|]; [apply Z.bits_0|].
      apply Z.bits_above_log2; [unfold isByte in Hb; lia|].
      assert (Z.log2 byte < 8); [|lia].
      apply Z.log2_lt_pow2; unfold isByte in Hb; lia. }
  rewrite Hsplit at 2. rewrite iter_shiftStep_lxor.
  by rewrite (iter_shiftStep_shiftl 8).
Qed.

Lemma toInt32_small x : - 2 ^ 31 ≤ x < 2 ^ 31 → toInt32 x = x.
Proof.
  intros Hx. unfold toInt32, toUint32.
  destruct (Z.ltb_spec (x mod 2 ^ 32) (2 ^ 31)) as [Hlt|Hge];
    revert Hlt || revert Hge; Z.div_mod_to_equations; lia.
Qed.

Lemma low_byte_toUint32 x : Z.land (toUint32 x) 255 = Z.land x 255.
Proof.
  rewrite toUint32_land, <- Z.land_assoc. f_equal.
Qed.

Lemma low_byte_toInt32 x : Z.land (toInt32 x) 255 = Z.land x 255.
Proof.
  by rewrite <- (low_byte_toUint32 (toInt32 x)), toUint32_toInt32,
    low_byte_toUint32.
Qed.

Lemma low_byte_range x : 0 ≤ Z.land x 255 < 256.
Proof.
  change 255 with (Z.ones 8). rewrite Z.land_ones by lia.
  apply Z.mod_pos_bound. lia.
Qed.

(** The index of the table lookup. *)
Lemma lookup_index crc byte :
  isByte byte →
  band (bxor crc byte) 255 = Z.land (Z.lxor (toUint32 crc) byte) 255.
Proof.
  intros Hb. unfold band. change (toInt32 255) with 255.
  rewrite low_byte_toInt32, <- low_byte_toUint32, toUint32_bxor.
  rewrite (toUint32_small byte); [done|]. unfold isByte in Hb. lia.
Qed.

Lemma makeCRCTable_lookup i :
  0 ≤ i < 256 → tableAt makeCRCTable i = Nat.iter 8 tableStep i.
Proof.
  intros Hi. unfold tableAt, makeCRCTable.
  destruct (Z.ltb_spec i 0); [lia|].
  rewrite list_lookup_fmap, lookup_seq_lt by lia.
  cbn [fmap option_fmap option_map from_option id Nat.add].
  f_equal. lia.
Qed.

Lemma shiftStep_range c : 0 ≤ c < 2 ^ 32 → 0 ≤ shiftStep c < 2 ^ 32.
Proof.
  intros Hc. destruct (toUint32_range (tableStep c)) as [H1 H2].
  by rewrite toUint32_tableStep, (toUint32_small c) in H1, H2.
Qed.

Lemma iter_shiftStep_range k c :
  0 ≤ c < 2 ^ 32 → 0 ≤ Nat.iter k shiftStep c < 2 ^ 32.
Proof.
  intros Hc. induction k as [|k IH]; [done|].
  rewrite Nat.iter_succ. by apply shiftStep_range.
Qed.

(** One round of the loop of [crc32], seen as an unsigned number. *)
Lemma crc32_round crc byte :
  isByte byte →
  toUint32 (bxor (ushr crc 8)
              (tableAt makeCRCTable (band (bxor crc byte) 255)))
  = feedByte (toUint32 crc) byte.
Proof.
  intros Hb. rewrite toUint32_bxor, lookup_index by done.
  pose proof (low_byte_range (Z.lxor (toUint32 crc) byte)) as Hidx.
  rewrite makeCRCTable_lookup by done.
  rewrite toUint32_iter_tableStep.
  rewrite (toUint32_small (Z.land _ 255)) by lia.
  rewrite (toUint32_small (ushr crc 8)) by (apply ushr_range; lia).
  apply table_lookup_feeds_byte; [apply toUint32_range|done].
Qed.

Lemma crc32_loop buffer : ∀ crc,
  Forall isByte buffer →
  toUint32 (foldl (λ crc byte,
                     bxor (ushr crc 8)
                          (tableAt makeCRCTable (band (bxor crc byte) 255)))
                  crc buffer)
  = foldl feedByte (toUint32 crc) buffer.
Proof.
  induction buffer as [|b buffer IH]; intros crc Hbytes; [done|].
  apply Forall_cons in Hbytes as [Hb Hbytes]. cbn [foldl].
  by rewrite IH, crc32_round.
Qed.

Lemma feedByte_range c byte :
  0 ≤ c < 2 ^ 32 → isByte byte → 0 ≤ feedByte c byte < 2 ^ 32.
Proof.
  intros Hc Hb. unfold feedByte. apply iter_shiftStep_range.
  rewrite <- (toUint32_small c), <- (toUint32_small byte), <- toUint32_lxor
    by (unfold isByte in Hb; lia).
  apply toUint32_range.
Qed.

Lemma crcBitwise_range buffer :
  Forall isByte buffer → 0 ≤ crcBitwise buffer < 2 ^ 32.
Proof.
  intros Hbytes. unfold crcBitwise.
  assert (∀ c, 0 ≤ c < 2 ^ 32 → 0 ≤ foldl feedByte c buffer < 2 ^ 32) as Hf.
  { induction buffer as [|b buffer IH]; intros c Hc; [done|].
    apply Forall_cons in Hbytes as [Hb Hbytes]. cbn [foldl].
    apply IH; [done|]. by apply feedByte_range. }
  specialize (Hf 4294967295). 
  rewrite <- (toUint32_small (foldl _ _ _)) by (apply Hf; lia).
  change 4294967295 with (toUint32 4294967295) at 2 4.
  rewrite <- toUint32_lxor. apply toUint32_range.
Qed.

Lemma crc32_unsigned buffer :
  Forall isByte buffer → ushr (crc32 buffer) 0 = crcBitwise buffer.
Proof.
  intros Hbytes. unfold ushr, crc32, crcBitwise. rewrite Z.shiftr_0_r.
  cbv zeta. by rewrite toUint32_bxor, crc32_loop.
Qed.

Lemma writeUInt32BE_read value :
  0 ≤ value < 2 ^ 32 →
  ∃ bytes, writeUInt32BE value = Some bytes ∧ length bytes = 4%nat ∧
           Forall isByte bytes ∧ readUInt32BE bytes = value.
Proof.
  intros Hv. unfold writeUInt32BE.
  destruct (Z.leb_spec 0 value); [|lia].
  destruct (Z.ltb_spec value (2 ^ 32)); [|lia]. cbn [andb].
  eexists. split; [done|]. split; [done|]. split.
  - repeat (apply Forall_cons; split;
              [unfold isByte; apply Z.mod_pos_bound; lia|]).
    by apply Forall_nil.
  - unfold readUInt32BE. Z.div_mod_to_equations. lia.
Qed.

End bits.

(** X24. On a buffer of bytes, [crc32(buffer)], read as an unsigned 32-bit
    number (the [crc >>> 0] of [createChunk]), is the CRC-32 of the buffer
    as the bit-by-bit definition gives it: the register starts with all
    ones, each byte is added in and shifted out in eight steps under the
    polynomial 0xEDB88320, and the result is complemented. *)
Theorem crc32_is_bitwise_crc (buffer : list Z) :
  Forall isByte buffer →
  ushr (crc32 buffer) 0 = crcBitwise buffer ∧
  0 ≤ crcBitwise buffer < 2 ^ 32.
Proof.
  intros Hbytes. split; [by apply crc32_unsigned|by apply crcBitwise_range].
Qed.

(** The checksum of the four letters [IEND], as every PNG file ends. *)
Lemma crc32_is_bitwise_crc_witness :
  Forall isByte [73; 69; 78; 68] ∧
  ushr (crc32 [73; 69; 78; 68]) 0 = crcBitwise [73; 69; 78; 68] ∧
  0 ≤ crcBitwise [73; 69; 78; 68] < 2 ^ 32 ∧
  crcBitwise [73; 69; 78; 68] = 0xAE426082.
Proof.
  assert (Forall isByte [73; 69; 78; 68]) as Hbytes.
  { repeat (apply Forall_cons; split; [unfold isByte; lia|]).
    by apply Forall_nil. }
  split; [exact Hbytes|].
  destruct (crc32_is_bitwise_crc [73; 69; 78; 68] Hbytes) as [H1 H2].
  split; [exact H1|]. split; [exact H2|]. by vm_compute.
Defined.

(** X25. [makeCRCTable] builds 256 entries; entry [i] is, as an unsigned
    number, [i] shifted through eight steps of the register; and every
    index [(crc ^ byte) & 0xff] that [crc32] looks up is between 0 and
    255, so no lookup falls outside the table. *)
Theorem makeCRCTable_serves_every_lookup :
  length makeCRCTable = 256%nat ∧
  (∀ i, 0 ≤ i < 256 →
        makeCRCTable !! Z.to_nat i = Some (tableAt makeCRCTable i) ∧
        toUint32 (tableAt makeCRCTable i) = Nat.iter 8 shiftStep i) ∧
  (∀ crc byte, 0 ≤ band (bxor crc byte) 0xff < 256).
Proof.
  split; [|split].
  - unfold makeCRCTable. by rewrite length_fmap, length_seq.
  - intros i Hi. split.
    + unfold tableAt. destruct (Z.ltb_spec i 0); [lia|].
      destruct (lookup_lt_is_Some_2 makeCRCTable (Z.to_nat i)) as [t Ht].
      { unfold makeCRCTable. rewrite length_fmap, length_seq. lia. }
      by rewrite Ht.
    + rewrite makeCRCTable_lookup, toUint32_iter_tableStep by done.
      by rewrite toUint32_small by lia.
  - intros crc byte. unfold band. change (toInt32 255) with 255.
    apply low_byte_range.
Qed.

(** X26. [createChunk(type, data)], on bytes: the chunk is four bytes, the
    type, the data and four bytes more; all of them are bytes; the first
    four read, big-endian, as the length of the data, and the last four as
    the CRC-32 of the type followed by the data. *)
Theorem createChunk_layout (typeBuffer data : list Z) :
  Forall isByte typeBuffer → Forall isByte data →
  Z.of_nat (length data) < 2 ^ 32 →
  ∃ lengthBytes crcBytes,
    createChunk typeBuffer data
    = Some (lengthBytes ++ typeBuffer ++ data ++ crcBytes) ∧
    length lengthBytes = 4%nat ∧ length crcBytes = 4%nat ∧
    Forall isByte (lengthBytes ++ typeBuffer ++ data ++ crcBytes) ∧
    readUInt32BE lengthBytes = Z.of_nat (length data) ∧
    readUInt32BE crcBytes = crcBitwise (typeBuffer ++ data).
Proof.
  intros Htype Hdata Hlen.
  destruct (writeUInt32BE_read (Z.of_nat (length data)))
    as (lengthBytes & Hl & Hl4 & Hlb & Hlr); [lia|].
  assert (Forall isByte (typeBuffer ++ data)) as Hall
    by by apply Forall_app.
  destruct (writeUInt32BE_read (crcBitwise (typeBuffer ++ data)))
    as (crcBytes & Hc & Hc4 & Hcb & Hcr); [by apply crcBitwise_range|].
  exists lengthBytes, crcBytes. unfold createChunk.
  rewrite Hl. cbn [mbind option_bind]. cbv zeta.
  rewrite crc32_unsigned, Hc by done. cbn [mbind option_bind].
  split; [done|]. split; [done|]. split; [done|]. split; [|done].
  repeat (apply Forall_app; split); done.
Qed.

Lemma createChunk_layout_witness :
  createChunk [73; 69; 78; 68] []
  = Some [0; 0; 0; 0; 73; 69; 78; 68; 0xAE; 0x42; 0x60; 0x82] ∧
  ∃ lengthBytes crcBytes,
    createChunk [73; 69; 78; 68] []
    = Some (lengthBytes ++ [73; 69; 78; 68] ++ [] ++ crcBytes) ∧
    length lengthBytes = 4%nat ∧ length crcBytes = 4%nat ∧
    Forall isByte (lengthBytes ++ [73; 69; 78; 68] ++ [] ++ crcBytes) ∧
    readUInt32BE lengthBytes = Z.of_nat (length (@nil Z)) ∧
    readUInt32BE crcBytes = crcBitwise ([73; 69; 78; 68] ++ []).
Proof.
  split; [by vm_compute|].
  apply (createChunk_layout [73; 69; 78; 68] []).
  - repeat (apply Forall_cons; split; [unfold isByte; lia|]).
    by apply Forall_nil.
  - by apply Forall_nil.
  - cbn. lia.
Defined.
End Icons.

(** * Saving a game and loading it again ([script.js])

    [StorageManager.saveGame] writes the game as JSON text under one key
    of [localStorage]; [GameController.loadSavedGame] reads it back when
    the page opens. The text itself is not modelled: the store holds what
    [JSON.parse] makes of it. Numbers, strings, [null] and arrays of them
    come back as they were written. A [Set] does not: [JSON.stringify]
    writes an object by its enumerable own properties, a [Set] has none,
    so it is written as [{}] and comes back as an empty object. *)

Module Saved.

(** What the notes of a history entry can be: a set, [null], or, once
    loaded, the empty object [{}]. *)
Inductive NotesValue := ASet (x : gset Z) | Null | EmptyObject.

(** A history entry of [gameState] *)
Record Entry := {
  type : Pwa.EntryType;
  row : nat;
  col : nat;
  oldValue : Z;
  oldNotes : NotesValue;
  newValue : Z;
  newNotes : NotesValue
}.

(** [gameState]; of [timer] only [seconds], the one field of it that is
    saved and loaded. *)
Record Game := {
  board : Grid;
  solution : Grid;
  initial : Grid;
  notes : NotesGrid;
  selected : option (nat * nat);
  difficulty : Difficulty;
  hintsRemaining : Z;
  hintsUsed : Z;
  isNotesMode : bool;
  isPaused : bool;
  isComplete : bool;
  moveHistory : list Entry;
  redoStack : list Entry;
  seconds : Z;
  startedAt : option String.string;
  lastPlayedAt : option String.string
}.

(** The object [saveGame] builds, as it is read back. *)
Module Data.
Record GameData := {
  board : Grid;
  solution : Grid;
  initial : Grid;
  notes : list (list (list Z));
  difficulty : Difficulty;
  hintsRemaining : Z;
  hintsUsed : Z;
  timer : Z;
  moveHistory : list Entry;
  redoStack : list Entry;
  startedAt : option String.string;
  lastPlayedAt : String.string
}.
End Data.

(** A notes value, and an entry, written as JSON and read back. *)
Definition jsonNotes (v : NotesValue) : NotesValue :=
  match v with
  | ASet _ | EmptyObject => EmptyObject
  | Null => Null
  end.

Definition jsonEntry (e : Entry) : Entry :=
  {| type := type e; row := row e; col := col e; oldValue := oldValue e;
     oldNotes := jsonNotes (oldNotes e); newValue := newValue e;
     newNotes := jsonNotes (newNotes e) |}.

(** The [data] of [saveGame()], read back; [now] is
    [new Date().toISOString()]. [Array.from(set)] lists the set in its
    own order, which the sets of this model do not keep; the set that is
    read back does not depend on it. *)
Definition gameData (now : String.string) (g : Game) : Data.GameData :=
  {| Data.board := board g;
     Data.solution := solution g;
     Data.initial := initial g;
     Data.notes := (λ row : list (gset Z), (λ set, elements set) <$> row) <$> notes g;
     Data.difficulty := difficulty g;
     Data.hintsRemaining := hintsRemaining g;
     Data.hintsUsed := hintsUsed g;
     Data.timer := seconds g;
     Data.moveHistory := jsonEntry <$> moveHistory g;
     Data.redoStack := jsonEntry <$> redoStack g;
     Data.startedAt := startedAt g;
     Data.lastPlayedAt := now |}.

(** [StorageManager.save(key, data)] on the key of the game: the store
    and the answer. [localStorage.setItem] can throw (no room, storage
    switched off); [writable] says that it does not. *)
Definition save (writable : bool) (data : Data.GameData)
    (store : option Data.GameData) : option Data.GameData * bool :=
  if writable then (Some data, true) else (store, false).

(** [StorageManager.saveGame()] *)
Definition saveGame (writable : bool) (now : String.string) (g : Game)
    (store : option Data.GameData) : option Data.GameData * bool :=
  save writable (gameData now g) store.

(** [StorageManager.loadGame()]: [null] when the key is not there *)
Definition loadGame (store : option Data.GameData) : option Data.GameData :=
  store.

(** Whether [UIManager.renderBoard()] returns ([true]) or throws. The
    page has its 81 cells ([createBoard] runs first). For each of them
    the loop reads [gameState.board[row][col]],
    [gameState.initial[row][col]] and [gameState.notes[row][col]], which
    throws when the row is not there; a missing cell of a row that is
    there reads as [undefined] and throws nothing. [updateHighlights]
    then reads [gameState.board[selRow][selCol]] for each cell when a
    cell is selected; [hasConflict] and [updateNumberPad] read rows 0 to
    8 of the board only, which the first loop has read. *)
Definition rendersRow (g : Game) (row : nat) : bool :=
  bool_decide (is_Some (board g !! row))
  && bool_decide (is_Some (initial g !! row))
  && bool_decide (is_Some (notes g !! row)).

Definition updateHighlights (g : Game) : bool :=
  forallb (λ _ : nat * nat,
             match selected g with
             | Some (selRow, _) => bool_decide (is_Some (board g !! selRow))
             | None => true
             end)
          positions.

Definition renderBoard (g : Game) : bool :=
  forallb (λ p : nat * nat, rendersRow g p.1) positions
  && updateHighlights g.

(** [GameController.loadSavedGame()]: the game and the answer.
    [data.hintsUsed || 0]. The fields are assigned first; [renderBoard]
    runs inside the same [try], and when it throws the answer is false
    with the fields assigned. *)
Definition loadSavedGame (store : option Data.GameData) (g : Game)
    : Game * bool :=
  match loadGame store with
  | None => (g, false)
  | Some data =>
      let loaded :=
       {| board := Data.board data;
          solution := Data.solution data;
          initial := Data.initial data;
          notes := (λ row : list (list Z),
                      (λ arr, list_to_set arr : gset Z) <$> row)
                     <$> Data.notes data;
          selected := selected g;
          difficulty := Data.difficulty data;
          hintsRemaining := Data.hintsRemaining data;
          hintsUsed := if (Data.hintsUsed data =? 0)%Z then 0%Z
                       else Data.hintsUsed data;
          isNotesMode := isNotesMode g;
          isPaused := isPaused g;
          isComplete := isComplete g;
          moveHistory := Data.moveHistory data;
          redoStack := Data.redoStack data;
          seconds := Data.timer data;
          startedAt := Data.startedAt data;
          lastPlayedAt := Some (Data.lastPlayedAt data) |} in
      (loaded, renderBoard loaded)
  end.

(** [new Set(v)] takes an iterable, or [null] for the empty set; on an
    object that is not iterable it throws a [TypeError]. *)
Inductive TypeError := NotIterable.

Definition newSet (v : NotesValue) : TypeError + gset Z :=
  match v with
  | ASet x => inr x
  | Null => inr ∅
  | EmptyObject => inl NotIterable
  end.

(** Field updates. *)
Definition withLog (mh rs : list Entry) (g : Game) : Game :=
  {| board := board g; solution := solution g; initial := initial g;
     notes := notes g; selected := selected g; difficulty := difficulty g;
     hintsRemaining := hintsRemaining g; hintsUsed := hintsUsed g;
     isNotesMode := isNotesMode g; isPaused := isPaused g;
     isComplete := isComplete g; moveHistory := mh; redoStack := rs;
     seconds := seconds g; startedAt := startedAt g;
     lastPlayedAt := lastPlayedAt g |}.

Definition withCells (b : Grid) (n : NotesGrid) (g : Game) : Game :=
  {| board := b; solution := solution g; initial := initial g;
     notes := n; selected := selected g; difficulty := difficulty g;
     hintsRemaining := hintsRemaining g; hintsUsed := hintsUsed g;
     isNotesMode := isNotesMode g; isPaused := isPaused g;
     isComplete := isComplete g; moveHistory := moveHistory g;
     redoStack := redoStack g; seconds := seconds g;
     startedAt := startedAt g; lastPlayedAt := lastPlayedAt g |}.

(** [GameController.undo()], with the storage and with what it throws:
    the game, the store, and the error if there is one. The entry is
    moved and the board written before the set of notes is built. *)
Definition undo (writable : bool) (now : String.string) (g : Game)
    (store : option Data.GameData)
    : Game * option Data.GameData * option TypeError :=
  if (length (moveHistory g) =? 0) || isPaused g || isComplete g
  then (g, store, None)
  else
    match Pwa.pop (moveHistory g) with
    | None => (g, store, None)
    | Some (move, rest) =>
        let g1 := withLog rest (redoStack g ++ [move]) g in
        let g2 := withCells (setCell (board g1) (row move) (col move)
                               (oldValue move)) (notes g1) g1 in
        match newSet (oldNotes move) with
        | inl error => (g2, store, Some error)
        | inr set =>
            let g3 := withCells (board g2)
                        (setNote (notes g2) (row move) (col move) set) g2 in
            (g3, (saveGame writable now g3 store).1, None)
        end
    end.

(** ** The games of the controller

    A game whose history holds what [inputNumber], [erase] and [hint]
    record: sets, and [null] for the one [newNotes] that is left out. *)
Definition liveEntry (e : Pwa.Entry) : Entry :=
  {| type := Pwa.type e; row := Pwa.row e; col := Pwa.col e;
     oldValue := Pwa.oldValue e; oldNotes := ASet (Pwa.oldNotes e);
     newValue := Pwa.newValue e;
     newNotes := match Pwa.newNotes e with
                 | Some x => ASet x
                 | None => Null
                 end |}.

Definition live (d : Difficulty) (t : Z) (started played : option String.string)
    (s : Pwa.GameState) : Game :=
  {| board := Pwa.board s; solution := Pwa.solution s;
     initial := Pwa.initial s; notes := Pwa.notes s;
     selected := Pwa.selected s; difficulty := d;
     hintsRemaining := Pwa.hintsRemaining s; hintsUsed := Pwa.hintsUsed s;
     isNotesMode := Pwa.isNotesMode s; isPaused := Pwa.isPaused s;
     isComplete := Pwa.isComplete s;
     moveHistory := liveEntry <$> Pwa.moveHistory s;
     redoStack := liveEntry <$> Pwa.redoStack s;
     seconds := t; startedAt := started; lastPlayedAt := played |}.

(** [gameState] when the page opens, before a game is loaded or made. *)
Definition blank : Game :=
  {| board := []; solution := []; initial := []; notes := [];
     selected := None; difficulty := medium; hintsRemaining := 3;
     hintsUsed := 0; isNotesMode := false; isPaused := false;
     isComplete := false; moveHistory := []; redoStack := [];
     seconds := 0; startedAt := None; lastPlayedAt := None |}.

Lemma pop_fmap {A B} (f : A → B) (l : list A) :
  Pwa.pop (f <$> l) = (λ p : A * list A, (f p.1, f <$> p.2)) <$> Pwa.pop l.
Proof.
  unfold Pwa.pop. rewrite <- fmap_reverse.
  destruct (reverse l) as [|x rest]; [done|]. cbn. by rewrite fmap_reverse.
Qed.

Lemma notes_read_back (notes : NotesGrid) :
  (λ row : list (list Z), (λ arr, list_to_set arr : gset Z) <$> row)
    <$> ((λ row : list (gset Z), (λ set, elements set) <$> row) <$> notes)
  = notes.
Proof.
  rewrite <- list_fmap_compose. rewrite <- (list_fmap_id notes) at 2.
  apply list_fmap_ext. intros _ row _. cbn.
  rewrite <- list_fmap_compose. rewrite <- (list_fmap_id row) at 2.
  apply list_fmap_ext. intros _ set _. cbn.
  apply list_to_set_elements_L.
Qed.

Lemma jsonNotes_no_set v x : jsonNotes v ≠ ASet x.
Proof. by destruct v. Qed.

(** On a game of the controller [undo] does what [Pwa.undo] does, and
    throws nothing. *)
Lemma undo_live writable now d t started played s store :
  (undo writable now (live d t started played s) store).1.1
  = live d t started played (Pwa.undo s) ∧
  (undo writable now (live d t started played s) store).2 = None.
Proof.
  unfold undo, Pwa.undo.
  cbn [live moveHistory isPaused isComplete]. rewrite length_fmap.
  destruct (_ || _); [done|].
  rewrite pop_fmap. destruct (Pwa.pop (Pwa.moveHistory s)) as [[move rest]|];
    [|done].
  cbn. unfold live. cbn. by rewrite fmap_app.
Qed.

(** [renderBoard] returns exactly when the board, the initial grid and
    the notes have their nine rows and the selected cell, if there is
    one, is in a row of the board. *)
Lemma renderBoard_true (g : Game) :
  renderBoard g = true ↔
  9 ≤ length (board g) ∧ 9 ≤ length (initial g) ∧ 9 ≤ length (notes g) ∧
  ∀ r c, selected g = Some (r, c) → r < length (board g).
Proof.
  assert (∀ {A} (l : list A), 9 ≤ length l ↔
            ∀ p : nat * nat, In p positions →
                             bool_decide (is_Some (l !! p.1)) = true) as Hrows.
  { intros A l. split.
    - intros Hl [r c] [Hr _]%list_elem_of_In%elem_of_positions.
      apply bool_decide_eq_true, lookup_lt_is_Some. simpl. lia.
    - intros H. specialize (H (8, 0)).
      rewrite bool_decide_eq_true, lookup_lt_is_Some in H. simpl in H.
      apply H, list_elem_of_In, elem_of_positions. lia. }
  unfold renderBoard, updateHighlights, rendersRow.
  rewrite andb_true_iff, !forallb_forall. split.
  - intros [Hcells Hsel].
    assert (∀ p, In p positions →
              bool_decide (is_Some (board g !! p.1)) = true ∧
              bool_decide (is_Some (initial g !! p.1)) = true ∧
              bool_decide (is_Some (notes g !! p.1)) = true) as Hall.
    { intros p Hp. specialize (Hcells p Hp).
      apply andb_prop in Hcells as [Hbi Hn].
      by apply andb_prop in Hbi as [Hb Hi]. }
    split; [apply Hrows; intros p Hp; by apply Hall|].
    split; [apply Hrows; intros p Hp; by apply Hall|].
    split; [apply Hrows; intros p Hp; by apply Hall|].
    intros r c Hrc. specialize (Hsel (0, 0)). rewrite Hrc in Hsel.
    apply lookup_lt_is_Some. rewrite <- bool_decide_eq_true. apply Hsel.
    apply list_elem_of_In, elem_of_positions. lia.
  - intros (Hb & Hi & Hn & Hsel). split.
    + intros p Hp.
      rewrite (proj1 (Hrows _ _) Hb p Hp), (proj1 (Hrows _ _) Hi p Hp),
        (proj1 (Hrows _ _) Hn p Hp). done.
    + intros _ _. destruct (selected g) as [[r c]|]; [|done].
      apply bool_decide_eq_true_2, lookup_lt_is_Some. by apply (Hsel r c).
Qed.

(** X27. Saving and loading in [script.js]. When the store can be written,
    [loadSavedGame] after [saveGame] puts back the board, the solution,
    the initial grid, the notes of all cells, the difficulty, both hint
    counters, the seconds and the start date; the selection and the flags
    for notes mode, pause and completion are those the page had. The
    history and the redo stack come back with their cells and values, but
    no entry holds a set of notes any more. The answer is true exactly
    when the loaded game can be drawn: the board, the initial grid and
    the notes have their nine rows and the cell selected on the page, if
    any, is in a row of the board; otherwise [renderBoard] throws inside
    the [try] and the answer is false, the fields being assigned all the
    same. When the store cannot be written [saveGame] answers false and
    leaves it; with nothing stored [loadSavedGame] answers false and
    leaves the game. *)
Theorem saved_game_round_trip (now : String.string) (g g0 : Game)
    (store : option Data.GameData) :
  let loaded := loadSavedGame (saveGame true now g store).1 g0 in
  let g' := loaded.1 in
  (saveGame true now g store).2 = true ∧
  (loaded.2 = true ↔
   9 ≤ length (board g) ∧ 9 ≤ length (initial g) ∧ 9 ≤ length (notes g) ∧
   ∀ r c, selected g0 = Some (r, c) → r < length (board g)) ∧
  (board g' = board g ∧ solution g' = solution g ∧ initial g' = initial g ∧
   notes g' = notes g ∧ difficulty g' = difficulty g ∧
   hintsRemaining g' = hintsRemaining g ∧ hintsUsed g' = hintsUsed g ∧
   seconds g' = seconds g ∧ startedAt g' = startedAt g ∧
   lastPlayedAt g' = Some now) ∧
  (selected g' = selected g0 ∧ isNotesMode g' = isNotesMode g0 ∧
   isPaused g' = isPaused g0 ∧ isComplete g' = isComplete g0) ∧
  (moveHistory g' = jsonEntry <$> moveHistory g ∧
   redoStack g' = jsonEntry <$> redoStack g ∧
   ∀ e x, e ∈ moveHistory g' ++ redoStack g' →
          oldNotes e ≠ ASet x ∧ newNotes e ≠ ASet x) ∧
  saveGame false now g store = (store, false) ∧
  loadSavedGame None g0 = (g0, false).
Proof.
  cbv zeta.
  assert (∀ loaded : Game * bool,
            loaded = loadSavedGame (saveGame true now g store).1 g0 →
            loaded.2 = renderBoard loaded.1) as Hanswer by by intros ? ->.
  rewrite (Hanswer _ eq_refl), renderBoard_true.
  unfold saveGame, save, loadSavedGame, loadGame, gameData.
  cbn [fst snd board solution initial notes difficulty hintsRemaining
       hintsUsed seconds startedAt lastPlayedAt selected isNotesMode
       isPaused isComplete moveHistory redoStack
       Data.board Data.solution Data.initial Data.notes Data.difficulty
       Data.hintsRemaining Data.hintsUsed Data.timer Data.moveHistory
       Data.redoStack Data.startedAt Data.lastPlayedAt].
  rewrite notes_read_back.
  split; [done|]. split; [done|]. split.
  { repeat (split; [done|]).
    by destruct (Z.eqb_spec (hintsUsed g) 0) as [->|]. }
  split; [done|]. split; [|done]. split; [done|]. split; [done|].
  intros e x Hin. rewrite <- fmap_app in Hin.
  apply list_elem_of_fmap in Hin as (e0 & -> & _).
  split; apply jsonNotes_no_set.
Qed.

(** The game of a page that has just opened, saved before a game is made,
    does not load: it has no rows to draw. The sample game does. *)
Lemma saved_game_round_trip_witness :
  (loadSavedGame (saveGame true String.EmptyString blank None).1 blank).2
  = false ∧
  (loadSavedGame
     (saveGame true String.EmptyString
        (live medium 0 None None (sampleGamePwa false)) None).1 blank).2
  = true.
Proof.
  split.
  - destruct (saved_game_round_trip String.EmptyString blank blank None)
      as (_ & Hanswer & _).
    destruct (loadSavedGame _ blank).2; [|done].
    destruct (proj1 Hanswer eq_refl) as [Hrows _]. cbn in Hrows. lia.
  - destruct (saved_game_round_trip String.EmptyString
                (live medium 0 None None (sampleGamePwa false)) blank None)
      as (_ & Hanswer & _).
    apply Hanswer. by vm_compute.
Defined.

(** X28. After a game of [script.js] with a move on its history has been
    saved and loaded again, [undo] throws a [TypeError]: by then the move
    is on the redo stack and its old value is on the board, but the notes
    are as they were and the game has not been saved. *)
Theorem undo_after_reload_throws (writable : bool)
    (now later : String.string) (d : Difficulty) (t : Z)
    (started played : option String.string) (s : Pwa.GameState)
    (store : option Data.GameData) (g0 : Game) :
  Pwa.moveHistory s ≠ [] → isPaused g0 = false → isComplete g0 = false →
  ∃ move rest,
    Pwa.moveHistory s = rest ++ [move] ∧
    let saved := (saveGame true now (live d t started played s) store).1 in
    let g := (loadSavedGame saved g0).1 in
    let after := undo writable later g saved in
    after.2 = Some NotIterable ∧ after.1.2 = saved ∧
    board after.1.1
    = setCell (Pwa.board s) (Pwa.row move) (Pwa.col move) (Pwa.oldValue move) ∧
    notes after.1.1 = Pwa.notes s ∧
    length (moveHistory after.1.1) = length rest ∧
    length (redoStack after.1.1) = S (length (Pwa.redoStack s)).
Proof.
  intros Hne Hp Hc.
  destruct (Pwa.pop (Pwa.moveHistory s)) as [[move rest]|] eqn:Hpop.
  2:{ unfold Pwa.pop in Hpop.
      destruct (reverse (Pwa.moveHistory s)) eqn:Hrev; [|done].
      apply (f_equal reverse) in Hrev. rewrite reverse_involutive in Hrev.
      done. }
  pose proof (proj1 (Pwa.pop_Some _ _ _) Hpop) as Hsplit.
  exists move, rest. split; [done|]. cbv zeta.
  unfold saveGame, save, loadSavedGame, loadGame, gameData, undo.
  cbn [fst snd board solution initial notes difficulty hintsRemaining
       hintsUsed seconds startedAt lastPlayedAt selected isNotesMode
       isPaused isComplete moveHistory redoStack live
       Data.board Data.solution Data.initial Data.notes Data.difficulty
       Data.hintsRemaining Data.hintsUsed Data.timer Data.moveHistory
       Data.redoStack Data.startedAt Data.lastPlayedAt].
  rewrite Hp, Hc, !length_fmap, Hsplit, length_app, !pop_fmap.
  cbn [length]. destruct (Nat.eqb_spec (length rest + 1) 0) as [|_]; [lia|].
  cbn [orb]. rewrite (proj2 (Pwa.pop_Some _ _ _) eq_refl).
  cbn. rewrite !length_app, !length_fmap. cbn [length].
  split; [done|]. split; [done|]. split; [done|].
  split; [apply notes_read_back|]. split; [done|lia].
Qed.

Lemma undo_after_reload_throws_witness :
  Pwa.moveHistory (Pwa.inputNumber 5 (sampleGamePwa false)) ≠ [] ∧
  isPaused blank = false ∧ isComplete blank = false ∧
  ∃ move rest,
    Pwa.moveHistory (Pwa.inputNumber 5 (sampleGamePwa false))
    = rest ++ [move] ∧
    let saved :=
      (saveGame true String.EmptyString
         (live medium 0 None None (Pwa.inputNumber 5 (sampleGamePwa false)))
         None).1 in
    let g := (loadSavedGame saved blank).1 in
    let after := undo true String.EmptyString g saved in
    after.2 = Some NotIterable ∧ after.1.2 = saved ∧
    board after.1.1
    = setCell (Pwa.board (Pwa.inputNumber 5 (sampleGamePwa false)))
        (Pwa.row move) (Pwa.col move) (Pwa.oldValue move) ∧
    notes after.1.1 = Pwa.notes (Pwa.inputNumber 5 (sampleGamePwa false)) ∧
    length (moveHistory after.1.1) = length rest ∧
    length (redoStack after.1.1)
    = S (length (Pwa.redoStack (Pwa.inputNumber 5 (sampleGamePwa false)))).
Proof.
  assert (Pwa.moveHistory (Pwa.inputNumber 5 (sampleGamePwa false)) ≠ [])
    as Hne by (vm_compute; discriminate).
  split; [exact Hne|]. split; [reflexivity|]. split; [reflexivity|].
  exact (undo_after_reload_throws true String.EmptyString String.EmptyString
           medium 0 None None (Pwa.inputNumber 5 (sampleGamePwa false))
           None blank Hne eq_refl eq_refl).
Defined.

End Saved.

(** * Saving a game and loading it again (stand-alone script)

    [saveGame] and [loadGame] of the stand-alone script, under the same
    reading of JSON: the sets that [note] and [erase] actions hold come
    back as empty objects. [localStorage.setItem] is not guarded here, so
    a store that cannot be written makes [saveGame] throw. *)

Module SavedClassic.

(** A history action *)
Inductive Entry :=
  | Value (row col : nat) (oldValue newValue : Z)
  | Hint (row col : nat) (oldValue newValue : Z)
  | Note (row col : nat) (oldNotes newNotes : Saved.NotesValue)
  | Erase (row col : nat) (oldValue : Z) (oldNotes : Saved.NotesValue).

(** [GameState]; of [timer] only [seconds]. *)
Record Game := {
  board : Grid;
  solution : Grid;
  initial : Grid;
  notes : NotesGrid;
  selected : option (nat * nat);
  difficulty : Difficulty;
  hintsRemaining : Z;
  isNotesMode : bool;
  isPaused : bool;
  isComplete : bool;
  showErrors : bool;
  history : list Entry;
  historyIndex : Z;
  seconds : Z
}.

(** [saveData], as it is read back. *)
Module Data.
Record SaveData := {
  board : Grid;
  solution : Grid;
  initial : Grid;
  notes : list (list (list Z));
  difficulty : Difficulty;
  hintsRemaining : Z;
  timerSeconds : Z;
  history : list Entry;
  historyIndex : Z
}.
End Data.

(** What is thrown: a [TypeError] of the language, or the error of a
    store that cannot be written. *)
Inductive Error := TypeError | StorageError.

(** An action written as JSON and read back. *)
Definition jsonEntry (e : Entry) : Entry :=
  match e with
  | Value row col oldValue newValue => Value row col oldValue newValue
  | Hint row col oldValue newValue => Hint row col oldValue newValue
  | Note row col oldNotes newNotes =>
      Note row col (Saved.jsonNotes oldNotes) (Saved.jsonNotes newNotes)
  | Erase row col oldValue oldNotes =>
      Erase row col oldValue (Saved.jsonNotes oldNotes)
  end.

(** The [saveData] of [saveGame()], read back. *)
Definition saveData (g : Game) : Data.SaveData :=
  {| Data.board := board g;
     Data.solution := solution g;
     Data.initial := initial g;
     Data.notes :=
       (λ row : list (gset Z), (λ notes, elements notes) <$> row) <$> notes g;
     Data.difficulty := difficulty g;
     Data.hintsRemaining := hintsRemaining g;
     Data.timerSeconds := seconds g;
     Data.history := jsonEntry <$> history g;
     Data.historyIndex := historyIndex g |}.

(** [saveGame()]: the store, and the error when [setItem] throws. *)
Definition saveGame (writable : bool) (g : Game)
    (store : option Data.SaveData) : option Data.SaveData * option Error :=
  if writable then (Some (saveData g), None) else (store, Some StorageError).

(** [loadGame()]: the game and the answer. *)
Definition loadGame (store : option Data.SaveData) (g : Game) : Game * bool :=
  match store with
  | None => (g, false)
  | Some data =>
      ({| board := Data.board data;
          solution := Data.solution data;
          initial := Data.initial data;
          notes := (λ row : list (list Z),
                      (λ notes, list_to_set notes : gset Z) <$> row)
                     <$> Data.notes data;
          selected := selected g;
          difficulty := Data.difficulty data;
          hintsRemaining := Data.hintsRemaining data;
          isNotesMode := isNotesMode g;
          isPaused := isPaused g;
          isComplete := isComplete g;
          showErrors := showErrors g;
          history := Data.history data;
          historyIndex := Data.historyIndex data;
          seconds := Data.timerSeconds data |}, true)
  end.

(** Field updates. *)
Definition withCells (b : Grid) (n : NotesGrid) (g : Game) : Game :=
  {| board := b; solution := solution g; initial := initial g; notes := n;
     selected := selected g; difficulty := difficulty g;
     hintsRemaining := hintsRemaining g; isNotesMode := isNotesMode g;
     isPaused := isPaused g; isComplete := isComplete g;
     showErrors := showErrors g; history := history g;
     historyIndex := historyIndex g; seconds := seconds g |}.

Definition withIndex (i : Z) (g : Game) : Game :=
  {| board := board g; solution := solution g; initial := initial g;
     notes := notes g; selected := selected g; difficulty := difficulty g;
     hintsRemaining := hintsRemaining g; isNotesMode := isNotesMode g;
     isPaused := isPaused g; isComplete := isComplete g;
     showErrors := showErrors g; history := history g;
     historyIndex := i; seconds := seconds g |}.

(** [GameState.notes[row][col] = new Set(v)] *)
Definition assignNotes (row col : nat) (v : Saved.NotesValue) (g : Game)
    : Game * option Error :=
  match Saved.newSet v with
  | inl _ => (g, Some TypeError)
  | inr set => (withCells (board g) (setNote (notes g) row col set) g, None)
  end.

(** [applyAction(action, reverse)]: the game, and the error if it
    throws. Undoing an [erase] writes the board before it builds the
    set. *)
Definition applyAction (action : Entry) (reverse : bool) (g : Game)
    : Game * option Error :=
  match action with
  | Value row col oldValue newValue
  | Hint row col oldValue newValue =>
      (withCells (setCell (board g) row col
                    (if reverse then oldValue else newValue))
                 (notes g) g, None)
  | Note row col oldNotes newNotes =>
      assignNotes row col (if reverse then oldNotes else newNotes) g
  | Erase row col oldValue oldNotes =>
      if reverse then
        assignNotes row col oldNotes
          (withCells (setCell (board g) row col oldValue) (notes g) g)
      else
        (withCells (setCell (board g) row col 0)
                   (setNote (notes g) row col ∅) g, None)
  end.

(** [undo()], with the storage and with what it throws. With no action
    under the cursor [applyAction] is called on [undefined] and throws on
    its first line. *)
Definition undo (writable : bool) (g : Game) (store : option Data.SaveData)
    : Game * option Data.SaveData * option Error :=
  if (historyIndex g <? 0)%Z || isPaused g || isComplete g
  then (g, store, None)
  else
    let g1 := withIndex (historyIndex g - 1) g in
    match history g !! Z.to_nat (historyIndex g) with
    | None => (g1, store, Some TypeError)
    | Some action =>
        match applyAction action true g1 with
        | (g2, Some error) => (g2, store, Some error)
        | (g2, None) =>
            (g2, (saveGame writable g2 store).1, (saveGame writable g2 store).2)
        end
    end.

(** ** The games of the controller *)
Definition liveEntry (e : Classic.Entry) : Entry :=
  match e with
  | Classic.Value row col oldValue newValue =>
      Value row col oldValue newValue
  | Classic.Hint row col oldValue newValue => Hint row col oldValue newValue
  | Classic.Note row col oldNotes newNotes =>
      Note row col (Saved.ASet oldNotes) (Saved.ASet newNotes)
  | Classic.Erase row col oldValue oldNotes =>
      Erase row col oldValue (Saved.ASet oldNotes)
  end.

Definition live (d : Difficulty) (t : Z) (errors : bool)
    (s : Classic.GameState) : Game :=
  {| board := Classic.board s; solution := Classic.solution s;
     initial := Classic.initial s; notes := Classic.notes s;
     selected := Classic.selected s; difficulty := d;
     hintsRemaining := Classic.hintsRemaining s;
     isNotesMode := Classic.isNotesMode s; isPaused := Classic.isPaused s;
     isComplete := Classic.isComplete s; showErrors := errors;
     history := liveEntry <$> Classic.history s;
     historyIndex := Classic.historyIndex s; seconds := t |}.

(** [GameState] when the page opens. *)
Definition blank : Game :=
  {| board := []; solution := []; initial := []; notes := [];
     selected := None; difficulty := medium; hintsRemaining := 3;
     isNotesMode := false; isPaused := false; isComplete := false;
     showErrors := true; history := []; historyIndex := -1; seconds := 0 |}.

(** On a game of the controller with an action under the cursor, [undo]
    does what [Classic.undo] does; it throws only when the store cannot
    be written. *)
Lemma undo_live_classic writable d t errors s store :
  is_Some (Classic.history s !! Z.to_nat (Classic.historyIndex s)) →
  (undo writable (live d t errors s) store).1.1
  = live d t errors (Classic.undo s) ∧
  ((undo writable (live d t errors s) store).2 = Some TypeError → False).
Proof.
  intros [action Ha]. unfold undo, Classic.undo.
  cbn [live historyIndex isPaused isComplete history].
  destruct (_ || _); [done|].
  rewrite list_lookup_fmap, Ha. cbn [fmap option_fmap option_map].
  destruct action as [r c o n|r c o n|r c o n|r c o n];
    cbn; unfold saveGame; by destruct writable.
Qed.

(** X29. Saving and loading in the stand-alone script. When the store can
    be written, [loadGame] after [saveGame] answers true and gives back
    the board, the solution, the initial grid, the notes of the 81 cells,
    the difficulty, the hints that remain, the seconds and the history
    cursor; the selection and the flags are those the page had. The
    history comes back with its cells and values, but its [note] and
    [erase] actions hold no set of notes any more. When the store cannot
    be written [saveGame] throws and leaves it; with nothing stored
    [loadGame] answers false and leaves the game. *)
Theorem saved_game_round_trip_classic (g g0 : Game)
    (store : option Data.SaveData) :
  let g' := (loadGame (saveGame true g store).1 g0).1 in
  (saveGame true g store).2 = None ∧
  (loadGame (saveGame true g store).1 g0).2 = true ∧
  (board g' = board g ∧ solution g' = solution g ∧ initial g' = initial g ∧
   notes g' = notes g ∧ difficulty g' = difficulty g ∧
   hintsRemaining g' = hintsRemaining g ∧ seconds g' = seconds g ∧
   historyIndex g' = historyIndex g) ∧
  (selected g' = selected g0 ∧ isNotesMode g' = isNotesMode g0 ∧
   isPaused g' = isPaused g0 ∧ isComplete g' = isComplete g0 ∧
   showErrors g' = showErrors g0) ∧
  (history g' = jsonEntry <$> history g ∧
   ∀ e x, e ∈ history g' →
     match e with
     | Value _ _ _ _ | Hint _ _ _ _ => True
     | Note _ _ oldNotes newNotes =>
         oldNotes ≠ Saved.ASet x ∧ newNotes ≠ Saved.ASet x
     | Erase _ _ _ oldNotes => oldNotes ≠ Saved.ASet x
     end) ∧
  saveGame false g store = (store, Some StorageError) ∧
  loadGame None g0 = (g0, false).
Proof.
  cbv zeta. unfold saveGame, loadGame, saveData.
  cbn [fst snd board solution initial notes difficulty hintsRemaining
       seconds selected isNotesMode isPaused isComplete showErrors
       history historyIndex
       Data.board Data.solution Data.initial Data.notes Data.difficulty
       Data.hintsRemaining Data.timerSeconds Data.history
       Data.historyIndex].
  split; [done|]. split; [done|]. split.
  { repeat (split; [done|]). split; [apply Saved.notes_read_back|done]. }
  split; [done|]. split; [|done]. split; [done|].
  intros e x Hin. apply list_elem_of_fmap in Hin as (e0 & -> & _).
  destruct e0; cbn; try done; try split; apply Saved.jsonNotes_no_set.
Qed.



End SavedClassic.
